(** * Normalisation of context-free grammars: a shallow embedding

    The program [lab7_cfg_epsilon_removal.py] rewrites a context-free grammar
    in four stages: removal of epsilon productions, removal of unit
    productions, removal of useless symbols and conversion to Chomsky normal
    form.  This file embeds the four stages and the fixed points they rest
    on, and settles the properties stated about them.

    Conventions of the embedding.
    - A Python [str] is the list of its code points.
    - A Python [set] is a duplicate-free list, in the order in which the set
      is iterated; an element added to a set goes to the end.
    - A Python [dict] is an association list in insertion order.
    - A [while] loop is a recursion on a fuel counter; running out of fuel is
      the error [FuelExhausted], a missing dictionary key is [KeyError].
    - The module [Store] gives the same functions once more, on a store of
      mutable objects: there a set or a dictionary is an address, and a
      dictionary of sets holds the addresses of its sets.  It is what the
      statements about the input not being changed are about.
    - The list of explanatory strings every stage returns next to the grammar
      is left out, and so is the start symbol it hands back unchanged. *)

From Stdlib Require Import List Bool Arith NArith Lia Permutation.
From Stdlib Require Import DecimalNat.
Import ListNotations.

(** ** Strings and characters *)

Definition char := N.
Definition str := list char.

Definition str_eqb (a b : str) : bool :=
  if list_eq_dec N.eq_dec a b then true else false.

(** The empty-production marker, the one-character string U+03B5. *)
Definition EPS : str := [949%N].

(** [str.islower], [str.isdigit], [str.isupper] and [str.upper] on one
    character, for the code points the parser lets through
    ([VALID_BODY_CHARS] and [EPS_SYMBOLS]) and their upper-case forms. *)
Definition islower (ch : char) : bool :=
  ((97 <=? ch) && (ch <=? 122) || (ch =? 949) || (ch =? 1013))%N.

Definition isdigit (ch : char) : bool := ((48 <=? ch) && (ch <=? 57))%N.

Definition isupper (ch : char) : bool :=
  ((65 <=? ch) && (ch <=? 90) || (ch =? 917))%N.

Definition upper (ch : char) : str :=
  if ((97 <=? ch) && (ch <=? 122))%N then [(ch - 32)%N]
  else if ((ch =? 949) || (ch =? 1013))%N then [917%N]
  else [ch].

Definition is_terminal (ch : char) : bool := islower ch || isdigit ch.

Definition is_nonterminal (ch : char) : bool := isupper ch.

(** [len(b) == 1 and is_nonterminal(b)] *)
Definition is_unit_body (b : str) : bool :=
  match b with
  | [ch] => is_nonterminal ch
  | _ => false
  end.

(** ** Errors *)

Inductive error : Type :=
| KeyError (k : str)
| FuelExhausted
| BadObject (a : nat).

Inductive result (A : Type) : Type :=
| Ok (a : A)
| Err (e : error).

Arguments Ok {A} a.
Arguments Err {A} e.

Definition bind {A B : Type} (m : result A) (k : A -> result B) : result B :=
  match m with
  | Ok a => k a
  | Err e => Err e
  end.

Notation "x <- m ;; k" := (bind m (fun x => k))
  (at level 61, m at next level, right associativity).
Notation "' p <- m ;; k" := (bind m (fun p => k))
  (at level 61, p pattern, m at next level, right associativity).

Fixpoint foldM {A S : Type} (f : S -> A -> result S) (l : list A) (s : S)
  : result S :=
  match l with
  | [] => Ok s
  | a :: rest => s' <- f s a ;; foldM f rest s'
  end.

(** ** Sets and dictionaries *)

Definition mem (x : str) (s : list str) : bool := existsb (str_eqb x) s.

(** [s.add(x)] *)
Definition set_add (x : str) (s : list str) : list str :=
  if mem x s then s else s ++ [x].

(** [s.update(t)], also [s |= t] *)
Definition set_update (s t : list str) : list str :=
  fold_left (fun acc x => set_add x acc) t s.

(** [s.discard(x)] *)
Definition set_discard (x : str) (s : list str) : list str :=
  filter (fun y => negb (str_eqb x y)) s.

Definition dict (V : Type) := list (str * V).

Definition Productions := dict (list str).

Definition keys {V : Type} (d : dict V) : list str := map fst d.

(** [d.get(k)] *)
Fixpoint lookup {V : Type} (k : str) (d : dict V) : option V :=
  match d with
  | [] => None
  | (k', v) :: rest => if str_eqb k k' then Some v else lookup k rest
  end.

(** [d.get(k, set())] *)
Definition get_or_empty (k : str) (d : Productions) : list str :=
  match lookup k d with
  | Some v => v
  | None => []
  end.

(** [d[k]] *)
Definition getitem {V : Type} (k : str) (d : dict V) : result V :=
  match lookup k d with
  | Some v => Ok v
  | None => Err (KeyError k)
  end.

(** [d[k] = v]: in place when the key is there, at the end otherwise. *)
Fixpoint setitem {V : Type} (k : str) (v : V) (d : dict V) : dict V :=
  match d with
  | [] => [(k, v)]
  | (k', v') :: rest =>
      if str_eqb k k' then (k', v) :: rest else (k', v') :: setitem k v rest
  end.

(** [d[k].add(x)] *)
Definition add_to (k x : str) (d : Productions) : result Productions :=
  s <- getitem k d ;; Ok (setitem k (set_add x s) d).

(** [d.setdefault(k, set()).add(x)] *)
Definition setdefault_add (k x : str) (d : Productions) : Productions :=
  setitem k (set_add x (get_or_empty k d)) d.

(** [{A: set() for A in ks}] *)
Definition empty_sets (ks : list str) : Productions :=
  fold_left (fun d A => setitem A [] d) ks [].

(** ** Nullable nonterminals *)

(** The innermost loop of [find_nullable]: the flag [ok] after the
    characters of the body [b] have been looked at. *)
Definition nullable_ok (nullable : list str) (b : str) : bool :=
  forallb (fun ch =>
             negb (is_terminal ch)
             && negb (is_nonterminal ch && negb (mem [ch] nullable))) b.

(** Whether the loop over the bodies of one nonterminal adds it. *)
Definition nullable_hit (nullable : list str) (bodies : list str) : bool :=
  existsb (fun b => str_eqb b EPS || nullable_ok nullable b) bodies.

(** One pass of the [for] loop over [prods.items()] inside the [while]. *)
Fixpoint nullable_pass (items : Productions) (nullable : list str)
  (changed : bool) : list str * bool :=
  match items with
  | [] => (nullable, changed)
  | (A, bodies) :: rest =>
      if mem A nullable then nullable_pass rest nullable changed
      else if nullable_hit nullable bodies
           then nullable_pass rest (set_add A nullable) true
           else nullable_pass rest nullable changed
  end.

Fixpoint nullable_loop (fuel : nat) (prods : Productions)
  (nullable : list str) : result (list str) :=
  match fuel with
  | O => Err FuelExhausted
  | S fuel' =>
      let '(nullable', changed) := nullable_pass prods nullable false in
      if changed then nullable_loop fuel' prods nullable' else Ok nullable'
  end.

(** The first loop: the nonterminals with an explicit epsilon body. *)
Definition nullable_seed (prods : Productions) : list str :=
  fold_left (fun nullable '(A, bodies) =>
               if mem EPS bodies then set_add A nullable else nullable)
            prods [].

Definition find_nullable (start : str) (prods : Productions)
  : result (list str) :=
  nullable_loop (S (length prods)) prods (nullable_seed prods).

(** ** Elimination of epsilon productions *)

(** [positions.index(i)] where it is defined. *)
Fixpoint index_of (i : nat) (l : list nat) : option nat :=
  match l with
  | [] => None
  | j :: rest =>
      if Nat.eqb i j then Some O
      else match index_of i rest with
           | Some n => Some (S n)
           | None => None
           end
  end.

(** [[i for i, ch in enumerate(b) if is_nonterminal(ch) and ch in nullable]],
    with [i] the index of the first character of [b]. *)
Fixpoint positions_from (i : nat) (b : str) (nullable : list str)
  : list nat :=
  match b with
  | [] => []
  | ch :: rest =>
      if is_nonterminal ch && mem [ch] nullable
      then i :: positions_from (S i) rest nullable
      else positions_from (S i) rest nullable
  end.

(** The string [candidate] built for one [mask]. *)
Fixpoint candidate_from (i : nat) (b : str) (positions : list nat) (mask : N)
  : str :=
  match b with
  | [] => []
  | ch :: rest =>
      let tail := candidate_from (S i) rest positions mask in
      match index_of i positions with
      | Some pos_idx =>
          if N.testbit mask (N.of_nat pos_idx) then tail else ch :: tail
      | None => ch :: tail
      end
  end.

(** [range(1 << m)] *)
Definition masks (m : nat) : list N := map N.of_nat (seq 0 (2 ^ m)).

(** The set [generated] of one body [b] of the nonterminal [A]. *)
Definition generated_of (start A : str) (keep_start_epsilon : bool)
  (nullable : list str) (b : str) : list str :=
  let positions := positions_from 0 b nullable in
  fold_left
    (fun generated mask =>
       let candidate := candidate_from 0 b positions mask in
       match candidate with
       | [] => if str_eqb A start && keep_start_epsilon
               then set_add EPS generated else generated
       | _ => set_add candidate generated
       end)
    (masks (length positions)) [].

Definition eliminate_epsilon (start : str) (prods : Productions)
  (keep_start_epsilon : bool) : result Productions :=
  nullable <- find_nullable start prods ;;
  new_prods <-
    foldM (fun new_prods '(A, bodies) =>
             foldM (fun new_prods b =>
                      if str_eqb b EPS then Ok new_prods
                      else
                        let generated :=
                          generated_of start A keep_start_epsilon nullable b in
                        s <- getitem A new_prods ;;
                        Ok (setitem A
                              (set_update s
                                 (match generated with
                                  | [] => [b]
                                  | _ => generated
                                  end))
                              new_prods))
                   bodies new_prods)
          prods (empty_sets (keys prods)) ;;
  new_prods <-
    (if keep_start_epsilon && mem start nullable
     then add_to start EPS new_prods
     else Ok new_prods) ;;
  foldM (fun new_prods A =>
           if str_eqb A start then Ok new_prods
           else s <- getitem A new_prods ;;
                Ok (setitem A (set_discard EPS s) new_prods))
        (keys new_prods) new_prods.

(** ** Elimination of unit productions *)

(** The loop over the bodies of [A] inside the [while]: every unit body not
    yet in [unit[A]] is added and [changed] is set. *)
Definition unit_direct (A : str) (bodies : list str)
  (st : dict (list str) * bool) : result (dict (list str) * bool) :=
  foldM (fun '(unit, changed) b =>
           if is_unit_body b then
             uA <- getitem A unit ;;
             if mem b uA then Ok (unit, changed)
             else Ok (setitem A (set_add b uA) unit, true)
           else Ok (unit, changed))
        bodies st.

(** [for B in list(unit[A]): unit[A] |= unit.get(B, set())] *)
Definition unit_union (A : str) (unit : dict (list str))
  : result (dict (list str)) :=
  snapshot <- getitem A unit ;;
  foldM (fun unit B =>
           uA <- getitem A unit ;;
           Ok (setitem A (set_update uA (get_or_empty B unit)) unit))
        snapshot unit.

(** One pass of [for A in nts] inside the [while]. *)
Definition unit_pass (prods : Productions) (nts : list str)
  (unit : dict (list str)) : result (dict (list str) * bool) :=
  foldM (fun '(unit, changed) A =>
           '(unit, changed) <-
             unit_direct A (get_or_empty A prods) (unit, changed) ;;
           unit <- unit_union A unit ;;
           Ok (unit, changed))
        nts (unit, false).

Fixpoint unit_loop (fuel : nat) (prods : Productions) (nts : list str)
  (unit : dict (list str)) : result (dict (list str)) :=
  match fuel with
  | O => Err FuelExhausted
  | S fuel' =>
      '(unit, changed) <- unit_pass prods nts unit ;;
      if changed then unit_loop fuel' prods nts unit else Ok unit
  end.

(** [{A: set([A]) for A in nts}] *)
Definition unit_init (nts : list str) : dict (list str) :=
  fold_left (fun d A => setitem A [A] d) nts [].

(** The dictionary [unit] when the [while] loop is left. *)
Definition unit_closure (prods : Productions) : result (dict (list str)) :=
  unit_loop (S (length (concat (map snd prods)))) prods (keys prods)
            (unit_init (keys prods)).

Definition eliminate_unit_productions (start : str) (prods : Productions)
  : result Productions :=
  let nts := keys prods in
  unit <- unit_closure prods ;;
  foldM (fun new_prods A =>
           uA <- getitem A unit ;;
           foldM (fun new_prods B =>
                    foldM (fun new_prods body =>
                             if is_unit_body body then Ok new_prods
                             else add_to A body new_prods)
                          (get_or_empty B prods) new_prods)
                 uA new_prods)
        nts (empty_sets nts).

(** ** Generating and reachable nonterminals *)

(** The flag [ok] of [generating_nonterminals] for the body [b]. *)
Definition gen_ok (gen : list str) (b : str) : bool :=
  forallb (fun ch =>
             is_terminal ch
             || negb (is_nonterminal ch && negb (mem [ch] gen))) b.

Fixpoint gen_pass (items : Productions) (gen : list str) (changed : bool)
  : list str * bool :=
  match items with
  | [] => (gen, changed)
  | (A, bodies) :: rest =>
      if mem A gen then gen_pass rest gen changed
      else if existsb (gen_ok gen) bodies
           then gen_pass rest (set_add A gen) true
           else gen_pass rest gen changed
  end.

Fixpoint gen_loop (fuel : nat) (prods : Productions) (gen : list str)
  : result (list str) :=
  match fuel with
  | O => Err FuelExhausted
  | S fuel' =>
      let '(gen', changed) := gen_pass prods gen false in
      if changed then gen_loop fuel' prods gen' else Ok gen'
  end.

Definition generating_nonterminals (prods : Productions)
  : result (list str) :=
  gen_loop (S (length prods)) prods [].

(** The loop over the characters of one body in [reachable_nonterminals]. *)
Definition reach_body (b : str) (st : list str * bool) : list str * bool :=
  fold_left (fun '(reach, changed) ch =>
               if is_nonterminal ch && negb (mem [ch] reach)
               then (set_add [ch] reach, true)
               else (reach, changed))
            b st.

(** One pass of [for A in list(reach)] inside the [while]. *)
Definition reach_pass (prods : Productions) (reach : list str)
  : list str * bool :=
  fold_left (fun st A => fold_left (fun st b => reach_body b st)
                                   (get_or_empty A prods) st)
            reach (reach, false).

Fixpoint reach_loop (fuel : nat) (prods : Productions) (reach : list str)
  : result (list str) :=
  match fuel with
  | O => Err FuelExhausted
  | S fuel' =>
      let '(reach', changed) := reach_pass prods reach in
      if changed then reach_loop fuel' prods reach' else Ok reach'
  end.

Definition reachable_nonterminals (start : str) (prods : Productions)
  : result (list str) :=
  reach_loop (S (length (concat (concat (map snd prods))))) prods [start].

(** ** Removal of useless symbols *)

(** The dictionary [prods_gen]. *)
Definition prods_gen_of (gen : list str) (prods : Productions)
  : Productions :=
  fold_left (fun prods_gen '(A, bodies) =>
               if mem A gen then
                 setitem A
                   (fold_left
                      (fun kept b =>
                         if forallb (fun ch => is_terminal ch || mem [ch] gen) b
                         then set_add b kept else kept)
                      bodies [])
                   prods_gen
               else prods_gen)
            prods [].

Definition remove_useless_symbols (start : str) (prods : Productions)
  : result Productions :=
  gen <- generating_nonterminals prods ;;
  let prods_gen := prods_gen_of gen prods in
  reach <- reachable_nonterminals start prods_gen ;;
  let prods_final :=
    fold_left (fun prods_final '(A, bodies) =>
                 if mem A reach then setitem A bodies prods_final
                 else prods_final)
              prods_gen [] in
  Ok (match lookup start prods_final with
      | Some _ => prods_final
      | None => setitem start [] prods_final
      end).

(** ** Fresh names *)

Fixpoint uint_codes (d : Decimal.uint) : str :=
  match d with
  | Decimal.Nil => []
  | Decimal.D0 d => 48%N :: uint_codes d
  | Decimal.D1 d => 49%N :: uint_codes d
  | Decimal.D2 d => 50%N :: uint_codes d
  | Decimal.D3 d => 51%N :: uint_codes d
  | Decimal.D4 d => 52%N :: uint_codes d
  | Decimal.D5 d => 53%N :: uint_codes d
  | Decimal.D6 d => 54%N :: uint_codes d
  | Decimal.D7 d => 55%N :: uint_codes d
  | Decimal.D8 d => 56%N :: uint_codes d
  | Decimal.D9 d => 57%N :: uint_codes d
  end.

(** [str(i)], the decimal numeral of [i]. *)
Definition str_of_nat (i : nat) : str := uint_codes (Nat.to_uint i).

(** The [while True] loop of [fresh_var], from the counter [i] on; the
    result is the name together with the set [used] after [used.add]. *)
Fixpoint fresh_var_from (fuel : nat) (used : list str) (base : str) (i : nat)
  : result (str * list str) :=
  match fuel with
  | O => Err FuelExhausted
  | S fuel' =>
      let cand := base ++ str_of_nat i in
      if mem cand used then fresh_var_from fuel' used base (S i)
      else Ok (cand, set_add cand used)
  end.

Definition fresh_var (used : list str) (base : str)
  : result (str * list str) :=
  fresh_var_from (S (length used)) used base 1.

(** ** Conversion to Chomsky normal form *)

(** [candidate.isupper()], only evaluated when [len(candidate) == 1]. *)
Definition str_isupper (s : str) : bool :=
  match s with
  | [ch] => isupper ch
  | _ => false
  end.

(** The loop over the characters of a body of length at least two: the
    state is [used], [term_var] and the list [new_body]. *)
Definition lift_body (b : str) (used : list str) (term_var : dict str)
  : result (list str * dict str * list str) :=
  foldM (fun '(used, term_var, new_body) ch =>
           if is_terminal ch then
             '(used, term_var) <-
               match lookup [ch] term_var with
               | Some _ => Ok (used, term_var)
               | None =>
                   let candidate := upper ch in
                   '(candidate, used) <-
                     (if mem candidate used
                         || negb (length candidate =? 1)
                         || negb (str_isupper candidate)
                      then fresh_var used (84%N :: [ch])
                      else Ok (candidate, used)) ;;
                   Ok (set_add candidate used, setitem [ch] candidate term_var)
               end ;;
             Va <- getitem [ch] term_var ;;
             Ok (used, term_var, new_body ++ [Va])
           else Ok (used, term_var, new_body ++ [[ch]]))
        b (used, term_var, []).

(** The first pass, up to the point where the lifted terminals get their
    own rules. *)
Definition lift_terminals (start : str) (prods : Productions)
  : result (list str * dict str * Productions) :=
  foldM (fun st '(A, bodies) =>
           foldM (fun '(used, term_var, cnf1) b =>
                    if str_eqb b EPS && negb (str_eqb A start)
                    then Ok (used, term_var, cnf1)
                    else if 2 <=? length b then
                      '(used, term_var, new_body) <-
                        lift_body b used term_var ;;
                      cnf1 <- add_to A (concat new_body) cnf1 ;;
                      Ok (used, term_var, cnf1)
                    else
                      cnf1 <- add_to A b cnf1 ;;
                      Ok (used, term_var, cnf1))
                 bodies st)
        prods (keys prods, [], empty_sets (keys prods)).

(** The chain of binary rules for a body of more than two characters. *)
Fixpoint binarize (symbols : str) (prev_left : str) (used : list str)
  (cnf2 : Productions) : result (list str * Productions) :=
  match symbols with
  | X :: ((_ :: _ :: _) as rest) =>
      '(Y, used) <- fresh_var used [89%N] ;;
      binarize rest Y used (setdefault_add prev_left (X :: Y) cnf2)
  | [X1; X2] => Ok (used, setdefault_add prev_left [X1; X2] cnf2)
  | _ => Ok (used, cnf2)
  end.

Definition to_cnf (start : str) (prods : Productions) : result Productions :=
  '(_, term_var, cnf1) <- lift_terminals start prods ;;
  let cnf1 :=
    fold_left (fun cnf1 '(a, Va) => setdefault_add Va a cnf1) term_var cnf1 in
  '(_, cnf2) <-
    foldM (fun st '(A, bodies) =>
             foldM (fun '(used, cnf2) b =>
                      if str_eqb b EPS && str_eqb A start then
                        cnf2 <- add_to A EPS cnf2 ;; Ok (used, cnf2)
                      else if length b <=? 2 then
                        cnf2 <- add_to A b cnf2 ;; Ok (used, cnf2)
                      else binarize b A used cnf2)
                   bodies st)
          cnf1 (keys cnf1, empty_sets (keys cnf1)) ;;
  Ok cnf2.

(** ** The pipeline of [main] *)

Definition pipeline (start : str) (prods : Productions)
  (keep_start_epsilon : bool) : result Productions :=
  G1 <- eliminate_epsilon start prods keep_start_epsilon ;;
  G2a <- eliminate_unit_productions start G1 ;;
  G2b <- remove_useless_symbols start G2a ;;
  to_cnf start G2b.

(** ** Well-formed grammars and derivations *)

(** Membership in [VALID_BODY_CHARS]. *)
Definition valid_body_char (ch : char) : bool :=
  ((97 <=? ch) && (ch <=? 122) || (48 <=? ch) && (ch <=? 57)
   || (65 <=? ch) && (ch <=? 90))%N.

(** A body as [parse_grammar_file] stores it: the marker, or a non-empty
    string over [VALID_BODY_CHARS]. *)
Definition wf_body (b : str) : bool :=
  str_eqb b EPS
  || (match b with [] => false | _ => true end) && forallb valid_body_char b.

(** A left-hand side as the regular expression of the parser allows it. *)
Definition wf_key (A : str) : bool :=
  match A with
  | [ch] => ((65 <=? ch) && (ch <=? 90))%N
  | _ => false
  end.

Fixpoint nodupb (l : list str) : bool :=
  match l with
  | [] => true
  | x :: rest => negb (mem x rest) && nodupb rest
  end.

(** The grammars [parse_grammar_file] returns: a dictionary (no key twice)
    from single upper-case letters to sets of well-formed bodies. *)
Definition wf_grammar (G : Productions) : bool :=
  nodupb (keys G)
  && forallb (fun '(A, bodies) =>
                wf_key A && nodupb bodies && forallb wf_body bodies) G.

(** What a body stands for as a string of symbols. *)
Definition rhs (b : str) : str := if str_eqb b EPS then [] else b.

(** [derives G alpha w]: the string of symbols [alpha] derives the string of
    terminals [w] with the productions of [G] (one derivation tree for every
    nonterminal of [alpha]).  It is the same as rewriting [alpha] into the
    word [w] step by step, see [derives_iff_rewrites]. *)
Inductive derives (G : Productions) : str -> str -> Prop :=
| derives_nil : derives G [] []
| derives_terminal : forall ch alpha w,
    is_terminal ch = true ->
    derives G alpha w ->
    derives G (ch :: alpha) (ch :: w)
| derives_nonterminal : forall ch bodies b alpha u w,
    is_nonterminal ch = true ->
    In ([ch], bodies) G ->
    In b bodies ->
    derives G (rhs b) u ->
    derives G alpha w ->
    derives G (ch :: alpha) (u ++ w).

(** One rewriting step: a nonterminal of the string is replaced by one
    of its bodies. *)
Inductive rewrites (G : Productions) : str -> str -> Prop :=
| rewrites_at : forall alpha ch bodies b beta,
    is_nonterminal ch = true ->
    In ([ch], bodies) G ->
    In b bodies ->
    rewrites G (alpha ++ ch :: beta) (alpha ++ rhs b ++ beta).

(** Zero or more rewriting steps. *)
Inductive rewrites_star (G : Productions) : str -> str -> Prop :=
| rewrites_done : forall alpha, rewrites_star G alpha alpha
| rewrites_more : forall alpha beta gamma,
    rewrites G alpha beta -> rewrites_star G beta gamma ->
    rewrites_star G alpha gamma.

(** A string of terminals. *)
Definition is_word (w : str) : bool := forallb is_terminal w.

(** ** The shape the two growing loops share

    [find_nullable] and [generating_nonterminals] run the same loop, with a
    different test [hit] on the bodies of a nonterminal not yet in the set. *)

Fixpoint grow_pass (hit : list str -> list str -> bool) (items : Productions)
  (set : list str) (changed : bool) : list str * bool :=
  match items with
  | [] => (set, changed)
  | (A, bodies) :: rest =>
      if mem A set then grow_pass hit rest set changed
      else if hit set bodies
           then grow_pass hit rest (set_add A set) true
           else grow_pass hit rest set changed
  end.

Fixpoint grow_loop (hit : list str -> list str -> bool) (fuel : nat)
  (prods : Productions) (set : list str) : result (list str) :=
  match fuel with
  | O => Err FuelExhausted
  | S fuel' =>
      let '(set', changed) := grow_pass hit prods set false in
      if changed then grow_loop hit fuel' prods set' else Ok set'
  end.

(** The number of entries whose key is not in the set yet. *)
Definition missing (prods : Productions) (set : list str) : nat :=
  length (filter (fun '(A, _) => negb (mem A set)) prods).

(** ** Reachability *)

(** [reachable G start A]: the nonterminal [A] is the start symbol or occurs
    in a body of a nonterminal that is reachable. *)
Inductive reachable (G : Productions) (start : str) : str -> Prop :=
| reachable_start : reachable G start start
| reachable_step : forall A bodies b ch,
    reachable G start A ->
    In (A, bodies) G ->
    In b bodies ->
    In ch b ->
    is_nonterminal ch = true ->
    reachable G start [ch].

(** ** Sample grammars *)

(** [S -> AB | eps], [A -> aA | eps], [B -> bB | eps] *)
Definition grammar_ab : Productions :=
  [ ([83%N], [[65%N; 66%N]; EPS]);
    ([65%N], [[97%N; 65%N]; EPS]);
    ([66%N], [[98%N; 66%N]; EPS]) ].

(** [S -> S] *)
Definition grammar_loop : Productions := [ ([83%N], [[83%N]]) ].

(** [A -> B], [B -> C], [C -> D], [D -> d] *)
Definition grammar_chain : Productions :=
  [ ([65%N], [[66%N]]); ([66%N], [[67%N]]);
    ([67%N], [[68%N]]); ([68%N], [[100%N]]) ].

(** [A -> aA | a] *)
Definition grammar_a : Productions := [ ([65%N], [[97%N; 65%N]; [97%N]]) ].

(** [S -> SSS | a] *)
Definition grammar_sss : Productions :=
  [ ([83%N], [[83%N; 83%N; 83%N]; [97%N]]) ].

(** [A -> aA | a], next to a start symbol [S] without bodies. *)
Definition grammar_empty_start : Productions :=
  [ ([83%N], []); ([65%N], [[97%N; 65%N]; [97%N]]) ].

(** [S -> AB], [A -> eps | a], [B -> A] *)
Definition grammar_nullable_chain : Productions :=
  [ ([83%N], [[65%N; 66%N]]);
    ([65%N], [EPS; [97%N]]);
    ([66%N], [[65%N]]) ].

(** [S -> aSb | SS | eps | C], [C -> c], [D -> Dd] *)
Definition grammar_mixed : Productions :=
  [ ([83%N], [[97%N; 83%N; 98%N]; [83%N; 83%N]; EPS; [67%N]]);
    ([67%N], [[99%N]]);
    ([68%N], [[68%N; 100%N]]) ].

(** ** The shape of Chomsky normal form *)

(** A body of [A] in the grammar [G] is in normal form when it is one
    terminal, or two nonterminals, be it two upper-case characters or the
    names of two nonterminals of [G] one after the other, or the marker at
    the start symbol. *)
Definition is_cnf_body (G : Productions) (start A b : str) : bool :=
  match b with
  | [ch] => is_terminal ch && negb (str_eqb b EPS)
  | [c1; c2] => is_nonterminal c1 && is_nonterminal c2
  | _ => false
  end
  || existsb (fun X => existsb (fun Y => str_eqb b (X ++ Y)) (keys G)) (keys G)
  || str_eqb b EPS && str_eqb A start.

Definition is_cnf (G : Productions) (start : str) : bool :=
  forallb (fun '(A, bodies) => forallb (is_cnf_body G start A) bodies) G.

(** ** Unit closure, as the specification words it *)

(** [unit_derives G A B]: [A] derives [B] by a chain of zero or more unit
    productions. *)
Inductive unit_derives (G : Productions) : str -> str -> Prop :=
| unit_derives_refl : forall A, unit_derives G A A
| unit_derives_step : forall A B bodies C,
    unit_derives G A B ->
    In (B, bodies) G ->
    In C bodies ->
    is_unit_body C = true ->
    unit_derives G A C.

(** [body] is a non-unit body of some [B] that [A] derives by unit
    productions. *)
Definition unit_closure_body (G : Productions) (A body : str) : Prop :=
  exists B bodies,
    unit_derives G A B /\ In (B, bodies) G /\ In body bodies /\
    is_unit_body body = false.

(** ** The stages on a store of mutable objects *)

Module Store.

(** The mutable objects of the program: sets of strings, dictionaries from
    strings to sets (held by address), and the dictionary [term_var] from
    strings to strings. *)
Inductive obj : Type :=
| OSet (s : list str)
| ODict (d : dict nat)
| OMap (m : dict str).

(** The store: the object at address [a] is the [a]-th of the list. *)
Definition heap := list obj.

Definition M (A : Type) : Type := heap -> result (A * heap).

Definition ret {A : Type} (a : A) : M A := fun h => Ok (a, h).

Definition fail {A : Type} (e : error) : M A := fun _ => Err e.

Definition bindH {A B : Type} (m : M A) (k : A -> M B) : M B :=
  fun h => match m h with
           | Ok (a, h') => k a h'
           | Err e => Err e
           end.

Notation "x <~ m ;; k" := (bindH m (fun x => k))
  (at level 61, m at next level, right associativity).
Notation "m ;;; k" := (bindH m (fun _ => k))
  (at level 61, right associativity).

Fixpoint foldH {A S : Type} (f : S -> A -> M S) (l : list A) (s : S) : M S :=
  match l with
  | [] => ret s
  | a :: rest => s' <~ f s a ;; foldH f rest s'
  end.

(** A new object. *)
Definition alloc (o : obj) : M nat := fun h => Ok (length h, h ++ [o]).

Definition load (a : nat) : M obj :=
  fun h => match nth_error h a with
           | Some o => Ok (o, h)
           | None => Err (BadObject a)
           end.

Fixpoint update (a : nat) (o : obj) (h : heap) : heap :=
  match h, a with
  | [], _ => []
  | _ :: rest, O => o :: rest
  | o' :: rest, S a' => o' :: update a' o rest
  end.

Definition store (a : nat) (o : obj) : M unit :=
  fun h => if a <? length h then Ok (tt, update a o h)
           else Err (BadObject a).

Definition read_set (a : nat) : M (list str) :=
  o <~ load a ;;
  match o with
  | OSet s => ret s
  | _ => fail (BadObject a)
  end.

Definition read_dict (a : nat) : M (dict nat) :=
  o <~ load a ;;
  match o with
  | ODict d => ret d
  | _ => fail (BadObject a)
  end.

Definition read_map (a : nat) : M (dict str) :=
  o <~ load a ;;
  match o with
  | OMap m => ret m
  | _ => fail (BadObject a)
  end.

(** [s.add(x)], [s.update(t)], [s |= t] and [s.discard(x)] on the set at
    an address. *)
Definition set_add_at (a : nat) (x : str) : M unit :=
  s <~ read_set a ;; store a (OSet (set_add x s)).

Definition set_update_at (a : nat) (t : list str) : M unit :=
  s <~ read_set a ;; store a (OSet (set_update s t)).

Definition set_discard_at (a : nat) (x : str) : M unit :=
  s <~ read_set a ;; store a (OSet (set_discard x s)).

(** [d[k]], [d.get(k)] and [d[k] = v] on the dictionary at an address. *)
Definition dict_getitem (d : nat) (k : str) : M nat :=
  items <~ read_dict d ;;
  match lookup k items with
  | Some a => ret a
  | None => fail (KeyError k)
  end.

Definition dict_get (d : nat) (k : str) : M (option nat) :=
  items <~ read_dict d ;; ret (lookup k items).

Definition dict_setitem (d : nat) (k : str) (a : nat) : M unit :=
  items <~ read_dict d ;; store d (ODict (setitem k a items)).

(** The elements of [d.get(k, set())]. *)
Definition elements_or_empty (d : nat) (k : str) : M (list str) :=
  o <~ dict_get d k ;;
  match o with
  | Some a => read_set a
  | None => ret []
  end.

(** [d.setdefault(k, set())] *)
Definition setdefault (d : nat) (k : str) : M nat :=
  o <~ dict_get d k ;;
  match o with
  | Some a => ret a
  | None => a <~ alloc (OSet []) ;; dict_setitem d k a ;;; ret a
  end.

(** [{A: set() for A in ks}] *)
Definition empty_sets (ks : list str) : M nat :=
  d <~ alloc (ODict []) ;;
  foldH (fun _ A => s <~ alloc (OSet []) ;; dict_setitem d A s) ks tt ;;;
  ret d.

(** The grammar held by the dictionary at an address. *)
Definition snapshot (prods : nat) : M Productions :=
  items <~ read_dict prods ;;
  foldH (fun G '(A, bodies) => s <~ read_set bodies ;; ret (G ++ [(A, s)]))
        items [].

(** A grammar put into the store, set by set. *)
Definition install (G : Productions) : M nat :=
  d <~ alloc (ODict []) ;;
  foldH (fun _ '(A, bodies) =>
           s <~ alloc (OSet bodies) ;; dict_setitem d A s)
        G tt ;;;
  ret d.

(** *** [find_nullable] *)

Fixpoint nullable_loop (fuel : nat) (prods nullable : nat) : M unit :=
  match fuel with
  | O => fail FuelExhausted
  | S fuel' =>
      items <~ read_dict prods ;;
      changed <~
        foldH (fun changed '(A, bodies) =>
                 n <~ read_set nullable ;;
                 if mem A n then ret changed
                 else
                   bs <~ read_set bodies ;;
                   if nullable_hit n bs
                   then set_add_at nullable A ;;; ret true
                   else ret changed)
              items false ;;
      if changed then nullable_loop fuel' prods nullable else ret tt
  end.

Definition find_nullable (start : str) (prods : nat) : M nat :=
  nullable <~ alloc (OSet []) ;;
  items <~ read_dict prods ;;
  foldH (fun _ '(A, bodies) =>
           bs <~ read_set bodies ;;
           if mem EPS bs then set_add_at nullable A else ret tt)
        items tt ;;;
  nullable_loop (S (length items)) prods nullable ;;;
  ret nullable.

(** *** [eliminate_epsilon] *)

Definition eliminate_epsilon (start : str) (prods : nat)
  (keep_start_epsilon : bool) : M nat :=
  nullable <~ find_nullable start prods ;;
  items <~ read_dict prods ;;
  new_prods <~ empty_sets (keys items) ;;
  foldH (fun _ '(A, bodies) =>
           bs <~ read_set bodies ;;
           foldH (fun _ b =>
                    if str_eqb b EPS then ret tt
                    else
                      n <~ read_set nullable ;;
                      let positions := positions_from 0 b n in
                      generated <~ alloc (OSet []) ;;
                      foldH (fun _ mask =>
                               let candidate :=
                                 candidate_from 0 b positions mask in
                               match candidate with
                               | [] =>
                                   if str_eqb A start && keep_start_epsilon
                                   then set_add_at generated EPS
                                   else ret tt
                               | _ => set_add_at generated candidate
                               end)
                            (masks (length positions)) tt ;;;
                      g <~ read_set generated ;;
                      target <~ dict_getitem new_prods A ;;
                      set_update_at target
                        (match g with
                         | [] => [b]
                         | _ => g
                         end))
                 bs tt)
        items tt ;;;
  n <~ read_set nullable ;;
  (if keep_start_epsilon && mem start n
   then target <~ dict_getitem new_prods start ;; set_add_at target EPS
   else ret tt) ;;;
  new_items <~ read_dict new_prods ;;
  foldH (fun _ A =>
           if str_eqb A start then ret tt
           else target <~ dict_getitem new_prods A ;;
                set_discard_at target EPS)
        (keys new_items) tt ;;;
  ret new_prods.

(** *** [eliminate_unit_productions] *)

Fixpoint unit_loop (fuel : nat) (prods : nat) (nts : list str) (unit_dict : nat)
  : M unit :=
  match fuel with
  | O => fail FuelExhausted
  | S fuel' =>
      changed <~
        foldH (fun changed A =>
                 bs <~ elements_or_empty prods A ;;
                 changed <~
                   foldH (fun changed b =>
                            if is_unit_body b then
                              uA <~ dict_getitem unit_dict A ;;
                              s <~ read_set uA ;;
                              if mem b s then ret changed
                              else set_add_at uA b ;;; ret true
                            else ret changed)
                         bs changed ;;
                 uA <~ dict_getitem unit_dict A ;;
                 members <~ read_set uA ;;
                 foldH (fun _ B =>
                          uA <~ dict_getitem unit_dict A ;;
                          t <~ elements_or_empty unit_dict B ;;
                          set_update_at uA t)
                       members tt ;;;
                 ret changed)
              nts false ;;
      if changed then unit_loop fuel' prods nts unit_dict else ret tt
  end.

Definition eliminate_unit_productions (start : str) (prods : nat) : M nat :=
  items <~ read_dict prods ;;
  let nts := keys items in
  unit_dict <~ alloc (ODict []) ;;
  foldH (fun _ A => s <~ alloc (OSet [A]) ;; dict_setitem unit_dict A s) nts tt ;;;
  G <~ snapshot prods ;;
  unit_loop (S (length (concat (map snd G)))) prods nts unit_dict ;;;
  new_prods <~ empty_sets nts ;;
  foldH (fun _ A =>
           uA <~ dict_getitem unit_dict A ;;
           members <~ read_set uA ;;
           foldH (fun _ B =>
                    bs <~ elements_or_empty prods B ;;
                    foldH (fun _ body =>
                             if is_unit_body body then ret tt
                             else target <~ dict_getitem new_prods A ;;
                                  set_add_at target body)
                          bs tt)
                 members tt)
        nts tt ;;;
  ret new_prods.

(** *** [generating_nonterminals] and [reachable_nonterminals] *)

Fixpoint gen_loop (fuel : nat) (prods gen : nat) : M unit :=
  match fuel with
  | O => fail FuelExhausted
  | S fuel' =>
      items <~ read_dict prods ;;
      changed <~
        foldH (fun changed '(A, bodies) =>
                 g <~ read_set gen ;;
                 if mem A g then ret changed
                 else
                   bs <~ read_set bodies ;;
                   if existsb (gen_ok g) bs
                   then set_add_at gen A ;;; ret true
                   else ret changed)
              items false ;;
      if changed then gen_loop fuel' prods gen else ret tt
  end.

Definition generating_nonterminals (prods : nat) : M nat :=
  gen <~ alloc (OSet []) ;;
  items <~ read_dict prods ;;
  gen_loop (S (length items)) prods gen ;;;
  ret gen.

Fixpoint reach_loop (fuel : nat) (prods reach : nat) : M unit :=
  match fuel with
  | O => fail FuelExhausted
  | S fuel' =>
      members <~ read_set reach ;;
      changed <~
        foldH (fun changed A =>
                 bs <~ elements_or_empty prods A ;;
                 foldH (fun changed b =>
                          foldH (fun changed ch =>
                                   r <~ read_set reach ;;
                                   if is_nonterminal ch && negb (mem [ch] r)
                                   then set_add_at reach [ch] ;;; ret true
                                   else ret changed)
                                b changed)
                       bs changed)
              members false ;;
      if changed then reach_loop fuel' prods reach else ret tt
  end.

Definition reachable_nonterminals (start : str) (prods : nat) : M nat :=
  reach <~ alloc (OSet [start]) ;;
  G <~ snapshot prods ;;
  reach_loop (S (length (concat (concat (map snd G))))) prods reach ;;;
  ret reach.

(** *** [remove_useless_symbols] *)

Definition remove_useless_symbols (start : str) (prods : nat) : M nat :=
  gen <~ generating_nonterminals prods ;;
  g <~ read_set gen ;;
  prods_gen <~ alloc (ODict []) ;;
  items <~ read_dict prods ;;
  foldH (fun _ '(A, bodies) =>
           if mem A g then
             kept <~ alloc (OSet []) ;;
             bs <~ read_set bodies ;;
             foldH (fun _ b =>
                      if forallb (fun ch => is_terminal ch || mem [ch] g) b
                      then set_add_at kept b else ret tt)
                   bs tt ;;;
             dict_setitem prods_gen A kept
           else ret tt)
        items tt ;;;
  reach <~ reachable_nonterminals start prods_gen ;;
  r <~ read_set reach ;;
  prods_final <~ alloc (ODict []) ;;
  gen_items <~ read_dict prods_gen ;;
  foldH (fun _ '(A, bodies) =>
           if mem A r then
             bs <~ read_set bodies ;;
             copy <~ alloc (OSet bs) ;;
             dict_setitem prods_final A copy
           else ret tt)
        gen_items tt ;;;
  o <~ dict_get prods_final start ;;
  match o with
  | Some _ => ret tt
  | None => s <~ alloc (OSet []) ;; dict_setitem prods_final start s
  end ;;;
  ret prods_final.

(** *** [fresh_var] and [to_cnf] *)

Fixpoint fresh_var_from (fuel : nat) (used : nat) (base : str) (i : nat)
  : M str :=
  match fuel with
  | O => fail FuelExhausted
  | S fuel' =>
      let cand := base ++ str_of_nat i in
      u <~ read_set used ;;
      if mem cand u then fresh_var_from fuel' used base (S i)
      else set_add_at used cand ;;; ret cand
  end.

Definition fresh_var (used : nat) (base : str) : M str :=
  u <~ read_set used ;;
  fresh_var_from (S (length u)) used base 1.

Fixpoint binarize (symbols : str) (prev_left : str) (used cnf2 : nat)
  : M unit :=
  match symbols with
  | X :: ((_ :: _ :: _) as rest) =>
      Y <~ fresh_var used [89%N] ;;
      target <~ setdefault cnf2 prev_left ;;
      set_add_at target (X :: Y) ;;;
      binarize rest Y used cnf2
  | [X1; X2] =>
      target <~ setdefault cnf2 prev_left ;;
      set_add_at target [X1; X2]
  | _ => ret tt
  end.

Definition to_cnf (start : str) (prods : nat) : M nat :=
  items <~ read_dict prods ;;
  used <~ alloc (OSet (keys items)) ;;
  term_var <~ alloc (OMap []) ;;
  cnf1 <~ empty_sets (keys items) ;;
  foldH (fun _ '(A, bodies) =>
           bs <~ read_set bodies ;;
           foldH (fun _ b =>
                    if str_eqb b EPS && negb (str_eqb A start) then ret tt
                    else if 2 <=? length b then
                      new_body <~
                        foldH (fun new_body ch =>
                                 if is_terminal ch then
                                   tv <~ read_map term_var ;;
                                   match lookup [ch] tv with
                                   | Some _ => ret tt
                                   | None =>
                                       let candidate := upper ch in
                                       u <~ read_set used ;;
                                       candidate <~
                                         (if mem candidate u
                                             || negb (length candidate =? 1)
                                             || negb (str_isupper candidate)
                                          then fresh_var used (84%N :: [ch])
                                          else ret candidate) ;;
                                       set_add_at used candidate ;;;
                                       store term_var
                                         (OMap (setitem [ch] candidate tv))
                                   end ;;;
                                   tv <~ read_map term_var ;;
                                   match lookup [ch] tv with
                                   | Some Va => ret (new_body ++ [Va])
                                   | None => fail (KeyError [ch])
                                   end
                                 else ret (new_body ++ [[ch]]))
                              b [] ;;
                      target <~ dict_getitem cnf1 A ;;
                      set_add_at target (concat new_body)
                    else
                      target <~ dict_getitem cnf1 A ;;
                      set_add_at target b)
                 bs tt)
        items tt ;;;
  tv <~ read_map term_var ;;
  foldH (fun _ '(a, Va) =>
           target <~ setdefault cnf1 Va ;; set_add_at target a)
        tv tt ;;;
  items1 <~ read_dict cnf1 ;;
  cnf2 <~ empty_sets (keys items1) ;;
  used <~ alloc (OSet (keys items1)) ;;
  foldH (fun _ '(A, bodies) =>
           bs <~ read_set bodies ;;
           foldH (fun _ b =>
                    if str_eqb b EPS && str_eqb A start then
                      target <~ dict_getitem cnf2 A ;; set_add_at target EPS
                    else if length b <=? 2 then
                      target <~ dict_getitem cnf2 A ;; set_add_at target b
                    else binarize b A used cnf2)
                 bs tt)
        items1 tt ;;;
  ret cnf2.

End Store.

(** ** What a stage may do to the store *)

(** The four stages, as [main] calls them. *)
Inductive stage : Type :=
| EliminateEpsilon (keep_start_epsilon : bool)
| EliminateUnitProductions
| RemoveUselessSymbols
| ToCnf.

Definition run_stage (s : stage) (start : str) (prods : nat) : Store.M nat :=
  match s with
  | EliminateEpsilon keep => Store.eliminate_epsilon start prods keep
  | EliminateUnitProductions => Store.eliminate_unit_productions start prods
  | RemoveUselessSymbols => Store.remove_useless_symbols start prods
  | ToCnf => Store.to_cnf start prods
  end.

(** The entries of the dictionary at an address, each with the elements of
    its set, when the address holds a dictionary of sets. *)
Fixpoint entries (h : Store.heap) (items : dict nat) : option Productions :=
  match items with
  | [] => Some []
  | (A, a) :: rest =>
      match nth_error h a, entries h rest with
      | Some (Store.OSet s), Some G => Some ((A, s) :: G)
      | _, _ => None
      end
  end.

Definition content (h : Store.heap) (prods : nat) : option Productions :=
  match nth_error h prods with
  | Some (Store.ODict items) => entries h items
  | _ => None
  end.

(** [agree n h h']: the store [h'] extends [h] and has the objects of [h] at
    the addresses below [n]. *)
Definition agree (n : nat) (h h' : Store.heap) : Prop :=
  length h <= length h' /\
  forall a, a < n -> nth_error h' a = nth_error h a.

(** [closed n h]: a dictionary at an address from [n] on only holds
    addresses from [n] on. *)
Definition closed (n : nat) (h : Store.heap) : Prop :=
  forall d items,
    n <= d -> nth_error h d = Some (Store.ODict items) ->
    forall k a, In (k, a) items -> n <= a.

(** [safe n m Q]: run in a store of at least [n] objects, [m] leaves the
    objects below [n] as they are, and its result satisfies [Q]. *)
Definition safe {A : Type} (n : nat) (m : Store.M A) (Q : A -> Prop) : Prop :=
  forall h a h',
    n <= length h -> closed n h -> m h = Ok (a, h') ->
    agree n h h' /\ closed n h' /\ Q a.

(** The store that holds [A -> aA | a]: the dictionary at address 0, the set
    of the bodies of [A] at address 1. *)
Definition store_a : Store.heap :=
  [ Store.ODict [ ([65%N], 1) ]; Store.OSet [[97%N; 65%N]; [97%N]] ].

(** The store that holds [S -> AB | eps], [A -> aA | eps], [B -> bB | eps]. *)
Definition store_ab : Store.heap :=
  [ Store.ODict [ ([83%N], 1); ([65%N], 2); ([66%N], 3) ];
    Store.OSet [[65%N; 66%N]; EPS];
    Store.OSet [[97%N; 65%N]; EPS];
    Store.OSet [[98%N; 66%N]; EPS] ].

(** ** Invariants of the loops

    What the proofs below keep true of the sets and dictionaries the loops
    build. *)

(** Every member of the set is a key that derives the empty string. *)
Definition nullable_sound (G : Productions) (nullable : list str) : Prop :=
  forall A, In A nullable -> In A (keys G) /\ derives G A [].

(** What may be said of a body [x] of [A] in the grammar under construction:
    it is the marker only at the start symbol, with retention on and the
    start symbol nullable. *)
Definition eps_ok (start : str) (keep : bool) (nullable : list str)
  (A x : str) : Prop :=
  x = EPS -> A = start /\ keep = true /\ In start nullable.

Definition eps_inv (G : Productions) (start : str) (keep : bool)
  (nullable : list str) (new_prods : Productions) : Prop :=
  (forall k, In k (keys new_prods) <-> In k (keys G)) /\
  forall A s, lookup A new_prods = Some s ->
              forall x, In x s -> eps_ok start keep nullable A x.

(** The set [kept] of [remove_useless_symbols]. *)
Definition kept_of (gen : list str) (bodies : list str) : list str :=
  fold_left (fun kept b =>
               if forallb (fun ch => is_terminal ch || mem [ch] gen) b
               then set_add b kept else kept)
            bodies [].

(** The characters of all bodies of a grammar. *)
Definition all_chars (prods : Productions) : str :=
  concat (concat (map snd prods)).

(** What the loop of [reachable_nonterminals] keeps true of [reach]: no
    duplicates, and nothing but the start symbol and characters of bodies. *)
Definition reach_bounded (start : str) (prods : Productions)
  (reach : list str) : Prop :=
  NoDup reach /\
  incl reach (start :: map (fun ch => [ch]) (all_chars prods)).

(** The dictionary [prods_final] before the start symbol is looked at. *)
Definition prods_final_of (reach : list str) (prods_gen : Productions)
  : Productions :=
  fold_left (fun prods_final '(A, bodies) =>
               if mem A reach then setitem A bodies prods_final
               else prods_final)
            prods_gen [].

(** Every member of the set derives a string of terminals, already in the
    grammar cut down to any larger set [X]. *)
Definition gen_sound (G : Productions) (set : list str) : Prop :=
  forall X, incl set X ->
  forall A, In A set -> exists w, derives (prods_gen_of X G) A w.

(** Every member of the set is reachable, already in the grammar cut down
    to any larger set [X]. *)
Definition reach_sound (PG : Productions) (start : str) (set : list str)
  : Prop :=
  forall X, incl set X ->
  forall A, In A set -> reachable (prods_final_of X PG) start A.

(** What the first pass keeps true of [used] and [term_var]. *)
Definition lift_inv (prods : Productions) (used : list str)
  (term_var : dict str) : Prop :=
  incl (keys prods) used /\
  forall a Va, In (a, Va) term_var -> ~ In Va (keys prods).

(** What the first pass keeps true of its whole state. *)
Definition pass1_inv (start : str) (prods : Productions)
  (st : list str * dict str * Productions) : Prop :=
  let '(used, term_var, cnf1) := st in
  lift_inv prods used term_var /\
  (forall k, In k (keys prods) -> In k (keys cnf1)) /\
  NoDup (keys cnf1) /\
  lookup start cnf1 = Some [].

(** One step of a loop that copies the entries [p] lets through, with [g]
    applied to the value. *)
Definition filter_step {V : Type} (p : str -> V -> bool) (g : str -> V -> V)
  (acc : dict V) (kv : str * V) : dict V :=
  let '(k, v) := kv in if p k v then setitem k (g k v) acc else acc.

(** ** The two models side by side *)

(** A stage on values. *)
Definition run_on_values (s : stage) (start : str) (G : Productions)
  : result Productions :=
  match s with
  | EliminateEpsilon keep => eliminate_epsilon start G keep
  | EliminateUnitProductions => eliminate_unit_productions start G
  | RemoveUselessSymbols => remove_useless_symbols start G
  | ToCnf => to_cnf start G
  end.

(** A stage on the store: the grammar is put into the empty store, the
    stage runs on its address, and the grammar at the address it returns is
    read back. *)
Definition run_on_store (s : stage) (start : str) (G : Productions)
  : result Productions :=
  match Store.bindH (Store.install G)
          (fun prods =>
             Store.bindH (run_stage s start prods) Store.snapshot) []
  with
  | Ok (G', _) => Ok G'
  | Err e => Err e
  end.

Fixpoint list_eqb {A : Type} (eqb : A -> A -> bool) (l1 l2 : list A) : bool :=
  match l1, l2 with
  | [], [] => true
  | x :: r1, y :: r2 => eqb x y && list_eqb eqb r1 r2
  | _, _ => false
  end.

(** The same entries, in the same order. *)
Definition same_grammar (G1 G2 : Productions) : bool :=
  list_eqb (fun '(k1, v1) '(k2, v2) =>
              str_eqb k1 k2 && list_eqb str_eqb v1 v2)
           G1 G2.

Definition same_outcome (r1 r2 : result Productions) : bool :=
  match r1, r2 with
  | Ok G1, Ok G2 => same_grammar G1 G2
  | Err _, Err _ => true
  | _, _ => false
  end.

(** ** A stage applied to what it returned *)

(** [fill A bodies d]: the bodies are added, one by one, to the set of [A]
    in [d]. *)
Definition fill (A : str) (bodies : list str) (d : Productions)
  : result Productions :=
  foldM (fun d b => add_to A b d) bodies d.



(** What [eliminate_unit_productions] keeps true of the dictionary it
    builds: no key twice, no body twice in a set, no unit body. *)
Definition unit_free (d : Productions) : Prop :=
  NoDup (keys d) /\
  forall A s, lookup A d = Some s ->
              NoDup s /\ forall b, In b s -> is_unit_body b = false.

(** The same keys, and for every key the same set of bodies. *)
Definition same_mapping (G1 G2 : Productions) : bool :=
  forallb (fun '(A, s1) =>
             match lookup A G2 with
             | Some s2 => forallb (fun b => mem b s2) s1
                          && forallb (fun b => mem b s1) s2
             | None => false
             end) G1
  && forallb (fun '(A, _) => match lookup A G1 with
                             | Some _ => true
                             | None => false
                             end) G2.

(** Whether a stage on values, applied to the grammar it returned, returns
    the same mapping. *)
Definition idempotent_at (s : stage) (start : str) (G : Productions) : bool :=
  match run_on_values s start G with
  | Ok G1 => match run_on_values s start G1 with
             | Ok G2 => same_mapping G1 G2
             | Err _ => false
             end
  | Err _ => false
  end.


(** ** Small grammars, enumerated *)

(** Every sub-list of a list, in the order of the list. *)
Fixpoint sublists {A : Type} (l : list A) : list (list A) :=
  match l with
  | [] => [[]]
  | x :: rest => let s := sublists rest in s ++ map (cons x) s
  end.

(** Six bodies over [S], [A] and [a]: the empty word, a terminal, the two
    unit bodies, a pair and a body of three symbols. *)
Definition small_bodies : list str :=
  [EPS; [97%N]; [83%N]; [65%N]; [83%N; 65%N]; [97%N; 65%N; 83%N]].

(** Every grammar with the keys [S] and [A], in this order, whose sets of
    bodies are drawn from [small_bodies]. *)
Definition small_grammars : list Productions :=
  flat_map (fun s1 =>
              map (fun s2 => [([83%N], s1); ([65%N], s2)])
                  (sublists small_bodies))
           (sublists small_bodies).

(** ** Bodies with nullable nonterminals left out *)

(** [drops nullable b c]: the string [c] is the body [b] without some of
    the occurrences of nonterminals of the set [nullable]. *)
Inductive drops (nullable : list str) : str -> str -> Prop :=
| drops_nil : drops nullable [] []
| drops_keep : forall ch b c,
    drops nullable b c -> drops nullable (ch :: b) (ch :: c)
| drops_drop : forall ch b c,
    is_nonterminal ch = true -> In [ch] nullable ->
    drops nullable b c -> drops nullable (ch :: b) c.

(** The number whose binary digits, lowest first, are the list: the mask
    that drops the nullable positions marked [true]. *)
Fixpoint bits_to_N (l : list bool) : N :=
  match l with
  | [] => 0%N
  | b :: rest => (2 * bits_to_N rest + N.b2n b)%N
  end.

(** [below d d']: the dictionary [d'] has the keys of [d], with sets that
    include those of [d]. *)
Definition below (d d' : Productions) : Prop :=
  forall A s, lookup A d = Some s ->
              exists s', lookup A d' = Some s' /\ incl s s'.

(** The body of the inner loop of [eliminate_epsilon]: the candidates of
    the body [b] of [A] go into [new_prods[A]]. *)
Definition eps_body_step (start : str) (keep_start_epsilon : bool)
  (nullable : list str) (A : str) (new_prods : Productions) (b : str)
  : result Productions :=
  if str_eqb b EPS then Ok new_prods
  else
    let generated := generated_of start A keep_start_epsilon nullable b in
    s <- getitem A new_prods ;;
    Ok (setitem A
          (set_update s
             (match generated with
              | [] => [b]
              | _ => generated
              end))
          new_prods).

(** ** Unit productions still to be recorded *)

(** The productions of a grammar, as pairs of a nonterminal and a body. *)
Definition productions_of (prods : Productions) : list (str * str) :=
  flat_map (fun '(A, bodies) => map (pair A) bodies) prods.

(** The number of unit productions [A -> b] with [b] not yet in [unit[A]]:
    what the [while] loop of [eliminate_unit_productions] makes smaller
    whenever it sets [changed]. *)
Definition pending (prods : Productions) (unit : dict (list str)) : nat :=
  length (filter (fun '(A, b) =>
                    is_unit_body b && negb (mem b (get_or_empty A unit)))
                 (productions_of prods)).

(** What the loops of [eliminate_unit_productions] keep true of the
    dictionary [unit]: every nonterminal of [nts] is a key, and every member
    of [unit[A]] is derived from [A] by unit productions. *)
Definition unit_keys (nts : list str) (unit : dict (list str)) : Prop :=
  forall A, In A nts -> In A (keys unit).

Definition unit_sound (G : Productions) (unit : dict (list str)) : Prop :=
  forall A s B, lookup A unit = Some s -> In B s -> unit_derives G A B.

(** Every unit body of a nonterminal of [l] is in its set. *)
Definition unit_direct_done (G : Productions) (l : list str)
  (unit : dict (list str)) : Prop :=
  forall A, In A l ->
  forall b, In b (get_or_empty A G) -> is_unit_body b = true ->
            In b (get_or_empty A unit).

(** ** Reading a grammar

    [parse_grammar_file] reads a text file line by line; here it is a
    function on the lines of the file.  [die], which prints a message and
    leaves the program, is the result [Died] with what the message says. *)

(** [str.isspace] on one character: the white space [str.strip] takes off
    and the class [\s] of a regular expression on [str] stands for. *)
Definition isspace (ch : char) : bool :=
  ((9 <=? ch) && (ch <=? 13) || (28 <=? ch) && (ch <=? 32)
   || (ch =? 133) || (ch =? 160) || (ch =? 5760)
   || (8192 <=? ch) && (ch <=? 8202)
   || (ch =? 8232) || (ch =? 8233) || (ch =? 8239) || (ch =? 8287)
   || (ch =? 12288))%N.

(** [s.lstrip()] *)
Fixpoint lstrip (s : str) : str :=
  match s with
  | [] => []
  | ch :: rest => if isspace ch then lstrip rest else s
  end.

(** [s.strip()] *)
Definition strip (s : str) : str := rev (lstrip (rev (lstrip s))).

(** [s.split(sep)] for a separator of one character: the piece before the
    first separator, and the pieces after it. *)
Fixpoint split_on (sep : char) (s : str) : str * list str :=
  match s with
  | [] => ([], [])
  | ch :: rest =>
      let '(piece, pieces) := split_on sep rest in
      if (ch =? sep)%N then ([], piece :: pieces) else (ch :: piece, pieces)
  end.

Definition split (sep : char) (s : str) : list str :=
  let '(piece, pieces) := split_on sep s in piece :: pieces.

(** The part of the regular expressions of [re] the parser uses: an
    expression is a sequence of items. *)
Inductive re_item : Type :=
| ReBegin                          (* ^ *)
| ReEnd                            (* $ *)
| ReChar (p : char -> bool)        (* one character of a class *)
| ReStar (p : char -> bool)        (* class*, greedy *)
| RePlusLazy (p : char -> bool)    (* class+?, lazy *)
| ReOpen                           (* ( *)
| ReClose.                         (* ) *)

(** [class*] before the rest [k] of an expression: as many characters of
    the class as there are, then one fewer and so on, until [k] matches. *)
Fixpoint re_greedy {R : Type} (p : char -> bool)
  (k : nat -> str -> option R) (pos : nat) (s : str) : option R :=
  match s with
  | ch :: rest =>
      if p ch then
        match re_greedy p k (S pos) rest with
        | Some m => Some m
        | None => k pos s
        end
      else k pos s
  | [] => k pos s
  end.

(** [class*?] before the rest [k] of an expression: no character of the
    class, then one and so on, until [k] matches. *)
Fixpoint re_lazy {R : Type} (p : char -> bool)
  (k : nat -> str -> option R) (pos : nat) (s : str) : option R :=
  match k pos s with
  | Some m => Some m
  | None =>
      match s with
      | ch :: rest => if p ch then re_lazy p k (S pos) rest else None
      | [] => None
      end
  end.

(** [re_match r pos s marks]: the expression [r] is matched against the
    rest [s] of the subject, which begins at the position [pos]; [marks]
    are the positions of the parentheses passed so far.  The alternatives
    are tried in the order of a backtracking matcher, the first that
    succeeds is the result. *)
Fixpoint re_match (r : list re_item) (pos : nat) (s : str)
  (marks : list nat) : option (list nat) :=
  match r with
  | [] => Some marks
  | ReBegin :: r' => if pos =? 0 then re_match r' pos s marks else None
  | ReEnd :: r' =>
      match s with
      | [] => re_match r' pos s marks
      | [ch] => if (ch =? 10)%N then re_match r' pos s marks else None
      | _ => None
      end
  | ReChar p :: r' =>
      match s with
      | ch :: rest => if p ch then re_match r' (S pos) rest marks else None
      | [] => None
      end
  | ReStar p :: r' =>
      re_greedy p (fun pos s => re_match r' pos s marks) pos s
  | RePlusLazy p :: r' =>
      match s with
      | ch :: rest =>
          if p ch
          then re_lazy p (fun pos s => re_match r' pos s marks) (S pos) rest
          else None
      | [] => None
      end
  | ReOpen :: r' => re_match r' pos s (marks ++ [pos])
  | ReClose :: r' => re_match r' pos s (marks ++ [pos])
  end.

(** [s[a:b]] *)
Definition substring (a b : nat) (s : str) : str :=
  firstn (b - a) (skipn a s).

(** [re.compile(r'^\s*([A-Z])\s*->\s*([^\n]+?)\s*$')] *)
Definition line_regex : list re_item :=
  [ ReBegin; ReStar isspace;
    ReOpen; ReChar (fun ch => (65 <=? ch) && (ch <=? 90))%N; ReClose;
    ReStar isspace; ReChar (N.eqb 45); ReChar (N.eqb 62); ReStar isspace;
    ReOpen; RePlusLazy (fun ch => negb (ch =? 10)%N); ReClose;
    ReStar isspace; ReEnd ].

(** [line_regex.match(line)], as the two groups of the match. *)
Definition match_line (line : str) : option (str * str) :=
  match re_match line_regex 0 line [] with
  | Some [a1; b1; a2; b2] =>
      Some (substring a1 b1 line, substring a2 b2 line)
  | _ => None
  end.

(** What the message of [die] says: its kind, with the number of the line
    and the values put into it. *)
Inductive parse_error : Type :=
| InvalidSyntax (idx : nat) (line : str)
| EmptyBody (idx : nat)
| InvalidSymbol (idx : nat) (ch : char) (b : str)
| NoProductions.

Inductive parsed (A : Type) : Type :=
| Parsed (a : A)
| Died (e : parse_error).

Arguments Parsed {A} a.
Arguments Died {A} e.

(** One turn of the loop [for b in bodies]: what is appended to
    [cleaned]. *)
Definition clean_body (idx : nat) (b : str) : parsed str :=
  match b with
  | [] => Died (EmptyBody idx)
  | _ :: _ =>
      if str_eqb b EPS || str_eqb b [1013%N] then Parsed EPS
      else match find (fun ch => negb (valid_body_char ch)) b with
           | Some ch => Died (InvalidSymbol idx ch b)
           | None => Parsed b
           end
  end.

Fixpoint clean_bodies (idx : nat) (bodies : list str) (cleaned : list str)
  : parsed (list str) :=
  match bodies with
  | [] => Parsed cleaned
  | b :: rest =>
      match clean_body idx b with
      | Parsed b' => clean_bodies idx rest (cleaned ++ [b'])
      | Died e => Died e
      end
  end.

(** [not line or line.startswith("#")] *)
Definition skipped (line : str) : bool :=
  match line with
  | [] => true
  | ch :: _ => (ch =? 35)%N
  end.

(** One turn of the loop over the lines of the file: the state is
    [start_symbol] and [prods]. *)
Definition parse_line (idx : nat) (raw : str)
  (st : option str * Productions) : parsed (option str * Productions) :=
  let '(start_symbol, prods) := st in
  let line := strip raw in
  if skipped line then Parsed st
  else
    match match_line line with
    | None => Died (InvalidSyntax idx line)
    | Some (lhs, rhs) =>
        let start_symbol :=
          match start_symbol with
          | None => Some lhs
          | Some s => Some s
          end in
        let bodies := map strip (split 124%N rhs) in
        match clean_bodies idx bodies [] with
        | Died e => Died e
        | Parsed cleaned =>
            Parsed (start_symbol,
                    setitem lhs (set_update (get_or_empty lhs prods) cleaned)
                            prods)
        end
    end.

Fixpoint parse_lines (idx : nat) (lines : list str)
  (st : option str * Productions) : parsed (option str * Productions) :=
  match lines with
  | [] => Parsed st
  | raw :: rest =>
      match parse_line idx raw st with
      | Parsed st' => parse_lines (S idx) rest st'
      | Died e => Died e
      end
  end.

Definition parse_grammar_file (lines : list str) : parsed (str * Productions) :=
  match parse_lines 1 lines (None, []) with
  | Died e => Died e
  | Parsed (None, _) => Died NoProductions
  | Parsed (Some start_symbol, prods) => Parsed (start_symbol, prods)
  end.

(** The lines a text is read as: [\r\n] and [\r] become [\n], and a line
    ends with its [\n]. *)
Fixpoint universal_newlines (text : str) : str :=
  match text with
  | [] => []
  | ch :: rest =>
      if (ch =? 13)%N then
        match rest with
        | ch' :: rest' =>
            if (ch' =? 10)%N then 10%N :: universal_newlines rest'
            else 10%N :: universal_newlines rest
        | [] => [10%N]
        end
      else ch :: universal_newlines rest
  end.

Fixpoint lines_of (text : str) : list str :=
  match text with
  | [] => []
  | ch :: rest =>
      if (ch =? 10)%N then [ch] :: lines_of rest
      else match lines_of rest with
           | [] => [[ch]]
           | line :: lines => (ch :: line) :: lines
           end
  end.

Definition read_lines (text : str) : list str :=
  lines_of (universal_newlines text).

(** ** Printing a grammar *)

(** [a < b] on [str]: the order of the code points, the shorter string
    first. *)
Fixpoint str_ltb (a b : str) : bool :=
  match a, b with
  | _, [] => false
  | [], _ :: _ => true
  | x :: a', y :: b' => ((x <? y) || (x =? y) && str_ltb a' b')%N
  end.

(** [k1 < k2] on pairs of a truth value and a string: [False] is before
    [True]. *)
Definition key_ltb (k1 k2 : bool * str) : bool :=
  let '(f1, s1) := k1 in
  let '(f2, s2) := k2 in
  if Bool.eqb f1 f2 then str_ltb s1 s2 else negb f1.

(** [sorted(l, key=key)]: every element is put behind the elements that
    are not after it, so equal keys keep their order. *)
Fixpoint insert_by {A : Type} (key : A -> bool * str) (x : A) (l : list A)
  : list A :=
  match l with
  | [] => [x]
  | y :: rest =>
      if key_ltb (key x) (key y) then x :: l else y :: insert_by key x rest
  end.

Definition sorted {A : Type} (key : A -> bool * str) (l : list A) : list A :=
  fold_left (fun acc x => insert_by key x acc) l [].

(** [sep.join(l)] *)
Fixpoint join (sep : str) (l : list str) : str :=
  match l with
  | [] => []
  | x :: rest =>
      match rest with
      | [] => x
      | _ :: _ => x ++ sep ++ join sep rest
      end
  end.

(** The line [f"{A} -> {rhs}"] of the nonterminal [A] with the set
    [bodies]. *)
Definition pretty_line (A : str) (bodies : list str) : str :=
  let bodies := sorted (fun s => (str_eqb s EPS, s)) bodies in
  let rhs :=
    match bodies with
    | [] => [8709%N]
    | _ :: _ => join [32%N; 124%N; 32%N] bodies
    end in
  A ++ [32%N; 45%N; 62%N; 32%N] ++ rhs.

Definition pretty_grammar (start : str) (prods : Productions) : result str :=
  let order := sorted (fun X => (negb (str_eqb X start), X)) (keys prods) in
  lines <- foldM (fun lines A =>
                    bodies <- getitem A prods ;;
                    Ok (lines ++ [pretty_line A bodies]))
                 order [] ;;
  Ok (join [10%N] lines).

(** What the loop of [parse_grammar_file] keeps true of [start_symbol] and
    [prods]: no key twice, every key one upper-case letter with a set of
    well-formed bodies that is not empty, and [start_symbol] the first key
    once there is one. *)
Definition parse_inv (st : option str * Productions) : Prop :=
  let '(start_symbol, prods) := st in
  NoDup (keys prods) /\
  (forall A bodies, In (A, bodies) prods ->
                    wf_key A = true /\ NoDup bodies /\ bodies <> [] /\
                    forall b, In b bodies -> wf_body b = true) /\
  match start_symbol with
  | None => prods = []
  | Some s => exists rest, keys prods = s :: rest
  end.

(** The number of the line an error message names. *)
Definition error_line (e : parse_error) : option nat :=
  match e with
  | InvalidSyntax idx _ => Some idx
  | EmptyBody idx => Some idx
  | InvalidSymbol idx _ _ => Some idx
  | NoProductions => None
  end.

(** Two results of the parser that differ at most in the error. *)
Definition same_parse {A : Type} (r1 r2 : parsed A) : Prop :=
  match r1, r2 with
  | Parsed a1, Parsed a2 => a1 = a2
  | Died _, Died _ => True
  | _, _ => False
  end.

(** A file with a blank line, a comment, the second spelling of the marker
    and a nonterminal on two lines:
    [S -> aSb | ϵ], [], [# c], [S->A], [A -> a]. *)
Definition sample_file : str :=
  [83; 32; 45; 62; 32; 97; 83; 98; 32; 124; 32; 1013; 10;
   10;
   35; 32; 99; 10;
   83; 45; 62; 65; 10;
   65; 32; 45; 62; 32; 97]%N.

(** [S -> aSb | eps | A], [A -> a] *)
Definition sample_grammar : Productions :=
  [ ([83%N], [[97%N; 83%N; 98%N]; EPS; [65%N]]); ([65%N], [[97%N]]) ].

(** A file whose third line has a body with a character that is not
    allowed: [S -> a], [], [A -> a-b]. *)
Definition faulty_file : str :=
  [83; 32; 45; 62; 32; 97; 10;
   10;
   65; 32; 45; 62; 32; 97; 45; 98; 10]%N.

(** A list in the order of [sorted]: no element is before one of the
    elements in front of it. *)
Fixpoint in_order (key : str -> bool * str) (l : list str) : Prop :=
  match l with
  | [] => True
  | x :: rest =>
      (forall y, In y rest -> key_ltb (key y) (key x) = false) /\
      in_order key rest
  end.

(** The lines of a text that is [lines] joined by line feeds: every line
    but the last with its line feed. *)
Fixpoint with_newlines (lines : list str) : list str :=
  match lines with
  | [] => []
  | x :: rest =>
      match rest with
      | [] => [x]
      | _ :: _ => (x ++ [10%N]) :: with_newlines rest
      end
  end.

(** A string that begins and ends with a character that is not white
    space, and has no line feed or carriage return in it. *)
Definition solid (s : str) : Prop :=
  s <> [] /\
  isspace (hd 0%N s) = false /\ isspace (last s 0%N) = false /\
  forall ch, In ch s -> ch <> 10%N /\ ch <> 13%N.

(** Whether no set of the dictionary is empty. *)
Definition no_empty_set (G : Productions) : bool :=
  forallb (fun '(_, bodies) => match bodies with
                               | [] => false
                               | _ :: _ => true
                               end) G.
(** * Properties *)

(** ** Sets and dictionaries *)

Lemma str_eqb_eq (a b : str) : str_eqb a b = true <-> a = b.
Proof.
  unfold str_eqb. destruct (list_eq_dec N.eq_dec a b); split; congruence.
Qed.

Lemma str_eqb_neq (a b : str) : str_eqb a b = false <-> a <> b.
Proof.
  unfold str_eqb. destruct (list_eq_dec N.eq_dec a b); split; congruence.
Qed.

Lemma str_eqb_refl (a : str) : str_eqb a a = true.
Proof. now apply str_eqb_eq. Qed.

Lemma mem_In (x : str) (s : list str) : mem x s = true <-> In x s.
Proof.
  unfold mem. rewrite existsb_exists. split.
  - intros [y [Hy He]]. apply str_eqb_eq in He. now subst.
  - intros H. exists x. split; [assumption | apply str_eqb_refl].
Qed.

Lemma mem_not_In (x : str) (s : list str) : mem x s = false <-> ~ In x s.
Proof.
  rewrite <- mem_In. destruct (mem x s); split; congruence.
Qed.

Lemma set_add_In (x y : str) (s : list str) :
  In y (set_add x s) <-> y = x \/ In y s.
Proof.
  unfold set_add. destruct (mem x s) eqn:E.
  - apply mem_In in E. split; [auto | intros [-> | H]; assumption].
  - rewrite in_app_iff. simpl. intuition congruence.
Qed.

Lemma set_update_In (y : str) (t s : list str) :
  In y (set_update s t) <-> In y s \/ In y t.
Proof.
  unfold set_update. revert s. induction t as [|x t IH]; intros s; simpl.
  - tauto.
  - rewrite IH, set_add_In. intuition congruence.
Qed.

Lemma set_discard_In (x y : str) (s : list str) :
  In y (set_discard x s) <-> In y s /\ y <> x.
Proof.
  unfold set_discard. rewrite filter_In.
  destruct (str_eqb x y) eqn:E; simpl.
  - apply str_eqb_eq in E. intuition congruence.
  - apply str_eqb_neq in E. intuition congruence.
Qed.

Lemma lookup_setitem_eq {V : Type} (k : str) (v : V) (d : dict V) :
  lookup k (setitem k v d) = Some v.
Proof.
  induction d as [|[k' v'] d IH]; simpl.
  - now rewrite str_eqb_refl.
  - destruct (str_eqb k k') eqn:E; simpl; rewrite E; auto.
Qed.

Lemma lookup_setitem_ne {V : Type} (k k0 : str) (v : V) (d : dict V) :
  k0 <> k -> lookup k0 (setitem k v d) = lookup k0 d.
Proof.
  intros Hne. induction d as [|[k' v'] d IH]; simpl.
  - apply str_eqb_neq in Hne. now rewrite Hne.
  - destruct (str_eqb k k') eqn:E; simpl.
    + apply str_eqb_eq in E. subst k'.
      apply str_eqb_neq in Hne. now rewrite Hne.
    + now rewrite IH.
Qed.

Lemma lookup_setitem {V : Type} (k k0 : str) (v : V) (d : dict V) :
  lookup k0 (setitem k v d) = if str_eqb k0 k then Some v else lookup k0 d.
Proof.
  destruct (str_eqb k0 k) eqn:E.
  - apply str_eqb_eq in E. subst. apply lookup_setitem_eq.
  - apply str_eqb_neq in E. now apply lookup_setitem_ne.
Qed.

Lemma lookup_In {V : Type} (k : str) (v : V) (d : dict V) :
  lookup k d = Some v -> In (k, v) d.
Proof.
  induction d as [|[k' v'] d IH]; simpl; [discriminate|].
  destruct (str_eqb k k') eqn:E.
  - apply str_eqb_eq in E. intros [= ->]. subst. now left.
  - intros H. right. auto.
Qed.

Lemma lookup_None {V : Type} (k : str) (d : dict V) :
  lookup k d = None <-> ~ In k (keys d).
Proof.
  induction d as [|[k' v'] d IH]; simpl; [tauto|].
  destruct (str_eqb k k') eqn:E.
  - apply str_eqb_eq in E. subst. split; [discriminate | intros H; tauto].
  - apply str_eqb_neq in E. rewrite IH. intuition congruence.
Qed.

Lemma lookup_Some_key {V : Type} (k : str) (d : dict V) :
  In k (keys d) <-> exists v, lookup k d = Some v.
Proof.
  destruct (lookup k d) as [v|] eqn:E.
  - split; [eauto|]. intros _. apply lookup_In in E.
    apply (in_map fst) in E. exact E.
  - apply lookup_None in E. split; [tauto | intros [v Hv]; discriminate].
Qed.

Lemma In_lookup {V : Type} (k : str) (v : V) (d : dict V) :
  NoDup (keys d) -> In (k, v) d -> lookup k d = Some v.
Proof.
  induction d as [|[k' v'] d IH]; simpl; [tauto|].
  intros Hnd [H | H].
  - injection H as -> ->. now rewrite str_eqb_refl.
  - inversion Hnd as [|? ? Hnot Hnd']; subst.
    destruct (str_eqb k k') eqn:E.
    + apply str_eqb_eq in E. subst. exfalso. apply Hnot.
      apply (in_map fst) in H. exact H.
    + auto.
Qed.

Lemma keys_setitem {V : Type} (k : str) (v : V) (d : dict V) :
  keys (setitem k v d) = if mem k (keys d) then keys d else keys d ++ [k].
Proof.
  induction d as [|[k' v'] d IH]; simpl; [reflexivity|].
  destruct (str_eqb k k') eqn:E; simpl; [reflexivity|].
  rewrite IH. fold (mem k (keys d)). now destruct (mem k (keys d)).
Qed.

Lemma keys_setitem_In {V : Type} (k k0 : str) (v : V) (d : dict V) :
  In k0 (keys (setitem k v d)) <-> k0 = k \/ In k0 (keys d).
Proof.
  rewrite keys_setitem. destruct (mem k (keys d)) eqn:E.
  - apply mem_In in E. intuition congruence.
  - rewrite in_app_iff. simpl. intuition congruence.
Qed.

Lemma keys_setitem_present {V : Type} (k : str) (v : V) (d : dict V) :
  In k (keys d) -> keys (setitem k v d) = keys d.
Proof.
  intros H. rewrite keys_setitem. apply mem_In in H. now rewrite H.
Qed.

Lemma nodupb_NoDup (l : list str) : nodupb l = true <-> NoDup l.
Proof.
  induction l as [|x l IH]; simpl.
  - split; [constructor | reflexivity].
  - rewrite andb_true_iff, negb_true_iff, mem_not_In, IH. split.
    + intros [H1 H2]. now constructor.
    + intros H. inversion H. auto.
Qed.

Lemma keys_empty_sets_from (ks : list str) (d : Productions) :
  forall k, In k (keys (fold_left (fun d A => setitem A [] d) ks d))
            <-> In k ks \/ In k (keys d).
Proof.
  revert d. induction ks as [|A ks IH]; intros d k; simpl.
  - tauto.
  - rewrite IH, keys_setitem_In. intuition congruence.
Qed.

Lemma keys_empty_sets (ks : list str) (k : str) :
  In k (keys (empty_sets ks)) <-> In k ks.
Proof.
  unfold empty_sets. rewrite keys_empty_sets_from. simpl. tauto.
Qed.

Lemma lookup_empty_sets_from (ks : list str) (d : Productions) (k : str) :
  (forall v, lookup k d = Some v -> v = []) ->
  forall v, lookup k (fold_left (fun d A => setitem A [] d) ks d) = Some v ->
            v = [].
Proof.
  revert d. induction ks as [|A ks IH]; intros d Hd v; simpl.
  - apply Hd.
  - apply IH. intros v'. rewrite lookup_setitem.
    destruct (str_eqb k A); [congruence | apply Hd].
Qed.

Lemma lookup_empty_sets (ks : list str) (k : str) (v : list str) :
  lookup k (empty_sets ks) = Some v -> v = [].
Proof.
  apply lookup_empty_sets_from. simpl. discriminate.
Qed.

(** ** Loops in the error monad *)

Lemma foldM_inv {A S : Type} (f : S -> A -> result S) (Inv : S -> Prop)
  (l : list A) :
  (forall s a, In a l -> Inv s -> exists s', f s a = Ok s' /\ Inv s') ->
  forall s, Inv s -> exists s', foldM f l s = Ok s' /\ Inv s'.
Proof.
  induction l as [|a l IH]; intros Hstep s Hs; simpl.
  - eauto.
  - destruct (Hstep s a (or_introl eq_refl) Hs) as [s1 [E1 H1]].
    rewrite E1. simpl. apply IH; [|assumption].
    intros s2 a2 Hin. apply Hstep. now right.
Qed.

Lemma foldM_ok_inv {A S : Type} (f : S -> A -> result S) (Inv : S -> Prop)
  (l : list A) :
  (forall s a s', In a l -> Inv s -> f s a = Ok s' -> Inv s') ->
  forall s s', Inv s -> foldM f l s = Ok s' -> Inv s'.
Proof.
  induction l as [|a l IH]; intros Hstep s s' Hs; simpl.
  - intros [= <-]. assumption.
  - destruct (f s a) as [s1|e] eqn:E1; simpl; [|discriminate].
    apply IH.
    + intros s2 a2 s3 Hin. apply Hstep. now right.
    + eapply Hstep; [now left | eassumption | eassumption].
Qed.

Lemma fold_left_inv {A S : Type} (f : S -> A -> S) (Inv : S -> Prop)
  (l : list A) :
  (forall s a, In a l -> Inv s -> Inv (f s a)) ->
  forall s, Inv s -> Inv (fold_left f l s).
Proof.
  induction l as [|a l IH]; intros Hstep s Hs; simpl.
  - assumption.
  - apply IH.
    + intros s2 a2 Hin. apply Hstep. now right.
    + apply Hstep; [now left | assumption].
Qed.

(** ** The growing loops *)

Section GrowingSet.
Variable hit : list str -> list str -> bool.

Lemma grow_pass_incl (items : Productions) :
  forall set c, incl set (fst (grow_pass hit items set c)).
Proof.
  induction items as [|[A bodies] items IH]; intros set c; simpl.
  - apply incl_refl.
  - destruct (mem A set); [apply IH|].
    destruct (hit set bodies); [|apply IH].
    intros x Hx. apply IH. apply set_add_In. now right.
Qed.

Lemma grow_pass_changed (items : Productions) :
  forall set c set',
    grow_pass hit items set c = (set', true) ->
    c = true \/ exists A, In A (keys items) /\ ~ In A set /\ In A set'.
Proof.
  induction items as [|[A bodies] items IH]; intros set c set'; simpl.
  - intros [= -> ->]. now left.
  - destruct (mem A set) eqn:EA.
    + intros H. destruct (IH _ _ _ H) as [Hc | [B [HB1 HB2]]]; [now left|].
      right. exists B. tauto.
    + apply mem_not_In in EA. destruct (hit set bodies).
      * intros H. right. exists A. repeat split; [now left | assumption |].
        pose proof (grow_pass_incl items (set_add A set) true) as Hi.
        rewrite H in Hi. apply Hi. apply set_add_In. now left.
      * intros H. destruct (IH _ _ _ H) as [Hc | [B [HB1 HB2]]]; [now left|].
        right. exists B. tauto.
Qed.

Lemma grow_pass_stable (items : Productions) :
  forall set c set',
    grow_pass hit items set c = (set', false) ->
    c = false /\ set' = set /\
    forall A bodies, In (A, bodies) items ->
                     In A set \/ hit set bodies = false.
Proof.
  induction items as [|[A bodies] items IH]; intros set c set'; simpl.
  - intros [= -> ->]. repeat split. intros A bodies [].
  - destruct (mem A set) eqn:EA.
    + intros H. destruct (IH _ _ _ H) as [Hc [Hs Hall]].
      repeat split; try assumption.
      intros B bs [[= <- <-] | Hin]; [left; now apply mem_In | auto].
    + destruct (hit set bodies) eqn:Eh.
      * intros H. destruct (IH _ _ _ H) as [Hc _]. discriminate.
      * intros H. destruct (IH _ _ _ H) as [Hc [Hs Hall]].
        repeat split; try assumption.
        intros B bs [[= <- <-] | Hin]; [now right | auto].
Qed.

Lemma grow_pass_inv (Inv : list str -> Prop) (G : Productions) :
  (forall set A bodies,
      Inv set -> In (A, bodies) G -> ~ In A set -> hit set bodies = true ->
      Inv (set_add A set)) ->
  forall items, incl items G ->
  forall set c, Inv set -> Inv (fst (grow_pass hit items set c)).
Proof.
  intros Hstep. induction items as [|[A bodies] items IH];
    intros Hincl set c Hset; simpl.
  - assumption.
  - assert (Hincl' : incl items G)
      by (intros x Hx; apply Hincl; now right).
    destruct (mem A set) eqn:EA; [now apply IH|].
    destruct (hit set bodies) eqn:Eh; [|now apply IH].
    apply IH; [assumption|]. apply Hstep with bodies; try assumption.
    + apply Hincl. now left.
    + now apply mem_not_In.
Qed.

Lemma missing_le (prods : Productions) (set set' : list str) :
  incl set set' -> missing prods set' <= missing prods set.
Proof.
  intros Hi. unfold missing.
  induction prods as [|[A bodies] prods IH]; simpl; [lia|].
  destruct (mem A set') eqn:E'; destruct (mem A set) eqn:E; simpl; try lia.
  apply mem_In in E. apply Hi in E. apply mem_In in E. congruence.
Qed.

Lemma missing_lt (prods : Productions) (set set' : list str) (A : str) :
  incl set set' -> In A (keys prods) -> ~ In A set -> In A set' ->
  missing prods set' < missing prods set.
Proof.
  intros Hi HA Hn Hy. unfold missing.
  induction prods as [|[B bodies] prods IH]; simpl in *; [tauto|].
  pose proof (missing_le prods set set' Hi) as Hle. unfold missing in Hle.
  destruct HA as [-> | HA].
  - apply mem_not_In in Hn. apply mem_In in Hy. rewrite Hn, Hy. simpl. lia.
  - specialize (IH HA).
    destruct (mem B set') eqn:E'; destruct (mem B set) eqn:E; simpl; try lia.
    apply mem_In in E. apply Hi in E. apply mem_In in E. congruence.
Qed.

Lemma missing_bound (prods : Productions) (set : list str) :
  missing prods set <= length prods.
Proof. unfold missing. apply filter_length_le. Qed.

(** With more fuel than there are entries still outside the set, the loop
    ends, in a set that one more pass leaves alone. *)
Lemma grow_loop_spec (Inv : list str -> Prop) (G : Productions) :
  (forall set A bodies,
      Inv set -> In (A, bodies) G -> ~ In A set -> hit set bodies = true ->
      Inv (set_add A set)) ->
  forall fuel set,
    missing G set < fuel -> Inv set ->
    exists final,
      grow_loop hit fuel G set = Ok final /\ Inv final /\ incl set final /\
      forall A bodies, In (A, bodies) G ->
                       In A final \/ hit final bodies = false.
Proof.
  intros Hstep. induction fuel as [|fuel IH]; intros set Hfuel Hset.
  - lia.
  - simpl. destruct (grow_pass hit G set false) as [set' changed] eqn:E.
    assert (Hinv' : Inv set').
    { pose proof (grow_pass_inv Inv G Hstep G (incl_refl G) set false Hset)
        as H. now rewrite E in H. }
    assert (Hincl : incl set set').
    { pose proof (grow_pass_incl G set false) as H. now rewrite E in H. }
    destruct changed.
    + destruct (grow_pass_changed _ _ _ _ E) as [Hc | [A [HA [Hn Hy]]]];
        [discriminate|].
      pose proof (missing_lt G set set' A Hincl HA Hn Hy) as Hlt.
      destruct (IH set') as [final [E' [Hf [Hi Hfix]]]];
        [lia | assumption |].
      exists final. repeat split; try assumption.
      eapply incl_tran; eassumption.
    + destruct (grow_pass_stable _ _ _ _ E) as [_ [-> Hfix]].
      exists set. repeat split; try assumption.
Qed.
End GrowingSet.

Lemma nullable_pass_grow (items : Productions) :
  forall nullable changed,
    nullable_pass items nullable changed
    = grow_pass nullable_hit items nullable changed.
Proof.
  induction items as [|[A bodies] items IH]; intros nullable changed; simpl.
  - reflexivity.
  - now rewrite !IH.
Qed.

Lemma nullable_loop_grow (prods : Productions) :
  forall fuel nullable,
    nullable_loop fuel prods nullable
    = grow_loop nullable_hit fuel prods nullable.
Proof.
  induction fuel as [|fuel IH]; intros nullable; simpl.
  - reflexivity.
  - rewrite nullable_pass_grow.
    destruct (grow_pass nullable_hit prods nullable false) as [n c].
    now rewrite IH.
Qed.

Lemma gen_pass_grow (items : Productions) :
  forall gen changed,
    gen_pass items gen changed
    = grow_pass (fun gen => existsb (gen_ok gen)) items gen changed.
Proof.
  induction items as [|[A bodies] items IH]; intros gen changed; simpl.
  - reflexivity.
  - now rewrite !IH.
Qed.

Lemma gen_loop_grow (prods : Productions) :
  forall fuel gen,
    gen_loop fuel prods gen
    = grow_loop (fun gen => existsb (gen_ok gen)) fuel prods gen.
Proof.
  induction fuel as [|fuel IH]; intros gen; simpl.
  - reflexivity.
  - rewrite gen_pass_grow.
    destruct (grow_pass (fun gen => existsb (gen_ok gen)) prods gen false)
      as [n c].
    now rewrite IH.
Qed.

(** ** Characters and well-formed grammars *)

Ltac char_cases :=
  unfold is_terminal, is_nonterminal, islower, isdigit, isupper,
    valid_body_char in *;
  repeat match goal with
         | H : context [N.leb ?a ?b] |- _ => destruct (N.leb_spec a b)
         | H : context [N.eqb ?a ?b] |- _ => destruct (N.eqb_spec a b)
         | |- context [N.leb ?a ?b] => destruct (N.leb_spec a b)
         | |- context [N.eqb ?a ?b] => destruct (N.eqb_spec a b)
         end;
  simpl in *; try congruence; try lia.

Lemma nonterminal_not_terminal (ch : char) :
  is_nonterminal ch = true -> is_terminal ch = false.
Proof. intros H. char_cases. Qed.

Lemma valid_char_class (ch : char) :
  valid_body_char ch = true -> is_terminal ch = negb (is_nonterminal ch).
Proof. intros H. char_cases. Qed.

Lemma valid_char_not_eps (ch : char) :
  valid_body_char ch = true -> ch <> 949%N.
Proof. intros H. char_cases. Qed.

Lemma wf_key_inv (A : str) :
  wf_key A = true ->
  exists ch, A = [ch] /\ is_nonterminal ch = true /\ valid_body_char ch = true.
Proof.
  destruct A as [|ch [|? ?]]; simpl; try discriminate.
  intros H. exists ch. split; [reflexivity|]. split; char_cases.
Qed.

Lemma wf_body_inv (b : str) :
  wf_body b = true ->
  b = EPS \/ (b <> [] /\ forall ch, In ch b -> valid_body_char ch = true).
Proof.
  unfold wf_body. rewrite orb_true_iff, andb_true_iff.
  intros [H | [H1 H2]].
  - left. now apply str_eqb_eq.
  - right. split.
    + destruct b; [discriminate | congruence].
    + now apply forallb_forall.
Qed.

Lemma wf_body_not_eps (b : str) :
  wf_body b = true -> b <> EPS ->
  b <> [] /\ ~ In 949%N b /\ forall ch, In ch b -> valid_body_char ch = true.
Proof.
  intros H Hne. destruct (wf_body_inv _ H) as [-> | [H1 H2]]; [congruence|].
  repeat split; try assumption.
  intros Hin. apply H2 in Hin. now apply valid_char_not_eps in Hin.
Qed.

Lemma wf_grammar_nodup (G : Productions) :
  wf_grammar G = true -> NoDup (keys G).
Proof.
  unfold wf_grammar. rewrite andb_true_iff. intros [H _].
  now apply nodupb_NoDup.
Qed.

Lemma wf_grammar_entry (G : Productions) (A : str) (bodies : list str) :
  wf_grammar G = true -> In (A, bodies) G ->
  wf_key A = true /\ NoDup bodies /\
  forall b, In b bodies -> wf_body b = true.
Proof.
  unfold wf_grammar. rewrite andb_true_iff. intros [_ H] Hin.
  rewrite forallb_forall in H. specialize (H _ Hin). simpl in H.
  rewrite !andb_true_iff in H. destruct H as [[H1 H2] H3].
  repeat split; [assumption | now apply nodupb_NoDup |].
  now apply forallb_forall.
Qed.

Lemma wf_grammar_key (G : Productions) (A : str) :
  wf_grammar G = true -> In A (keys G) -> wf_key A = true.
Proof.
  intros Hwf HA. apply in_map_iff in HA. destruct HA as [[A' bodies] [<- Hin]].
  now destruct (wf_grammar_entry _ _ _ Hwf Hin).
Qed.

(** ** Derivations *)

Lemma derives_app (G : Productions) (alpha beta u w : str) :
  derives G alpha u -> derives G beta w -> derives G (alpha ++ beta) (u ++ w).
Proof.
  intros H1 H2. induction H1; simpl.
  - assumption.
  - now apply derives_terminal.
  - rewrite <- app_assoc. eapply derives_nonterminal; eassumption.
Qed.

Lemma derives_empty_all (G : Productions) (alpha : str) :
  (forall ch, In ch alpha -> derives G [ch] []) -> derives G alpha [].
Proof.
  induction alpha as [|ch alpha IH]; intros H.
  - constructor.
  - change (derives G ([ch] ++ alpha) ([] ++ [])). apply derives_app.
    + apply H. now left.
    + apply IH. intros c Hc. apply H. now right.
Qed.

Lemma derives_word (G : Productions) (alpha w : str) :
  derives G alpha w -> is_word w = true.
Proof.
  intros H. induction H; simpl.
  - reflexivity.
  - unfold is_word in *. simpl. now rewrite H, IHderives.
  - unfold is_word in *. rewrite forallb_app. now rewrite IHderives1.
Qed.

Lemma word_derives (G : Productions) (w : str) :
  is_word w = true -> derives G w w.
Proof.
  unfold is_word. induction w as [|ch w IH]; simpl; intros H.
  - constructor.
  - apply andb_true_iff in H. destruct H as [H1 H2].
    constructor; auto.
Qed.

Lemma derives_app_inv (G : Productions) (alpha beta : str) :
  forall w, derives G (alpha ++ beta) w ->
  exists u v, w = u ++ v /\ derives G alpha u /\ derives G beta v.
Proof.
  induction alpha as [|ch alpha IH]; intros w H; simpl in H.
  - exists [], w. repeat split; [constructor | assumption].
  - inversion H as
      [|c a w' Ht H'|c bodies b a u w' Hnt Hin Hb H1 H2]; subst.
    + destruct (IH _ H') as [u [v [-> [Hu Hv]]]].
      exists (ch :: u), v. repeat split; [now constructor | assumption].
    + destruct (IH _ H2) as [u' [v [-> [Hu Hv]]]].
      exists (u ++ u'), v. rewrite app_assoc. repeat split; [|assumption].
      now apply derives_nonterminal with bodies b.
Qed.

Lemma rewrites_star_trans (G : Productions) (alpha beta gamma : str) :
  rewrites_star G alpha beta -> rewrites_star G beta gamma ->
  rewrites_star G alpha gamma.
Proof.
  intros H1 H2. induction H1; [assumption|].
  eapply rewrites_more; eauto.
Qed.

Lemma rewrites_star_context (G : Productions) (gamma delta alpha beta : str) :
  rewrites_star G alpha beta ->
  rewrites_star G (gamma ++ alpha ++ delta) (gamma ++ beta ++ delta).
Proof.
  intros H. induction H as [|x y z Hxy Hyz IH]; [constructor|].
  apply rewrites_more with (gamma ++ y ++ delta); [|assumption].
  destruct Hxy as [a ch bodies b c Hnt Hin Hb].
  replace (gamma ++ (a ++ ch :: c) ++ delta)
    with ((gamma ++ a) ++ ch :: (c ++ delta))
    by (rewrite <- !app_assoc; reflexivity).
  replace (gamma ++ (a ++ rhs b ++ c) ++ delta)
    with ((gamma ++ a) ++ rhs b ++ (c ++ delta))
    by (rewrite <- !app_assoc; reflexivity).
  now apply rewrites_at with bodies.
Qed.

(** A string derives a word exactly when it can be rewritten into it. *)
Lemma derives_iff_rewrites (G : Productions) (alpha w : str) :
  derives G alpha w <-> rewrites_star G alpha w /\ is_word w = true.
Proof.
  split.
  - intros H. split; [|eapply derives_word; eassumption].
    induction H as
      [|ch alpha w Ht H IH|ch bodies b alpha u w Hnt Hin Hb H1 IH1 H2 IH2].
    + constructor.
    + apply (rewrites_star_context G [ch] [] alpha w) in IH.
      now rewrite !List.app_nil_r in IH.
    + apply rewrites_more with (rhs b ++ alpha).
      * apply (rewrites_at G [] ch bodies b alpha); assumption.
      * apply rewrites_star_trans with (u ++ alpha).
        -- apply (rewrites_star_context G [] alpha (rhs b) u) in IH1.
           exact IH1.
        -- apply (rewrites_star_context G u [] alpha w) in IH2.
           now rewrite !List.app_nil_r in IH2.
  - intros [H Hw]. induction H as [x|x y z Hxy Hyz IH].
    + now apply word_derives.
    + specialize (IH Hw). destruct Hxy as [a ch bodies b c Hnt Hin Hb].
      destruct (derives_app_inv G a (rhs b ++ c) _ IH) as [u [v [-> [Hu Hv]]]].
      destruct (derives_app_inv G (rhs b) c _ Hv) as [u' [v' [-> [Hu' Hv']]]].
      apply derives_app; [assumption|].
      now apply derives_nonterminal with bodies b.
Qed.

(** ** Nullable nonterminals *)

Lemma nullable_ok_derives (G : Productions) (nullable : list str) (b : str) :
  nullable_sound G nullable ->
  (forall ch, In ch b -> valid_body_char ch = true) ->
  nullable_ok nullable b = true -> derives G b [].
Proof.
  intros Hs Hv Hok. apply derives_empty_all. intros ch Hch.
  unfold nullable_ok in Hok. rewrite forallb_forall in Hok.
  specialize (Hok _ Hch). specialize (Hv _ Hch).
  apply valid_char_class in Hv.
  rewrite andb_true_iff, !negb_true_iff in Hok. destruct Hok as [Ht Hn].
  rewrite Ht in Hv. destruct (is_nonterminal ch); [|discriminate].
  simpl in Hn. apply negb_false_iff, mem_In in Hn. now apply Hs.
Qed.

Lemma nullable_hit_sound (G : Productions) (set : list str) (A : str)
  (bodies : list str) :
  wf_grammar G = true ->
  nullable_sound G set -> In (A, bodies) G ->
  nullable_hit set bodies = true -> nullable_sound G (set_add A set).
Proof.
  intros Hwf Hs Hin Hhit B HB. apply set_add_In in HB.
  destruct HB as [-> | HB]; [|now apply Hs].
  split; [apply (in_map fst) in Hin; exact Hin|].
  destruct (wf_grammar_entry _ _ _ Hwf Hin) as [Hk [_ Hb]].
  destruct (wf_key_inv _ Hk) as [ch [-> [Hnt _]]].
  unfold nullable_hit in Hhit. apply existsb_exists in Hhit.
  destruct Hhit as [b [Hbin Hb']].
  change (derives G [ch] ([] ++ [])).
  eapply derives_nonterminal; try eassumption; [|constructor].
  unfold rhs. destruct (str_eqb b EPS) eqn:E; [constructor|].
  simpl in Hb'. apply str_eqb_neq in E.
  destruct (wf_body_not_eps _ (Hb _ Hbin) E) as [_ [_ Hv]].
  eapply nullable_ok_derives; eassumption.
Qed.

Lemma nullable_seed_sound (G : Productions) :
  wf_grammar G = true -> nullable_sound G (nullable_seed G).
Proof.
  intros Hwf. unfold nullable_seed.
  apply fold_left_inv with (Inv := nullable_sound G).
  - intros set [A bodies] Hin Hs. destruct (mem EPS bodies) eqn:E; [|assumption].
    apply nullable_hit_sound with bodies; try assumption.
    unfold nullable_hit. apply existsb_exists. exists EPS.
    split; [now apply mem_In | reflexivity].
  - intros A [].
Qed.

(** A set closed under the test of the loop holds every nonterminal of a
    string that derives the empty string. *)
Lemma nullable_closed_complete (G : Productions) (final : list str) :
  (forall A bodies, In (A, bodies) G ->
                    In A final \/ nullable_hit final bodies = false) ->
  forall alpha w, derives G alpha w -> w = [] ->
  forall ch, In ch alpha -> is_nonterminal ch = true /\ In [ch] final.
Proof.
  intros Hfix alpha w H. induction H as
    [|ch alpha w Ht H IH|ch bodies b alpha u w Hnt Hin Hb H1 IH1 H2 IH2];
    intros Hw c Hc.
  - destruct Hc.
  - discriminate.
  - apply app_eq_nil in Hw. destruct Hw as [-> ->].
    destruct Hc as [<- | Hc]; [|now apply IH2].
    split; [assumption|].
    destruct (Hfix _ _ Hin) as [Hy | Hno]; [assumption|].
    exfalso. unfold nullable_hit in Hno.
    assert (Hyes : existsb (fun b => str_eqb b EPS || nullable_ok final b)
                           bodies = true).
    { apply existsb_exists. exists b. split; [assumption|].
      unfold rhs in IH1. destruct (str_eqb b EPS) eqn:E; [reflexivity|].
      simpl. unfold nullable_ok. apply forallb_forall. intros x Hx.
      destruct (IH1 eq_refl x Hx) as [Hx1 Hx2].
      rewrite (nonterminal_not_terminal _ Hx1), Hx1.
      apply mem_In in Hx2. now rewrite Hx2. }
    congruence.
Qed.

Lemma find_nullable_spec (start : str) (G : Productions) :
  wf_grammar G = true ->
  exists nullable,
    find_nullable start G = Ok nullable /\
    nullable_sound G nullable /\
    (forall A bodies, In (A, bodies) G ->
                      In A nullable \/ nullable_hit nullable bodies = false).
Proof.
  intros Hwf. unfold find_nullable. rewrite nullable_loop_grow.
  destruct (grow_loop_spec nullable_hit (nullable_sound G) G)
    with (fuel := S (length G)) (set := nullable_seed G)
    as [final [E [Hs [_ Hfix]]]].
  - intros set A bodies Hs Hin _ Hhit.
    now apply nullable_hit_sound with bodies.
  - pose proof (missing_bound G (nullable_seed G)). lia.
  - now apply nullable_seed_sound.
  - exists final. auto.
Qed.

(** The set [find_nullable] returns, against derivations. *)
Lemma find_nullable_derives (start : str) (G : Productions) :
  wf_grammar G = true ->
  exists nullable,
    find_nullable start G = Ok nullable /\
    forall A, In A (keys G) -> (In A nullable <-> derives G A []).
Proof.
  intros Hwf. destruct (find_nullable_spec start G Hwf)
    as [nullable [E [Hs Hfix]]].
  exists nullable. split; [assumption|]. intros A HA. split.
  - intros H. now apply Hs.
  - intros H. destruct (wf_key_inv _ (wf_grammar_key _ _ Hwf HA))
      as [ch [-> _]].
    apply (nullable_closed_complete G nullable Hfix _ _ H eq_refl ch). now left.
Qed.

Lemma derives_empty_iff (G : Productions) (alpha : str) :
  derives G alpha [] <-> rewrites_star G alpha [].
Proof.
  rewrite derives_iff_rewrites. simpl. tauto.
Qed.

(** C5. For a grammar as the parser returns it, [find_nullable] returns a
    set, and a nonterminal of the grammar is in that set exactly when it
    can be rewritten into the empty string with the productions of the
    grammar; derivation trees say the same. *)
Theorem find_nullable_correct (start : str) (G : Productions) :
  wf_grammar G = true ->
  exists nullable,
    find_nullable start G = Ok nullable /\
    forall A, In A (keys G) ->
              (In A nullable <-> rewrites_star G A []) /\
              (In A nullable <-> derives G A []).
Proof.
  intros Hwf.
  destruct (find_nullable_derives start G Hwf) as [nullable [E H]].
  exists nullable. split; [assumption|]. intros A HA.
  split; [|now apply H]. rewrite <- derives_empty_iff. now apply H.
Qed.

(** ** Elimination of epsilon productions *)

Lemma getitem_key {V : Type} (k : str) (d : dict V) :
  In k (keys d) -> exists v, getitem k d = Ok v /\ lookup k d = Some v.
Proof.
  intros H. apply lookup_Some_key in H. destruct H as [v Hv].
  exists v. unfold getitem. now rewrite Hv.
Qed.

Lemma getitem_Ok {V : Type} (k : str) (d : dict V) (v : V) :
  getitem k d = Ok v -> lookup k d = Some v.
Proof.
  unfold getitem. destruct (lookup k d); [intros [= ->]; reflexivity|].
  discriminate.
Qed.

Lemma index_of_In (i : nat) (l : list nat) (n : nat) :
  index_of i l = Some n -> In i l.
Proof.
  revert n. induction l as [|j l IH]; intros n; simpl; [discriminate|].
  destruct (Nat.eqb_spec i j) as [-> | Hne]; [now left|].
  destruct (index_of i l); [|discriminate]. intros _. right. eauto.
Qed.

Lemma candidate_from_In (b : str) (positions : list nat) (mask : N) :
  forall i ch, In ch (candidate_from i b positions mask) -> In ch b.
Proof.
  induction b as [|c b IH]; intros i ch; simpl; [tauto|].
  destruct (index_of i positions) as [pos_idx|].
  - destruct (N.testbit mask (N.of_nat pos_idx)); simpl.
    + intros H. right. eauto.
    + intros [H | H]; [now left | right; eauto].
  - simpl. intros [H | H]; [now left | right; eauto].
Qed.

Lemma candidate_nil_positions (b : str) (positions : list nat) (mask : N) :
  forall i, candidate_from i b positions mask = [] ->
  forall j ch, nth_error b j = Some ch -> In (i + j) positions.
Proof.
  induction b as [|c b IH]; intros i H j ch Hj.
  - destruct j; discriminate.
  - simpl in H. destruct (index_of i positions) as [pos_idx|] eqn:E;
      [|discriminate].
    destruct (N.testbit mask (N.of_nat pos_idx)); [|discriminate].
    destruct j as [|j].
    + rewrite Nat.add_0_r. eapply index_of_In; eassumption.
    + simpl in Hj. rewrite Nat.add_succ_r.
      apply (IH (S i) H j ch Hj).
Qed.

Lemma positions_from_spec (nullable : list str) (b : str) :
  forall i k, In k (positions_from i b nullable) ->
  i <= k /\
  exists ch, nth_error b (k - i) = Some ch /\
             is_nonterminal ch = true /\ In [ch] nullable.
Proof.
  induction b as [|c b IH]; intros i k; simpl; [tauto|].
  assert (Hrec : In k (positions_from (S i) b nullable) ->
                 i <= k /\
                 exists ch, nth_error (c :: b) (k - i) = Some ch /\
                            is_nonterminal ch = true /\ In [ch] nullable).
  { intros H. destruct (IH _ _ H) as [Hle [ch [Hn Hc]]].
    split; [lia|]. exists ch. split; [|assumption].
    replace (k - i) with (S (k - S i)) by lia. exact Hn. }
  destruct (is_nonterminal c && mem [c] nullable) eqn:E; [|exact Hrec].
  intros [<- | H]; [|now apply Hrec].
  split; [lia|]. exists c. rewrite Nat.sub_diag.
  apply andb_true_iff in E. destruct E as [E1 E2]. apply mem_In in E2.
  repeat split; assumption.
Qed.

Lemma candidate_nil_nullable (nullable : list str) (b : str) (mask : N) :
  candidate_from 0 b (positions_from 0 b nullable) mask = [] ->
  nullable_ok nullable b = true.
Proof.
  intros H. unfold nullable_ok. apply forallb_forall. intros ch Hch.
  destruct (In_nth_error _ _ Hch) as [j Hj].
  pose proof (candidate_nil_positions _ _ _ _ H _ _ Hj) as Hp. simpl in Hp.
  destruct (positions_from_spec _ _ _ _ Hp) as [_ [c [Hc [Hnt Hin]]]].
  rewrite Nat.sub_0_r, Hj in Hc. injection Hc as <-.
  rewrite (nonterminal_not_terminal _ Hnt), Hnt.
  apply mem_In in Hin. now rewrite Hin.
Qed.

Section EliminateEpsilon.
Variables (G : Productions) (start : str) (keep : bool)
  (nullable : list str).
Hypothesis Hwf : wf_grammar G = true.
Hypothesis Hclosed :
  forall A bodies, In (A, bodies) G ->
                   In A nullable \/ nullable_hit nullable bodies = false.

Lemma generated_of_ok (A : str) (bodies : list str) (b : str) :
  In (A, bodies) G -> In b bodies -> b <> EPS ->
  forall x, In x (generated_of start A keep nullable b) ->
            eps_ok start keep nullable A x.
Proof.
  intros Hin Hb Hne. unfold generated_of.
  apply fold_left_inv
    with (Inv := fun g => forall x, In x g -> eps_ok start keep nullable A x);
    [|intros x []].
  intros g mask _ Hg x.
  destruct (candidate_from 0 b (positions_from 0 b nullable) mask)
    as [|c t] eqn:E.
  - destruct (str_eqb A start && keep) eqn:Ek; [|apply Hg].
    rewrite set_add_In. intros [-> | Hx]; [|now apply Hg].
    intros _. apply andb_true_iff in Ek. destruct Ek as [Ea Ek].
    apply str_eqb_eq in Ea. subst A. repeat split; try assumption.
    destruct (Hclosed _ _ Hin) as [Hy | Hno]; [assumption|].
    exfalso. apply candidate_nil_nullable in E.
    unfold nullable_hit in Hno.
    assert (Hyes : existsb (fun b => str_eqb b EPS || nullable_ok nullable b)
                           bodies = true).
    { apply existsb_exists. exists b. split; [assumption|].
      rewrite E. apply orb_true_r. }
    congruence.
  - rewrite set_add_In. intros [-> | Hx]; [|now apply Hg].
    intros Heps. exfalso.
    destruct (wf_grammar_entry _ _ _ Hwf Hin) as [_ [_ Hbs]].
    destruct (wf_body_not_eps _ (Hbs _ Hb) Hne) as [_ [Hno _]].
    apply Hno. apply candidate_from_In
      with (positions := positions_from 0 b nullable) (mask := mask) (i := 0).
    rewrite E, Heps. now left.
Qed.

Lemma eps_inv_init : eps_inv G start keep nullable (empty_sets (keys G)).
Proof.
  split.
  - intros k. apply keys_empty_sets.
  - intros A s Hs x Hx. apply lookup_empty_sets in Hs. subst. destruct Hx.
Qed.

Lemma eps_inv_update (new_prods : Productions) (A : str) (s t : list str) :
  eps_inv G start keep nullable new_prods ->
  lookup A new_prods = Some s ->
  (forall x, In x t -> eps_ok start keep nullable A x) ->
  eps_inv G start keep nullable (setitem A (set_update s t) new_prods).
Proof.
  intros [Hk Hb] Hs Ht. split.
  - intros k. rewrite keys_setitem_In, <- Hk. split; [|tauto].
    intros [-> | H]; [|assumption]. apply lookup_Some_key. eauto.
  - intros B s' Hs' x Hx. rewrite lookup_setitem in Hs'.
    destruct (str_eqb B A) eqn:E.
    + apply str_eqb_eq in E. subst B. injection Hs' as <-.
      apply set_update_In in Hx. destruct Hx as [Hx | Hx]; [|now apply Ht].
      eapply Hb; eassumption.
    + eapply Hb; eassumption.
Qed.

(** The main loop of [eliminate_epsilon] ends and keeps [eps_inv]. *)
Lemma eps_main_loop :
  exists new_prods,
    foldM (fun new_prods '(A, bodies) =>
             foldM (fun new_prods b =>
                      if str_eqb b EPS then Ok new_prods
                      else
                        let generated :=
                          generated_of start A keep nullable b in
                        s <- getitem A new_prods ;;
                        Ok (setitem A
                              (set_update s
                                 (match generated with
                                  | [] => [b]
                                  | _ => generated
                                  end))
                              new_prods))
                   bodies new_prods)
          G (empty_sets (keys G)) = Ok new_prods
    /\ eps_inv G start keep nullable new_prods.
Proof.
  apply foldM_inv with (Inv := eps_inv G start keep nullable);
    [|apply eps_inv_init].
  intros np [A bodies] Hin Hnp.
  apply foldM_inv with (Inv := eps_inv G start keep nullable);
    [|assumption].
  intros np' b Hb Hnp'. destruct (str_eqb b EPS) eqn:E; [eauto|].
  apply str_eqb_neq in E. cbv zeta.
  destruct (getitem_key A np') as [s [Es Hs]].
  { apply Hnp'. apply (in_map fst) in Hin. exact Hin. }
  rewrite Es. simpl. eexists. split; [reflexivity|].
  apply eps_inv_update; try assumption.
  pose proof (generated_of_ok A bodies b Hin Hb E) as Hgen.
  destruct (generated_of start A keep nullable b) as [|g gs].
  - intros x [<- | []]. intros Hx. congruence.
  - exact Hgen.
Qed.
End EliminateEpsilon.

Lemma set_discard_idem (x : str) (s : list str) :
  set_discard x (set_discard x s) = set_discard x s.
Proof.
  unfold set_discard. induction s as [|y s IH]; simpl; [reflexivity|].
  destruct (str_eqb x y) eqn:E; simpl; [assumption|]. rewrite E. simpl.
  now rewrite IH.
Qed.

(** The last loop of [eliminate_epsilon]: every set but the start symbol's
    loses the marker, and nothing else changes. *)
Lemma discard_loop (start : str) (l : list str) :
  forall d : Productions,
    (forall A, In A l -> In A (keys d)) ->
    exists d',
      foldM (fun new_prods A =>
               if str_eqb A start then Ok new_prods
               else s <- getitem A new_prods ;;
                    Ok (setitem A (set_discard EPS s) new_prods))
            l d = Ok d'
      /\ forall A,
          lookup A d'
          = option_map (fun s => if mem A l && negb (str_eqb A start)
                                 then set_discard EPS s else s)
                       (lookup A d).
Proof.
  induction l as [|A0 l IH]; intros d Hk; simpl.
  - exists d. split; [reflexivity|]. intros A. now destruct (lookup A d).
  - destruct (str_eqb A0 start) eqn:E0.
    + simpl. destruct (IH d) as [d' [E' H']].
      { intros A HA. apply Hk. now right. }
      exists d'. split; [assumption|]. intros A. rewrite H'.
      destruct (lookup A d) as [s|]; [simpl|reflexivity].
      destruct (str_eqb A A0) eqn:EA; [|reflexivity].
      apply str_eqb_eq in EA. subst A0. rewrite E0. simpl.
      now rewrite andb_false_r.
    + destruct (getitem_key A0 d) as [s [Es Hs]]; [apply Hk; now left|].
      rewrite Es. simpl.
      destruct (IH (setitem A0 (set_discard EPS s) d)) as [d' [E' H']].
      { intros A HA. apply keys_setitem_In. right. apply Hk. now right. }
      exists d'. split; [assumption|]. intros A. rewrite H', lookup_setitem.
      destruct (str_eqb A A0) eqn:EA.
      * apply str_eqb_eq in EA. subst A0. rewrite Hs, E0. simpl.
        destruct (mem A l); simpl; [now rewrite set_discard_idem | reflexivity].
      * reflexivity.
Qed.

(** The whole of [eliminate_epsilon] on a well-formed grammar. *)
Lemma eliminate_epsilon_spec (start : str) (G : Productions) (keep : bool) :
  wf_grammar G = true ->
  exists nullable G',
    find_nullable start G = Ok nullable /\
    eliminate_epsilon start G keep = Ok G' /\
    (forall k, In k (keys G') <-> In k (keys G)) /\
    (forall A s, lookup A G' = Some s -> forall x, In x s ->
                 eps_ok start keep nullable A x) /\
    (forall A s, lookup A G' = Some s -> A <> start -> ~ In EPS s) /\
    (keep = true -> In start nullable ->
     exists s, lookup start G' = Some s /\ In EPS s).
Proof.
  intros Hwf.
  destruct (find_nullable_spec start G Hwf) as [nullable [En [Hs Hfix]]].
  destruct (eps_main_loop G start keep nullable Hwf Hfix) as [np [E2 Hinv]].
  assert (H3 : exists np3,
             (if keep && mem start nullable
              then add_to start EPS np else Ok np) = Ok np3
             /\ eps_inv G start keep nullable np3
             /\ (keep = true -> In start nullable ->
                 exists s, lookup start np3 = Some s /\ In EPS s)).
  { destruct (keep && mem start nullable) eqn:Ek.
    - apply andb_true_iff in Ek. destruct Ek as [-> Em]. apply mem_In in Em.
      destruct (getitem_key start np) as [s [Es Hs']].
      { apply Hinv. now apply Hs. }
      unfold add_to. rewrite Es. simpl. eexists. split; [reflexivity|].
      split.
      + replace (set_add EPS s) with (set_update s [EPS]) by reflexivity.
        apply eps_inv_update; try assumption.
        intros x [<- | []] _. auto.
      + intros _ _. exists (set_add EPS s). rewrite lookup_setitem_eq.
        split; [reflexivity|]. apply set_add_In. now left.
    - exists np. split; [reflexivity|]. split; [assumption|].
      intros -> Hin. apply mem_In in Hin. simpl in Ek. congruence. }
  destruct H3 as [np3 [E3 [[Hk3 Hb3] Hs3]]].
  destruct (discard_loop start (keys np3) np3) as [G' [E4 H4]]; [auto|].
  exists nullable, G'. split; [assumption|]. split.
  { unfold eliminate_epsilon. rewrite En. cbn [bind]. cbv zeta in E2.
    rewrite E2. cbn [bind]. rewrite E3. cbn [bind]. exact E4. }
  assert (Hlk : forall A s, lookup A G' = Some s ->
                            exists s3, lookup A np3 = Some s3 /\
                                       (forall x, In x s -> In x s3) /\
                                       (A <> start -> ~ In EPS s) /\
                                       (A = start -> s = s3)).
  { intros A s HA. rewrite H4 in HA.
    destruct (lookup A np3) as [s3|] eqn:E; [|discriminate].
    exists s3. split; [reflexivity|]. simpl in HA. injection HA as <-.
    assert (Hm : mem A (keys np3) = true).
    { apply mem_In. apply lookup_Some_key. eauto. }
    rewrite Hm. simpl. destruct (str_eqb A start) eqn:Ea; simpl.
    - apply str_eqb_eq in Ea. repeat split; auto; congruence.
    - apply str_eqb_neq in Ea. repeat split.
      + intros x Hx. now apply set_discard_In in Hx.
      + intros _ Hx. apply set_discard_In in Hx. tauto.
      + congruence. }
  split; [|split; [|split]].
  - intros k. split.
    + intros Hk. apply Hk3. apply lookup_Some_key in Hk.
      destruct Hk as [s Hs']. destruct (Hlk _ _ Hs') as [s3 [Hs3' _]].
      apply lookup_Some_key. eauto.
    + intros Hk. apply Hk3 in Hk. apply lookup_Some_key in Hk.
      destruct Hk as [s3 Hs3']. apply lookup_Some_key.
      rewrite H4, Hs3'. simpl. eauto.
  - intros A s HA x Hx. destruct (Hlk _ _ HA) as [s3 [Hs3' [Hsub _]]].
    eapply Hb3; eauto.
  - intros A s HA Hne. destruct (Hlk _ _ HA) as [s3 [_ [_ [Hno _]]]]. auto.
  - intros Hkeep Hin. destruct (Hs3 Hkeep Hin) as [s3 [Hs3' Heps]].
    exists s3. rewrite H4, Hs3'. simpl. rewrite str_eqb_refl.
    now rewrite andb_false_r.
Qed.

(** C4. On a well-formed grammar whose start symbol is one of its
    nonterminals, [eliminate_epsilon] returns a grammar; with retention on,
    the marker is a body of [A] there exactly when [A] is the start symbol
    and the start symbol can be rewritten into the empty string in the
    input; with retention on or off, no other nonterminal has the marker as
    a body. *)
Theorem eliminate_epsilon_marker (start : str) (G : Productions)
  (keep : bool) :
  wf_grammar G = true -> In start (keys G) ->
  exists G',
    eliminate_epsilon start G keep = Ok G' /\
    (keep = true ->
     forall A, (exists s, lookup A G' = Some s /\ In EPS s)
               <-> (A = start /\ rewrites_star G start [])) /\
    (forall A s, lookup A G' = Some s -> A <> start -> ~ In EPS s).
Proof.
  intros Hwf Hstart.
  destruct (eliminate_epsilon_spec start G keep Hwf)
    as [nullable [G' [En [E [Hk [Hok [Hno Hyes]]]]]]].
  destruct (find_nullable_spec start G Hwf) as [n' [En' [Hs Hfix]]].
  rewrite En in En'. injection En' as <-.
  exists G'. split; [assumption|]. split; [|assumption].
  intros Hkeep A. rewrite <- derives_empty_iff. split.
  - intros [s [HA Heps]]. destruct (Hok _ _ HA _ Heps eq_refl) as [-> [_ Hn]].
    split; [reflexivity|]. now apply Hs.
  - intros [-> Hd]. apply Hyes; [assumption|].
    destruct (wf_key_inv _ (wf_grammar_key _ _ Hwf Hstart)) as [ch [-> _]].
    apply (nullable_closed_complete G nullable Hfix _ _ Hd eq_refl ch).
    now left.
Qed.

(** C10. On a well-formed grammar, [eliminate_epsilon] with retention off
    returns a grammar in which no nonterminal, the start symbol included,
    has the marker as a body. *)
Theorem eliminate_epsilon_no_marker (start : str) (G : Productions) :
  wf_grammar G = true ->
  exists G',
    eliminate_epsilon start G false = Ok G' /\
    forall A s, lookup A G' = Some s -> ~ In EPS s.
Proof.
  intros Hwf.
  destruct (eliminate_epsilon_spec start G false Hwf)
    as [nullable [G' [_ [E [_ [Hok _]]]]]].
  exists G'. split; [assumption|]. intros A s HA Heps.
  destruct (Hok _ _ HA _ Heps eq_refl) as [_ [Hk _]]. discriminate.
Qed.

(** ** Dictionaries built entry by entry *)

Lemma In_setitem {V : Type} (k k0 : str) (v v0 : V) (d : dict V) :
  In (k0, v0) (setitem k v d) -> (k0 = k /\ v0 = v) \/ In (k0, v0) d.
Proof.
  induction d as [|[k' v'] d IH]; simpl.
  - intros [[= <- <-] | []]. now left.
  - destruct (str_eqb k k') eqn:E; simpl.
    + apply str_eqb_eq in E. subst k'.
      intros [[= <- <-] | H]; [now left | right; now right].
    + intros [H | H]; [right; now left|].
      destruct (IH H) as [H' | H']; [now left | right; now right].
Qed.

Lemma NoDup_keys_setitem {V : Type} (k : str) (v : V) (d : dict V) :
  NoDup (keys d) -> NoDup (keys (setitem k v d)).
Proof.
  intros H. rewrite keys_setitem. destruct (mem k (keys d)) eqn:E.
  - assumption.
  - apply mem_not_In in E. apply NoDup_app; [assumption | | ].
    + constructor; [intros [] | constructor].
    + intros x Hx [<- | []]. contradiction.
Qed.

Lemma NoDup_keys_empty_sets (ks : list str) : NoDup (keys (empty_sets ks)).
Proof.
  unfold empty_sets.
  apply fold_left_inv with (Inv := fun d : Productions => NoDup (keys d)).
  - intros d A _ H. now apply NoDup_keys_setitem.
  - constructor.
Qed.

Section FilterDict.
Variables (V : Type) (p : str -> V -> bool) (g : str -> V -> V).

Lemma filter_dict_lookup (d : dict V) :
  NoDup (keys d) ->
  forall acc A,
    (forall k, In k (keys d) -> lookup k acc = None) ->
    lookup A (fold_left (filter_step p g) d acc)
    = match lookup A d with
      | Some v => if p A v then Some (g A v) else None
      | None => lookup A acc
      end.
Proof.
  induction d as [|[k v] d IH]; intros Hnd acc A Hacc; simpl.
  - reflexivity.
  - inversion Hnd as [|? ? Hnot Hnd']; subst.
    rewrite IH; [|assumption|].
    + destruct (str_eqb A k) eqn:E.
      * apply str_eqb_eq in E. subst k.
        assert (Hl : lookup A d = None) by now apply lookup_None.
        rewrite Hl. destruct (p A v).
        -- apply lookup_setitem_eq.
        -- apply Hacc. now left.
      * destruct (lookup A d); [reflexivity|].
        destruct (p k v); [|reflexivity].
        apply lookup_setitem_ne. now apply str_eqb_neq.
    + intros k' Hk'. destruct (p k v).
      * rewrite lookup_setitem_ne; [apply Hacc; now right|].
        intros ->. contradiction.
      * apply Hacc. now right.
Qed.

Lemma filter_dict_NoDup (d : dict V) :
  forall acc, NoDup (keys acc) -> NoDup (keys (fold_left (filter_step p g) d acc)).
Proof.
  induction d as [|[k v] d IH]; intros acc Hacc; simpl.
  - assumption.
  - apply IH. destruct (p k v); [|assumption].
    now apply NoDup_keys_setitem.
Qed.
End FilterDict.

(** ** Generating nonterminals *)

Lemma generating_nonterminals_spec (G : Productions) (Inv : list str -> Prop) :
  (forall set A bodies,
      Inv set -> In (A, bodies) G -> ~ In A set ->
      existsb (gen_ok set) bodies = true -> Inv (set_add A set)) ->
  Inv [] ->
  exists gen,
    generating_nonterminals G = Ok gen /\ Inv gen /\
    forall A bodies, In (A, bodies) G ->
                     In A gen \/ existsb (gen_ok gen) bodies = false.
Proof.
  intros Hstep H0. unfold generating_nonterminals. rewrite gen_loop_grow.
  destruct (grow_loop_spec (fun gen => existsb (gen_ok gen)) Inv G Hstep
              (S (length G)) []) as [gen [E [Hi [_ Hfix]]]].
  - pose proof (missing_bound G []). lia.
  - assumption.
  - exists gen. auto.
Qed.

Lemma kept_of_In (gen bodies : list str) (b : str) :
  In b (kept_of gen bodies)
  <-> In b bodies
      /\ forallb (fun ch => is_terminal ch || mem [ch] gen) b = true.
Proof.
  unfold kept_of.
  assert (H : forall acc,
             In b (fold_left
                     (fun kept b =>
                        if forallb (fun ch => is_terminal ch || mem [ch] gen) b
                        then set_add b kept else kept) bodies acc)
             <-> In b acc
                 \/ (In b bodies /\
                     forallb (fun ch => is_terminal ch || mem [ch] gen) b
                     = true)).
  { induction bodies as [|b0 bodies IH]; intros acc; simpl.
    - tauto.
    - rewrite IH.
      destruct (forallb (fun ch => is_terminal ch || mem [ch] gen) b0) eqn:E.
      + rewrite set_add_In. split.
        * intros [[-> | H] | H]; [right; split; auto | tauto | tauto].
        * intros [H | [[-> | H] H']]; tauto.
      + split; [tauto|]. intros [H | [[-> | H] H']]; try tauto. congruence. }
  rewrite H. simpl. tauto.
Qed.

Lemma prods_gen_lookup (gen : list str) (G : Productions) (A : str) :
  NoDup (keys G) ->
  lookup A (prods_gen_of gen G)
  = match lookup A G with
    | Some bodies => if mem A gen then Some (kept_of gen bodies) else None
    | None => None
    end.
Proof.
  intros Hnd.
  apply (filter_dict_lookup (list str) (fun A _ => mem A gen)
           (fun _ bodies => kept_of gen bodies) G Hnd [] A).
  reflexivity.
Qed.

Lemma prods_gen_NoDup (gen : list str) (G : Productions) :
  NoDup (keys (prods_gen_of gen G)).
Proof.
  apply (filter_dict_NoDup (list str) (fun A _ => mem A gen)
           (fun _ bodies => kept_of gen bodies) G []).
  constructor.
Qed.

(** ** Reachable nonterminals *)

Lemma set_add_new (x : str) (s : list str) :
  ~ In x s -> set_add x s = s ++ [x].
Proof.
  intros H. unfold set_add. apply mem_not_In in H. now rewrite H.
Qed.

Lemma set_add_NoDup (x : str) (s : list str) :
  NoDup s -> NoDup (set_add x s).
Proof.
  intros H. unfold set_add. destruct (mem x s) eqn:E; [assumption|].
  apply mem_not_In in E. apply NoDup_app; [assumption | | ].
  - constructor; [intros [] | constructor].
  - intros y Hy [<- | []]. contradiction.
Qed.

Lemma get_or_empty_In (A b : str) (prods : Productions) :
  In b (get_or_empty A prods) ->
  exists bodies, lookup A prods = Some bodies /\ In b bodies.
Proof.
  unfold get_or_empty. destruct (lookup A prods) as [v|]; [eauto | intros []].
Qed.

Lemma reach_body_inv (Inv : list str * bool -> Prop) (b : str) :
  (forall r c ch,
      In ch b -> Inv (r, c) -> is_nonterminal ch = true -> ~ In [ch] r ->
      Inv (set_add [ch] r, true)) ->
  forall st, Inv st -> Inv (reach_body b st).
Proof.
  unfold reach_body. intros Hstep st Hst.
  apply fold_left_inv with (Inv := Inv); [|assumption].
  intros [r c] ch Hch H.
  destruct (is_nonterminal ch && negb (mem [ch] r)) eqn:E; [|assumption].
  apply andb_true_iff in E. destruct E as [E1 E2].
  apply negb_true_iff, mem_not_In in E2. now apply Hstep with c.
Qed.

Lemma reach_pass_inv (Inv : list str * bool -> Prop) (prods : Productions)
  (reach : list str) :
  (forall r c A b ch,
      In A reach -> In b (get_or_empty A prods) -> In ch b ->
      Inv (r, c) -> is_nonterminal ch = true -> ~ In [ch] r ->
      Inv (set_add [ch] r, true)) ->
  Inv (reach, false) -> Inv (reach_pass prods reach).
Proof.
  intros Hstep H0. unfold reach_pass.
  apply fold_left_inv with (Inv := Inv); [|assumption].
  intros st A HA Hst.
  apply fold_left_inv with (Inv := Inv); [|assumption].
  intros st' b Hb Hst'. apply reach_body_inv; [|assumption].
  intros r c ch Hch H1 H2 H3. now apply Hstep with c A b.
Qed.

Lemma reach_body_stable (b : str) :
  forall r c r',
    reach_body b (r, c) = (r', false) ->
    c = false /\ r' = r /\
    forall ch, In ch b -> is_nonterminal ch = true -> In [ch] r.
Proof.
  unfold reach_body. induction b as [|ch b IH]; intros r c r'; simpl.
  - intros [= -> ->]. repeat split. intros ch [].
  - destruct (is_nonterminal ch && negb (mem [ch] r)) eqn:E.
    + intros H. apply IH in H. destruct H as [H _]. discriminate.
    + intros H. apply IH in H. destruct H as [Hc [Hr Hall]].
      repeat split; try assumption.
      intros x [<- | Hx] Hnt; [|now apply Hall].
      rewrite Hnt in E. simpl in E. now apply negb_false_iff, mem_In in E.
Qed.

Lemma reach_bodies_stable (bs : list str) :
  forall r c r',
    fold_left (fun st b => reach_body b st) bs (r, c) = (r', false) ->
    c = false /\ r' = r /\
    forall b ch, In b bs -> In ch b -> is_nonterminal ch = true -> In [ch] r.
Proof.
  induction bs as [|b bs IH]; intros r c r'; simpl.
  - intros [= -> ->]. repeat split. intros b ch [].
  - destruct (reach_body b (r, c)) as [r1 c1] eqn:E.
    intros H. apply IH in H. destruct H as [-> [-> Hall]].
    apply reach_body_stable in E. destruct E as [-> [-> Hb]].
    repeat split.
    intros b' ch [<- | Hb']; [apply Hb | now apply Hall].
Qed.

Lemma reach_keys_stable (prods : Productions) (l : list str) :
  forall r c r',
    fold_left (fun st A => fold_left (fun st b => reach_body b st)
                                     (get_or_empty A prods) st)
              l (r, c) = (r', false) ->
    c = false /\ r' = r /\
    forall A b ch, In A l -> In b (get_or_empty A prods) -> In ch b ->
                   is_nonterminal ch = true -> In [ch] r.
Proof.
  induction l as [|A l IH]; intros r c r'; simpl.
  - intros [= -> ->]. repeat split. intros A b ch [].
  - destruct (fold_left (fun st b => reach_body b st)
                        (get_or_empty A prods) (r, c)) as [r1 c1] eqn:E.
    intros H. apply IH in H. destruct H as [-> [-> Hall]].
    apply reach_bodies_stable in E. destruct E as [-> [-> Hb]].
    repeat split.
    intros A' b ch [<- | HA']; [apply Hb | now apply Hall].
Qed.

Lemma all_chars_In (prods : Productions) (A b : str) (ch : char) :
  In b (get_or_empty A prods) -> In ch b -> In ch (all_chars prods).
Proof.
  intros Hb Hch. apply get_or_empty_In in Hb.
  destruct Hb as [bodies [Hl Hb]]. apply lookup_In in Hl.
  unfold all_chars. apply in_concat. exists b. split; [|assumption].
  apply in_concat. exists bodies. split; [|assumption].
  apply in_map_iff. exists (A, bodies). auto.
Qed.

Lemma reach_bounded_length (start : str) (prods : Productions)
  (reach : list str) :
  reach_bounded start prods reach ->
  length reach <= S (length (all_chars prods)).
Proof.
  intros [Hnd Hincl]. apply NoDup_incl_length in Hincl; [|assumption].
  simpl in Hincl. now rewrite length_map in Hincl.
Qed.

Section ReachLoop.
Variables (prods : Productions) (start : str) (Inv : list str -> Prop).
Hypothesis Hstep :
  forall r A b ch,
    Inv r -> In A r -> In b (get_or_empty A prods) -> In ch b ->
    is_nonterminal ch = true -> ~ In [ch] r -> Inv (set_add [ch] r).

Lemma reach_pass_spec (reach : list str) :
  Inv reach -> reach_bounded start prods reach ->
  forall reach' changed,
    reach_pass prods reach = (reach', changed) ->
    Inv reach' /\ reach_bounded start prods reach' /\ incl reach reach' /\
    (changed = true -> length reach < length reach').
Proof.
  intros Hi Hb reach' changed E.
  pose proof (reach_pass_inv
                (fun st => Inv (fst st) /\ reach_bounded start prods (fst st)
                           /\ incl reach (fst st)
                           /\ length reach <= length (fst st)
                           /\ (snd st = true -> length reach < length (fst st)))
                prods reach) as H.
  rewrite E in H. simpl in H.
  destruct H as [H1 [H2 [H3 [_ H5]]]]; [| |auto].
  - intros r c A b ch HA Hbin Hch [I1 [[I2 I2'] [I3 [I4 _]]]] Hnt Hnew.
    simpl in *.
    split; [|split; [split|split; [|split]]].
    + apply Hstep with A b; auto.
    + now apply set_add_NoDup.
    + intros x Hx. apply set_add_In in Hx. destruct Hx as [-> | Hx]; [|auto].
      right. apply (in_map (fun c : char => [c]) (all_chars prods) ch).
      eapply all_chars_In; eassumption.
    + intros x Hx. apply set_add_In. right. auto.
    + rewrite set_add_new by assumption. rewrite length_app. simpl. lia.
    + intros _. rewrite set_add_new by assumption. rewrite length_app.
      simpl. lia.
  - simpl. split; [assumption|]. split; [assumption|].
    split; [apply incl_refl|]. split; [lia | discriminate].
Qed.

(** With enough fuel the loop ends, in a set closed under the step. *)
Lemma reach_loop_spec :
  forall fuel reach,
    S (length (all_chars prods)) - length reach < fuel ->
    Inv reach -> reach_bounded start prods reach ->
    exists final,
      reach_loop fuel prods reach = Ok final /\ Inv final /\
      incl reach final /\
      forall A b ch, In A final -> In b (get_or_empty A prods) -> In ch b ->
                     is_nonterminal ch = true -> In [ch] final.
Proof.
  induction fuel as [|fuel IH]; intros reach Hfuel Hi Hb; [lia|].
  simpl. destruct (reach_pass prods reach) as [reach' changed] eqn:E.
  destruct (reach_pass_spec reach Hi Hb reach' changed E)
    as [Hi' [Hb' [Hincl Hlen]]].
  destruct changed.
  - specialize (Hlen eq_refl).
    pose proof (reach_bounded_length start prods reach' Hb') as Hle.
    destruct (IH reach') as [final [E' [Hf [Hinc Hcl]]]]; try assumption;
      [lia|].
    exists final. split; [assumption|]. split; [assumption|].
    split; [eapply incl_tran; eassumption | assumption].
  - unfold reach_pass in E. apply reach_keys_stable in E.
    destruct E as [_ [-> Hcl]].
    exists reach. split; [reflexivity|]. split; [assumption|].
    split; [apply incl_refl|]. intros A b ch HA. now apply Hcl.
Qed.
End ReachLoop.

Lemma reachable_nonterminals_spec (start : str) (prods : Productions)
  (Inv : list str -> Prop) :
  (forall r A b ch,
      Inv r -> In A r -> In b (get_or_empty A prods) -> In ch b ->
      is_nonterminal ch = true -> ~ In [ch] r -> Inv (set_add [ch] r)) ->
  Inv [start] ->
  exists reach,
    reachable_nonterminals start prods = Ok reach /\ Inv reach /\
    In start reach /\
    forall A b ch, In A reach -> In b (get_or_empty A prods) -> In ch b ->
                   is_nonterminal ch = true -> In [ch] reach.
Proof.
  intros Hstep H0. unfold reachable_nonterminals.
  destruct (reach_loop_spec prods start Inv Hstep
              (S (length (all_chars prods))) [start])
    as [final [E [Hi [Hincl Hcl]]]].
  - simpl. lia.
  - assumption.
  - split.
    + constructor; [intros [] | constructor].
    + intros x [<- | []]. now left.
  - exists final. split; [assumption|]. split; [assumption|].
    split; [apply Hincl; now left | assumption].
Qed.

(** ** Removal of useless symbols *)

Lemma derives_mono (G1 G2 : Productions) :
  (forall A bodies, In (A, bodies) G1 -> In (A, bodies) G2) ->
  forall alpha w, derives G1 alpha w -> derives G2 alpha w.
Proof.
  intros Hsub alpha w H. induction H.
  - constructor.
  - now constructor.
  - eapply derives_nonterminal; eauto.
Qed.

Lemma reachable_mono (G1 G2 : Productions) (start : str) :
  (forall A bodies, In (A, bodies) G1 -> In (A, bodies) G2) ->
  forall A, reachable G1 start A -> reachable G2 start A.
Proof.
  intros Hsub A H. induction H.
  - constructor.
  - eapply reachable_step; eauto.
Qed.

Lemma derives_all (G : Productions) (alpha : str) :
  (forall ch, In ch alpha -> exists w, derives G [ch] w) ->
  exists w, derives G alpha w.
Proof.
  induction alpha as [|ch alpha IH]; intros H.
  - exists []. constructor.
  - destruct (H ch (or_introl eq_refl)) as [u Hu].
    destruct IH as [w Hw]; [intros c Hc; apply H; now right|].
    exists (u ++ w). change (derives G ([ch] ++ alpha) (u ++ w)).
    now apply derives_app.
Qed.

Lemma derives_terminal_char (G : Productions) (ch : char) :
  is_terminal ch = true -> derives G [ch] [ch].
Proof. intros H. constructor; [assumption | constructor]. Qed.

Lemma prods_final_lookup (reach : list str) (PG : Productions) (A : str) :
  NoDup (keys PG) ->
  lookup A (prods_final_of reach PG)
  = match lookup A PG with
    | Some bodies => if mem A reach then Some bodies else None
    | None => None
    end.
Proof.
  intros Hnd.
  apply (filter_dict_lookup (list str) (fun A _ => mem A reach)
           (fun _ bodies => bodies) PG Hnd [] A).
  reflexivity.
Qed.

Lemma prods_final_NoDup (reach : list str) (PG : Productions) :
  NoDup (keys (prods_final_of reach PG)).
Proof.
  apply (filter_dict_NoDup (list str) (fun A _ => mem A reach)
           (fun _ bodies => bodies) PG []).
  constructor.
Qed.

Lemma gen_sound_step (G : Productions) (set : list str) (A : str)
  (bodies : list str) :
  wf_grammar G = true ->
  gen_sound G set -> In (A, bodies) G ->
  existsb (gen_ok set) bodies = true -> gen_sound G (set_add A set).
Proof.
  intros Hwf Hs Hin Hhit X HX B HB.
  assert (HX' : incl set X).
  { intros x Hx. apply HX. apply set_add_In. now right. }
  apply set_add_In in HB. destruct HB as [-> | HB]; [|now apply Hs].
  assert (HAX : In A X) by (apply HX; apply set_add_In; now left).
  destruct (wf_grammar_entry _ _ _ Hwf Hin) as [Hk [_ Hb]].
  destruct (wf_key_inv _ Hk) as [ch [-> [Hnt _]]].
  apply existsb_exists in Hhit. destruct Hhit as [b [Hbin Hok]].
  unfold gen_ok in Hok. rewrite forallb_forall in Hok.
  pose proof (wf_grammar_nodup _ Hwf) as Hnd.
  assert (Hkept : In b (kept_of X bodies)).
  { apply kept_of_In. split; [assumption|]. apply forallb_forall.
    intros c Hc. specialize (Hok _ Hc).
    destruct (is_terminal c) eqn:Et; [reflexivity|]. simpl in *.
    destruct (wf_body_inv _ (Hb _ Hbin)) as [-> | [_ Hv]].
    - destruct Hc as [<- | []]. discriminate.
    - specialize (Hv _ Hc). apply valid_char_class in Hv.
      rewrite Et in Hv.
      destruct (is_nonterminal c); [|discriminate]. simpl in Hok.
      apply negb_true_iff, negb_false_iff, mem_In in Hok.
      apply mem_In. now apply HX'. }
  assert (Hentry : In ([ch], kept_of X bodies) (prods_gen_of X G)).
  { apply lookup_In. rewrite prods_gen_lookup by assumption.
    rewrite (In_lookup _ _ _ Hnd Hin).
    apply mem_In in HAX. now rewrite HAX. }
  assert (Hrhs : exists u, derives (prods_gen_of X G) (rhs b) u).
  { unfold rhs. destruct (str_eqb b EPS) eqn:E; [exists []; constructor|].
    apply str_eqb_neq in E.
    destruct (wf_body_not_eps _ (Hb _ Hbin) E) as [_ [_ Hv]].
    apply derives_all. intros c Hc. specialize (Hok _ Hc).
    specialize (Hv _ Hc). apply valid_char_class in Hv.
    destruct (is_terminal c) eqn:Et.
    - exists [c]. now apply derives_terminal_char.
    - destruct (is_nonterminal c); [|discriminate]. simpl in Hok.
      apply negb_true_iff, negb_false_iff, mem_In in Hok.
      now apply Hs. }
  destruct Hrhs as [u Hu]. exists (u ++ []).
  apply derives_nonterminal with (kept_of X bodies) b; try assumption.
  constructor.
Qed.

Lemma reach_sound_step (PG : Productions) (start : str) (r : list str)
  (A b : str) (ch : char) :
  NoDup (keys PG) ->
  reach_sound PG start r -> In A r -> In b (get_or_empty A PG) -> In ch b ->
  is_nonterminal ch = true -> reach_sound PG start (set_add [ch] r).
Proof.
  intros Hnd Hs HA Hb Hch Hnt X HX B HB.
  assert (HX' : incl r X).
  { intros x Hx. apply HX. apply set_add_In. now right. }
  apply set_add_In in HB. destruct HB as [-> | HB]; [|now apply Hs].
  apply get_or_empty_In in Hb. destruct Hb as [bodies [Hl Hb]].
  apply reachable_step with A bodies b; try assumption; [now apply Hs|].
  apply lookup_In. rewrite prods_final_lookup by assumption. rewrite Hl.
  assert (Hm : mem A X = true) by (apply mem_In; auto). now rewrite Hm.
Qed.

(** A derivation from nonterminals of a closed set only uses entries whose
    key is in the set. *)
Lemma derives_in_closed (PG : Productions) (reach : list str) :
  NoDup (keys PG) ->
  (forall A b ch, In A reach -> In b (get_or_empty A PG) -> In ch b ->
                  is_nonterminal ch = true -> In [ch] reach) ->
  forall alpha w, derives PG alpha w ->
  (forall ch, In ch alpha -> is_nonterminal ch = true -> In [ch] reach) ->
  derives (prods_final_of reach PG) alpha w.
Proof.
  intros Hnd Hcl alpha w H. induction H as
    [|ch alpha w Ht H IH|ch bodies b alpha u w Hnt Hin Hb H1 IH1 H2 IH2];
    intros Hal.
  - constructor.
  - constructor; [assumption|]. apply IH. intros c Hc. apply Hal. now right.
  - assert (Hch : In [ch] reach) by (apply Hal; [now left | assumption]).
    pose proof (In_lookup _ _ _ Hnd Hin) as Hl.
    apply derives_nonterminal with bodies b; try assumption.
    + apply lookup_In. rewrite prods_final_lookup by assumption. rewrite Hl.
      apply mem_In in Hch. now rewrite Hch.
    + apply IH1. intros c Hc. unfold rhs in Hc.
      destruct (str_eqb b EPS); [destruct Hc|].
      apply Hcl with [ch] b; try assumption.
      unfold get_or_empty. now rewrite Hl.
    + apply IH2. intros c Hc. apply Hal. now right.
Qed.

Lemma In_setitem_absent {V : Type} (k : str) (v : V) (d : dict V)
  (x : str * V) :
  In x d -> In x (setitem k v d) \/ fst x = k.
Proof.
  induction d as [|[k' v'] d IH]; simpl; [tauto|].
  destruct (str_eqb k k') eqn:E.
  - apply str_eqb_eq in E. subst k'.
    intros [<- | H]; [now right | left; now right].
  - intros [<- | H]; [left; now left|].
    destruct (IH H) as [H' | H']; [left; now right | now right].
Qed.

(** [remove_useless_symbols] on a well-formed grammar. *)
Lemma remove_useless_spec (start : str) (G : Productions) :
  wf_grammar G = true ->
  exists gen reach G',
    remove_useless_symbols start G = Ok G' /\
    In start reach /\
    NoDup (keys G') /\
    (forall A bodies, In (A, bodies) (prods_final_of reach (prods_gen_of gen G))
                      -> In (A, bodies) G') /\
    (forall A, lookup A G'
               = match lookup A (prods_final_of reach (prods_gen_of gen G)) with
                 | Some bodies => Some bodies
                 | None => if str_eqb A start then Some [] else None
                 end) /\
    (forall A, In A gen -> exists w, derives (prods_gen_of gen G) A w) /\
    (forall A, In A reach ->
               reachable (prods_final_of reach (prods_gen_of gen G)) start A) /\
    (forall A b ch, In A reach -> In b (get_or_empty A (prods_gen_of gen G)) ->
                    In ch b -> is_nonterminal ch = true -> In [ch] reach).
Proof.
  intros Hwf.
  destruct (generating_nonterminals_spec G (gen_sound G))
    as [gen [Eg [Hgs _]]].
  { intros set A bodies Hs Hin _ Hhit. now apply gen_sound_step with bodies. }
  { intros X _ A []. }
  pose proof (prods_gen_NoDup gen G) as Hnd.
  destruct (reachable_nonterminals_spec start (prods_gen_of gen G)
              (reach_sound (prods_gen_of gen G) start))
    as [reach [Er [Hrs [Hsr Hcl]]]].
  { intros r A b ch Hs HA Hb Hch Hnt _.
    now apply reach_sound_step with A b. }
  { intros X _ A [<- | []]. constructor. }
  exists gen, reach.
  exists (match lookup start (prods_final_of reach (prods_gen_of gen G)) with
          | Some _ => prods_final_of reach (prods_gen_of gen G)
          | None => setitem start [] (prods_final_of reach (prods_gen_of gen G))
          end).
  split.
  { unfold remove_useless_symbols. rewrite Eg. cbn [bind]. rewrite Er.
    reflexivity. }
  split; [assumption|]. split; [|split; [|split; [|split; [|split]]]].
  - destruct (lookup start _); [apply prods_final_NoDup|].
    apply NoDup_keys_setitem, prods_final_NoDup.
  - intros A bodies Hin.
    destruct (lookup start (prods_final_of reach (prods_gen_of gen G)))
      eqn:E; [assumption|].
    destruct (In_setitem_absent start [] _ _ Hin) as [H | H]; [assumption|].
    simpl in H. subst A. apply lookup_None in E. exfalso. apply E.
    apply (in_map fst) in Hin. exact Hin.
  - intros A.
    destruct (lookup start (prods_final_of reach (prods_gen_of gen G)))
      as [v|] eqn:E.
    + destruct (lookup A (prods_final_of reach (prods_gen_of gen G))) eqn:EA;
        [reflexivity|].
      destruct (str_eqb A start) eqn:Ea; [|reflexivity].
      apply str_eqb_eq in Ea. congruence.
    + rewrite lookup_setitem. destruct (str_eqb A start) eqn:Ea.
      * apply str_eqb_eq in Ea. subst A. now rewrite E.
      * now destruct (lookup A _).
  - intros A HA. apply (Hgs gen (incl_refl gen) A HA).
  - intros A HA. apply (Hrs reach (incl_refl reach) A HA).
  - assumption.
Qed.

(** The entries of the grammar [remove_useless_symbols] returns: keys are
    not repeated, bodies come from the input, every key is reachable, and a
    key derives a string of terminals unless its set of bodies is empty,
    which is only so for the start symbol. *)
Lemma remove_useless_entries (start : str) (G : Productions) :
  wf_grammar G = true ->
  exists G',
    remove_useless_symbols start G = Ok G' /\
    NoDup (keys G') /\
    In start (keys G') /\
    (forall A bodies b,
        In (A, bodies) G' -> In b bodies ->
        exists bodies0, In (A, bodies0) G /\ In b bodies0) /\
    forall A bodies,
      lookup A G' = Some bodies ->
      reachable G' start A /\
      (bodies <> [] -> exists w, derives G' A w) /\
      (bodies = [] -> A = start).
Proof.
  intros Hwf.
  destruct (remove_useless_spec start G Hwf)
    as [gen [reach [G' [E [Hsr [Hnd [Hsub [Hlk [Hgen [Hreach Hcl]]]]]]]]]].
  exists G'. split; [assumption|]. split; [assumption|].
  pose proof (prods_gen_NoDup gen G) as HndPG.
  pose proof (wf_grammar_nodup _ Hwf) as HndG.
  split.
  { apply lookup_Some_key. rewrite Hlk.
    destruct (lookup start (prods_final_of reach (prods_gen_of gen G)));
      [eauto|]. rewrite str_eqb_refl. eauto. }
  split.
  { intros A bodies b Hin Hb. apply (In_lookup _ _ _ Hnd) in Hin.
    rewrite Hlk in Hin.
    destruct (lookup A (prods_final_of reach (prods_gen_of gen G)))
      as [bodies'|] eqn:EF.
    - injection Hin as ->.
      rewrite prods_final_lookup in EF by assumption.
      destruct (lookup A (prods_gen_of gen G)) as [v|] eqn:EPG;
        [|discriminate].
      destruct (mem A reach); [|discriminate]. injection EF as ->.
      rewrite prods_gen_lookup in EPG by assumption.
      destruct (lookup A G) as [bodies0|] eqn:EG; [|discriminate].
      destruct (mem A gen); [|discriminate]. injection EPG as <-.
      exists bodies0. split; [now apply lookup_In|].
      now apply kept_of_In in Hb.
    - destruct (str_eqb A start); [|discriminate].
      injection Hin as <-. destruct Hb. }
  intros A bodies HA.
  rewrite Hlk in HA.
  destruct (lookup A (prods_final_of reach (prods_gen_of gen G)))
    as [bodies'|] eqn:EF.
  - injection HA as ->.
    rewrite prods_final_lookup in EF by assumption.
    destruct (lookup A (prods_gen_of gen G)) as [v|] eqn:EPG; [|discriminate].
    destruct (mem A reach) eqn:Er; [|discriminate]. injection EF as ->.
    apply mem_In in Er.
    rewrite prods_gen_lookup in EPG by assumption.
    destruct (lookup A G) as [bodies0|] eqn:EG; [|discriminate].
    destruct (mem A gen) eqn:Eg; [|discriminate]. apply mem_In in Eg.
    assert (HAk : In A (keys G)) by (apply lookup_Some_key; eauto).
    destruct (wf_key_inv _ (wf_grammar_key _ _ Hwf HAk)) as [ch [-> [Hnt _]]].
    destruct (Hgen _ Eg) as [w Hw].
    split; [|split].
    + eapply reachable_mono; [exact Hsub | now apply Hreach].
    + intros _. exists w. eapply derives_mono; [exact Hsub|].
      apply derives_in_closed; try assumption.
      intros c [<- | []] _. assumption.
    + intros ->. exfalso. inversion Hw as
        [|c alpha w' Ht H|c bodies1 b alpha u w' Hnt' Hin Hb H1 H2]; subst.
      * rewrite (nonterminal_not_terminal _ Hnt) in Ht. discriminate.
      * apply (In_lookup _ _ _ HndPG) in Hin.
        rewrite prods_gen_lookup in Hin by assumption.
        rewrite EG in Hin. apply mem_In in Eg. rewrite Eg in Hin.
        injection Hin as <-. injection EPG as EPG. rewrite EPG in Hb.
        destruct Hb.
  - destruct (str_eqb A start) eqn:Ea; [|discriminate].
    apply str_eqb_eq in Ea. subst A. injection HA as <-.
    split; [constructor|]. split; [congruence | reflexivity].
Qed.

(** C6, as the code has it.  On a well-formed grammar
    [remove_useless_symbols] returns a grammar in which every nonterminal
    with an entry is reachable from the start symbol, and derives a string
    of terminals unless its set of bodies is empty, which is only so for the
    start symbol. *)
Theorem remove_useless_invariant (start : str) (G : Productions) :
  wf_grammar G = true ->
  exists G',
    remove_useless_symbols start G = Ok G' /\
    forall A bodies,
      lookup A G' = Some bodies ->
      reachable G' start A /\
      (bodies <> [] -> exists w, derives G' A w) /\
      (bodies = [] -> A = start).
Proof.
  intros Hwf.
  destruct (remove_useless_entries start G Hwf) as [G' [E [_ [_ [_ H]]]]].
  exists G'. split; assumption.
Qed.

(** C6, the claim as it was stated, fails: for [S -> S] the start symbol
    keeps an entry and derives nothing. *)
Lemma remove_useless_start_not_generating :
  exists G',
    remove_useless_symbols [83%N] grammar_loop = Ok G' /\
    In [83%N] (keys G') /\
    ~ (reachable G' [83%N] [83%N] /\ exists w, derives G' [83%N] w).
Proof.
  exists [([83%N], [])]. split; [reflexivity|]. split; [now left|].
  intros [_ [w Hw]]. inversion Hw as
    [|c alpha w' Ht H|c bodies b alpha u w' Hnt Hin Hb H1 H2]; subst.
  - discriminate.
  - destruct Hin as [[= <-] | []]. destruct Hb.
Qed.

(** ** Fresh names *)

Lemma uint_codes_inj (d d' : Decimal.uint) :
  uint_codes d = uint_codes d' -> d = d'.
Proof.
  revert d'. induction d; intros d'; destruct d'; simpl; intros H;
    try discriminate; try reflexivity;
    injection H as H; f_equal; auto.
Qed.

Lemma str_of_nat_inj (i j : nat) : str_of_nat i = str_of_nat j -> i = j.
Proof.
  unfold str_of_nat. intros H. apply uint_codes_inj in H.
  now apply DecimalNat.Unsigned.to_uint_inj.
Qed.

Lemma fresh_var_from_spec (used : list str) (base : str) :
  forall fuel i seen,
    NoDup seen -> incl seen used ->
    (forall x, In x seen -> exists j, j < i /\ x = base ++ str_of_nat j) ->
    length used < fuel + length seen ->
    exists cand,
      fresh_var_from fuel used base i = Ok (cand, set_add cand used) /\
      ~ In cand used.
Proof.
  induction fuel as [|fuel IH]; intros i seen Hnd Hincl Hseen Hlen.
  - apply NoDup_incl_length in Hincl; [|assumption]. simpl in Hlen. lia.
  - simpl. destruct (mem (base ++ str_of_nat i) used) eqn:E.
    + apply mem_In in E.
      apply (IH (S i) ((base ++ str_of_nat i) :: seen)).
      * constructor; [|assumption]. intros Hin.
        destruct (Hseen _ Hin) as [j [Hj Heq]].
        apply app_inv_head, str_of_nat_inj in Heq. lia.
      * intros x [<- | Hx]; auto.
      * intros x [<- | Hx].
        -- exists i. split; [lia | reflexivity].
        -- destruct (Hseen _ Hx) as [j [Hj Heq]]. exists j. split; [lia|auto].
      * simpl. lia.
    + apply mem_not_In in E. eauto.
Qed.

Lemma fresh_var_spec (used : list str) (base : str) :
  exists cand,
    fresh_var used base = Ok (cand, set_add cand used) /\ ~ In cand used.
Proof.
  unfold fresh_var. apply fresh_var_from_spec with (seen := []).
  - constructor.
  - intros x [].
  - intros x [].
  - simpl. lia.
Qed.

(** ** Conversion to Chomsky normal form *)

Lemma lookup_empty_sets_key (ks : list str) (k : str) :
  In k ks -> lookup k (empty_sets ks) = Some [].
Proof.
  intros H. apply keys_empty_sets in H. apply lookup_Some_key in H.
  destruct H as [v Hv]. rewrite Hv. apply lookup_empty_sets in Hv.
  now subst.
Qed.

Lemma entry_of_empty (G : Productions) (A : str) (bodies : list str) (b : str) :
  NoDup (keys G) -> lookup A G = Some [] ->
  In (A, bodies) G -> In b bodies -> False.
Proof.
  intros Hnd Hl Hin Hb. apply (In_lookup _ _ _ Hnd) in Hin.
  rewrite Hl in Hin. injection Hin as <-. destruct Hb.
Qed.

Section ToCnf.
Variables (start : str) (prods : Productions).
Hypothesis Hnd : NoDup (keys prods).
Hypothesis Hstart : lookup start prods = Some [].

Lemma lift_body_spec (b : str) (used : list str) (term_var : dict str) :
  lift_inv prods used term_var ->
  exists used' term_var' new_body,
    lift_body b used term_var = Ok (used', term_var', new_body) /\
    lift_inv prods used' term_var'.
Proof.
  intros H0. unfold lift_body.
  destruct (foldM_inv
              (fun '(used, term_var, new_body) ch =>
                 if is_terminal ch then
                   '(used, term_var) <-
                     match lookup [ch] term_var with
                     | Some _ => Ok (used, term_var)
                     | None =>
                         let candidate := upper ch in
                         '(candidate, used) <-
                           (if mem candidate used
                               || negb (length candidate =? 1)
                               || negb (str_isupper candidate)
                            then fresh_var used (84%N :: [ch])
                            else Ok (candidate, used)) ;;
                         Ok (set_add candidate used,
                             setitem [ch] candidate term_var)
                     end ;;
                   Va <- getitem [ch] term_var ;;
                   Ok (used, term_var, new_body ++ [Va])
                 else Ok (used, term_var, new_body ++ [[ch]]))
              (fun st : list str * dict str * list str =>
                 lift_inv prods (fst (fst st)) (snd (fst st)))
              b) with (s := (used, term_var, @nil str))
    as [[[u t] nb] [E H]].
  - intros [[u t] nb] ch _ [Hu Ht]. simpl in Hu, Ht.
    destruct (is_terminal ch); [|eexists; split; [reflexivity|now split]].
    destruct (lookup [ch] t) as [Va|] eqn:El.
    + cbn [bind]. unfold getitem. rewrite El. cbn [bind].
      eexists. split; [reflexivity | now split].
    + cbv zeta.
      assert (Hc : exists cand u',
                 (if mem (upper ch) u || negb (length (upper ch) =? 1)
                     || negb (str_isupper (upper ch))
                  then fresh_var u (84%N :: [ch])
                  else Ok (upper ch, u)) = Ok (cand, u')
                 /\ ~ In cand u /\ incl u u').
      { assert (Hf : exists cand u',
                   fresh_var u (84%N :: [ch]) = Ok (cand, u')
                   /\ ~ In cand u /\ incl u u').
        { destruct (fresh_var_spec u (84%N :: [ch])) as [cand [Ef Hn]].
          exists cand, (set_add cand u). split; [assumption|].
          split; [assumption|]. intros x Hx. apply set_add_In. now right. }
        destruct (mem (upper ch) u) eqn:Em; [exact Hf|].
        apply mem_not_In in Em. simpl.
        destruct (negb (length (upper ch) =? 1)
                  || negb (str_isupper (upper ch))); [exact Hf|].
        exists (upper ch), u. split; [reflexivity|].
        split; [assumption | apply incl_refl]. }
      destruct Hc as [cand [u' [Ec [Hnew Hincl]]]].
      rewrite Ec. cbn [bind]. unfold getitem.
      rewrite lookup_setitem_eq. cbn [bind].
      eexists. split; [reflexivity|]. simpl. split.
      * intros x Hx. apply set_add_In. right. auto.
      * intros a Va Hin. apply In_setitem in Hin.
        destruct Hin as [[_ ->] | Hin]; [|exact (Ht a Va Hin)].
        intros Hk. apply Hnew. now apply Hu.
  - exact H0.
  - simpl in H. exists u, t, nb. split; assumption.
Qed.

Lemma start_has_no_body (A : str) (bodies : list str) (b : str) :
  In (A, bodies) prods -> In b bodies -> A <> start.
Proof.
  intros Hin Hb ->. exact (entry_of_empty prods start bodies b Hnd Hstart Hin Hb).
Qed.

Lemma add_to_other (A x : str) (d : Productions) :
  In A (keys d) -> A <> start ->
  exists d',
    add_to A x d = Ok d' /\ keys d' = keys d /\
    lookup start d' = lookup start d.
Proof.
  intros HA Hne. destruct (getitem_key A d HA) as [s [Es _]].
  unfold add_to. rewrite Es. cbn [bind]. eexists. split; [reflexivity|].
  split; [now apply keys_setitem_present|].
  apply lookup_setitem_ne. congruence.
Qed.

Lemma pass1_add (used : list str) (term_var : dict str) (cnf1 : Productions)
  (used' : list str) (term_var' : dict str) (A x : str) :
  pass1_inv start prods (used, term_var, cnf1) -> lift_inv prods used' term_var' ->
  In A (keys prods) -> A <> start ->
  exists cnf1',
    add_to A x cnf1 = Ok cnf1' /\ pass1_inv start prods (used', term_var', cnf1').
Proof.
  intros [_ [Hk [Hn Hs]]] Hl HA Hne.
  destruct (add_to_other A x cnf1 (Hk _ HA) Hne) as [d' [E [Ek El]]].
  exists d'. split; [assumption|]. unfold pass1_inv.
  rewrite Ek, El. auto.
Qed.

Lemma lift_terminals_spec :
  exists st, lift_terminals start prods = Ok st /\ pass1_inv start prods st.
Proof.
  unfold lift_terminals. apply foldM_inv with (Inv := pass1_inv start prods).
  - intros st [A bodies] Hin Hst.
    apply foldM_inv with (Inv := pass1_inv start prods); [|assumption].
    intros [[used term_var] cnf1] b Hb Hinv.
    pose proof (start_has_no_body A bodies b Hin Hb) as Hne.
    assert (HA : In A (keys prods))
      by (apply (in_map fst) in Hin; exact Hin).
    assert (Ea : str_eqb A start = false) by now apply str_eqb_neq.
    destruct (str_eqb b EPS && negb (str_eqb A start)); [eauto|].
    destruct (2 <=? length b).
    + destruct (lift_body_spec b used term_var) as [u' [t' [nb [E Hl]]]];
        [apply Hinv|].
      rewrite E. cbn [bind].
      destruct (pass1_add used term_var cnf1 u' t' A (concat nb) Hinv Hl HA Hne)
        as [cnf1' [E' H']].
      rewrite E'. cbn [bind]. eauto.
    + destruct (pass1_add used term_var cnf1 used term_var A b Hinv
                  (proj1 Hinv) HA Hne) as [cnf1' [E' H']].
      rewrite E'. cbn [bind]. eauto.
  - unfold pass1_inv. split; [|split; [|split]].
    + split; [apply incl_refl | intros a Va []].
    + intros k Hk. now apply keys_empty_sets.
    + apply NoDup_keys_empty_sets.
    + apply lookup_empty_sets_key. apply lookup_Some_key. eauto.
Qed.

(** The rules of the lifted terminals leave the start symbol alone. *)
Lemma lifted_rules_spec (term_var : dict str) :
  (forall a Va, In (a, Va) term_var -> ~ In Va (keys prods)) ->
  forall cnf1 : Productions,
    NoDup (keys cnf1) -> lookup start cnf1 = Some [] ->
    NoDup (keys (fold_left (fun cnf1 '(a, Va) => setdefault_add Va a cnf1)
                           term_var cnf1)) /\
    lookup start (fold_left (fun cnf1 '(a, Va) => setdefault_add Va a cnf1)
                            term_var cnf1) = Some [].
Proof.
  intros Ht cnf1 Hn Hs.
  apply fold_left_inv
    with (Inv := fun d : Productions =>
                   NoDup (keys d) /\ lookup start d = Some []);
    [|now split].
  intros d [a Va] Hin [Hn' Hs']. unfold setdefault_add. split.
  - now apply NoDup_keys_setitem.
  - rewrite lookup_setitem_ne; [assumption|].
    intros <-. apply (Ht a start Hin). apply lookup_Some_key. eauto.
Qed.
End ToCnf.

Lemma binarize_spec (start : str) (symbols : str) :
  forall prev_left used cnf2,
    prev_left <> start -> In start used ->
    exists used' cnf2',
      binarize symbols prev_left used cnf2 = Ok (used', cnf2') /\
      incl used used' /\
      (forall k, In k (keys cnf2) -> In k (keys cnf2')) /\
      lookup start cnf2' = lookup start cnf2.
Proof.
  induction symbols as [|X rest IH]; intros prev_left used cnf2 Hne Hs.
  - simpl. exists used, cnf2. split; [reflexivity|].
    split; [apply incl_refl|]. auto.
  - destruct rest as [|X2 [|X3 rest]].
    + simpl. exists used, cnf2. split; [reflexivity|].
      split; [apply incl_refl|]. auto.
    + simpl. eexists _, _. split; [reflexivity|].
      split; [apply incl_refl|]. unfold setdefault_add. split.
      * intros k Hk. apply keys_setitem_In. now right.
      * apply lookup_setitem_ne. congruence.
    + cbn [binarize].
      destruct (fresh_var_spec used [89%N]) as [Y [Ef Hnew]].
      rewrite Ef. cbn [bind].
      destruct (IH Y (set_add Y used)
                  (setdefault_add prev_left (X :: Y) cnf2))
        as [used' [cnf2' [E [Hi [Hk Hl]]]]].
      * intros ->. contradiction.
      * apply set_add_In. now right.
      * exists used', cnf2'. split; [exact E|]. split; [|split].
        -- intros x Hx. apply Hi. apply set_add_In. now right.
        -- intros k Hk'. apply Hk. unfold setdefault_add.
           apply keys_setitem_In. now right.
        -- rewrite Hl. unfold setdefault_add. apply lookup_setitem_ne.
           congruence.
Qed.

(** [to_cnf] on a dictionary whose start symbol has no bodies. *)
Lemma to_cnf_empty_start (start : str) (prods : Productions) :
  NoDup (keys prods) -> lookup start prods = Some [] ->
  exists cnf2, to_cnf start prods = Ok cnf2 /\ lookup start cnf2 = Some [].
Proof.
  intros Hnd Hstart. unfold to_cnf.
  destruct (lift_terminals_spec start prods Hnd Hstart)
    as [[[used term_var] cnf1] [E1 [[_ Ht] [_ [Hn1 Hs1]]]]].
  rewrite E1. cbn [bind].
  destruct (lifted_rules_spec start prods Hstart term_var Ht cnf1 Hn1 Hs1)
    as [Hn Hs].
  set (cnf1' := fold_left (fun cnf1 '(a, Va) => setdefault_add Va a cnf1)
                          term_var cnf1) in *.
  assert (Hsk : In start (keys cnf1')) by (apply lookup_Some_key; eauto).
  destruct (foldM_inv
              (fun st '(A, bodies) =>
                 foldM (fun '(used, cnf2) b =>
                          if str_eqb b EPS && str_eqb A start then
                            cnf2 <- add_to A EPS cnf2 ;; Ok (used, cnf2)
                          else if length b <=? 2 then
                            cnf2 <- add_to A b cnf2 ;; Ok (used, cnf2)
                          else binarize b A used cnf2)
                       bodies st)
              (fun st : list str * Productions =>
                 In start (fst st) /\
                 (forall k, In k (keys cnf1') -> In k (keys (snd st))) /\
                 lookup start (snd st) = Some [])
              cnf1')
    with (s := (keys cnf1', empty_sets (keys cnf1')))
    as [[used2 cnf2] [E2 [_ [_ H2]]]].
  - intros st [A bodies] Hin Hst.
    apply foldM_inv
      with (Inv := fun st : list str * Productions =>
                     In start (fst st) /\
                     (forall k, In k (keys cnf1') -> In k (keys (snd st))) /\
                     lookup start (snd st) = Some []);
      [|assumption].
    intros [u c2] b Hb [Hu [Hk Hl]]. simpl in Hu, Hk, Hl.
    assert (Hne : A <> start).
    { intros ->. exact (entry_of_empty cnf1' start bodies b Hn Hs Hin Hb). }
    assert (HA : In A (keys c2)).
    { apply Hk. apply (in_map fst) in Hin. exact Hin. }
    assert (Hadd : forall x,
               exists st',
                 (cnf2 <- add_to A x c2 ;; Ok (u, cnf2)) = Ok st' /\
                 In start (fst st') /\
                 (forall k, In k (keys cnf1') -> In k (keys (snd st'))) /\
                 lookup start (snd st') = Some []).
    { intros x. destruct (add_to_other start A x c2 HA Hne) as [d' [E [Ek El]]].
      rewrite E. cbn [bind]. eexists. split; [reflexivity|]. simpl.
      rewrite Ek, El. auto. }
    destruct (str_eqb b EPS && str_eqb A start); [apply Hadd|].
    destruct (length b <=? 2); [apply Hadd|].
    destruct (binarize_spec start b A u c2 Hne Hu)
      as [u' [c2' [E [Hi [Hk' Hl']]]]].
    rewrite E. eexists. split; [reflexivity|]. simpl.
    split; [auto|]. split; [auto|]. congruence.
  - simpl. split; [assumption|]. split.
    + intros k Hk. now apply keys_empty_sets.
    + now apply lookup_empty_sets_key.
  - rewrite E2. cbn [bind]. eauto.
Qed.

(** ** The empty language *)

Lemma derives_sub (G1 G2 : Productions) :
  (forall A bodies b,
      In (A, bodies) G1 -> In b bodies ->
      exists bodies2, In (A, bodies2) G2 /\ In b bodies2) ->
  forall alpha w, derives G1 alpha w -> derives G2 alpha w.
Proof.
  intros Hsub alpha w H. induction H as
    [|ch alpha w Ht H IH|ch bodies b alpha u w Hnt Hin Hb H1 IH1 H2 IH2].
  - constructor.
  - now constructor.
  - destruct (Hsub _ _ _ Hin Hb) as [bodies2 [Hin2 Hb2]].
    now apply derives_nonterminal with bodies2 b.
Qed.

(** C7. [remove_useless_symbols] on a well-formed grammar returns a grammar
    with an entry for the start symbol, an empty one when the start symbol
    derives no string of terminals, and [to_cnf] takes it on; [to_cnf] on
    any dictionary [H] in which the start symbol has the empty set of bodies
    returns a grammar in which the start symbol still has no body. *)
Theorem empty_language_representable (start : str) (G H : Productions) :
  wf_grammar G = true ->
  nodupb (keys H) = true ->
  lookup start H = Some [] ->
  (exists G' bodies,
      remove_useless_symbols start G = Ok G' /\
      lookup start G' = Some bodies /\
      (~ (exists w, derives G start w) -> bodies = []) /\
      (bodies = [] ->
       exists G'', to_cnf start G' = Ok G'' /\ lookup start G'' = Some []))
  /\ exists H', to_cnf start H = Ok H' /\ lookup start H' = Some [].
Proof.
  intros Hwf HndH HsH. split.
  - destruct (remove_useless_entries start G Hwf)
      as [G' [E [Hnd [Hs [Hsub Hent]]]]].
    apply lookup_Some_key in Hs. destruct Hs as [bodies Hb].
    exists G', bodies. split; [assumption|]. split; [assumption|]. split.
    + intros Hno. destruct bodies as [|b bodies]; [reflexivity|].
      exfalso. apply Hno.
      destruct (Hent _ _ Hb) as [_ [Hgen _]].
      destruct Hgen as [w Hw]; [discriminate|].
      exists w. now apply derives_sub with G'.
    + intros ->. now apply to_cnf_empty_start.
  - apply to_cnf_empty_start; [now apply nodupb_NoDup | assumption].
Qed.

(** * The claims settled on concrete grammars *)

(** C5 at [S -> AB | eps], [A -> aA | eps], [B -> bB | eps]. *)
Lemma find_nullable_correct_witness :
  exists nullable,
    find_nullable [83%N] grammar_ab = Ok nullable /\
    forall A, In A (keys grammar_ab) ->
              (In A nullable <-> rewrites_star grammar_ab A []) /\
              (In A nullable <-> derives grammar_ab A []).
Proof.
  apply (find_nullable_correct [83%N] grammar_ab). reflexivity.
Defined.

(** C4 at the same grammar, with retention on. *)
Lemma eliminate_epsilon_marker_witness :
  exists G',
    eliminate_epsilon [83%N] grammar_ab true = Ok G' /\
    (true = true ->
     forall A, (exists s, lookup A G' = Some s /\ In EPS s)
               <-> (A = [83%N] /\ rewrites_star grammar_ab [83%N] [])) /\
    (forall A s, lookup A G' = Some s -> A <> [83%N] -> ~ In EPS s).
Proof.
  apply (eliminate_epsilon_marker [83%N] grammar_ab true).
  - reflexivity.
  - simpl. now left.
Defined.

(** C10 at the same grammar. *)
Lemma eliminate_epsilon_no_marker_witness :
  exists G',
    eliminate_epsilon [83%N] grammar_ab false = Ok G' /\
    forall A s, lookup A G' = Some s -> ~ In EPS s.
Proof.
  apply (eliminate_epsilon_no_marker [83%N] grammar_ab). reflexivity.
Defined.

(** C6 at the same grammar. *)
Lemma remove_useless_invariant_witness :
  exists G',
    remove_useless_symbols [83%N] grammar_ab = Ok G' /\
    forall A bodies,
      lookup A G' = Some bodies ->
      reachable G' [83%N] A /\
      (bodies <> [] -> exists w, derives G' A w) /\
      (bodies = [] -> A = [83%N]).
Proof.
  apply (remove_useless_invariant [83%N] grammar_ab). reflexivity.
Defined.

(** C7 at [S -> S], and at a dictionary whose start symbol [S] has no body. *)
Lemma empty_language_representable_witness :
  (exists G' bodies,
      remove_useless_symbols [83%N] grammar_loop = Ok G' /\
      lookup [83%N] G' = Some bodies /\
      (~ (exists w, derives grammar_loop [83%N] w) -> bodies = []) /\
      (bodies = [] ->
       exists G'', to_cnf [83%N] G' = Ok G'' /\ lookup [83%N] G'' = Some []))
  /\ exists H', to_cnf [83%N] grammar_empty_start = Ok H'
                /\ lookup [83%N] H' = Some [].
Proof.
  apply (empty_language_representable [83%N] grammar_loop grammar_empty_start);
    reflexivity.
Defined.

(** C1 fails on the code.  For [A -> aA | a], in either order of the two
    bodies and with retention on or off, the pipeline ends in a grammar that
    is not in normal form: the name [Ta1] minted for the terminal [a] is
    taken apart again, character by character, by the second pass, which
    leaves the rule [Y2 -> 1A]. *)
Theorem pipeline_not_cnf (keep : bool) (bodies : list str) :
  Permutation [[97%N; 65%N]; [97%N]] bodies ->
  wf_grammar [([65%N], bodies)] = true /\
  exists G',
    pipeline [65%N] [([65%N], bodies)] keep = Ok G' /\
    lookup [89%N; 50%N] G' = Some [[49%N; 65%N]] /\
    is_cnf_body G' [65%N] [89%N; 50%N] [49%N; 65%N] = false /\
    is_cnf G' [65%N] = false.
Proof.
  intros Hp. apply Permutation_length_2_inv in Hp.
  destruct Hp as [-> | ->]; destruct keep;
    (split; [reflexivity|]);
    (eexists; split; [vm_compute; reflexivity|]);
    repeat split; reflexivity.
Qed.

(** C1 at [A -> aA | a] as the sample grammar lists it, retention on. *)
Lemma pipeline_not_cnf_witness :
  wf_grammar grammar_a = true /\
  exists G',
    pipeline [65%N] grammar_a true = Ok G' /\
    lookup [89%N; 50%N] G' = Some [[49%N; 65%N]] /\
    is_cnf_body G' [65%N] [89%N; 50%N] [49%N; 65%N] = false /\
    is_cnf G' [65%N] = false.
Proof.
  apply (pipeline_not_cnf true [[97%N; 65%N]; [97%N]]).
  apply Permutation_refl.
Defined.

(** C2 fails on the code.  For [A -> B], [B -> C], [C -> D], [D -> d], in
    this order, the loop of [eliminate_unit_productions] stops with the
    closure [A, B, C] of [A]: the union with the closures of the members
    does not set [changed].  The body [d] of [D], which [A] derives by unit
    productions, is missing from the set returned for [A].  With the same
    productions in the opposite order it is there. *)
Theorem unit_closure_not_transitive :
  wf_grammar grammar_chain = true /\
  unit_closure grammar_chain
  = Ok [ ([65%N], [[65%N]; [66%N]; [67%N]]);
         ([66%N], [[66%N]; [67%N]; [68%N]]);
         ([67%N], [[67%N]; [68%N]]);
         ([68%N], [[68%N]]) ] /\
  eliminate_unit_productions [65%N] grammar_chain
  = Ok [ ([65%N], []); ([66%N], [[100%N]]);
         ([67%N], [[100%N]]); ([68%N], [[100%N]]) ] /\
  unit_closure_body grammar_chain [65%N] [100%N] /\
  eliminate_unit_productions [65%N] (rev grammar_chain)
  = Ok [ ([68%N], [[100%N]]); ([67%N], [[100%N]]);
         ([66%N], [[100%N]]); ([65%N], [[100%N]]) ].
Proof.
  split; [reflexivity|].
  split; [reflexivity|]. split; [reflexivity|]. split; [|reflexivity].
  exists [68%N], [[100%N]]. split; [|split; [|split]].
  - apply unit_derives_step with [67%N] [[68%N]] ;
      [|simpl; tauto | now left | reflexivity].
    apply unit_derives_step with [66%N] [[67%N]] ;
      [|simpl; tauto | now left | reflexivity].
    apply unit_derives_step with [65%N] [[66%N]] ;
      [|simpl; tauto | now left | reflexivity].
    constructor.
  - simpl. tauto.
  - now left.
  - reflexivity.
Qed.

(** C3 fails on the code.  The same grammar derives [d] from its start
    symbol [A]; the pipeline, with retention on or off, ends in a grammar in
    which [A] has no body and derives nothing. *)
Theorem pipeline_loses_word (keep : bool) :
  wf_grammar grammar_chain = true /\
  derives grammar_chain [65%N] [100%N] /\
  pipeline [65%N] grammar_chain keep = Ok [ ([65%N], []) ] /\
  (forall w, ~ derives [ ([65%N], []) ] [65%N] w) /\
  (rewrites_star grammar_chain [65%N] [100%N] /\
   ~ rewrites_star [ ([65%N], []) ] [65%N] [100%N]).
Proof.
  assert (Hno : forall w, ~ derives [ ([65%N], []) ] [65%N] w).
  { intros w Hw. inversion Hw as
      [|c alpha w' Ht H|c bodies b alpha u w' Hnt Hin Hb H1 H2]; subst.
    - discriminate.
    - destruct Hin as [[= <-] | []]. destruct Hb. }
  assert (Hyes : derives grammar_chain [65%N] [100%N]).
  { assert (Hd : derives grammar_chain [68%N] [100%N]).
    { change (derives grammar_chain [68%N] ([100%N] ++ [])).
      apply derives_nonterminal with [[100%N]] [100%N];
        [reflexivity | simpl; tauto | now left | | constructor].
      now apply derives_terminal_char. }
    assert (Hc : derives grammar_chain [67%N] [100%N]).
    { change (derives grammar_chain [67%N] ([100%N] ++ [])).
      apply derives_nonterminal with [[68%N]] [68%N];
        [reflexivity | simpl; tauto | now left | exact Hd | constructor]. }
    assert (Hb : derives grammar_chain [66%N] [100%N]).
    { change (derives grammar_chain [66%N] ([100%N] ++ [])).
      apply derives_nonterminal with [[67%N]] [67%N];
        [reflexivity | simpl; tauto | now left | exact Hc | constructor]. }
    change (derives grammar_chain [65%N] ([100%N] ++ [])).
    apply derives_nonterminal with [[66%N]] [66%N];
      [reflexivity | simpl; tauto | now left | exact Hb | constructor]. }
  split; [reflexivity|]. split; [exact Hyes|].
  split; [destruct keep; reflexivity|]. split; [exact Hno|]. split.
  - now apply derives_iff_rewrites in Hyes.
  - intros H. apply (Hno [100%N]). apply derives_iff_rewrites.
    split; [assumption | reflexivity].
Qed.

(** C8 fails on the code.  For [S -> SSS | a], [to_cnf] returns
    [S -> SY1 | a], [Y1 -> SS]; applied to that grammar it reads the name
    [Y1] as the two characters [Y] and [1], lifts the digit and splits the
    body again, so that the second result has nonterminals the first has
    not. *)
Theorem to_cnf_not_idempotent (bodies : list str) :
  Permutation [[83%N; 83%N; 83%N]; [97%N]] bodies ->
  wf_grammar [([83%N], bodies)] = true /\
  exists G1 G2,
    to_cnf [83%N] [([83%N], bodies)] = Ok G1 /\
    to_cnf [83%N] G1 = Ok G2 /\
    lookup [89%N; 49%N] G1 = Some [[83%N; 83%N]] /\
    In [83%N; 89%N; 49%N] (get_or_empty [83%N] G1) /\
    ~ In [83%N; 89%N; 49%N] (get_or_empty [83%N] G2) /\
    lookup [84%N; 49%N; 49%N] G1 = None /\
    lookup [84%N; 49%N; 49%N] G2 = Some [[49%N]].
Proof.
  intros Hp. apply Permutation_length_2_inv in Hp.
  destruct Hp as [-> | ->]; (split; [reflexivity|]);
    (eexists; eexists; split; [vm_compute; reflexivity|];
     split; [vm_compute; reflexivity|]);
    (split; [reflexivity|]); (split; [vm_compute; tauto|]);
    (split; [|split; reflexivity]);
    vm_compute; intros H;
    repeat match goal with
           | H : _ \/ _ |- _ => destruct H as [H | H]
           | H : _ = _ |- _ => discriminate H
           | H : False |- _ => destruct H
           end.
Qed.

(** C8 at [S -> SSS | a] as the sample grammar lists it. *)
Lemma to_cnf_not_idempotent_witness :
  wf_grammar grammar_sss = true /\
  exists G1 G2,
    to_cnf [83%N] grammar_sss = Ok G1 /\
    to_cnf [83%N] G1 = Ok G2 /\
    lookup [89%N; 49%N] G1 = Some [[83%N; 83%N]] /\
    In [83%N; 89%N; 49%N] (get_or_empty [83%N] G1) /\
    ~ In [83%N; 89%N; 49%N] (get_or_empty [83%N] G2) /\
    lookup [84%N; 49%N; 49%N] G1 = None /\
    lookup [84%N; 49%N; 49%N] G2 = Some [[49%N]].
Proof.
  apply (to_cnf_not_idempotent [[83%N; 83%N; 83%N]; [97%N]]).
  apply Permutation_refl.
Defined.

(** * The stages do not change their input *)

Lemma agree_refl (n : nat) (h : Store.heap) : agree n h h.
Proof. split; auto. Qed.

Lemma agree_trans (n : nat) (h1 h2 h3 : Store.heap) :
  agree n h1 h2 -> agree n h2 h3 -> agree n h1 h3.
Proof.
  intros [L1 A1] [L2 A2]. split; [lia|].
  intros a Ha. rewrite A2, A1; auto.
Qed.

Lemma length_update (a : nat) (o : Store.obj) (h : Store.heap) :
  length (Store.update a o h) = length h.
Proof.
  revert a. induction h as [|o' h IH]; intros [|a]; simpl; auto.
Qed.

Lemma nth_error_update_eq (a : nat) (o : Store.obj) (h : Store.heap) :
  a < length h -> nth_error (Store.update a o h) a = Some o.
Proof.
  revert a. induction h as [|o' h IH]; intros [|a] Ha; simpl in *;
    try lia; [reflexivity|]. apply IH. lia.
Qed.

Lemma nth_error_update_ne (a b : nat) (o : Store.obj) (h : Store.heap) :
  a <> b -> nth_error (Store.update a o h) b = nth_error h b.
Proof.
  revert a b. induction h as [|o' h IH]; intros [|a] [|b] Hne; simpl;
    try reflexivity; [congruence|]. apply IH. congruence.
Qed.

Section Safe.
Variable n : nat.

Lemma safe_ret {A : Type} (a : A) (Q : A -> Prop) :
  Q a -> safe n (Store.ret a) Q.
Proof.
  intros HQ h a' h' _ Hc [= <- <-]. split; [apply agree_refl|]. now split.
Qed.

Lemma safe_fail {A : Type} (e : error) (Q : A -> Prop) :
  safe n (Store.fail e) Q.
Proof. intros h a h' _ _ H. discriminate. Qed.

Lemma safe_bind {A B : Type} (m : Store.M A) (k : A -> Store.M B)
  (Q : A -> Prop) (R : B -> Prop) :
  safe n m Q -> (forall a, Q a -> safe n (k a) R) ->
  safe n (Store.bindH m k) R.
Proof.
  intros Hm Hk h b h' Hn Hc H. unfold Store.bindH in H.
  destruct (m h) as [[a h1]|e] eqn:E; [|discriminate].
  destruct (Hm h a h1 Hn Hc E) as [Ha [Hc1 HQ]].
  destruct (Hk a HQ h1 b h') as [Ha' [Hc' HR]]; try assumption.
  - destruct Ha. lia.
  - split; [eapply agree_trans; eassumption | now split].
Qed.

Lemma safe_conseq {A : Type} (m : Store.M A) (Q R : A -> Prop) :
  safe n m Q -> (forall a, Q a -> R a) -> safe n m R.
Proof.
  intros Hm HQR h a h' Hn Hc H.
  destruct (Hm h a h' Hn Hc H) as [Ha [Hc' HQ]]. auto.
Qed.

Lemma safe_foldH {A S : Type} (f : S -> A -> Store.M S) (l : list A)
  (I : S -> Prop) :
  (forall s a, In a l -> I s -> safe n (f s a) I) ->
  forall s, I s -> safe n (Store.foldH f l s) I.
Proof.
  induction l as [|a l IH]; intros Hstep s Hs; simpl.
  - now apply safe_ret.
  - apply safe_bind with I.
    + apply Hstep; [now left | assumption].
    + intros s' Hs'. apply IH; [|assumption].
      intros s2 a2 Hin. apply Hstep. now right.
Qed.

Lemma safe_alloc (o : Store.obj) :
  (forall items, o = Store.ODict items -> forall k a, In (k, a) items -> n <= a) ->
  safe n (Store.alloc o) (fun a => n <= a).
Proof.
  intros Ho h a h' Hn Hc [= <- <-]. split; [|split].
  - split; [rewrite length_app; lia|].
    intros a Ha. apply nth_error_app1. lia.
  - intros d items Hd Hnth k a Hin.
    destruct (Nat.lt_ge_cases d (length h)) as [Hlt | Hge].
    + rewrite nth_error_app1 in Hnth by assumption. eapply Hc; eassumption.
    + rewrite nth_error_app2 in Hnth by assumption.
      destruct (d - length h) as [|m]; simpl in Hnth.
      * injection Hnth as ->. eapply Ho; [reflexivity | eassumption].
      * destruct m; discriminate.
  - assumption.
Qed.

Lemma safe_alloc_set (s : list str) :
  safe n (Store.alloc (Store.OSet s)) (fun a => n <= a).
Proof. apply safe_alloc. discriminate. Qed.

Lemma safe_alloc_map (m : dict str) :
  safe n (Store.alloc (Store.OMap m)) (fun a => n <= a).
Proof. apply safe_alloc. discriminate. Qed.

Lemma safe_alloc_dict :
  safe n (Store.alloc (Store.ODict [])) (fun a => n <= a).
Proof. apply safe_alloc. intros items [= <-] k a []. Qed.

Lemma safe_load (a : nat) :
  safe n (Store.load a)
       (fun o => forall items, n <= a -> o = Store.ODict items ->
                               forall k b, In (k, b) items -> n <= b).
Proof.
  intros h o h' Hn Hc H. unfold Store.load in H.
  destruct (nth_error h a) as [o'|] eqn:E; [|discriminate].
  injection H as <- <-. split; [apply agree_refl|]. split; [assumption|].
  intros items Ha -> k b Hin. eapply Hc; eassumption.
Qed.

Lemma safe_store (a : nat) (o : Store.obj) :
  n <= a ->
  (forall items, o = Store.ODict items -> forall k b, In (k, b) items -> n <= b) ->
  safe n (Store.store a o) (fun _ => True).
Proof.
  intros Ha Ho h u h' Hn Hc H. unfold Store.store in H.
  destruct (a <? length h) eqn:E; [|discriminate].
  apply Nat.ltb_lt in E. injection H as _ <-. split; [|split].
  - split; [rewrite length_update; lia|].
    intros b Hb. apply nth_error_update_ne. lia.
  - intros d items Hd Hnth k b Hin.
    destruct (Nat.eq_dec a d) as [<- | Hne].
    + rewrite nth_error_update_eq in Hnth by assumption.
      injection Hnth as ->. eapply Ho; [reflexivity | eassumption].
    + rewrite nth_error_update_ne in Hnth by assumption.
      eapply Hc; eassumption.
  - exact I.
Qed.

Lemma safe_read_set (a : nat) :
  safe n (Store.read_set a) (fun _ => True).
Proof.
  unfold Store.read_set. apply safe_bind with (Q := fun _ => True).
  - eapply safe_conseq; [apply safe_load | trivial].
  - intros [s|d|m] _; [now apply safe_ret | apply safe_fail | apply safe_fail].
Qed.

Lemma safe_read_map (a : nat) :
  safe n (Store.read_map a) (fun _ => True).
Proof.
  unfold Store.read_map. apply safe_bind with (Q := fun _ => True).
  - eapply safe_conseq; [apply safe_load | trivial].
  - intros [s|d|m] _; [apply safe_fail | apply safe_fail | now apply safe_ret].
Qed.

Lemma safe_read_dict (d : nat) :
  safe n (Store.read_dict d)
       (fun items => n <= d -> forall k b, In (k, b) items -> n <= b).
Proof.
  unfold Store.read_dict. eapply safe_bind; [apply safe_load|].
  intros [s|items|m] H; [apply safe_fail | | apply safe_fail].
  apply safe_ret. intros Hd k b Hin. eapply H; [assumption | reflexivity |].
  eassumption.
Qed.

Lemma safe_set_add_at (a : nat) (x : str) :
  n <= a -> safe n (Store.set_add_at a x) (fun _ => True).
Proof.
  intros Ha. unfold Store.set_add_at.
  eapply safe_bind; [apply safe_read_set|].
  intros s _. apply safe_store; [assumption | discriminate].
Qed.

Lemma safe_set_update_at (a : nat) (t : list str) :
  n <= a -> safe n (Store.set_update_at a t) (fun _ => True).
Proof.
  intros Ha. unfold Store.set_update_at.
  eapply safe_bind; [apply safe_read_set|].
  intros s _. apply safe_store; [assumption | discriminate].
Qed.

Lemma safe_set_discard_at (a : nat) (x : str) :
  n <= a -> safe n (Store.set_discard_at a x) (fun _ => True).
Proof.
  intros Ha. unfold Store.set_discard_at.
  eapply safe_bind; [apply safe_read_set|].
  intros s _. apply safe_store; [assumption | discriminate].
Qed.

Lemma safe_dict_getitem (d : nat) (k : str) :
  n <= d -> safe n (Store.dict_getitem d k) (fun a => n <= a).
Proof.
  intros Hd. unfold Store.dict_getitem.
  eapply safe_bind; [apply safe_read_dict|].
  intros items H. destruct (lookup k items) as [a|] eqn:E; [|apply safe_fail].
  apply safe_ret. apply lookup_In in E. eapply H; eassumption.
Qed.

Lemma safe_dict_get (d : nat) (k : str) :
  n <= d ->
  safe n (Store.dict_get d k) (fun o => forall a, o = Some a -> n <= a).
Proof.
  intros Hd. unfold Store.dict_get.
  eapply safe_bind; [apply safe_read_dict|].
  intros items H. apply safe_ret. intros a E. apply lookup_In in E.
  eapply H; eassumption.
Qed.

Lemma safe_dict_get_any (d : nat) (k : str) :
  safe n (Store.dict_get d k) (fun _ => True).
Proof.
  unfold Store.dict_get. eapply safe_bind; [apply safe_read_dict|].
  intros items _. now apply safe_ret.
Qed.

Lemma safe_dict_setitem (d : nat) (k : str) (a : nat) :
  n <= d -> n <= a -> safe n (Store.dict_setitem d k a) (fun _ => True).
Proof.
  intros Hd Ha. unfold Store.dict_setitem.
  eapply safe_bind; [apply safe_read_dict|].
  intros items H. apply safe_store; [assumption|].
  intros items' [= <-] k' b Hin. apply In_setitem in Hin.
  destruct Hin as [[_ ->] | Hin]; [assumption|]. eapply H; eassumption.
Qed.

Lemma safe_elements_or_empty (d : nat) (k : str) :
  safe n (Store.elements_or_empty d k) (fun _ => True).
Proof.
  unfold Store.elements_or_empty.
  eapply safe_bind; [apply safe_dict_get_any|].
  intros [a|] _; [apply safe_read_set | now apply safe_ret].
Qed.

Lemma safe_setdefault (d : nat) (k : str) :
  n <= d -> safe n (Store.setdefault d k) (fun a => n <= a).
Proof.
  intros Hd. unfold Store.setdefault.
  eapply safe_bind; [now apply safe_dict_get|].
  intros [a|] H; [apply safe_ret; now apply H|].
  eapply safe_bind; [apply safe_alloc_set|]. intros a Ha.
  eapply safe_bind; [now apply safe_dict_setitem|]. intros _ _.
  now apply safe_ret.
Qed.

Lemma safe_empty_sets (ks : list str) :
  safe n (Store.empty_sets ks) (fun a => n <= a).
Proof.
  unfold Store.empty_sets.
  eapply safe_bind; [apply safe_alloc_dict|]. intros d Hd.
  eapply safe_bind.
  - apply safe_foldH with (I := fun _ : unit => True); [|exact I].
    intros [] A _ _. eapply safe_bind; [apply safe_alloc_set|].
    intros s Hs. now apply safe_dict_setitem.
  - intros _ _. now apply safe_ret.
Qed.

Lemma safe_snapshot (prods : nat) :
  safe n (Store.snapshot prods) (fun _ => True).
Proof.
  unfold Store.snapshot. eapply safe_bind; [apply safe_read_dict|].
  intros items _.
  apply safe_foldH with (I := fun _ : Productions => True); [|exact I].
  intros G [A bodies] _ _. eapply safe_bind; [apply safe_read_set|].
  intros s _. now apply safe_ret.
Qed.
End Safe.

Create HintDb safe_db.

Ltac safe_prim :=
  first
    [ apply safe_alloc_set | apply safe_alloc_map | apply safe_alloc_dict
    | apply safe_read_set | apply safe_read_map | apply safe_read_dict
    | apply safe_set_add_at; solve [auto]
    | apply safe_set_update_at; solve [auto]
    | apply safe_set_discard_at; solve [auto]
    | apply safe_dict_getitem; solve [auto]
    | apply safe_dict_get_any
    | apply safe_dict_setitem; solve [auto]
    | apply safe_elements_or_empty
    | apply safe_setdefault; solve [auto]
    | apply safe_empty_sets
    | apply safe_snapshot
    | apply safe_store; [solve [auto] | discriminate]
    | solve [eauto with safe_db] ].

Ltac safe_step :=
  match goal with
  | |- safe _ (Store.ret _) ?Q =>
      first [ is_evar Q; apply (@safe_ret _ _ _ (fun _ => True) I)
            | apply safe_ret; first [exact I | assumption] ]
  | |- safe _ (Store.fail _) _ => apply safe_fail
  | |- safe _ (Store.bindH _ _) _ =>
      eapply safe_bind; [| intros ? ?; cbv beta in * ]
  | |- safe _ (Store.foldH _ _ _) _ =>
      apply safe_foldH with (I := fun _ => True); [intros ? ? _ _ | exact I]
  | |- safe _ (if ?b then _ else _) _ => destruct b
  | |- safe _ (match ?x with _ => _ end) _ => destruct x
  | |- safe _ _ _ =>
      first [ safe_prim
            | eapply safe_conseq; [safe_prim | intros; exact I] ]
  end.

Ltac safe_go := repeat safe_step.

Lemma safe_nullable_loop (n prods nullable : nat) :
  n <= nullable ->
  forall fuel, safe n (Store.nullable_loop fuel prods nullable) (fun _ => True).
Proof.
  intros Hn. induction fuel as [|fuel IH]; simpl; [apply safe_fail|].
  safe_go.
Qed.

#[local] Hint Resolve safe_nullable_loop : safe_db.

Lemma safe_find_nullable (n : nat) (start : str) (prods : nat) :
  safe n (Store.find_nullable start prods) (fun a => n <= a).
Proof. unfold Store.find_nullable. safe_go. Qed.

#[local] Hint Resolve safe_find_nullable : safe_db.

Lemma safe_eliminate_epsilon (n : nat) (start : str) (prods : nat)
  (keep : bool) :
  safe n (Store.eliminate_epsilon start prods keep) (fun a => n <= a).
Proof. unfold Store.eliminate_epsilon. safe_go. Qed.

Lemma safe_unit_loop (n prods : nat) (nts : list str) (unit_dict : nat) :
  n <= unit_dict ->
  forall fuel,
    safe n (Store.unit_loop fuel prods nts unit_dict) (fun _ => True).
Proof.
  intros Hn. induction fuel as [|fuel IH]; simpl; [apply safe_fail|].
  safe_go.
Qed.

#[local] Hint Resolve safe_unit_loop : safe_db.

Lemma safe_eliminate_unit_productions (n : nat) (start : str) (prods : nat) :
  safe n (Store.eliminate_unit_productions start prods) (fun a => n <= a).
Proof. unfold Store.eliminate_unit_productions. safe_go. Qed.

Lemma safe_gen_loop (n prods gen : nat) :
  n <= gen ->
  forall fuel, safe n (Store.gen_loop fuel prods gen) (fun _ => True).
Proof.
  intros Hn. induction fuel as [|fuel IH]; simpl; [apply safe_fail|].
  safe_go.
Qed.

#[local] Hint Resolve safe_gen_loop : safe_db.

Lemma safe_generating_nonterminals (n prods : nat) :
  safe n (Store.generating_nonterminals prods) (fun a => n <= a).
Proof. unfold Store.generating_nonterminals. safe_go. Qed.

Lemma safe_reach_loop (n prods reach : nat) :
  n <= reach ->
  forall fuel, safe n (Store.reach_loop fuel prods reach) (fun _ => True).
Proof.
  intros Hn. induction fuel as [|fuel IH]; simpl; [apply safe_fail|].
  safe_go.
Qed.

#[local] Hint Resolve safe_reach_loop : safe_db.

Lemma safe_reachable_nonterminals (n : nat) (start : str) (prods : nat) :
  safe n (Store.reachable_nonterminals start prods) (fun a => n <= a).
Proof. unfold Store.reachable_nonterminals. safe_go. Qed.

#[local] Hint Resolve safe_generating_nonterminals
  safe_reachable_nonterminals : safe_db.

Lemma safe_remove_useless_symbols (n : nat) (start : str) (prods : nat) :
  safe n (Store.remove_useless_symbols start prods) (fun a => n <= a).
Proof. unfold Store.remove_useless_symbols. safe_go. Qed.

Lemma safe_fresh_var_from (n used : nat) (base : str) :
  n <= used ->
  forall fuel i,
    safe n (Store.fresh_var_from fuel used base i) (fun _ => True).
Proof.
  intros Hn. induction fuel as [|fuel IH]; intros i; simpl;
    [apply safe_fail|].
  safe_go.
Qed.

#[local] Hint Resolve safe_fresh_var_from : safe_db.

Lemma safe_fresh_var (n used : nat) (base : str) :
  n <= used -> safe n (Store.fresh_var used base) (fun _ => True).
Proof. intros Hn. unfold Store.fresh_var. safe_go. Qed.

#[local] Hint Resolve safe_fresh_var : safe_db.

Lemma safe_binarize (n used cnf2 : nat) :
  n <= used -> n <= cnf2 ->
  forall symbols prev_left,
    safe n (Store.binarize symbols prev_left used cnf2) (fun _ => True).
Proof.
  intros Hu Hc. induction symbols as [|X rest IH]; intros prev_left.
  - simpl. now apply safe_ret.
  - destruct rest as [|X2 [|X3 rest]].
    + simpl. now apply safe_ret.
    + simpl. safe_go.
    + change (safe n
                (Store.bindH (Store.fresh_var used [89%N])
                   (fun Y =>
                      Store.bindH (Store.setdefault cnf2 prev_left)
                        (fun target =>
                           Store.bindH (Store.set_add_at target (X :: Y))
                             (fun _ =>
                                Store.binarize (X2 :: X3 :: rest) Y used
                                               cnf2))))
                (fun _ => True)).
      safe_go.
Qed.

#[local] Hint Resolve safe_binarize : safe_db.

Lemma safe_to_cnf (n : nat) (start : str) (prods : nat) :
  safe n (Store.to_cnf start prods) (fun a => n <= a).
Proof. unfold Store.to_cnf. safe_go. Qed.

Lemma run_stage_safe (n : nat) (s : stage) (start : str) (prods : nat) :
  safe n (run_stage s start prods) (fun a => n <= a).
Proof.
  destruct s; simpl.
  - apply safe_eliminate_epsilon.
  - apply safe_eliminate_unit_productions.
  - apply safe_remove_useless_symbols.
  - apply safe_to_cnf.
Qed.

Lemma closed_length (h : Store.heap) : closed (length h) h.
Proof.
  intros d items Hd Hnth. apply nth_error_None in Hd. congruence.
Qed.

Lemma entries_agree (h h' : Store.heap) (items : dict nat) :
  agree (length h) h h' ->
  forall G, entries h items = Some G -> entries h' items = Some G.
Proof.
  intros [_ Ha]. induction items as [|[A a] items IH]; intros G; simpl.
  - auto.
  - destruct (nth_error h a) as [o|] eqn:E; [|discriminate].
    rewrite Ha by (apply nth_error_Some; congruence). rewrite E.
    destruct o; try discriminate.
    destruct (entries h items) as [G0|]; [|discriminate].
    now rewrite (IH G0 eq_refl).
Qed.

Lemma content_agree (h h' : Store.heap) (prods : nat) :
  agree (length h) h h' ->
  forall G, content h prods = Some G -> content h' prods = Some G.
Proof.
  intros Ha G. unfold content.
  destruct (nth_error h prods) as [o|] eqn:E; [|discriminate].
  destruct Ha as [Hl Hnth].
  rewrite Hnth by (apply nth_error_Some; congruence). rewrite E.
  destruct o; try discriminate. apply entries_agree. now split.
Qed.

(** C9. When a stage, run on the dictionary at the address [prods] of a
    store [h], returns, every object of [h] is still what it was, and so
    the dictionary at [prods] has the entries and the sets of bodies it had
    before the call. *)
Theorem stages_leave_input_unchanged (s : stage) (start : str) (prods : nat)
  (h h' : Store.heap) (r : nat) :
  run_stage s start prods h = Ok (r, h') ->
  (forall a, a < length h -> nth_error h' a = nth_error h a) /\
  (forall G, content h prods = Some G -> content h' prods = Some G) /\
  length h <= r.
Proof.
  intros H.
  destruct (run_stage_safe (length h) s start prods h r h' (le_n _)
              (closed_length h) H) as [Ha [_ Hr]].
  split; [apply Ha|]. split; [|assumption].
  now apply content_agree.
Qed.

(** C9 at the store that holds [S -> AB | eps], [A -> aA | eps],
    [B -> bB | eps], for each of the four stages. *)
Lemma stages_leave_input_unchanged_witness :
  (exists r h',
      run_stage (EliminateEpsilon true) [83%N] 0 store_ab = Ok (r, h') /\
      (forall a, a < length store_ab ->
                 nth_error h' a = nth_error store_ab a) /\
      (forall G, content store_ab 0 = Some G -> content h' 0 = Some G) /\
      length store_ab <= r) /\
  (exists r h',
      run_stage EliminateUnitProductions [83%N] 0 store_ab = Ok (r, h') /\
      (forall a, a < length store_ab ->
                 nth_error h' a = nth_error store_ab a) /\
      (forall G, content store_ab 0 = Some G -> content h' 0 = Some G) /\
      length store_ab <= r) /\
  (exists r h',
      run_stage RemoveUselessSymbols [83%N] 0 store_ab = Ok (r, h') /\
      (forall a, a < length store_ab ->
                 nth_error h' a = nth_error store_ab a) /\
      (forall G, content store_ab 0 = Some G -> content h' 0 = Some G) /\
      length store_ab <= r) /\
  (exists r h',
      run_stage ToCnf [83%N] 0 store_ab = Ok (r, h') /\
      (forall a, a < length store_ab ->
                 nth_error h' a = nth_error store_ab a) /\
      (forall G, content store_ab 0 = Some G -> content h' 0 = Some G) /\
      length store_ab <= r).
Proof.
  split; [|split; [|split]];
    (eexists; eexists; split; [vm_compute; reflexivity|]).
  - apply stages_leave_input_unchanged
      with (s := EliminateEpsilon true) (start := [83%N]).
    vm_compute. reflexivity.
  - apply stages_leave_input_unchanged
      with (s := EliminateUnitProductions) (start := [83%N]).
    vm_compute. reflexivity.
  - apply stages_leave_input_unchanged
      with (s := RemoveUselessSymbols) (start := [83%N]).
    vm_compute. reflexivity.
  - apply stages_leave_input_unchanged with (s := ToCnf) (start := [83%N]).
    vm_compute. reflexivity.
Defined.

(** On each sample grammar and for each stage, the stage on the store,
    run on the grammar put into an empty store, and the stage on values
    return the same grammar, or fail alike. *)
Lemma store_matches_values :
  forallb (fun '(start, G) =>
             forallb (fun s => same_outcome (run_on_store s start G)
                                            (run_on_values s start G))
                     [EliminateEpsilon true; EliminateEpsilon false;
                      EliminateUnitProductions; RemoveUselessSymbols; ToCnf])
          [ ([83%N], grammar_ab); ([83%N], grammar_loop);
            ([65%N], grammar_chain); ([65%N], rev grammar_chain);
            ([65%N], grammar_a); ([83%N], grammar_sss);
            ([83%N], grammar_empty_start) ]
  = true.
Proof. vm_compute. reflexivity. Qed.

(** * Grammars the stages leave as they are *)

Lemma setitem_absent {V : Type} (k : str) (v : V) (d : dict V) :
  ~ In k (keys d) -> setitem k v d = d ++ [(k, v)].
Proof.
  induction d as [|[k' v'] d IH]; simpl; intros H; [reflexivity|].
  destruct (str_eqb k k') eqn:E.
  - apply str_eqb_eq in E. subst. tauto.
  - rewrite IH; [reflexivity | tauto].
Qed.

Lemma lookup_app_absent {V : Type} (k : str) (v : V) (d1 d2 : dict V) :
  ~ In k (keys d1) -> lookup k (d1 ++ (k, v) :: d2) = Some v.
Proof.
  induction d1 as [|[k' v'] d1 IH]; simpl; intros H.
  - now rewrite str_eqb_refl.
  - destruct (str_eqb k k') eqn:E.
    + apply str_eqb_eq in E. subst. tauto.
    + apply IH. tauto.
Qed.

Lemma setitem_app_absent {V : Type} (k : str) (v v0 : V) (d1 d2 : dict V) :
  ~ In k (keys d1) ->
  setitem k v (d1 ++ (k, v0) :: d2) = d1 ++ (k, v) :: d2.
Proof.
  induction d1 as [|[k' v'] d1 IH]; simpl; intros H.
  - now rewrite str_eqb_refl.
  - destruct (str_eqb k k') eqn:E.
    + apply str_eqb_eq in E. subst. tauto.
    + rewrite IH; [reflexivity | tauto].
Qed.

Lemma add_to_app (A b : str) (s : list str) (d1 d2 : Productions) :
  ~ In A (keys d1) -> ~ In b s ->
  add_to A b (d1 ++ (A, s) :: d2) = Ok (d1 ++ (A, s ++ [b]) :: d2).
Proof.
  intros HA Hb. unfold add_to, getitem.
  rewrite lookup_app_absent by assumption. cbn [bind].
  rewrite set_add_new by assumption. now rewrite setitem_app_absent.
Qed.

Lemma fill_spec (A : str) (bodies : list str) :
  forall s d1 d2,
    ~ In A (keys d1) -> NoDup (s ++ bodies) ->
    fill A bodies (d1 ++ (A, s) :: d2) = Ok (d1 ++ (A, s ++ bodies) :: d2).
Proof.
  unfold fill. induction bodies as [|b bodies IH]; intros s d1 d2 HA Hnd.
  - simpl. now rewrite List.app_nil_r.
  - simpl. rewrite add_to_app; [|assumption|].
    + cbn [bind]. rewrite IH; [|assumption|].
      * now rewrite <- app_assoc.
      * now rewrite <- app_assoc.
    + apply NoDup_remove_2 in Hnd. intros Hin. apply Hnd.
      apply in_or_app. now left.
Qed.

Lemma keys_app {V : Type} (d1 d2 : dict V) :
  keys (d1 ++ d2) = keys d1 ++ keys d2.
Proof. apply map_app. Qed.

Lemma empty_sets_from (ks : list str) :
  forall d : Productions,
    NoDup (keys d ++ ks) ->
    fold_left (fun d A => setitem A [] d) ks d
    = d ++ map (fun A => (A, [])) ks.
Proof.
  induction ks as [|A ks IH]; intros d Hnd; simpl.
  - now rewrite List.app_nil_r.
  - rewrite setitem_absent.
    + rewrite IH.
      * now rewrite <- app_assoc.
      * rewrite keys_app. simpl. now rewrite <- app_assoc.
    + apply NoDup_remove_2 in Hnd. intros Hin. apply Hnd.
      apply in_or_app. now left.
Qed.

Lemma empty_sets_map (G : Productions) :
  NoDup (keys G) ->
  empty_sets (keys G) = map (fun kv => (fst kv, [])) G.
Proof.
  intros Hnd. unfold empty_sets. rewrite empty_sets_from by assumption.
  simpl. unfold keys. now rewrite map_map.
Qed.

(** The entries of a dictionary, written again set by set into the
    dictionary of empty sets, give the dictionary back. *)
Lemma rebuild_from (todo : Productions) :
  forall done : Productions,
    NoDup (keys (done ++ todo)) ->
    (forall A bodies, In (A, bodies) todo -> NoDup bodies) ->
    foldM (fun d '(A, bodies) => fill A bodies d) todo
          (done ++ map (fun kv => (fst kv, [])) todo)
    = Ok (done ++ todo).
Proof.
  induction todo as [|[A bodies] todo IH]; intros done Hnd Hb; simpl.
  - reflexivity.
  - rewrite fill_spec.
    + cbn [bind]. simpl.
      replace (done ++ (A, bodies) :: map (fun kv => (fst kv, [])) todo)
        with ((done ++ [(A, bodies)]) ++ map (fun kv => (fst kv, [])) todo)
        by (rewrite <- app_assoc; reflexivity).
      rewrite IH.
      * now rewrite <- app_assoc.
      * now rewrite <- app_assoc.
      * intros B bs Hin. apply Hb with B. now right.
    + rewrite keys_app in Hnd. simpl in Hnd.
      apply NoDup_remove_2 in Hnd. intros Hin. apply Hnd.
      apply in_or_app. now left.
    + simpl. apply Hb with A. now left.
Qed.

Lemma rebuild (G : Productions) :
  NoDup (keys G) ->
  (forall A bodies, In (A, bodies) G -> NoDup bodies) ->
  foldM (fun d '(A, bodies) => fill A bodies d) G (empty_sets (keys G))
  = Ok G.
Proof.
  intros Hnd Hb. rewrite empty_sets_map by assumption.
  apply (rebuild_from G [] Hnd Hb).
Qed.

Lemma foldM_ext_in {A S : Type} (f g : S -> A -> result S) (l : list A) :
  (forall s a, In a l -> f s a = g s a) ->
  forall s, foldM f l s = foldM g l s.
Proof.
  induction l as [|a l IH]; intros H s; simpl; [reflexivity|].
  rewrite H by now left. destruct (g s a); cbn [bind]; [|reflexivity].
  apply IH. intros s' a' Hin. apply H. now right.
Qed.

Lemma foldM_map {A B S : Type} (f : S -> B -> result S) (h : A -> B)
  (l : list A) :
  forall s, foldM f (map h l) s = foldM (fun s x => f s (h x)) l s.
Proof.
  induction l as [|a l IH]; intros s; simpl; [reflexivity|].
  destruct (f s (h a)); cbn [bind]; [apply IH | reflexivity].
Qed.






(** ** Unit productions, a second time *)

Lemma init_from {V : Type} (v : str -> V) (ks : list str) :
  forall d : dict V,
    NoDup (keys d ++ ks) ->
    fold_left (fun d A => setitem A (v A) d) ks d
    = d ++ map (fun A => (A, v A)) ks.
Proof.
  induction ks as [|A ks IH]; intros d Hnd; simpl.
  - now rewrite List.app_nil_r.
  - rewrite setitem_absent.
    + rewrite IH.
      * now rewrite <- app_assoc.
      * rewrite keys_app. simpl. now rewrite <- app_assoc.
    + apply NoDup_remove_2 in Hnd. intros Hin. apply Hnd.
      apply in_or_app. now left.
Qed.

Lemma lookup_unit_init (ks : list str) (A : str) :
  NoDup ks -> In A ks -> lookup A (unit_init ks) = Some [A].
Proof.
  intros Hnd HA. unfold unit_init.
  rewrite (init_from (fun A => [A]) ks []) by assumption. simpl.
  clear Hnd. induction ks as [|k ks IH]; simpl; [destruct HA|].
  destruct (str_eqb A k) eqn:E.
  - apply str_eqb_eq in E. now subst.
  - apply IH. destruct HA as [-> | HA]; [|assumption].
    now rewrite str_eqb_refl in E.
Qed.

Lemma setitem_same {V : Type} (k : str) (v : V) (d : dict V) :
  lookup k d = Some v -> setitem k v d = d.
Proof.
  induction d as [|[k' v'] d IH]; simpl; [discriminate|].
  destruct (str_eqb k k') eqn:E.
  - intros [= ->]. reflexivity.
  - intros H. now rewrite IH.
Qed.

Lemma unit_free_add (A b : str) (d d' : Productions) :
  unit_free d -> is_unit_body b = false -> add_to A b d = Ok d' ->
  unit_free d'.
Proof.
  intros [Hk Hs] Hb H. unfold add_to in H.
  destruct (getitem A d) as [s|e] eqn:E; [|discriminate].
  apply getitem_Ok in E. cbn [bind] in H. injection H as <-. split.
  - now apply NoDup_keys_setitem.
  - intros B s' HB. rewrite lookup_setitem in HB.
    destruct (str_eqb B A) eqn:EB; [|exact (Hs _ _ HB)].
    apply str_eqb_eq in EB. subst B. injection HB as <-.
    destruct (Hs _ _ E) as [Hnd Hnu]. split; [now apply set_add_NoDup|].
    intros x Hx. apply set_add_In in Hx. destruct Hx as [-> | Hx]; auto.
Qed.

(** The grammar [eliminate_unit_productions] returns has no unit body. *)
Lemma eliminate_unit_unit_free (start : str) (G G1 : Productions) :
  eliminate_unit_productions start G = Ok G1 -> unit_free G1.
Proof.
  unfold eliminate_unit_productions. intros H.
  destruct (unit_closure G) as [unit|e]; [|discriminate]. cbn [bind] in H.
  revert H. apply foldM_ok_inv.
  - intros np A np' _ Hnp. destruct (getitem A unit) as [uA|e];
      [|discriminate]. cbn [bind]. apply foldM_ok_inv; [|assumption].
    intros np1 B np1' _ Hnp1. apply foldM_ok_inv; [|assumption].
    intros np2 body np2' _ Hnp2.
    destruct (is_unit_body body) eqn:E; [intros [= <-]; assumption|].
    now apply unit_free_add.
  - split; [apply NoDup_keys_empty_sets|].
    intros A s Hs. apply lookup_empty_sets in Hs. subst.
    split; [constructor | intros b []].
Qed.

Section UnitAgain.
Variable G1 : Productions.
Hypothesis Hfree : unit_free G1.

Lemma unit_free_entry (A : str) (bodies : list str) :
  In (A, bodies) G1 ->
  get_or_empty A G1 = bodies /\ NoDup bodies /\
  forall b, In b bodies -> is_unit_body b = false.
Proof.
  destruct Hfree as [Hk Hs]. intros Hin.
  apply (In_lookup _ _ _ Hk) in Hin. unfold get_or_empty. rewrite Hin.
  split; [reflexivity|]. exact (Hs _ _ Hin).
Qed.

Lemma unit_direct_none (A : str) (bodies : list str)
  (st : dict (list str) * bool) :
  (forall b, In b bodies -> is_unit_body b = false) ->
  unit_direct A bodies st = Ok st.
Proof.
  unfold unit_direct. revert st.
  induction bodies as [|b bodies IH]; intros [unit changed] H; simpl.
  - reflexivity.
  - rewrite H by now left. cbn [bind]. apply IH.
    intros b' Hb'. apply H. now right.
Qed.

Lemma unit_union_init (A : str) :
  In A (keys G1) ->
  unit_union A (unit_init (keys G1)) = Ok (unit_init (keys G1)).
Proof.
  intros HA. destruct Hfree as [Hk _].
  pose proof (lookup_unit_init (keys G1) A Hk HA) as Hl.
  unfold unit_union, getitem. rewrite Hl. cbn [bind foldM].
  rewrite Hl. cbn [bind]. unfold get_or_empty. rewrite Hl.
  replace (set_update [A] [A]) with [A].
  - now rewrite setitem_same.
  - unfold set_update, set_add, mem. simpl. now rewrite str_eqb_refl.
Qed.

Lemma unit_pass_init (l : list str) :
  (forall A, In A l -> In A (keys G1)) ->
  foldM (fun '(unit, changed) A =>
           '(unit, changed) <-
             unit_direct A (get_or_empty A G1) (unit, changed) ;;
           unit <- unit_union A unit ;;
           Ok (unit, changed))
        l (unit_init (keys G1), false)
  = Ok (unit_init (keys G1), false).
Proof.
  induction l as [|A l IH]; intros Hl; simpl; [reflexivity|].
  assert (HA : In A (keys G1)) by (apply Hl; now left).
  apply in_map_iff in HA. destruct HA as [[A' bodies] [HA' Hin]].
  simpl in HA'. subst A'.
  destruct (unit_free_entry A bodies Hin) as [-> [_ Hnu]].
  rewrite unit_direct_none by assumption. cbn [bind].
  rewrite unit_union_init by (apply Hl; now left). cbn [bind].
  apply IH. intros B HB. apply Hl. now right.
Qed.

Lemma unit_closure_init :
  unit_closure G1 = Ok (unit_init (keys G1)).
Proof.
  unfold unit_closure. cbn [unit_loop]. unfold unit_pass.
  rewrite unit_pass_init by auto. reflexivity.
Qed.

Lemma skip_units_fill (A : str) (bodies : list str) :
  (forall b, In b bodies -> is_unit_body b = false) ->
  forall d,
    foldM (fun new_prods body =>
             if is_unit_body body then Ok new_prods
             else add_to A body new_prods)
          bodies d
    = fill A bodies d.
Proof.
  intros H d. unfold fill. apply foldM_ext_in.
  intros s b Hb. now rewrite H.
Qed.

(** On a grammar without unit bodies [eliminate_unit_productions] returns
    the grammar. *)
Lemma eliminate_unit_fixes (start : str) :
  eliminate_unit_productions start G1 = Ok G1.
Proof.
  unfold eliminate_unit_productions. rewrite unit_closure_init.
  cbn [bind]. destruct Hfree as [Hk Hs].
  unfold keys at 2. rewrite foldM_map.
  transitivity (foldM (fun d '(A, bodies) => fill A bodies d) G1
                      (empty_sets (keys G1))).
  - apply foldM_ext_in. intros d [A bodies] Hin. simpl.
    assert (HA : In A (keys G1))
      by (apply (in_map fst) in Hin; exact Hin).
    unfold getitem. rewrite (lookup_unit_init (keys G1) A Hk HA).
    cbn [bind foldM].
    destruct (unit_free_entry A bodies Hin) as [-> [_ Hnu]].
    rewrite skip_units_fill by assumption.
    now destruct (fill A bodies d).
  - apply rebuild; [assumption|].
    intros A bodies Hin. now destruct (unit_free_entry A bodies Hin).
Qed.
End UnitAgain.

(** [eliminate_unit_productions] is idempotent: applied to the grammar it
    returned, it returns that grammar. *)
Lemma eliminate_unit_idempotent (start : str) (G G1 : Productions) :
  eliminate_unit_productions start G = Ok G1 ->
  eliminate_unit_productions start G1 = Ok G1.
Proof.
  intros H. apply eliminate_unit_fixes.
  eapply eliminate_unit_unit_free. eassumption.
Qed.

(** ** The stages a second time, on the sample grammars *)

(** On the sample grammars the first three stages, applied to the grammar
    they returned, return the same mapping; [to_cnf] does not on
    [S -> SSS | a]. *)
Lemma stages_twice_on_samples :
  forallb (fun '(start, G) =>
             forallb (fun s => idempotent_at s start G)
                     [EliminateEpsilon true; EliminateEpsilon false;
                      EliminateUnitProductions; RemoveUselessSymbols])
          [ ([83%N], grammar_ab); ([83%N], grammar_loop);
            ([65%N], grammar_chain); ([65%N], rev grammar_chain);
            ([65%N], grammar_a); ([83%N], grammar_sss);
            ([83%N], grammar_empty_start);
            ([83%N], grammar_nullable_chain); ([83%N], grammar_mixed) ]
  = true
  /\ idempotent_at ToCnf [83%N] grammar_sss = false.
Proof. split; vm_compute; reflexivity. Qed.

(** On each of the 4096 grammars of [small_grammars], all of them accepted
    by [wf_grammar], the first three stages applied to the grammar they
    returned return the same mapping. *)
Lemma stages_twice_small_grammars :
  length small_grammars = 4096
  /\ forallb wf_grammar small_grammars = true
  /\ forallb (fun G =>
                forallb (fun s => idempotent_at s [83%N] G)
                        [EliminateEpsilon true; EliminateEpsilon false;
                         EliminateUnitProductions; RemoveUselessSymbols])
             small_grammars = true.
Proof. repeat split; vm_compute; reflexivity. Qed.

(** * Further properties *)

(** ** Loops that only add to the sets of a dictionary *)

Lemma below_refl (d : Productions) : below d d.
Proof. intros A s H. exists s. split; [assumption | apply incl_refl]. Qed.

Lemma below_trans (d1 d2 d3 : Productions) :
  below d1 d2 -> below d2 d3 -> below d1 d3.
Proof.
  intros H1 H2 A s Hs. destruct (H1 _ _ Hs) as [s2 [Hs2 Hi2]].
  destruct (H2 _ _ Hs2) as [s3 [Hs3 Hi3]]. exists s3.
  split; [assumption|]. eapply incl_tran; eassumption.
Qed.

Lemma below_setitem (d : Productions) (A : str) (s t : list str) :
  lookup A d = Some s -> incl s t -> below d (setitem A t d).
Proof.
  intros Hs Hi B s0 HB. rewrite lookup_setitem.
  destruct (str_eqb B A) eqn:E.
  - apply str_eqb_eq in E. subst B. rewrite Hs in HB. injection HB as <-.
    exists t. split; [reflexivity | assumption].
  - exists s0. split; [assumption | apply incl_refl].
Qed.

(** A loop all of whose steps only add: what a step has put into the
    dictionary is still there when the loop is left. *)
Lemma foldM_grows {X : Type} (f : Productions -> X -> result Productions)
  (R : X -> Productions -> Prop) (l : list X) :
  (forall d a d', In a l -> f d a = Ok d' -> below d d' /\ R a d') ->
  (forall a d d', R a d -> below d d' -> R a d') ->
  forall d d', foldM f l d = Ok d' ->
               below d d' /\ forall a, In a l -> R a d'.
Proof.
  intros Hstep Hmono. induction l as [|a l IH]; intros d d'; simpl.
  - intros [= <-]. split; [apply below_refl | intros a []].
  - destruct (f d a) as [d1|e] eqn:E1; simpl; [|discriminate]. intros E.
    destruct (Hstep d a d1 (or_introl eq_refl) E1) as [Hb1 Hr1].
    destruct (IH (fun d0 a0 d0' Hin => Hstep d0 a0 d0' (or_intror Hin))
                 d1 d' E) as [Hb Hr].
    split; [eapply below_trans; eassumption|].
    intros a0 [<- | Hin]; [|now apply Hr].
    eapply Hmono; eassumption.
Qed.

(** ** The candidates of a body *)

Lemma index_of_None (i : nat) (l : list nat) :
  ~ In i l -> index_of i l = None.
Proof.
  induction l as [|j l IH]; simpl; [reflexivity|]. intros H.
  destruct (Nat.eqb_spec i j) as [-> | _]; [exfalso; apply H; now left|].
  rewrite IH; [reflexivity|]. intros Hin. apply H. now right.
Qed.

Lemma index_of_app (i : nat) (pre post : list nat) :
  ~ In i pre -> index_of i (pre ++ i :: post) = Some (length pre).
Proof.
  induction pre as [|j pre IH]; simpl; intros H.
  - now rewrite Nat.eqb_refl.
  - destruct (Nat.eqb_spec i j) as [-> | _]; [exfalso; apply H; now left|].
    rewrite IH; [reflexivity|]. intros Hin. apply H. now right.
Qed.

Lemma testbit_bits (l : list bool) :
  forall k, N.testbit (bits_to_N l) (N.of_nat k) = nth k l false.
Proof.
  induction l as [|b l IH]; intros k.
  - simpl. now destruct k.
  - cbn [bits_to_N]. destruct k as [|k].
    + simpl N.of_nat. apply N.testbit_0_r.
    + rewrite Nat2N.inj_succ, N.testbit_succ_r. apply IH.
Qed.

Lemma bits_to_N_lt (l : list bool) :
  (bits_to_N l < 2 ^ N.of_nat (length l))%N.
Proof.
  induction l as [|b l IH].
  - simpl. lia.
  - cbn [bits_to_N length]. rewrite Nat2N.inj_succ, N.pow_succ_r'.
    destruct b; simpl N.b2n; lia.
Qed.

Lemma In_masks (m : nat) (x : N) :
  (x < 2 ^ N.of_nat m)%N -> In x (masks m).
Proof.
  intros H. unfold masks. apply in_map_iff. exists (N.to_nat x).
  split; [apply N2Nat.id|]. apply in_seq. split; [lia|]. simpl.
  assert (E : 2 ^ m = N.to_nat (2 ^ N.of_nat m)).
  { rewrite N2Nat.inj_pow, Nat2N.id. reflexivity. }
  rewrite E. lia.
Qed.

(** Every candidate is the body with nullable nonterminals left out. *)
Lemma candidate_drops_from (nullable : list str) (positions : list nat)
  (mask : N) :
  forall b i,
    (forall k, In k positions -> i <= k ->
               forall ch, nth_error b (k - i) = Some ch ->
                          is_nonterminal ch = true /\ In [ch] nullable) ->
    drops nullable b (candidate_from i b positions mask).
Proof.
  induction b as [|c b IH]; intros i H; simpl; [constructor|].
  assert (Hrec : drops nullable b (candidate_from (S i) b positions mask)).
  { apply IH. intros k Hk Hle ch Hch. apply (H k Hk); [lia|].
    replace (k - i) with (S (k - S i)) by lia. exact Hch. }
  destruct (index_of i positions) as [pos_idx|] eqn:E;
    [|now constructor].
  destruct (N.testbit mask (N.of_nat pos_idx)); [|now constructor].
  apply index_of_In in E.
  destruct (H i E (le_n i) c) as [Hnt Hin];
    [now rewrite Nat.sub_diag|].
  now constructor.
Qed.

Lemma candidate_drops (nullable : list str) (b : str) (mask : N) :
  drops nullable b
        (candidate_from 0 b (positions_from 0 b nullable) mask).
Proof.
  apply candidate_drops_from. intros k Hk _ ch Hch.
  destruct (positions_from_spec _ _ _ _ Hk) as [_ [c [Hc H]]].
  rewrite Hch in Hc. injection Hc as <-. exact H.
Qed.

(** Every way of leaving nullable nonterminals out is a candidate. *)
Lemma drops_candidate_from (nullable : list str) :
  forall b c, drops nullable b c ->
  forall i pre dpre,
    (forall k, In k pre -> k < i) -> length dpre = length pre ->
    exists d,
      length d = length (positions_from i b nullable) /\
      candidate_from i b (pre ++ positions_from i b nullable)
                     (bits_to_N (dpre ++ d)) = c.
Proof.
  intros b c H. induction H as [|ch b c H IH|ch b c Hnt Hin H IH];
    intros i pre dpre Hpre Hlen.
  - exists []. split; reflexivity.
  - cbn [positions_from candidate_from].
    destruct (is_nonterminal ch && mem [ch] nullable) eqn:E.
    + destruct (IH (S i) (pre ++ [i]) (dpre ++ [false])) as [d [Hd Hc]].
      { intros k Hk. apply in_app_iff in Hk.
        destruct Hk as [Hk | [<- | []]]; [|lia].
        specialize (Hpre _ Hk). lia. }
      { rewrite !length_app. simpl. lia. }
      rewrite <- !app_assoc in Hc. simpl in Hc.
      exists (false :: d). split; [simpl; now rewrite Hd|].
      rewrite index_of_app.
      * rewrite testbit_bits, <- Hlen, app_nth2, Nat.sub_diag by lia.
        simpl. now rewrite Hc.
      * intros Hk. specialize (Hpre _ Hk). lia.
    + destruct (IH (S i) pre dpre) as [d [Hd Hc]]; [|assumption|].
      { intros k Hk. specialize (Hpre _ Hk). lia. }
      exists d. split; [assumption|].
      rewrite index_of_None; [now rewrite Hc|].
      intros Hk. apply in_app_iff in Hk. destruct Hk as [Hk | Hk].
      * specialize (Hpre _ Hk). lia.
      * apply positions_from_spec in Hk. lia.
  - cbn [positions_from candidate_from].
    apply mem_In in Hin. rewrite Hnt, Hin. simpl.
    destruct (IH (S i) (pre ++ [i]) (dpre ++ [true])) as [d [Hd Hc]].
    { intros k Hk. apply in_app_iff in Hk.
      destruct Hk as [Hk | [<- | []]]; [|lia].
      specialize (Hpre _ Hk). lia. }
    { rewrite !length_app. simpl. lia. }
    rewrite <- !app_assoc in Hc. simpl in Hc.
    exists (true :: d). split; [simpl; now rewrite Hd|].
    rewrite index_of_app.
    + rewrite testbit_bits, <- Hlen, app_nth2, Nat.sub_diag by lia.
      simpl. exact Hc.
    + intros Hk. specialize (Hpre _ Hk). lia.
Qed.

Lemma drops_candidate (nullable : list str) (b c : str) :
  drops nullable b c ->
  exists mask,
    In mask (masks (length (positions_from 0 b nullable))) /\
    candidate_from 0 b (positions_from 0 b nullable) mask = c.
Proof.
  intros H.
  destruct (drops_candidate_from nullable b c H 0 [] []) as [d [Hd Hc]];
    [intros k [] | reflexivity |].
  simpl in Hc. exists (bits_to_N d). split; [|assumption].
  apply In_masks. rewrite <- Hd. apply bits_to_N_lt.
Qed.

(** What the loop over the masks puts into [generated]. *)
Lemma generated_of_In (start A : str) (keep : bool) (nullable : list str)
  (b x : str) :
  In x (generated_of start A keep nullable b) <->
  exists mask,
    In mask (masks (length (positions_from 0 b nullable))) /\
    match candidate_from 0 b (positions_from 0 b nullable) mask with
    | [] => A = start /\ keep = true /\ x = EPS
    | c => x = c
    end.
Proof.
  unfold generated_of.
  set (step := fun generated mask =>
                 match candidate_from 0 b (positions_from 0 b nullable) mask
                 with
                 | [] => if str_eqb A start && keep
                         then set_add EPS generated else generated
                 | _ :: _ =>
                     set_add
                       (candidate_from 0 b (positions_from 0 b nullable) mask)
                       generated
                 end).
  assert (H : forall l g,
             In x (fold_left step l g) <->
             In x g \/
             exists mask,
               In mask l /\
               match candidate_from 0 b (positions_from 0 b nullable) mask
               with
               | [] => A = start /\ keep = true /\ x = EPS
               | c => x = c
               end).
  { induction l as [|mask l IH]; intros g; simpl.
    - split; [auto | intros [H | [m [[] _]]]; assumption].
    - rewrite IH. split.
      + intros [Hx | [m [Hm Hc]]]; [|right; exists m; auto].
        unfold step in Hx.
        destruct (candidate_from 0 b (positions_from 0 b nullable) mask)
          as [|c0 cs] eqn:E.
        * destruct (str_eqb A start && keep) eqn:Ek; [|now left].
          apply set_add_In in Hx. destruct Hx as [-> | Hx]; [|now left].
          right. exists mask. rewrite E. split; [now left|].
          apply andb_true_iff in Ek. destruct Ek as [Ea ->].
          apply str_eqb_eq in Ea. auto.
        * apply set_add_In in Hx. destruct Hx as [-> | Hx]; [|now left].
          right. exists mask. rewrite E. split; [now left | reflexivity].
      + intros [Hx | [m [[<- | Hm] Hc]]].
        * left. unfold step.
          destruct (candidate_from 0 b (positions_from 0 b nullable) mask).
          -- destruct (str_eqb A start && keep); [|assumption].
             apply set_add_In. now right.
          -- apply set_add_In. now right.
        * left. unfold step.
          destruct (candidate_from 0 b (positions_from 0 b nullable) mask)
            as [|c0 cs].
          -- destruct Hc as [-> [-> ->]]. rewrite str_eqb_refl. simpl.
             apply set_add_In. now left.
          -- apply set_add_In. now left.
        * right. exists m. auto. }
  rewrite H. split; [intros [[] | H0]; exact H0 | auto].
Qed.

Lemma candidate_zero (positions : list nat) :
  forall b i, candidate_from i b positions 0 = b.
Proof.
  induction b as [|c b IH]; intros i; simpl; [reflexivity|].
  rewrite IH. now destruct (index_of i positions).
Qed.

(** The body itself is among its candidates. *)
Lemma generated_of_self (start A : str) (keep : bool) (nullable : list str)
  (b : str) :
  b <> [] -> In b (generated_of start A keep nullable b).
Proof.
  intros Hb. apply generated_of_In. exists 0%N. split.
  - apply In_masks. apply N.neq_0_lt_0. apply N.pow_nonzero. discriminate.
  - rewrite candidate_zero. destruct b; [contradiction | reflexivity].
Qed.

(** ** The grammar [eliminate_epsilon] returns, body by body *)

Section EpsilonBodies.
Variables (G : Productions) (start : str) (keep : bool)
  (nullable : list str).
Hypothesis Hwf : wf_grammar G = true.

Lemma eps_body_step_grows (A : str) (d : Productions) (b : str)
  (d' : Productions) :
  eps_body_step start keep nullable A d b = Ok d' ->
  below d d' /\
  keys d' = keys d /\
  (b <> EPS -> forall x, In x (generated_of start A keep nullable b) ->
               b <> [] ->
               exists s, lookup A d' = Some s /\ In x s) /\
  (forall B s x, lookup B d' = Some s -> In x s ->
                 (exists s0, lookup B d = Some s0 /\ In x s0) \/
                 (B = A /\ b <> EPS /\
                  (In x (generated_of start A keep nullable b) \/
                   generated_of start A keep nullable b = []))).
Proof.
  unfold eps_body_step. destruct (str_eqb b EPS) eqn:E.
  - intros [= <-]. apply str_eqb_eq in E.
    split; [apply below_refl|]. split; [reflexivity|].
    split; [congruence|]. intros B s x HB Hx. left. eauto.
  - apply str_eqb_neq in E. cbv zeta.
    destruct (getitem A d) as [s|e] eqn:Es; [|discriminate].
    apply getitem_Ok in Es. cbn [bind]. intros [= <-].
    split; [|split; [|split]].
    + apply below_setitem with s; [assumption|].
      intros x Hx. apply set_update_In. now left.
    + apply keys_setitem_present. apply lookup_Some_key. eauto.
    + intros _ x Hx Hb. rewrite lookup_setitem_eq. eexists.
      split; [reflexivity|]. apply set_update_In. right.
      destruct (generated_of start A keep nullable b); [destruct Hx|].
      exact Hx.
    + intros B s0 x HB Hx. rewrite lookup_setitem in HB.
      destruct (str_eqb B A) eqn:EB; [|left; eauto].
      apply str_eqb_eq in EB. subst B. injection HB as <-.
      apply set_update_In in Hx. destruct Hx as [Hx | Hx]; [left; eauto|].
      right. split; [reflexivity|]. split; [assumption|].
      destruct (generated_of start A keep nullable b); [now right|].
      now left.
Qed.

(** The main loop of [eliminate_epsilon]: the sets it builds hold the
    candidates of the bodies, and nothing else. *)
Lemma eps_main_loop_exact (np : Productions) :
  foldM (fun new_prods '(A, bodies) =>
           foldM (eps_body_step start keep nullable A) bodies new_prods)
        G (empty_sets (keys G)) = Ok np ->
  keys np = keys G /\
  forall A s, lookup A np = Some s ->
  forall x, In x s <->
            exists bodies b,
              In (A, bodies) G /\ In b bodies /\ b <> EPS /\
              In x (generated_of start A keep nullable b).
Proof.
  intros E.
  assert (Hnd : NoDup (keys G)) by now apply wf_grammar_nodup.
  assert (Hne : forall A bodies b,
             In (A, bodies) G -> In b bodies -> b <> EPS -> b <> []).
  { intros A bodies b Hin Hb Hb'.
    destruct (wf_grammar_entry _ _ _ Hwf Hin) as [_ [_ Hbs]].
    now destruct (wf_body_not_eps _ (Hbs _ Hb) Hb'). }
  set (Inv := fun d : Productions =>
                keys d = keys G /\
                forall A s x, lookup A d = Some s -> In x s ->
                  exists bodies b,
                    In (A, bodies) G /\ In b bodies /\ b <> EPS /\
                    In x (generated_of start A keep nullable b)).
  assert (Hsound : Inv np).
  { revert E. apply foldM_ok_inv with (Inv := Inv).
    - intros d [A bodies] d' Hin Hd.
      apply foldM_ok_inv with (Inv := Inv); [|assumption].
      intros d1 b d2 Hb [Hk Hd1] E2.
      destruct (eps_body_step_grows A d1 b d2 E2) as [_ [Hk2 [_ Hold]]].
      split; [congruence|]. intros B s x HB Hx.
      destruct (Hold _ _ _ HB Hx) as [[s0 [Hs0 Hx0]] | [-> [Hbe Hg]]].
      + eapply Hd1; eassumption.
      + exists bodies, b. repeat split; try assumption.
        destruct Hg as [Hg | Hg]; [assumption|].
        pose proof (generated_of_self start A keep nullable b
                      (Hne _ _ _ Hin Hb Hbe)) as Hself.
        rewrite Hg in Hself. destruct Hself.
    - split.
      + rewrite empty_sets_map by assumption. unfold keys.
        rewrite map_map. reflexivity.
      + intros A s x Hs Hx. apply lookup_empty_sets in Hs. subst s.
        destruct Hx. }
  destruct Hsound as [Hk Hsound]. split; [assumption|].
  intros A s Hs x. split; [now apply Hsound|].
  intros [bodies [b [Hin [Hb [Hbe Hx]]]]].
  destruct (foldM_grows
              (fun new_prods '(A, bodies) =>
                 foldM (eps_body_step start keep nullable A) bodies new_prods)
              (fun '(A, bodies) d =>
                 forall b, In b bodies -> b <> EPS -> b <> [] ->
                 forall x, In x (generated_of start A keep nullable b) ->
                           exists s, lookup A d = Some s /\ In x s)
              G) with (d := empty_sets (keys G)) (d' := np) as [_ Hall].
  - intros d [A0 bodies0] d' _ E0.
    destruct (foldM_grows (eps_body_step start keep nullable A0)
                (fun b d =>
                   b <> EPS -> b <> [] ->
                   forall x, In x (generated_of start A0 keep nullable b) ->
                             exists s, lookup A0 d = Some s /\ In x s)
                bodies0) with (d := d) (d' := d') as [Hb0 Hall0].
    + intros d1 b1 d2 _ E1.
      destruct (eps_body_step_grows A0 d1 b1 d2 E1) as [H1 [_ [H2 _]]].
      split; [assumption|]. intros Hbe1 Hne1 x1 Hx1. now apply H2.
    + intros b1 d1 d2 H1 Hbel Hbe1 Hne1 x1 Hx1.
      destruct (H1 Hbe1 Hne1 x1 Hx1) as [s1 [Hs1 Hin1]].
      destruct (Hbel _ _ Hs1) as [s2 [Hs2 Hi2]]. exists s2. auto.
    + assumption.
    + split; [assumption|]. intros b1 Hb1 Hbe1 Hne1 x1 Hx1.
      now apply (Hall0 b1 Hb1).
  - intros [A0 bodies0] d1 d2 H1 Hbel b1 Hb1 Hbe1 Hne1 x1 Hx1.
    destruct (H1 b1 Hb1 Hbe1 Hne1 x1 Hx1) as [s1 [Hs1 Hin1]].
    destruct (Hbel _ _ Hs1) as [s2 [Hs2 Hi2]]. exists s2. auto.
  - assumption.
  - destruct (Hall (A, bodies) Hin b Hb Hbe (Hne _ _ _ Hin Hb Hbe) x Hx)
      as [s' [Hs' Hx']].
    rewrite Hs in Hs'. injection Hs' as <-. assumption.
Qed.
End EpsilonBodies.

(** The two loops after the main loop only touch the marker. *)
Lemma eps_tail_exact (start : str) (keep : bool) (nullable : list str)
  (np np3 G' : Productions) :
  (if keep && mem start nullable then add_to start EPS np else Ok np)
  = Ok np3 ->
  foldM (fun new_prods A =>
           if str_eqb A start then Ok new_prods
           else s <- getitem A new_prods ;;
                Ok (setitem A (set_discard EPS s) new_prods))
        (keys np3) np3 = Ok G' ->
  keys G' = keys np /\
  forall A s, lookup A G' = Some s ->
              exists s0, lookup A np = Some s0 /\
                         forall x, x <> EPS -> (In x s <-> In x s0).
Proof.
  intros E3 E4.
  assert (H3 : keys np3 = keys np /\
               forall A s, lookup A np3 = Some s ->
                           exists s0, lookup A np = Some s0 /\
                                      forall x, x <> EPS ->
                                                (In x s <-> In x s0)).
  { destruct (keep && mem start nullable).
    - unfold add_to in E3.
      destruct (getitem start np) as [s|e] eqn:Es; [|discriminate].
      apply getitem_Ok in Es. cbn [bind] in E3. injection E3 as <-. split.
      + apply keys_setitem_present. apply lookup_Some_key. eauto.
      + intros A s0 HA. rewrite lookup_setitem in HA.
        destruct (str_eqb A start) eqn:Ea.
        * apply str_eqb_eq in Ea. subst A. injection HA as <-.
          exists s. split; [assumption|]. intros x Hx.
          rewrite set_add_In. tauto.
        * exists s0. split; [assumption|]. tauto.
    - injection E3 as <-. split; [reflexivity|]. intros A s HA.
      exists s. split; [assumption|]. tauto. }
  destruct H3 as [Hk3 H3].
  destruct (discard_loop start (keys np3) np3) as [d' [E4' H4]]; [auto|].
  rewrite E4 in E4'. injection E4' as <-. split.
  - rewrite <- Hk3. revert E4.
    apply foldM_ok_inv with (Inv := fun d => keys d = keys np3);
      [|reflexivity].
    intros d A d' _ Hd. destruct (str_eqb A start); [now intros [= <-]|].
    destruct (getitem A d) as [s|e] eqn:Es; [|discriminate].
    apply getitem_Ok in Es. cbn [bind]. intros [= <-]. rewrite <- Hd.
    apply keys_setitem_present. apply lookup_Some_key. eauto.
  - intros A s HA. rewrite H4 in HA.
    destruct (lookup A np3) as [s3|] eqn:E; [|discriminate].
    simpl in HA. injection HA as <-.
    destruct (H3 _ _ E) as [s0 [Hs0 Hx0]]. exists s0.
    split; [assumption|]. intros x Hx. rewrite <- (Hx0 x Hx).
    destruct (mem A (keys np3) && negb (str_eqb A start)); [|tauto].
    rewrite set_discard_In. tauto.
Qed.

(** The grammar [eliminate_epsilon] returns on a well-formed grammar: its
    keys, its bodies other than the marker, and the marker. *)
Lemma eliminate_epsilon_exact (start : str) (G : Productions) (keep : bool) :
  wf_grammar G = true ->
  exists nullable G',
    find_nullable start G = Ok nullable /\
    eliminate_epsilon start G keep = Ok G' /\
    nullable_sound G nullable /\
    (forall A bodies, In (A, bodies) G ->
                      In A nullable \/ nullable_hit nullable bodies = false) /\
    keys G' = keys G /\
    (forall A s, lookup A G' = Some s ->
     forall x, x <> EPS ->
               (In x s <->
                exists bodies b,
                  In (A, bodies) G /\ In b bodies /\ b <> EPS /\
                  In x (generated_of start A keep nullable b))) /\
    (forall A s, lookup A G' = Some s ->
                 (In EPS s <-> A = start /\ keep = true /\ In start nullable)).
Proof.
  intros Hwf.
  destruct (eliminate_epsilon_spec start G keep Hwf)
    as [nullable [G' [En [E [Hk [Hok [Hno Hyes]]]]]]].
  destruct (find_nullable_spec start G Hwf) as [n' [En' [Hs Hfix]]].
  rewrite En in En'. injection En' as <-.
  exists nullable, G'. split; [assumption|]. split; [assumption|].
  split; [assumption|]. split; [assumption|].
  pose proof E as E0. unfold eliminate_epsilon in E0. rewrite En in E0.
  cbn [bind] in E0.
  change (np <- foldM (fun new_prods '(A, bodies) =>
                         foldM (eps_body_step start keep nullable A)
                               bodies new_prods)
                      G (empty_sets (keys G)) ;;
          np3 <- (if keep && mem start nullable
                  then add_to start EPS np else Ok np) ;;
          foldM (fun new_prods A =>
                   if str_eqb A start then Ok new_prods
                   else s <- getitem A new_prods ;;
                        Ok (setitem A (set_discard EPS s) new_prods))
                (keys np3) np3 = Ok G') in E0.
  destruct (foldM (fun new_prods '(A, bodies) =>
                     foldM (eps_body_step start keep nullable A)
                           bodies new_prods)
                  G (empty_sets (keys G))) as [np|e] eqn:E2;
    [|discriminate].
  cbn [bind] in E0.
  destruct (if keep && mem start nullable then add_to start EPS np
            else Ok np) as [np3|e] eqn:E3; [|discriminate].
  cbn [bind] in E0.
  destruct (eps_main_loop_exact G start keep nullable Hwf np E2)
    as [Hk2 Hnp].
  destruct (eps_tail_exact start keep nullable np np3 G' E3 E0)
    as [Hk4 Hg].
  split; [congruence|]. split.
  - intros A s HA x Hx. destruct (Hg _ _ HA) as [s0 [Hs0 Hx0]].
    rewrite (Hx0 x Hx). now apply Hnp.
  - intros A s HA. split.
    + intros Heps. exact (Hok _ _ HA _ Heps eq_refl).
    + intros [-> [Hkeep Hin]]. destruct (Hyes Hkeep Hin) as [s' [Hs' He]].
      rewrite HA in Hs'. injection Hs' as <-. assumption.
Qed.

Lemma generated_of_drops (start A : str) (keep : bool) (nullable : list str)
  (b x : str) :
  x <> EPS ->
  (In x (generated_of start A keep nullable b)
   <-> x <> [] /\ drops nullable b x).
Proof.
  intros Hx. rewrite generated_of_In. split.
  - intros [mask [_ Hc]].
    pose proof (candidate_drops nullable b mask) as Hd.
    destruct (candidate_from 0 b (positions_from 0 b nullable) mask)
      as [|c0 cs].
    + destruct Hc as [_ [_ Hc]]. contradiction.
    + subst x. split; [discriminate | assumption].
  - intros [Hne Hd]. destruct (drops_candidate nullable b x Hd)
      as [mask [Hm Hc]].
    exists mask. split; [assumption|]. rewrite Hc.
    destruct x; [contradiction | reflexivity].
Qed.

Lemma drops_In (nullable : list str) (b c : str) :
  drops nullable b c -> forall ch, In ch c -> In ch b.
Proof.
  intros H. induction H; intros x Hx.
  - destruct Hx.
  - destruct Hx as [<- | Hx]; [now left | right; auto].
  - right. auto.
Qed.

(** ** The language of the grammar [eliminate_epsilon] returns *)

(** A body with nullable nonterminals left out derives nothing the body
    does not derive. *)
Lemma drops_derives (G : Productions) (nullable : list str) (b c : str) :
  nullable_sound G nullable -> drops nullable b c ->
  forall u, derives G c u -> derives G b u.
Proof.
  intros Hs H. induction H as [|ch b c H IH|ch b c Hnt Hin H IH]; intros u Hu.
  - assumption.
  - change (derives G ([ch] ++ c) u) in Hu.
    apply derives_app_inv in Hu. destruct Hu as [u1 [u2 [-> [H1 H2]]]].
    change (derives G ([ch] ++ b) (u1 ++ u2)). apply derives_app; auto.
  - change (derives G ([ch] ++ b) ([] ++ u)). apply derives_app; auto.
    now apply Hs.
Qed.

Lemma derives_nil_inv (G : Productions) (w : str) :
  derives G [] w -> w = [].
Proof. intros H. inversion H. reflexivity. Qed.

Lemma derives_body (G : Productions) (ch : char) (bodies : list str)
  (b u : str) :
  is_nonterminal ch = true -> In ([ch], bodies) G -> In b bodies ->
  derives G (rhs b) u -> derives G [ch] u.
Proof.
  intros Hnt Hin Hb Hu. rewrite <- (List.app_nil_r u).
  apply derives_nonterminal with bodies b; try assumption. constructor.
Qed.

Section EpsilonLanguage.
Variables (G G' : Productions) (start : str) (keep : bool)
  (nullable : list str).
Hypothesis Hwf : wf_grammar G = true.
Hypothesis Hsound : nullable_sound G nullable.
Hypothesis Hclosed :
  forall A bodies, In (A, bodies) G ->
                   In A nullable \/ nullable_hit nullable bodies = false.
Hypothesis Hkeys : keys G' = keys G.
Hypothesis Hbodies :
  forall A s, lookup A G' = Some s ->
  forall x, x <> EPS ->
            (In x s <->
             exists bodies b,
               In (A, bodies) G /\ In b bodies /\ b <> EPS /\
               In x (generated_of start A keep nullable b)).
Hypothesis Hmarker :
  forall A s, lookup A G' = Some s ->
              (In EPS s <-> A = start /\ keep = true /\ In start nullable).

Lemma eps_keys_NoDup : NoDup (keys G').
Proof. rewrite Hkeys. now apply wf_grammar_nodup. Qed.

(** Every string the new grammar derives, the old one derives. *)
Lemma eps_language_sound (alpha w : str) :
  derives G' alpha w -> derives G alpha w.
Proof.
  intros H. induction H as
    [|ch alpha w Ht H IH|ch bodies x alpha u w Hnt Hin Hx H1 IH1 H2 IH2].
  - constructor.
  - now constructor.
  - change (derives G ([ch] ++ alpha) (u ++ w)).
    apply derives_app; [|assumption].
    apply In_lookup in Hin; [|apply eps_keys_NoDup].
    destruct (list_eq_dec N.eq_dec x EPS) as [-> | Hne].
    + apply (Hmarker _ _ Hin) in Hx. destruct Hx as [Hst [_ Hn]].
      apply derives_nil_inv in H1. subst u. rewrite Hst. now apply Hsound.
    + apply (Hbodies _ _ Hin x Hne) in Hx.
      destruct Hx as [bodies0 [b [Hin0 [Hb [Hbe Hg]]]]].
      apply generated_of_drops in Hg; [|assumption].
      destruct Hg as [_ Hd].
      apply derives_body with bodies0 b; try assumption.
      unfold rhs in *. apply str_eqb_neq in Hne, Hbe. rewrite Hne in IH1.
      rewrite Hbe. eapply drops_derives; eassumption.
Qed.

(** Every string the old grammar derives, the new one derives from the
    string of symbols with some nullable nonterminals left out. *)
Lemma eps_language_complete (alpha w : str) :
  derives G alpha w ->
  exists c, drops nullable alpha c /\ derives G' c w.
Proof.
  intros H. induction H as
    [|ch alpha w Ht H IH|ch bodies b alpha u w Hnt Hin Hb H1 IH1 H2 IH2].
  - exists []. split; constructor.
  - destruct IH as [c [Hc Hd]]. exists (ch :: c).
    split; now constructor.
  - destruct IH2 as [c2 [Hc2 Hd2]]. destruct u as [|u0 us].
    + exists c2. split; [|assumption]. constructor; try assumption.
      assert (Hd : derives G [ch] []).
      { apply derives_body with bodies b; assumption. }
      apply (nullable_closed_complete G nullable Hclosed _ _ Hd eq_refl ch).
      now left.
    + destruct IH1 as [c1 [Hc1 Hd1]]. exists (ch :: c2).
      split; [now constructor|].
      assert (Hne1 : c1 <> []).
      { intros ->. apply derives_nil_inv in Hd1. discriminate. }
      assert (Hbe : b <> EPS).
      { intros ->. simpl in Hc1. inversion Hc1. subst c1. now apply Hne1. }
      destruct (wf_grammar_entry _ _ _ Hwf Hin) as [_ [_ Hbs]].
      destruct (wf_body_not_eps _ (Hbs _ Hb) Hbe) as [_ [Hno _]].
      assert (Hrb : rhs b = b).
      { unfold rhs. apply str_eqb_neq in Hbe. now rewrite Hbe. }
      rewrite Hrb in Hc1.
      assert (Hce : c1 <> EPS).
      { intros ->. apply Hno. apply (drops_In _ _ _ Hc1). now left. }
      assert (Hk : In [ch] (keys G')).
      { rewrite Hkeys. apply (in_map fst) in Hin. exact Hin. }
      apply lookup_Some_key in Hk. destruct Hk as [s Hs].
      apply derives_nonterminal with s c1; try assumption.
      * now apply lookup_In.
      * apply (Hbodies _ _ Hs c1 Hce). exists bodies, b.
        repeat split; try assumption.
        apply generated_of_drops; auto.
      * unfold rhs. apply str_eqb_neq in Hce. now rewrite Hce.
Qed.

(** Without the marker nothing but the empty string of symbols derives
    the empty word. *)
Lemma eps_no_empty (alpha w : str) :
  keep = false -> derives G' alpha w -> w = [] -> alpha = [].
Proof.
  intros Hk H. induction H as
    [|ch alpha w Ht H IH|ch bodies x alpha u w Hnt Hin Hx H1 IH1 H2 IH2];
    intros Hw.
  - reflexivity.
  - discriminate.
  - exfalso. apply app_eq_nil in Hw. destruct Hw as [-> ->].
    specialize (IH1 eq_refl).
    apply In_lookup in Hin; [|apply eps_keys_NoDup].
    destruct (list_eq_dec N.eq_dec x EPS) as [-> | Hne].
    + apply (Hmarker _ _ Hin) in Hx. destruct Hx as [_ [Hx _]]. congruence.
    + pose proof Hx as Hx'. apply (Hbodies _ _ Hin x Hne) in Hx'.
      destruct Hx' as [bodies0 [b [_ [_ [_ Hg]]]]].
      apply generated_of_drops in Hg; [|assumption].
      destruct Hg as [Hg _]. apply Hg. unfold rhs in IH1.
      apply str_eqb_neq in Hne. now rewrite Hne in IH1.
Qed.
End EpsilonLanguage.

(** X1.  [eliminate_epsilon], body by body.  On a well-formed grammar the
    bodies of [A] in the grammar returned, the marker apart, are the
    non-empty strings got from a body of [A] other than the marker by
    leaving out occurrences of nullable nonterminals; the keys are those of
    the input, in the same order. *)
Theorem eliminate_epsilon_bodies (start : str) (G : Productions)
  (keep : bool) :
  wf_grammar G = true ->
  exists nullable G',
    find_nullable start G = Ok nullable /\
    eliminate_epsilon start G keep = Ok G' /\
    keys G' = keys G /\
    forall A s, lookup A G' = Some s ->
    forall x, x <> EPS ->
              (In x s <->
               x <> [] /\
               exists bodies b,
                 In (A, bodies) G /\ In b bodies /\ b <> EPS /\
                 drops nullable b x).
Proof.
  intros Hwf.
  destruct (eliminate_epsilon_exact start G keep Hwf)
    as [nullable [G' [En [E [_ [_ [Hk [Hb _]]]]]]]].
  exists nullable, G'. repeat (split; [assumption|]).
  intros A s HA x Hx. rewrite (Hb A s HA x Hx). split.
  - intros [bodies [b [Hin [Hbb [Hbe Hg]]]]].
    apply generated_of_drops in Hg; [|assumption]. destruct Hg as [Hne Hd].
    split; [assumption|]. exists bodies, b. auto.
  - intros [Hne [bodies [b [Hin [Hbb [Hbe Hd]]]]]].
    exists bodies, b. repeat (split; [assumption|]).
    apply generated_of_drops; auto.
Qed.

Lemma eliminate_epsilon_bodies_witness :
  exists nullable G',
    find_nullable [83%N] grammar_ab = Ok nullable /\
    eliminate_epsilon [83%N] grammar_ab true = Ok G' /\
    keys G' = keys grammar_ab /\
    forall A s, lookup A G' = Some s ->
    forall x, x <> EPS ->
              (In x s <->
               x <> [] /\
               exists bodies b,
                 In (A, bodies) grammar_ab /\ In b bodies /\ b <> EPS /\
                 drops nullable b x).
Proof.
  apply (eliminate_epsilon_bodies [83%N] grammar_ab true). reflexivity.
Defined.

(** X2.  [eliminate_epsilon] keeps the language.  On a well-formed grammar whose
    start symbol is one of its nonterminals, the grammar returned derives
    from the start symbol the words the input derives from it, the empty
    word only with retention on. *)
Theorem eliminate_epsilon_language (start : str) (G : Productions)
  (keep : bool) :
  wf_grammar G = true -> In start (keys G) ->
  exists G',
    eliminate_epsilon start G keep = Ok G' /\
    forall w, derives G' start w
              <-> derives G start w /\ (w = [] -> keep = true).
Proof.
  intros Hwf Hstart.
  destruct (eliminate_epsilon_exact start G keep Hwf)
    as [nullable [G' [En [E [Hs [Hc [Hk [Hb Hm]]]]]]]].
  exists G'. split; [assumption|].
  destruct (wf_key_inv _ (wf_grammar_key _ _ Hwf Hstart))
    as [ch [-> [Hnt _]]].
  intros w. split.
  - intros H. split.
    + exact (eps_language_sound G G' [ch] keep nullable Hwf Hs Hk Hb Hm
               _ _ H).
    + intros ->. destruct keep; [reflexivity|].
      discriminate (eps_no_empty G G' [ch] false nullable Hwf Hk Hb Hm
                      _ _ eq_refl H eq_refl).
  - intros [H Hw]. destruct w as [|w0 ws].
    + specialize (Hw eq_refl). subst keep.
      assert (Hn : In [ch] nullable).
      { apply (nullable_closed_complete G nullable Hc _ _ H eq_refl ch).
        now left. }
      assert (Hkey : In [ch] (keys G')) by now rewrite Hk.
      apply lookup_Some_key in Hkey. destruct Hkey as [s Hs'].
      apply derives_body with s EPS; try assumption.
      * now apply lookup_In.
      * apply (Hm _ _ Hs'). auto.
      * constructor.
    + destruct (eps_language_complete G G' [ch] keep nullable Hwf Hc Hk Hb
                  _ _ H) as [c [Hd Hc']].
      inversion Hd as [|c0 b0 c1 Hd1|c0 b0 c1 _ _ Hd1]; subst.
      * inversion Hd1. subst. assumption.
      * inversion Hd1. subst. apply derives_nil_inv in Hc'. discriminate.
Qed.

Lemma eliminate_epsilon_language_witness :
  exists G',
    eliminate_epsilon [83%N] grammar_ab true = Ok G' /\
    forall w, derives G' [83%N] w
              <-> derives grammar_ab [83%N] w /\ (w = [] -> true = true).
Proof.
  apply (eliminate_epsilon_language [83%N] grammar_ab true).
  - reflexivity.
  - simpl. now left.
Defined.

(** ** The loop of [eliminate_unit_productions] ends *)

Lemma filter_length_mono {A : Type} (p q : A -> bool) (l : list A) :
  (forall x, In x l -> q x = true -> p x = true) ->
  length (filter q l) <= length (filter p l).
Proof.
  induction l as [|x l IH]; intros H; simpl; [lia|].
  assert (IH' : length (filter q l) <= length (filter p l)).
  { apply IH. intros y Hy. apply H. now right. }
  destruct (q x) eqn:Eq.
  - rewrite (H x (or_introl eq_refl) Eq). simpl. lia.
  - destruct (p x); simpl; lia.
Qed.

Lemma filter_length_strict {A : Type} (p q : A -> bool) (l : list A) (x : A) :
  (forall x, In x l -> q x = true -> p x = true) ->
  In x l -> p x = true -> q x = false ->
  length (filter q l) < length (filter p l).
Proof.
  induction l as [|y l IH]; intros H Hx Hp Hq; simpl; [destruct Hx|].
  assert (Hle : length (filter q l) <= length (filter p l)).
  { apply filter_length_mono. intros z Hz. apply H. now right. }
  destruct Hx as [-> | Hx].
  - rewrite Hp, Hq. simpl. lia.
  - assert (IH' : length (filter q l) < length (filter p l)).
    { apply IH; try assumption. intros z Hz. apply H. now right. }
    destruct (q y) eqn:Eq.
    + rewrite (H y (or_introl eq_refl) Eq). simpl. lia.
    + destruct (p y); simpl; lia.
Qed.

Lemma below_get (d d' : Productions) (A b : str) :
  below d d' -> In b (get_or_empty A d) -> In b (get_or_empty A d').
Proof.
  unfold get_or_empty. intros H Hb.
  destruct (lookup A d) as [s|] eqn:E; [|destruct Hb].
  destruct (H _ _ E) as [s' [-> Hi]]. now apply Hi.
Qed.

Lemma pending_le (prods : Productions) (u u' : dict (list str)) :
  below u u' -> pending prods u' <= pending prods u.
Proof.
  intros H. unfold pending. apply filter_length_mono.
  intros [A b] _. rewrite !andb_true_iff, !negb_true_iff.
  intros [Hu Hm]. split; [assumption|].
  apply mem_not_In. apply mem_not_In in Hm. intros Hin. apply Hm.
  eapply below_get; eassumption.
Qed.

Lemma pending_lt (prods : Productions) (u u' : dict (list str)) (A b : str) :
  below u u' -> In (A, b) (productions_of prods) ->
  is_unit_body b = true ->
  ~ In b (get_or_empty A u) -> In b (get_or_empty A u') ->
  pending prods u' < pending prods u.
Proof.
  intros H Hin Hb Hno Hyes. unfold pending.
  apply filter_length_strict with (A, b); try assumption.
  - intros [A0 b0] _. rewrite !andb_true_iff, !negb_true_iff.
    intros [Hu Hm]. split; [assumption|].
    apply mem_not_In. apply mem_not_In in Hm. intros Hin0. apply Hm.
    eapply below_get; eassumption.
  - rewrite Hb. simpl. apply negb_true_iff. now apply mem_not_In.
  - rewrite Hb. simpl. apply negb_false_iff. now apply mem_In.
Qed.

Lemma productions_of_In (prods : Productions) (A b : str) :
  In (A, b) (productions_of prods)
  <-> exists bodies, In (A, bodies) prods /\ In b bodies.
Proof.
  unfold productions_of. rewrite in_flat_map. split.
  - intros [[A0 bodies] [Hin Hb]]. apply in_map_iff in Hb.
    destruct Hb as [b0 [[= <- <-] Hb0]]. eauto.
  - intros [bodies [Hin Hb]]. exists (A, bodies). split; [assumption|].
    now apply in_map.
Qed.

Lemma productions_of_length (prods : Productions) :
  length (productions_of prods) = length (concat (map snd prods)).
Proof.
  unfold productions_of. induction prods as [|[A bodies] prods IH]; simpl.
  - reflexivity.
  - now rewrite !length_app, length_map, IH.
Qed.

Lemma pending_bound (prods : Productions) (u : dict (list str)) :
  pending prods u <= length (concat (map snd prods)).
Proof.
  unfold pending. rewrite <- productions_of_length. apply List.filter_length_le.
Qed.

Lemma get_or_empty_entry (prods : Productions) (A b : str) :
  In b (get_or_empty A prods) ->
  exists bodies, In (A, bodies) prods /\ In b bodies.
Proof.
  unfold get_or_empty. destruct (lookup A prods) as [s|] eqn:E;
    [|intros []].
  intros Hb. exists s. split; [now apply lookup_In | assumption].
Qed.

Lemma unit_derives_trans (G : Productions) (A B C : str) :
  unit_derives G A B -> unit_derives G B C -> unit_derives G A C.
Proof.
  intros H1 H2. revert H1.
  induction H2 as [B|B C bodies D H IH Hin HD Hu]; intros H1; [assumption|].
  apply unit_derives_step with C bodies; auto.
Qed.

Section UnitLoop.
Variables (G : Productions) (nts : list str).

Lemma unit_direct_spec (A : str) :
  In A nts ->
  forall bodies u c,
    incl bodies (get_or_empty A G) ->
    unit_keys nts u -> unit_sound G u ->
    exists u' c',
      unit_direct A bodies (u, c) = Ok (u', c') /\
      unit_keys nts u' /\ unit_sound G u' /\ below u u' /\
      keys u' = keys u /\
      (c' = false ->
       c = false /\
       forall b, In b bodies -> is_unit_body b = true ->
                 In b (get_or_empty A u')) /\
      (c' = true -> c = true \/ pending G u' < pending G u).
Proof.
  intros HA. unfold unit_direct.
  induction bodies as [|b bodies IH]; intros u c Hincl Hk Hs.
  - exists u, c. simpl. split; [reflexivity|]. split; [assumption|].
    split; [assumption|]. split; [apply below_refl|].
    split; [reflexivity|]. split; [|auto].
    intros ->. split; [reflexivity | intros b []].
  - assert (Hincl' : incl bodies (get_or_empty A G)).
    { intros x Hx. apply Hincl. now right. }
    cbn [foldM]. destruct (is_unit_body b) eqn:Eb.
    + destruct (getitem_key A u (Hk _ HA)) as [uA [Eg Hl]].
      rewrite Eg. cbn [bind]. destruct (mem b uA) eqn:Em.
      * cbn [bind].
        destruct (IH u c Hincl' Hk Hs)
          as [u' [c' [E [Hk' [Hs' [Hb' [Hkk [Hf Ht]]]]]]]].
        exists u', c'. split; [assumption|]. repeat (split; [assumption|]).
        split; [|assumption]. intros Hc'. destruct (Hf Hc') as [Hc Hall].
        split; [assumption|]. intros x [<- | Hx] Hu; [|now apply Hall].
        apply below_get with u; [assumption|]. unfold get_or_empty.
        rewrite Hl. now apply mem_In.
      * cbn [bind]. apply mem_not_In in Em.
        set (u1 := setitem A (set_add b uA) u).
        assert (Hb1 : below u u1).
        { apply below_setitem with uA; [assumption|].
          intros x Hx. apply set_add_In. now right. }
        assert (Hk1 : keys u1 = keys u).
        { apply keys_setitem_present. now apply Hk. }
        assert (Hin1 : In b (get_or_empty A u1)).
        { unfold get_or_empty, u1. rewrite lookup_setitem_eq.
          apply set_add_In. now left. }
        destruct (get_or_empty_entry G A b (Hincl b (or_introl eq_refl)))
          as [bodiesA [HinA HbA]].
        assert (Hlt : pending G u1 < pending G u).
        { apply pending_lt with A b; try assumption.
          - apply productions_of_In. eauto.
          - unfold get_or_empty. now rewrite Hl. }
        destruct (IH u1 true Hincl')
          as [u' [c' [E [Hk' [Hs' [Hb' [Hkk [Hf Ht]]]]]]]].
        { intros X HX. rewrite Hk1. now apply Hk. }
        { intros X s B HX HB. unfold u1 in HX. rewrite lookup_setitem in HX.
          destruct (str_eqb X A) eqn:EX; [|eapply Hs; eassumption].
          apply str_eqb_eq in EX. subst X. injection HX as <-.
          apply set_add_In in HB. destruct HB as [-> | HB].
          - apply unit_derives_step with A bodiesA; try assumption.
            constructor.
          - eapply Hs; eassumption. }
        exists u', c'. split; [assumption|]. split; [assumption|].
        split; [assumption|]. split; [eapply below_trans; eassumption|].
        split; [congruence|]. split.
        -- intros Hc'. destruct (Hf Hc') as [Hc _]. discriminate.
        -- intros _. right. pose proof (pending_le G u1 u' Hb'). lia.
    + cbn [bind].
      destruct (IH u c Hincl' Hk Hs)
        as [u' [c' [E [Hk' [Hs' [Hb' [Hkk [Hf Ht]]]]]]]].
      exists u', c'. split; [assumption|]. repeat (split; [assumption|]).
      split; [|assumption]. intros Hc'. destruct (Hf Hc') as [Hc Hall].
      split; [assumption|]. intros x [<- | Hx] Hu; [congruence|].
      now apply Hall.
Qed.

Lemma unit_union_spec (A : str) (u : dict (list str)) :
  In A nts -> unit_keys nts u -> unit_sound G u ->
  exists u',
    unit_union A u = Ok u' /\
    unit_keys nts u' /\ unit_sound G u' /\ below u u' /\ keys u' = keys u.
Proof.
  intros HA Hk Hs. unfold unit_union.
  destruct (getitem_key A u (Hk _ HA)) as [snapshot [Eg Hl]].
  rewrite Eg. cbn [bind].
  apply foldM_inv
    with (Inv := fun u' => unit_keys nts u' /\ unit_sound G u' /\
                           below u u' /\ keys u' = keys u).
  - intros u1 B HB [Hk1 [Hs1 [Hb1 Hkk1]]].
    destruct (getitem_key A u1 (Hk1 _ HA)) as [uA [Eg1 Hl1]].
    rewrite Eg1. cbn [bind]. eexists. split; [reflexivity|].
    assert (Hb2 : below u1 (setitem A (set_update uA (get_or_empty B u1)) u1)).
    { apply below_setitem with uA; [assumption|].
      intros x Hx. apply set_update_In. now left. }
    assert (Hk2 : keys (setitem A (set_update uA (get_or_empty B u1)) u1)
                  = keys u1).
    { apply keys_setitem_present. now apply Hk1. }
    split; [|split; [|split]].
    + intros X HX. rewrite Hk2. now apply Hk1.
    + intros X s C HX HC. rewrite lookup_setitem in HX.
      destruct (str_eqb X A) eqn:EX; [|eapply Hs1; eassumption].
      apply str_eqb_eq in EX. subst X. injection HX as <-.
      apply set_update_In in HC. destruct HC as [HC | HC].
      * eapply Hs1; eassumption.
      * apply unit_derives_trans with B.
        -- eapply Hs; eassumption.
        -- unfold get_or_empty in HC.
           destruct (lookup B u1) as [sB|] eqn:EB; [|destruct HC].
           eapply Hs1; eassumption.
    + eapply below_trans; eassumption.
    + congruence.
  - split; [assumption|]. split; [assumption|].
    split; [apply below_refl | reflexivity].
Qed.

Lemma unit_pass_spec :
  forall l u c,
    incl l nts -> unit_keys nts u -> unit_sound G u ->
    exists u' c',
      foldM (fun '(unit, changed) A =>
               '(unit, changed) <-
                 unit_direct A (get_or_empty A G) (unit, changed) ;;
               unit <- unit_union A unit ;;
               Ok (unit, changed))
            l (u, c) = Ok (u', c') /\
      unit_keys nts u' /\ unit_sound G u' /\ below u u' /\
      keys u' = keys u /\
      (c' = false -> c = false /\ unit_direct_done G l u') /\
      (c' = true -> c = true \/ pending G u' < pending G u).
Proof.
  induction l as [|A l IH]; intros u c Hincl Hk Hs.
  - exists u, c. simpl. split; [reflexivity|]. split; [assumption|].
    split; [assumption|]. split; [apply below_refl|].
    split; [reflexivity|]. split; [|auto].
    intros ->. split; [reflexivity | intros A []].
  - assert (HA : In A nts) by (apply Hincl; now left).
    assert (Hincl' : incl l nts) by (intros x Hx; apply Hincl; now right).
    cbn [foldM].
    destruct (unit_direct_spec A HA (get_or_empty A G) u c
                (incl_refl _) Hk Hs)
      as [u1 [c1 [E1 [Hk1 [Hs1 [Hb1 [Hkk1 [Hf1 Ht1]]]]]]]].
    rewrite E1. cbn [bind].
    destruct (unit_union_spec A u1 HA Hk1 Hs1)
      as [u2 [E2 [Hk2 [Hs2 [Hb2 Hkk2]]]]].
    rewrite E2. cbn [bind].
    destruct (IH u2 c1 Hincl' Hk2 Hs2)
      as [u' [c' [E [Hk' [Hs' [Hb' [Hkk [Hf Ht]]]]]]]].
    exists u', c'. split; [assumption|]. split; [assumption|].
    split; [assumption|].
    assert (Hb12 : below u u2) by (eapply below_trans; eassumption).
    split; [eapply below_trans; eassumption|].
    split; [congruence|]. split.
    + intros Hc'. destruct (Hf Hc') as [Hc1 Hdone].
      destruct (Hf1 Hc1) as [Hc Hall]. split; [assumption|].
      intros X [<- | HX] b Hb Hu; [|now apply Hdone].
      apply below_get with u2; [assumption|].
      apply below_get with u1; [assumption|]. now apply Hall.
    + intros Hc'. destruct (Ht Hc') as [Hc1 | Hlt].
      * destruct (Ht1 Hc1) as [Hc | Hlt1]; [now left|]. right.
        pose proof (pending_le G u1 u2 Hb2).
        pose proof (pending_le G u2 u' Hb'). lia.
      * right. pose proof (pending_le G u u2 Hb12). lia.
Qed.

Lemma unit_loop_spec :
  forall fuel u,
    unit_keys nts u -> unit_sound G u -> pending G u < fuel ->
    exists U,
      unit_loop fuel G nts u = Ok U /\
      unit_keys nts U /\ unit_sound G U /\ below u U /\ keys U = keys u /\
      unit_direct_done G nts U.
Proof.
  induction fuel as [|fuel IH]; intros u Hk Hs Hlt; [lia|].
  cbn [unit_loop]. unfold unit_pass.
  destruct (unit_pass_spec nts u false (incl_refl _) Hk Hs)
    as [u' [c' [E [Hk' [Hs' [Hb' [Hkk [Hf Ht]]]]]]]].
  rewrite E. cbn [bind]. destruct c'.
  - destruct (Ht eq_refl) as [Hc | Hlt']; [discriminate|].
    destruct (IH u' Hk' Hs') as [U [EU [HkU [HsU [HbU [HkkU HdU]]]]]];
      [lia|].
    exists U. split; [assumption|]. split; [assumption|].
    split; [assumption|]. split; [eapply below_trans; eassumption|].
    split; [congruence | assumption].
  - exists u'. split; [reflexivity|]. repeat (split; [assumption|]).
    now apply Hf.
Qed.
End UnitLoop.

(** ** The grammar [eliminate_unit_productions] builds *)

Section UnitBuild.
Variables (G : Productions) (U : dict (list str)).

Lemma unit_fill_bodies (A : str) :
  forall bodies np,
    In A (keys np) ->
    exists np',
      foldM (fun new_prods body =>
               if is_unit_body body then Ok new_prods
               else add_to A body new_prods) bodies np = Ok np' /\
      keys np' = keys np /\ below np np' /\
      (forall X s body,
          lookup X np' = Some s -> In body s ->
          (exists s0, lookup X np = Some s0 /\ In body s0) \/
          (X = A /\ In body bodies /\ is_unit_body body = false)) /\
      (forall body, In body bodies -> is_unit_body body = false ->
                    In body (get_or_empty A np')).
Proof.
  induction bodies as [|b bodies IH]; intros np HA.
  - exists np. simpl. split; [reflexivity|]. split; [reflexivity|].
    split; [apply below_refl|]. split; [|intros body []].
    intros X s body HX Hb. left. eauto.
  - cbn [foldM]. destruct (is_unit_body b) eqn:Eb.
    + cbn [bind]. destruct (IH np HA) as [np' [E [Hk [Hb [Hs Hc]]]]].
      exists np'. split; [assumption|]. repeat (split; [assumption|]).
      split.
      * intros X s body HX Hbody.
        destruct (Hs _ _ _ HX Hbody) as [H | [-> [Hin Hu]]]; [now left|].
        right. split; [reflexivity|]. split; [now right | assumption].
      * intros body [<- | Hin] Hu; [congruence | now apply Hc].
    + destruct (getitem_key A np HA) as [s0 [Eg Hl]].
      unfold add_to. rewrite Eg. cbn [bind].
      set (np1 := setitem A (set_add b s0) np).
      assert (Hk1 : keys np1 = keys np) by now apply keys_setitem_present.
      assert (Hb1 : below np np1).
      { apply below_setitem with s0; [assumption|].
        intros x Hx. apply set_add_In. now right. }
      destruct (IH np1) as [np' [E [Hk [Hb [Hs Hc]]]]];
        [now rewrite Hk1|].
      exists np'. split; [assumption|]. split; [congruence|].
      split; [eapply below_trans; eassumption|]. split.
      * intros X s body HX Hbody.
        destruct (Hs _ _ _ HX Hbody) as [[s1 [Hs1 Hin1]] | [-> [Hin Hu]]].
        -- unfold np1 in Hs1. rewrite lookup_setitem in Hs1.
           destruct (str_eqb X A) eqn:EX; [|left; eauto].
           apply str_eqb_eq in EX. subst X. injection Hs1 as <-.
           apply set_add_In in Hin1. destruct Hin1 as [-> | Hin1].
           ++ right. split; [reflexivity|]. split; [now left | assumption].
           ++ left. eauto.
        -- right. split; [reflexivity|]. split; [now right | assumption].
      * intros body [<- | Hin] Hu; [|now apply Hc].
        apply below_get with np1; [assumption|]. unfold get_or_empty, np1.
        rewrite lookup_setitem_eq. apply set_add_In. now left.
Qed.

Lemma unit_fill_spec (A : str) :
  forall uA np,
    In A (keys np) ->
    exists np',
      foldM (fun new_prods B =>
               foldM (fun new_prods body =>
                        if is_unit_body body then Ok new_prods
                        else add_to A body new_prods)
                     (get_or_empty B G) new_prods) uA np = Ok np' /\
      keys np' = keys np /\ below np np' /\
      (forall X s body,
          lookup X np' = Some s -> In body s ->
          (exists s0, lookup X np = Some s0 /\ In body s0) \/
          (X = A /\ exists B, In B uA /\ In body (get_or_empty B G) /\
                              is_unit_body body = false)) /\
      (forall B body, In B uA -> In body (get_or_empty B G) ->
                      is_unit_body body = false ->
                      In body (get_or_empty A np')).
Proof.
  induction uA as [|B uA IH]; intros np HA.
  - exists np. simpl. split; [reflexivity|]. split; [reflexivity|].
    split; [apply below_refl|]. split; [|intros B body []].
    intros X s body HX Hb. left. eauto.
  - cbn [foldM].
    destruct (unit_fill_bodies A (get_or_empty B G) np HA)
      as [np1 [E1 [Hk1 [Hb1 [Hs1 Hc1]]]]].
    rewrite E1. cbn [bind].
    destruct (IH np1) as [np' [E [Hk [Hb [Hs Hc]]]]]; [now rewrite Hk1|].
    exists np'. split; [assumption|]. split; [congruence|].
    split; [eapply below_trans; eassumption|]. split.
    + intros X s body HX Hbody.
      destruct (Hs _ _ _ HX Hbody)
        as [[s1 [Hs1' Hin1]] | [-> [B0 [HB0 [Hin0 Hu0]]]]].
      * destruct (Hs1 _ _ _ Hs1' Hin1) as [H | [-> [Hin Hu]]]; [now left|].
        right. split; [reflexivity|]. exists B. split; [now left | auto].
      * right. split; [reflexivity|]. exists B0. split; [now right | auto].
    + intros B0 body [<- | HB0] Hin Hu; [|now apply (Hc B0)].
      apply below_get with np1; [assumption|]. now apply Hc1.
Qed.

Lemma unit_build_spec :
  forall l np,
    incl l (keys np) -> unit_keys l U ->
    exists np',
      foldM (fun new_prods A =>
               uA <- getitem A U ;;
               foldM (fun new_prods B =>
                        foldM (fun new_prods body =>
                                 if is_unit_body body then Ok new_prods
                                 else add_to A body new_prods)
                              (get_or_empty B G) new_prods)
                     uA new_prods) l np = Ok np' /\
      keys np' = keys np /\ below np np' /\
      (forall X s body,
          lookup X np' = Some s -> In body s ->
          (exists s0, lookup X np = Some s0 /\ In body s0) \/
          (In X l /\ exists B, In B (get_or_empty X U) /\
                               In body (get_or_empty B G) /\
                               is_unit_body body = false)) /\
      (forall A B body, In A l -> In B (get_or_empty A U) ->
                        In body (get_or_empty B G) ->
                        is_unit_body body = false ->
                        In body (get_or_empty A np')).
Proof.
  induction l as [|A l IH]; intros np Hincl Hk.
  - exists np. simpl. split; [reflexivity|]. split; [reflexivity|].
    split; [apply below_refl|]. split; [|intros A B body []].
    intros X s body HX Hb. left. eauto.
  - cbn [foldM].
    destruct (getitem_key A U (Hk A (or_introl eq_refl))) as [uA [Eg Hl]].
    rewrite Eg. cbn [bind].
    destruct (unit_fill_spec A uA np (Hincl A (or_introl eq_refl)))
      as [np1 [E1 [Hk1 [Hb1 [Hs1 Hc1]]]]].
    rewrite E1. cbn [bind].
    destruct (IH np1) as [np' [E [Hk' [Hb [Hs Hc]]]]].
    { rewrite Hk1. intros x Hx. apply Hincl. now right. }
    { intros x Hx. apply Hk. now right. }
    assert (HuA : get_or_empty A U = uA)
      by (unfold get_or_empty; now rewrite Hl).
    exists np'. split; [assumption|]. split; [congruence|].
    split; [eapply below_trans; eassumption|]. split.
    + intros X s body HX Hbody.
      destruct (Hs _ _ _ HX Hbody) as [[s1 [Hs1' Hin1]] | [HX0 H0]].
      * destruct (Hs1 _ _ _ Hs1' Hin1) as [H | [-> H]]; [now left|].
        right. split; [now left|]. now rewrite HuA.
      * right. split; [now right | assumption].
    + intros A0 B body [<- | HA0] HB Hin Hu.
      * apply below_get with np1; [assumption|]. rewrite HuA in HB.
        now apply (Hc1 B).
      * now apply (Hc A0 B).
Qed.
End UnitBuild.

Lemma unit_init_map (ks : list str) :
  NoDup ks -> unit_init ks = map (fun A => (A, [A])) ks.
Proof.
  intros H. unfold unit_init.
  now rewrite (init_from (fun A => [A]) ks []) by assumption.
Qed.

Lemma keys_empty_sets_eq (ks : list str) :
  NoDup ks -> keys (empty_sets ks) = ks.
Proof.
  intros H. unfold empty_sets.
  rewrite (init_from (fun _ => @nil str) ks []) by assumption.
  simpl. unfold keys. rewrite map_map. simpl. apply map_id.
Qed.

(** The whole of [eliminate_unit_productions] on a dictionary. *)
Lemma eliminate_unit_spec (start : str) (G : Productions) :
  NoDup (keys G) ->
  exists U G',
    unit_closure G = Ok U /\
    eliminate_unit_productions start G = Ok G' /\
    keys G' = keys G /\
    unit_sound G U /\
    unit_direct_done G (keys G) U /\
    (forall A, In A (keys G) -> In A (get_or_empty A U)) /\
    (forall A s, lookup A G' = Some s ->
     forall body, In body s <->
                  exists B, In B (get_or_empty A U) /\
                            In body (get_or_empty B G) /\
                            is_unit_body body = false).
Proof.
  intros Hnd.
  assert (Hinit : forall A s, lookup A (unit_init (keys G)) = Some s ->
                              s = [A]).
  { intros A s H. assert (HA : In A (keys (unit_init (keys G)))).
    { apply lookup_Some_key. eauto. }
    rewrite unit_init_map in HA by assumption. unfold keys in HA.
    rewrite map_map in HA. simpl in HA. rewrite map_id in HA.
    rewrite lookup_unit_init in H by assumption. congruence. }
  destruct (unit_loop_spec G (keys G)
              (S (length (concat (map snd G)))) (unit_init (keys G)))
    as [U [EU [HkU [HsU [HbU [HkkU HdU]]]]]].
  { intros A HA. apply lookup_Some_key. exists [A].
    now apply lookup_unit_init. }
  { intros A s B HA HB. apply Hinit in HA. subst s.
    destruct HB as [<- | []]. constructor. }
  { pose proof (pending_bound G (unit_init (keys G))). lia. }
  destruct (unit_build_spec G U (keys G) (empty_sets (keys G)))
    as [G' [E [Hk [_ [Hs Hc]]]]].
  { rewrite keys_empty_sets_eq by assumption. apply incl_refl. }
  { assumption. }
  rewrite keys_empty_sets_eq in Hk by assumption.
  exists U, G'. split; [exact EU|]. split.
  { unfold eliminate_unit_productions. unfold unit_closure in *.
    rewrite EU. cbn [bind]. exact E. }
  split; [assumption|]. split; [assumption|]. split; [assumption|]. split.
  - intros A HA. apply below_get with (unit_init (keys G)); [assumption|].
    unfold get_or_empty. rewrite lookup_unit_init by assumption. now left.
  - intros A s HA body. split.
    + intros Hb. destruct (Hs _ _ _ HA Hb) as [[s0 [Hs0 Hin0]] | [_ H]].
      * apply lookup_empty_sets in Hs0. subst s0. destruct Hin0.
      * assumption.
    + intros [B [HB [Hin Hu]]].
      assert (HAk : In A (keys G)).
      { rewrite <- Hk. apply lookup_Some_key. eauto. }
      pose proof (Hc A B body HAk HB Hin Hu) as H.
      unfold get_or_empty in H. now rewrite HA in H.
Qed.

Lemma eliminate_unit_in_closure (start : str) (G : Productions) :
  NoDup (keys G) ->
  exists G',
    eliminate_unit_productions start G = Ok G' /\
    keys G' = keys G /\
    forall A s body, lookup A G' = Some s -> In body s ->
                     unit_closure_body G A body.
Proof.
  intros Hnd.
  destruct (eliminate_unit_spec start G Hnd)
    as [U [G' [_ [E [Hk [Hs [_ [_ Hb]]]]]]]].
  exists G'. split; [assumption|]. split; [assumption|].
  intros A s body HA Hbody. apply (Hb _ _ HA) in Hbody.
  destruct Hbody as [B [HB [Hin Hu]]].
  destruct (get_or_empty_entry _ _ _ Hin) as [bodies [HinB HbB]].
  exists B, bodies. split; [|auto].
  unfold get_or_empty in HB. destruct (lookup A U) as [uA|] eqn:EA;
    [|destruct HB].
  eapply Hs; eassumption.
Qed.










(** ** Generating and reachable nonterminals, exactly *)

Lemma generating_nonterminals_full (G : Productions) :
  wf_grammar G = true ->
  exists gen,
    generating_nonterminals G = Ok gen /\
    gen_sound G gen /\ incl gen (keys G) /\
    forall A bodies, In (A, bodies) G ->
                     In A gen \/ existsb (gen_ok gen) bodies = false.
Proof.
  intros Hwf.
  destruct (generating_nonterminals_spec G
              (fun set => gen_sound G set /\ incl set (keys G)))
    as [gen [E [[Hs Hi] Hc]]].
  - intros set A bodies [Hs Hi] Hin _ Hhit. split.
    + now apply gen_sound_step with bodies.
    + intros x Hx. apply set_add_In in Hx. destruct Hx as [-> | Hx]; auto.
      apply (in_map fst) in Hin. exact Hin.
  - split; [intros X _ A [] | intros x []].
  - exists gen. auto.
Qed.

(** A set closed under the test of [generating_nonterminals] holds every
    nonterminal that derives a string of terminals. *)
Lemma gen_closed_complete (G : Productions) (gen : list str) :
  (forall A bodies, In (A, bodies) G ->
                    In A gen \/ existsb (gen_ok gen) bodies = false) ->
  forall alpha w, derives G alpha w ->
  forall ch, In ch alpha -> is_nonterminal ch = true -> In [ch] gen.
Proof.
  intros Hc alpha w H. induction H as
    [|ch alpha w Ht H IH|ch bodies b alpha u w Hnt Hin Hb H1 IH1 H2 IH2];
    intros c Hin' Hc'.
  - destruct Hin'.
  - destruct Hin' as [<- | Hin']; [|now apply IH].
    rewrite (nonterminal_not_terminal _ Hc') in Ht. discriminate.
  - destruct Hin' as [<- | Hin']; [|now apply IH2].
    destruct (Hc _ _ Hin) as [Hy | Hno]; [assumption|]. exfalso.
    assert (Hyes : existsb (gen_ok gen) bodies = true).
    { apply existsb_exists. exists b. split; [assumption|].
      unfold gen_ok. apply forallb_forall. intros x Hx.
      destruct (is_terminal x) eqn:Et; [reflexivity|]. simpl.
      destruct (is_nonterminal x) eqn:En; [|reflexivity]. simpl.
      apply negb_true_iff, negb_false_iff. apply mem_In.
      apply IH1; [|assumption]. unfold rhs.
      destruct (str_eqb b EPS) eqn:E; [|assumption].
      apply str_eqb_eq in E. subst b. destruct Hx as [<- | []].
      discriminate. }
    congruence.
Qed.

Lemma prods_gen_sub (gen : list str) (G : Productions) (A : str)
  (bodies : list str) (b : str) :
  NoDup (keys G) ->
  In (A, bodies) (prods_gen_of gen G) -> In b bodies ->
  exists bodies0, In (A, bodies0) G /\ In b bodies0.
Proof.
  intros Hnd Hin Hb.
  apply (In_lookup _ _ _ (prods_gen_NoDup gen G)) in Hin.
  rewrite prods_gen_lookup in Hin by assumption.
  destruct (lookup A G) as [bodies0|] eqn:EG; [|discriminate].
  destruct (mem A gen); [|discriminate]. injection Hin as <-.
  exists bodies0. split; [now apply lookup_In|].
  now apply kept_of_In in Hb.
Qed.

Lemma reachable_nonterminals_full (start : str) (PG : Productions) :
  NoDup (keys PG) ->
  exists reach,
    reachable_nonterminals start PG = Ok reach /\
    reach_sound PG start reach /\ In start reach /\
    forall A b ch, In A reach -> In b (get_or_empty A PG) -> In ch b ->
                   is_nonterminal ch = true -> In [ch] reach.
Proof.
  intros Hnd.
  destruct (reachable_nonterminals_spec start PG (reach_sound PG start))
    as [reach [E [Hs [Hst Hc]]]].
  - intros r A b ch Hs HA Hb Hch Hnt _.
    now apply reach_sound_step with A b.
  - intros X _ A [<- | []]. constructor.
  - exists reach. auto.
Qed.

Lemma prods_final_sub (reach : list str) (PG : Productions) (A : str)
  (bodies : list str) :
  NoDup (keys PG) ->
  In (A, bodies) (prods_final_of reach PG) -> In (A, bodies) PG.
Proof.
  intros Hnd Hin.
  apply (In_lookup _ _ _ (prods_final_NoDup reach PG)) in Hin.
  rewrite prods_final_lookup in Hin by assumption.
  destruct (lookup A PG) as [v|] eqn:E; [|discriminate].
  destruct (mem A reach); [|discriminate]. injection Hin as <-.
  now apply lookup_In.
Qed.

Lemma reach_closed_complete (start : str) (PG : Productions)
  (reach : list str) :
  NoDup (keys PG) -> In start reach ->
  (forall A b ch, In A reach -> In b (get_or_empty A PG) -> In ch b ->
                  is_nonterminal ch = true -> In [ch] reach) ->
  forall A, reachable PG start A -> In A reach.
Proof.
  intros Hnd Hst Hc A H. induction H as [|A bodies b ch H IH Hin Hb Hch Hnt].
  - assumption.
  - apply (Hc A b ch); try assumption.
    unfold get_or_empty. now rewrite (In_lookup _ _ _ Hnd Hin).
Qed.

(** X8.  [generating_nonterminals] is right: on a well-formed grammar it returns
    the nonterminals of the grammar that derive a string of terminals. *)
Theorem generating_nonterminals_correct (G : Productions) :
  wf_grammar G = true ->
  exists gen,
    generating_nonterminals G = Ok gen /\
    forall A, In A gen <-> In A (keys G) /\ exists w, derives G A w.
Proof.
  intros Hwf. pose proof (wf_grammar_nodup _ Hwf) as Hnd.
  destruct (generating_nonterminals_full G Hwf) as [gen [E [Hs [Hi Hc]]]].
  exists gen. split; [assumption|]. intros A. split.
  - intros HA. split; [now apply Hi|].
    destruct (Hs gen (incl_refl gen) A HA) as [w Hw]. exists w.
    revert Hw. apply derives_sub. intros B bodies b.
    now apply prods_gen_sub.
  - intros [HA [w Hw]].
    destruct (wf_key_inv _ (wf_grammar_key _ _ Hwf HA)) as [ch [-> [Hnt _]]].
    apply (gen_closed_complete G gen Hc _ _ Hw ch); [now left | assumption].
Qed.

Lemma generating_nonterminals_correct_witness :
  exists gen,
    generating_nonterminals grammar_mixed = Ok gen /\
    forall A, In A gen
              <-> In A (keys grammar_mixed) /\
                  exists w, derives grammar_mixed A w.
Proof.
  apply (generating_nonterminals_correct grammar_mixed). reflexivity.
Defined.



(** ** The language of the grammar [remove_useless_symbols] returns *)

(** A derivation only uses generating nonterminals and bodies made of
    terminals and generating nonterminals. *)
Lemma derives_in_gen (G : Productions) (gen : list str) :
  NoDup (keys G) ->
  (forall A bodies, In (A, bodies) G ->
                    In A gen \/ existsb (gen_ok gen) bodies = false) ->
  forall alpha w, derives G alpha w -> derives (prods_gen_of gen G) alpha w.
Proof.
  intros Hnd Hc alpha w H.
  pose proof (gen_closed_complete G gen Hc) as Hcomp.
  induction H as
    [|ch alpha w Ht H IH|ch bodies b alpha u w Hnt Hin Hb H1 IH1 H2 IH2].
  - constructor.
  - now constructor.
  - assert (Hg : In [ch] gen).
    { apply (Hcomp [ch] u); [|now left | assumption].
      now apply derives_body with bodies b. }
    apply derives_nonterminal with (kept_of gen bodies) b; try assumption.
    + apply lookup_In. rewrite prods_gen_lookup by assumption.
      rewrite (In_lookup _ _ _ Hnd Hin). apply mem_In in Hg. now rewrite Hg.
    + apply kept_of_In. split; [assumption|]. apply forallb_forall.
      intros x Hx. destruct (is_terminal x) eqn:Et; [reflexivity|]. simpl.
      apply mem_In. unfold rhs in H1.
      destruct (str_eqb b EPS) eqn:E.
      * apply str_eqb_eq in E. subst b. destruct Hx as [<- | []].
        discriminate.
      * assert (Hx' : exists a1 a2, b = a1 ++ x :: a2)
          by now apply in_split.
        destruct Hx' as [a1 [a2 ->]].
        apply derives_app_inv in H1. destruct H1 as [u1 [u2 [_ [_ H1]]]].
        inversion H1 as [|c a w' Ht' H'|c bs b' a u' w' Hnt' _ _ _ _]; subst.
        -- congruence.
        -- apply (Hcomp _ _ H1 x); [now left | assumption].
Qed.

Lemma remove_useless_exact (start : str) (G : Productions) :
  wf_grammar G = true ->
  exists gen reach G',
    remove_useless_symbols start G = Ok G' /\
    incl gen (keys G) /\
    (forall A bodies, In (A, bodies) G ->
                      In A gen \/ existsb (gen_ok gen) bodies = false) /\
    In start reach /\
    (forall A b ch, In A reach -> In b (get_or_empty A (prods_gen_of gen G)) ->
                    In ch b -> is_nonterminal ch = true -> In [ch] reach) /\
    NoDup (keys G') /\
    (forall A bodies, In (A, bodies) (prods_final_of reach (prods_gen_of gen G))
                      -> In (A, bodies) G') /\
    (forall A, lookup A G'
               = match lookup A (prods_final_of reach (prods_gen_of gen G)) with
                 | Some bodies => Some bodies
                 | None => if str_eqb A start then Some [] else None
                 end) /\
    (forall A, In A gen -> exists w, derives (prods_gen_of gen G) A w).
Proof.
  intros Hwf.
  destruct (generating_nonterminals_full G Hwf) as [gen [Eg [Hgs [Hi Hc]]]].
  destruct (reachable_nonterminals_full start (prods_gen_of gen G)
              (prods_gen_NoDup gen G)) as [reach [Er [_ [Hst Hcl]]]].
  destruct (remove_useless_spec start G Hwf)
    as [gen' [reach' [G' [E [_ [Hnd [Hsub [Hlk _]]]]]]]].
  assert (E' := E). unfold remove_useless_symbols in E'.
  rewrite Eg in E'. cbn [bind] in E'. rewrite Er in E'. cbn [bind] in E'.
  exists gen, reach, G'. split; [assumption|].
  repeat (split; [assumption|]).
  change (Ok (match lookup start (prods_final_of reach (prods_gen_of gen G))
              with
              | Some _ => prods_final_of reach (prods_gen_of gen G)
              | None => setitem start []
                          (prods_final_of reach (prods_gen_of gen G))
              end) = Ok G') in E'.
  injection E' as E'. split; [|split].
  - intros A bodies Hin. rewrite <- E'.
    destruct (lookup start (prods_final_of reach (prods_gen_of gen G)))
      eqn:El; [assumption|].
    destruct (In_setitem_absent start [] _ _ Hin) as [H | H]; [assumption|].
    simpl in H. subst A. apply lookup_None in El. exfalso. apply El.
    apply (in_map fst) in Hin. exact Hin.
  - intros A. rewrite <- E'.
    destruct (lookup start (prods_final_of reach (prods_gen_of gen G)))
      as [v|] eqn:El.
    + destruct (lookup A (prods_final_of reach (prods_gen_of gen G))) eqn:EA;
        [reflexivity|].
      destruct (str_eqb A start) eqn:Ea; [|reflexivity].
      apply str_eqb_eq in Ea. congruence.
    + rewrite lookup_setitem. destruct (str_eqb A start) eqn:Ea.
      * apply str_eqb_eq in Ea. subst A. now rewrite El.
      * now destruct (lookup A _).
  - intros A HA. exact (Hgs gen (incl_refl gen) A HA).
Qed.

(** X10.  [remove_useless_symbols] keeps the language: on a well-formed grammar
    and a start symbol that is one upper-case letter, the grammar returned
    derives from the start symbol the words the input derives from it. *)
Theorem remove_useless_language (start : str) (G : Productions) :
  wf_grammar G = true -> wf_key start = true ->
  exists G',
    remove_useless_symbols start G = Ok G' /\
    forall w, derives G' start w <-> derives G start w.
Proof.
  intros Hwf Hstart. pose proof (wf_grammar_nodup _ Hwf) as HndG.
  destruct (remove_useless_exact start G Hwf)
    as [gen [reach [G' [E [Hi [Hc [Hst [Hcl [Hnd [Hsub [Hlk Hgen]]]]]]]]]]].
  exists G'. split; [assumption|].
  pose proof (prods_gen_NoDup gen G) as HndPG.
  destruct (wf_key_inv _ Hstart) as [ch [-> [Hnt _]]].
  intros w. split.
  - apply derives_sub. intros A bodies b Hin Hb.
    apply (In_lookup _ _ _ Hnd) in Hin. rewrite Hlk in Hin.
    destruct (lookup A (prods_final_of reach (prods_gen_of gen G)))
      as [bodies'|] eqn:EF.
    + injection Hin as ->. apply lookup_In in EF.
      apply prods_final_sub in EF; [|assumption].
      now apply prods_gen_sub with gen bodies.
    + destruct (str_eqb A [ch]); [|discriminate].
      injection Hin as <-. destruct Hb.
  - intros H. eapply derives_mono; [exact Hsub|].
    apply derives_in_closed; try assumption.
    + now apply derives_in_gen.
    + intros c [<- | []] _. assumption.
Qed.

Lemma remove_useless_language_witness :
  exists G',
    remove_useless_symbols [83%N] grammar_mixed = Ok G' /\
    forall w, derives G' [83%N] w <-> derives grammar_mixed [83%N] w.
Proof.
  apply (remove_useless_language [83%N] grammar_mixed); reflexivity.
Defined.

(** X11.  The grammar [remove_useless_symbols] returns is a part of the input,
    closed in itself: on a well-formed grammar, every key of the grammar
    returned is the start symbol or a key of the input, every body of [A]
    there is a body of [A] in the input, and every nonterminal that occurs
    in a body there is a key there. *)
Theorem remove_useless_subgrammar (start : str) (G : Productions) :
  wf_grammar G = true ->
  exists G',
    remove_useless_symbols start G = Ok G' /\
    (forall A, In A (keys G') -> A = start \/ In A (keys G)) /\
    (forall A bodies b,
        In (A, bodies) G' -> In b bodies ->
        exists bodies0, In (A, bodies0) G /\ In b bodies0) /\
    (forall A bodies b ch,
        In (A, bodies) G' -> In b bodies -> In ch b ->
        is_nonterminal ch = true -> In [ch] (keys G')).
Proof.
  intros Hwf. pose proof (wf_grammar_nodup _ Hwf) as HndG.
  destruct (remove_useless_exact start G Hwf)
    as [gen [reach [G' [E [Hi [Hc [Hst [Hcl [Hnd [Hsub [Hlk Hgen]]]]]]]]]]].
  exists G'. split; [assumption|].
  pose proof (prods_gen_NoDup gen G) as HndPG.
  assert (Hent : forall A bodies b,
             In (A, bodies) G' -> In b bodies ->
             In A reach /\ In A gen /\
             lookup A (prods_gen_of gen G) = Some bodies /\
             exists bodies0, lookup A G = Some bodies0 /\
                             bodies = kept_of gen bodies0).
  { intros A bodies b Hin Hb. apply (In_lookup _ _ _ Hnd) in Hin.
    rewrite Hlk in Hin.
    destruct (lookup A (prods_final_of reach (prods_gen_of gen G)))
      as [bodies'|] eqn:EF.
    - injection Hin as ->. rewrite prods_final_lookup in EF by assumption.
      destruct (lookup A (prods_gen_of gen G)) as [v|] eqn:EPG;
        [|discriminate].
      destruct (mem A reach) eqn:Er; [|discriminate]. injection EF as ->.
      apply mem_In in Er. split; [assumption|].
      rewrite prods_gen_lookup in EPG by assumption.
      destruct (lookup A G) as [bodies0|] eqn:EG; [|discriminate].
      destruct (mem A gen) eqn:Eg; [|discriminate]. injection EPG as <-.
      apply mem_In in Eg. split; [assumption|]. split; [reflexivity|].
      exists bodies0. auto.
    - destruct (str_eqb A start); [|discriminate].
      injection Hin as <-. destruct Hb. }
  split; [|split].
  - intros A HA. apply lookup_Some_key in HA. destruct HA as [s Hs].
    rewrite Hlk in Hs.
    destruct (lookup A (prods_final_of reach (prods_gen_of gen G)))
      as [bodies'|] eqn:EF.
    + right. apply lookup_In in EF. apply prods_final_sub in EF;
        [|assumption].
      apply (In_lookup _ _ _ HndPG) in EF.
      rewrite prods_gen_lookup in EF by assumption.
      apply lookup_Some_key. destruct (lookup A G); [eauto | discriminate].
    + left. destruct (str_eqb A start) eqn:Ea; [|discriminate].
      now apply str_eqb_eq.
  - intros A bodies b Hin Hb.
    destruct (Hent _ _ _ Hin Hb) as [_ [_ [_ [bodies0 [H0 ->]]]]].
    exists bodies0. split; [now apply lookup_In|].
    now apply kept_of_In in Hb.
  - intros A bodies b ch Hin Hb Hch Hnt.
    destruct (Hent _ _ _ Hin Hb) as [Hr [_ [HPG [bodies0 [H0 ->]]]]].
    assert (Hcr : In [ch] reach).
    { apply (Hcl A b ch); try assumption.
      unfold get_or_empty. now rewrite HPG. }
    apply kept_of_In in Hb. destruct Hb as [_ Hb].
    rewrite forallb_forall in Hb. specialize (Hb _ Hch).
    rewrite (nonterminal_not_terminal _ Hnt) in Hb. simpl in Hb.
    pose proof Hb as Hg. apply mem_In in Hb. apply Hi in Hb.
    apply lookup_Some_key in Hb. destruct Hb as [v Hv].
    apply lookup_Some_key. rewrite Hlk.
    rewrite prods_final_lookup by assumption.
    rewrite prods_gen_lookup by assumption.
    apply mem_In in Hcr. rewrite Hv, Hg, Hcr. eauto.
Qed.

Lemma remove_useless_subgrammar_witness :
  exists G',
    remove_useless_symbols [83%N] grammar_mixed = Ok G' /\
    (forall A, In A (keys G') -> A = [83%N] \/ In A (keys grammar_mixed)) /\
    (forall A bodies b,
        In (A, bodies) G' -> In b bodies ->
        exists bodies0, In (A, bodies0) grammar_mixed /\ In b bodies0) /\
    (forall A bodies b ch,
        In (A, bodies) G' -> In b bodies -> In ch b ->
        is_nonterminal ch = true -> In [ch] (keys G')).
Proof.
  apply (remove_useless_subgrammar [83%N] grammar_mixed). reflexivity.
Defined.

(** ** Fresh names *)

Lemma names_NoDup (base : str) (start len : nat) :
  NoDup (map (fun j => base ++ str_of_nat j) (seq start len)).
Proof.
  revert start. induction len as [|len IH]; intros start; simpl.
  - constructor.
  - constructor; [|apply IH]. intros H. apply in_map_iff in H.
    destruct H as [j [Hj Hin]]. apply app_inv_head, str_of_nat_inj in Hj.
    apply in_seq in Hin. lia.
Qed.

Lemma fresh_var_from_least (used : list str) (base : str) :
  forall fuel i,
    1 <= i ->
    (forall j, 1 <= j < i -> In (base ++ str_of_nat j) used) ->
    length used < fuel + (i - 1) ->
    exists k,
      i <= k /\
      fresh_var_from fuel used base i
      = Ok (base ++ str_of_nat k, set_add (base ++ str_of_nat k) used) /\
      ~ In (base ++ str_of_nat k) used /\
      forall j, 1 <= j < k -> In (base ++ str_of_nat j) used.
Proof.
  induction fuel as [|fuel IH]; intros i Hi Hseen Hlen.
  - exfalso.
    assert (Hle : length (map (fun j => base ++ str_of_nat j)
                              (seq 1 (i - 1))) <= length used).
    { apply NoDup_incl_length; [apply names_NoDup|].
      intros x Hx. apply in_map_iff in Hx. destruct Hx as [j [<- Hj]].
      apply in_seq in Hj. apply Hseen. lia. }
    rewrite length_map, length_seq in Hle. simpl in Hlen. lia.
  - cbn [fresh_var_from]. cbv zeta.
    destruct (mem (base ++ str_of_nat i) used) eqn:E.
    + apply mem_In in E. destruct (IH (S i)) as [k [Hk H]]; [lia| |lia|].
      * intros j Hj. destruct (Nat.eq_dec j i) as [-> | Hne];
          [assumption|]. apply Hseen. lia.
      * exists k. split; [lia | exact H].
    + apply mem_not_In in E. exists i. auto.
Qed.

(** X13.  [fresh_var] returns the first free name: the base followed by the
    least number from 1 on that gives a name not in [used], which is
    then in [used]. *)
Theorem fresh_var_least (used : list str) (base : str) :
  exists k,
    1 <= k /\
    fresh_var used base
    = Ok (base ++ str_of_nat k, set_add (base ++ str_of_nat k) used) /\
    ~ In (base ++ str_of_nat k) used /\
    forall j, 1 <= j < k -> In (base ++ str_of_nat j) used.
Proof.
  unfold fresh_var. apply fresh_var_from_least; [lia | lia | lia].
Qed.

(** ** [to_cnf] on any dictionary *)

Lemma add_to_present (A x : str) (d : Productions) :
  In A (keys d) ->
  exists d', add_to A x d = Ok d' /\ keys d' = keys d.
Proof.
  intros HA. destruct (getitem_key A d HA) as [s [Es _]].
  unfold add_to. rewrite Es. cbn [bind]. eexists. split; [reflexivity|].
  now apply keys_setitem_present.
Qed.

Lemma lift_body_total (b : str) :
  forall used term_var,
    exists used' term_var' new_body,
      lift_body b used term_var = Ok (used', term_var', new_body).
Proof.
  intros used term_var. unfold lift_body.
  destruct (foldM_inv
              (fun '(used, term_var, new_body) ch =>
                 if is_terminal ch then
                   '(used, term_var) <-
                     match lookup [ch] term_var with
                     | Some _ => Ok (used, term_var)
                     | None =>
                         let candidate := upper ch in
                         '(candidate, used) <-
                           (if mem candidate used
                               || negb (length candidate =? 1)
                               || negb (str_isupper candidate)
                            then fresh_var used (84%N :: [ch])
                            else Ok (candidate, used)) ;;
                         Ok (set_add candidate used,
                             setitem [ch] candidate term_var)
                     end ;;
                   Va <- getitem [ch] term_var ;;
                   Ok (used, term_var, new_body ++ [Va])
                 else Ok (used, term_var, new_body ++ [[ch]]))
              (fun _ : list str * dict str * list str => True)
              b) with (s := (used, term_var, @nil str))
    as [[[u t] nb] [E _]].
  - intros [[u t] nb] ch _ _.
    destruct (is_terminal ch); [|eexists; split; [reflexivity | exact I]].
    destruct (lookup [ch] t) as [Va|] eqn:El.
    + cbn [bind]. unfold getitem. rewrite El. cbn [bind].
      eexists. split; [reflexivity | exact I].
    + cbv zeta.
      assert (Hc : exists cand u',
                 (if mem (upper ch) u || negb (length (upper ch) =? 1)
                     || negb (str_isupper (upper ch))
                  then fresh_var u (84%N :: [ch])
                  else Ok (upper ch, u)) = Ok (cand, u')).
      { destruct (mem (upper ch) u || negb (length (upper ch) =? 1)
                  || negb (str_isupper (upper ch))); [|eauto].
        destruct (fresh_var_spec u (84%N :: [ch])) as [cand [Ef _]].
        eauto. }
      destruct Hc as [cand [u' Ec]]. rewrite Ec. cbn [bind].
      unfold getitem. rewrite lookup_setitem_eq. cbn [bind].
      eexists. split; [reflexivity | exact I].
  - exact I.
  - eauto.
Qed.

Lemma lift_terminals_total (start : str) (prods : Productions) :
  exists used term_var cnf1,
    lift_terminals start prods = Ok (used, term_var, cnf1) /\
    forall k, In k (keys prods) -> In k (keys cnf1).
Proof.
  unfold lift_terminals.
  set (Inv := fun st : list str * dict str * Productions =>
                forall k, In k (keys prods) -> In k (keys (snd st))).
  destruct (foldM_inv
              (fun st '(A, bodies) =>
                 foldM (fun '(used, term_var, cnf1) b =>
                          if str_eqb b EPS && negb (str_eqb A start)
                          then Ok (used, term_var, cnf1)
                          else if 2 <=? length b then
                            '(used, term_var, new_body) <-
                              lift_body b used term_var ;;
                            cnf1 <- add_to A (concat new_body) cnf1 ;;
                            Ok (used, term_var, cnf1)
                          else
                            cnf1 <- add_to A b cnf1 ;;
                            Ok (used, term_var, cnf1))
                       bodies st)
              Inv prods)
    with (s := (keys prods, @nil (str * str), empty_sets (keys prods)))
    as [[[used term_var] cnf1] [E H]].
  - intros st [A bodies] Hin Hst.
    apply foldM_inv with (Inv := Inv); [|assumption].
    intros [[u t] c1] b _ Hc1. unfold Inv in Hc1. simpl in Hc1.
    assert (HA : In A (keys c1)).
    { apply Hc1. apply (in_map fst) in Hin. exact Hin. }
    destruct (str_eqb b EPS && negb (str_eqb A start));
      [eexists; split; [reflexivity | exact Hc1]|].
    destruct (2 <=? length b).
    + destruct (lift_body_total b u t) as [u' [t' [nb E]]].
      rewrite E. cbn [bind].
      destruct (add_to_present A (concat nb) c1 HA) as [c1' [E1 Hk]].
      rewrite E1. cbn [bind]. eexists. split; [reflexivity|].
      unfold Inv. simpl. now rewrite Hk.
    + destruct (add_to_present A b c1 HA) as [c1' [E1 Hk]].
      rewrite E1. cbn [bind]. eexists. split; [reflexivity|].
      unfold Inv. simpl. now rewrite Hk.
  - intros k Hk. simpl. now apply keys_empty_sets.
  - exists used, term_var, cnf1. split; [assumption | exact H].
Qed.

Lemma binarize_total (symbols : str) :
  forall prev_left used cnf2,
    exists used' cnf2',
      binarize symbols prev_left used cnf2 = Ok (used', cnf2') /\
      forall k, In k (keys cnf2) -> In k (keys cnf2').
Proof.
  induction symbols as [|X rest IH]; intros prev_left used cnf2.
  - simpl. eauto.
  - destruct rest as [|X2 [|X3 rest]].
    + simpl. eauto.
    + simpl. eexists. eexists. split; [reflexivity|].
      intros k Hk. unfold setdefault_add. apply keys_setitem_In. now right.
    + cbn [binarize].
      destruct (fresh_var_spec used [89%N]) as [Y [Ef _]].
      rewrite Ef. cbn [bind].
      destruct (IH Y (set_add Y used)
                   (setdefault_add prev_left (X :: Y) cnf2))
        as [u' [c' [E Hk]]].
      exists u', c'. split; [assumption|]. intros k Hin. apply Hk.
      unfold setdefault_add. apply keys_setitem_In. now right.
Qed.

Lemma to_cnf_runs (start : str) (prods : Productions) :
  exists G',
    to_cnf start prods = Ok G' /\
    forall A, In A (keys prods) -> In A (keys G').
Proof.
  unfold to_cnf.
  destruct (lift_terminals_total start prods)
    as [used [term_var [cnf1 [E1 H1]]]].
  rewrite E1. cbn [bind].
  set (cnf1' := fold_left (fun cnf1 '(a, Va) => setdefault_add Va a cnf1)
                          term_var cnf1).
  assert (H1' : forall k, In k (keys prods) -> In k (keys cnf1')).
  { unfold cnf1'. apply fold_left_inv
      with (Inv := fun d : Productions =>
                     forall k, In k (keys prods) -> In k (keys d));
      [|assumption].
    intros d [a Va] _ Hd k Hk. unfold setdefault_add.
    apply keys_setitem_In. right. auto. }
  set (Inv := fun st : list str * Productions =>
                forall k, In k (keys cnf1') -> In k (keys (snd st))).
  destruct (foldM_inv
              (fun st '(A, bodies) =>
                 foldM (fun '(used, cnf2) b =>
                          if str_eqb b EPS && str_eqb A start then
                            cnf2 <- add_to A EPS cnf2 ;; Ok (used, cnf2)
                          else if length b <=? 2 then
                            cnf2 <- add_to A b cnf2 ;; Ok (used, cnf2)
                          else binarize b A used cnf2)
                       bodies st)
              Inv cnf1')
    with (s := (keys cnf1', empty_sets (keys cnf1')))
    as [[used2 cnf2] [E2 H2]].
  - intros st [A bodies] Hin Hst.
    apply foldM_inv with (Inv := Inv); [|assumption].
    intros [u c2] b _ Hc2. unfold Inv in Hc2. simpl in Hc2.
    assert (HA : In A (keys c2)).
    { apply Hc2. apply (in_map fst) in Hin. exact Hin. }
    assert (Hadd : forall x,
               exists st',
                 (cnf2 <- add_to A x c2 ;; Ok (u, cnf2)) = Ok st' /\
                 Inv st').
    { intros x. destruct (add_to_present A x c2 HA) as [d' [E Hk]].
      rewrite E. cbn [bind]. eexists. split; [reflexivity|].
      unfold Inv. simpl. now rewrite Hk. }
    destruct (str_eqb b EPS && str_eqb A start); [apply Hadd|].
    destruct (length b <=? 2); [apply Hadd|].
    destruct (binarize_total b A u c2) as [u' [c2' [E Hk]]].
    rewrite E. eexists. split; [reflexivity|]. unfold Inv. simpl. auto.
  - intros k Hk. simpl. now apply keys_empty_sets.
  - fold cnf1'. rewrite E2. cbn [bind]. exists cnf2.
    split; [reflexivity|]. intros A HA. apply (H2 A). now apply H1'.
Qed.




(** ** The first three stages return grammars of the parser's shape *)

Lemma wf_grammar_intro (G : Productions) :
  NoDup (keys G) ->
  (forall A bodies, In (A, bodies) G ->
                    wf_key A = true /\ NoDup bodies /\
                    forall b, In b bodies -> wf_body b = true) ->
  wf_grammar G = true.
Proof.
  intros Hnd H. unfold wf_grammar. apply andb_true_iff.
  split; [now apply nodupb_NoDup|]. apply forallb_forall.
  intros [A bodies] Hin. destruct (H _ _ Hin) as [Hk [Hb Hw]].
  rewrite Hk. simpl. apply andb_true_iff. split.
  - now apply nodupb_NoDup.
  - now apply forallb_forall.
Qed.

Lemma set_update_NoDup (s t : list str) :
  NoDup s -> NoDup (set_update s t).
Proof.
  unfold set_update. revert s. induction t as [|x t IH]; intros s H; simpl.
  - assumption.
  - apply IH. now apply set_add_NoDup.
Qed.

Lemma set_discard_NoDup (x : str) (s : list str) :
  NoDup s -> NoDup (set_discard x s).
Proof. intros H. unfold set_discard. now apply NoDup_filter. Qed.

(** The sets of the grammar [eliminate_epsilon] returns hold no body
    twice. *)
Lemma eliminate_epsilon_sets_NoDup (start : str) (G : Productions)
  (keep : bool) (G' : Productions) :
  eliminate_epsilon start G keep = Ok G' ->
  forall A s, lookup A G' = Some s -> NoDup s.
Proof.
  unfold eliminate_epsilon. intros E.
  destruct (find_nullable start G) as [nullable|e]; [|discriminate].
  cbn [bind] in E.
  set (Inv := fun d : Productions =>
                forall A s, lookup A d = Some s -> NoDup s).
  assert (Hset : forall d A s t,
             Inv d -> lookup A d = Some s -> NoDup t ->
             Inv (setitem A t d)).
  { intros d A s t Hd Hs Ht B s' HB. rewrite lookup_setitem in HB.
    destruct (str_eqb B A); [|exact (Hd _ _ HB)].
    injection HB as <-. assumption. }
  match type of E with
  | bind ?m _ = _ => destruct m as [np|e] eqn:E2; [|discriminate]
  end.
  cbn [bind] in E.
  assert (H2 : Inv np).
  { revert E2. apply foldM_ok_inv with (Inv := Inv).
    - intros d [A bodies] d' _ Hd.
      apply foldM_ok_inv with (Inv := Inv); [|assumption].
      intros d1 b d2 _ Hd1. destruct (str_eqb b EPS);
        [now intros [= <-]|].
      cbv zeta. destruct (getitem A d1) as [s|e] eqn:Es; [|discriminate].
      apply getitem_Ok in Es. cbn [bind]. intros [= <-].
      apply Hset with s; try assumption.
      apply set_update_NoDup. exact (Hd1 _ _ Es).
    - intros A s Hs. apply lookup_empty_sets in Hs. subst. constructor. }
  match type of E with
  | bind ?m _ = _ => destruct m as [np3|e] eqn:E3; [|discriminate]
  end.
  cbn [bind] in E.
  assert (H3 : Inv np3).
  { destruct (keep && mem start nullable).
    - unfold add_to in E3.
      destruct (getitem start np) as [s|e] eqn:Es; [|discriminate].
      apply getitem_Ok in Es. cbn [bind] in E3. injection E3 as <-.
      apply Hset with s; try assumption.
      apply set_add_NoDup. exact (H2 _ _ Es).
    - now injection E3 as <-. }
  change (Inv G'). revert E.
  apply foldM_ok_inv with (Inv := Inv); [|assumption].
  intros d A d' _ Hd. destruct (str_eqb A start); [now intros [= <-]|].
  destruct (getitem A d) as [s|e] eqn:Es; [|discriminate].
  apply getitem_Ok in Es. cbn [bind]. intros [= <-].
  apply Hset with s; try assumption.
  apply set_discard_NoDup. exact (Hd _ _ Es).
Qed.

Lemma drops_valid (nullable : list str) (b x : str) :
  drops nullable b x ->
  (forall ch, In ch b -> valid_body_char ch = true) ->
  forall ch, In ch x -> valid_body_char ch = true.
Proof.
  intros Hd Hb ch Hch. apply Hb. eapply drops_In; eassumption.
Qed.

Lemma wf_body_intro (x : str) :
  x <> [] -> (forall ch, In ch x -> valid_body_char ch = true) ->
  wf_body x = true.
Proof.
  intros Hne Hv. unfold wf_body. apply orb_true_iff. right.
  apply andb_true_iff. split; [now destruct x|].
  now apply forallb_forall.
Qed.

Lemma eliminate_epsilon_wf (start : str) (G : Productions) (keep : bool) :
  wf_grammar G = true ->
  exists G',
    eliminate_epsilon start G keep = Ok G' /\
    keys G' = keys G /\ wf_grammar G' = true.
Proof.
  intros Hwf.
  destruct (eliminate_epsilon_exact start G keep Hwf)
    as [nullable [G' [En [E [_ [_ [Hk [Hb _]]]]]]]].
  exists G'. split; [assumption|]. split; [assumption|].
  assert (Hnd : NoDup (keys G')).
  { rewrite Hk. now apply wf_grammar_nodup. }
  apply wf_grammar_intro; [assumption|].
  intros A s Hin. apply (In_lookup _ _ _ Hnd) in Hin. split; [|split].
  - apply (wf_grammar_key G); [assumption|]. rewrite <- Hk.
    apply lookup_Some_key. eauto.
  - exact (eliminate_epsilon_sets_NoDup _ _ _ _ E _ _ Hin).
  - intros x Hx. destruct (list_eq_dec N.eq_dec x EPS) as [-> | Hne];
      [reflexivity|].
    apply (Hb _ _ Hin x Hne) in Hx.
    destruct Hx as [bodies [b [HinG [Hbb [Hbe Hg]]]]].
    apply generated_of_drops in Hg; [|assumption]. destruct Hg as [Hx Hd].
    apply wf_body_intro; [assumption|].
    apply (drops_valid _ _ _ Hd).
    destruct (wf_grammar_entry _ _ _ Hwf HinG) as [_ [_ Hbs]].
    now destruct (wf_body_not_eps _ (Hbs _ Hbb) Hbe) as [_ [_ Hv]].
Qed.

Lemma eliminate_unit_wf (start : str) (G : Productions) :
  wf_grammar G = true ->
  exists G',
    eliminate_unit_productions start G = Ok G' /\
    keys G' = keys G /\ wf_grammar G' = true.
Proof.
  intros Hwf. pose proof (wf_grammar_nodup _ Hwf) as HndG.
  destruct (eliminate_unit_in_closure start G HndG) as [G' [E [Hk Hs]]].
  exists G'. split; [assumption|]. split; [assumption|].
  destruct (eliminate_unit_unit_free start G G' E) as [Hnd Hfree].
  apply wf_grammar_intro; [assumption|].
  intros A s Hin. apply (In_lookup _ _ _ Hnd) in Hin. split; [|split].
  - apply (wf_grammar_key G); [assumption|]. rewrite <- Hk.
    apply lookup_Some_key. eauto.
  - now destruct (Hfree _ _ Hin).
  - intros x Hx. destruct (Hs _ _ _ Hin Hx) as [B [bodies [_ [HinB [HxB _]]]]].
    destruct (wf_grammar_entry _ _ _ Hwf HinB) as [_ [_ Hbs]]. auto.
Qed.

Lemma kept_of_NoDup (gen bodies : list str) : NoDup (kept_of gen bodies).
Proof.
  unfold kept_of. apply fold_left_inv with (Inv := @NoDup str).
  - intros s b _ Hs.
    destruct (forallb (fun ch => is_terminal ch || mem [ch] gen) b);
      [now apply set_add_NoDup | assumption].
  - constructor.
Qed.

Lemma remove_useless_wf (start : str) (G : Productions) :
  wf_grammar G = true -> wf_key start = true ->
  exists G',
    remove_useless_symbols start G = Ok G' /\
    In start (keys G') /\ wf_grammar G' = true.
Proof.
  intros Hwf Hstart. pose proof (wf_grammar_nodup _ Hwf) as HndG.
  destruct (remove_useless_exact start G Hwf)
    as [gen [reach [G' [E [Hi [Hc [Hst [Hcl [Hnd [Hsub [Hlk Hgen]]]]]]]]]]].
  exists G'. split; [assumption|].
  pose proof (prods_gen_NoDup gen G) as HndPG. split.
  { apply lookup_Some_key. rewrite Hlk.
    destruct (lookup start (prods_final_of reach (prods_gen_of gen G)));
      [eauto|]. rewrite str_eqb_refl. eauto. }
  apply wf_grammar_intro; [assumption|].
  intros A s Hin. apply (In_lookup _ _ _ Hnd) in Hin. rewrite Hlk in Hin.
  destruct (lookup A (prods_final_of reach (prods_gen_of gen G)))
    as [bodies'|] eqn:EF.
  - injection Hin as ->. rewrite prods_final_lookup in EF by assumption.
    destruct (lookup A (prods_gen_of gen G)) as [v|] eqn:EPG;
      [|discriminate].
    destruct (mem A reach); [|discriminate]. injection EF as ->.
    rewrite prods_gen_lookup in EPG by assumption.
    destruct (lookup A G) as [bodies0|] eqn:EG; [|discriminate].
    destruct (mem A gen); [|discriminate]. injection EPG as <-.
    apply lookup_In in EG.
    destruct (wf_grammar_entry _ _ _ Hwf EG) as [Hk [_ Hbs]].
    split; [assumption|]. split; [apply kept_of_NoDup|].
    intros b Hb. apply kept_of_In in Hb. now apply Hbs.
  - destruct (str_eqb A start) eqn:Ea; [|discriminate].
    apply str_eqb_eq in Ea. subst A. injection Hin as <-.
    split; [assumption|]. split; [constructor | intros b []].
Qed.

(** X16.  The first three stages hand on what the parser guarantees.  On a
    well-formed grammar whose start symbol is one of its nonterminals,
    [eliminate_epsilon], [eliminate_unit_productions] and
    [remove_useless_symbols] each return a well-formed grammar that has the
    start symbol among its nonterminals. *)
Theorem stages_keep_wf (start : str) (G : Productions) (keep : bool) :
  wf_grammar G = true -> In start (keys G) ->
  (exists G1, eliminate_epsilon start G keep = Ok G1 /\
              wf_grammar G1 = true /\ In start (keys G1)) /\
  (exists G2, eliminate_unit_productions start G = Ok G2 /\
              wf_grammar G2 = true /\ In start (keys G2)) /\
  (exists G3, remove_useless_symbols start G = Ok G3 /\
              wf_grammar G3 = true /\ In start (keys G3)).
Proof.
  intros Hwf Hstart. split; [|split].
  - destruct (eliminate_epsilon_wf start G keep Hwf) as [G1 [E [Hk H]]].
    exists G1. rewrite Hk. auto.
  - destruct (eliminate_unit_wf start G Hwf) as [G2 [E [Hk H]]].
    exists G2. rewrite Hk. auto.
  - destruct (remove_useless_wf start G Hwf
                (wf_grammar_key _ _ Hwf Hstart)) as [G3 [E [Hs H]]].
    exists G3. auto.
Qed.

Lemma stages_keep_wf_witness :
  (exists G1, eliminate_epsilon [83%N] grammar_mixed true = Ok G1 /\
              wf_grammar G1 = true /\ In [83%N] (keys G1)) /\
  (exists G2, eliminate_unit_productions [83%N] grammar_mixed = Ok G2 /\
              wf_grammar G2 = true /\ In [83%N] (keys G2)) /\
  (exists G3, remove_useless_symbols [83%N] grammar_mixed = Ok G3 /\
              wf_grammar G3 = true /\ In [83%N] (keys G3)).
Proof.
  apply (stages_keep_wf [83%N] grammar_mixed true).
  - reflexivity.
  - simpl. now left.
Defined.

Lemma pipeline_runs (start : str) (G : Productions) (keep : bool) :
  wf_grammar G = true -> In start (keys G) ->
  exists G', pipeline start G keep = Ok G' /\ In start (keys G').
Proof.
  intros Hwf Hstart. unfold pipeline.
  destruct (eliminate_epsilon_wf start G keep Hwf) as [G1 [E1 [Hk1 Hwf1]]].
  rewrite E1. cbn [bind].
  destruct (eliminate_unit_wf start G1 Hwf1) as [G2 [E2 [Hk2 Hwf2]]].
  rewrite E2. cbn [bind].
  destruct (remove_useless_wf start G2 Hwf2
              (wf_grammar_key _ _ Hwf Hstart)) as [G3 [E3 [Hs3 Hwf3]]].
  rewrite E3. cbn [bind].
  destruct (to_cnf_runs start G3) as [G' [E H]].
  exists G'. split; [assumption|]. now apply H.
Qed.

(** X17.  The pipeline of [main] raises no error: on a well-formed grammar whose
    start symbol is one of its nonterminals the four stages, one after the
    other, return a grammar, and the start symbol is a key of it. *)
Theorem pipeline_total (start : str) (G : Productions) (keep : bool) :
  wf_grammar G = true -> In start (keys G) ->
  exists G', pipeline start G keep = Ok G' /\ In start (keys G').
Proof. apply pipeline_runs. Qed.

Lemma pipeline_total_witness :
  exists G', pipeline [83%N] grammar_mixed true = Ok G' /\
             In [83%N] (keys G').
Proof.
  apply (pipeline_total [83%N] grammar_mixed true).
  - reflexivity.
  - simpl. now left.
Defined.

(** ** The regular expression of the parser *)

Lemma re_greedy_inv {R : Type} (p : char -> bool)
  (k : nat -> str -> option R) :
  forall s pos m,
    re_greedy p k pos s = Some m ->
    exists n, n <= length s /\ forallb p (firstn n s) = true /\
              k (pos + n) (skipn n s) = Some m.
Proof.
  induction s as [|ch s IH]; intros pos m; simpl.
  - intros H. exists 0. rewrite Nat.add_0_r. auto.
  - assert (H0 : k pos (ch :: s) = Some m ->
                 exists n, n <= S (length s) /\
                           forallb p (firstn n (ch :: s)) = true /\
                           k (pos + n) (skipn n (ch :: s)) = Some m).
    { intros H. exists 0. rewrite Nat.add_0_r. simpl.
      split; [lia | auto]. }
    destruct (p ch) eqn:E; [|exact H0].
    destruct (re_greedy p k (S pos) s) as [m'|] eqn:E1; [|exact H0].
    intros [= <-]. destruct (IH _ _ E1) as [n [Hn [Hp Hk]]].
    exists (S n). simpl. rewrite E. split; [lia|]. split; [assumption|].
    now rewrite Nat.add_succ_r.
Qed.

Lemma re_lazy_inv {R : Type} (p : char -> bool)
  (k : nat -> str -> option R) :
  forall s pos m,
    re_lazy p k pos s = Some m ->
    exists n, n <= length s /\ forallb p (firstn n s) = true /\
              k (pos + n) (skipn n s) = Some m.
Proof.
  induction s as [|ch s IH]; intros pos m; simpl.
  - destruct (k pos []) as [m'|] eqn:E; [|discriminate]. intros [= <-].
    exists 0. rewrite Nat.add_0_r. auto.
  - destruct (k pos (ch :: s)) as [m'|] eqn:E.
    + intros [= <-]. exists 0. rewrite Nat.add_0_r. simpl.
      split; [lia | auto].
    + destruct (p ch) eqn:Ep; [|discriminate]. intros H.
      destruct (IH _ _ H) as [n [Hn [Hp Hk]]].
      exists (S n). simpl. rewrite Ep. split; [lia|]. split; [assumption|].
      now rewrite Nat.add_succ_r.
Qed.

(** A match keeps the marks it was given. *)
Lemma re_match_marks (r : list re_item) :
  forall pos s marks m,
    re_match r pos s marks = Some m -> exists extra, m = marks ++ extra.
Proof.
  induction r as [|item r IH]; intros pos s marks m; simpl.
  - intros [= <-]. exists []. now rewrite List.app_nil_r.
  - destruct item.
    + destruct (pos =? 0); [apply IH | discriminate].
    + destruct s as [|ch [|ch' s]]; [apply IH | | discriminate].
      destruct (ch =? 10)%N; [apply IH | discriminate].
    + destruct s as [|ch s]; [discriminate|].
      destruct (p ch); [apply IH | discriminate].
    + intros H. apply re_greedy_inv in H. destruct H as [n [_ [_ H]]].
      eapply IH; eassumption.
    + destruct s as [|ch s]; [discriminate|].
      destruct (p ch); [|discriminate]. intros H.
      apply re_lazy_inv in H. destruct H as [n [_ [_ H]]].
      eapply IH; eassumption.
    + intros H. apply IH in H. destruct H as [extra ->].
      exists (pos :: extra). now rewrite <- app_assoc.
    + intros H. apply IH in H. destruct H as [extra ->].
      exists (pos :: extra). now rewrite <- app_assoc.
Qed.

Lemma re_first_group (q : char -> bool) (r : list re_item) (line : str)
  (m : list nat) :
  re_match (ReBegin :: ReStar isspace :: ReOpen :: ReChar q :: ReClose :: r)
           0 line [] = Some m ->
  exists n ch rest extra,
    skipn n line = ch :: rest /\ q ch = true /\ m = [n; S n] ++ extra.
Proof.
  intros E. cbn [re_match Nat.eqb] in E.
  apply re_greedy_inv in E. destruct E as [n [_ [_ E]]].
  simpl Nat.add in E.
  destruct (skipn n line) as [|ch rest] eqn:Es; [discriminate|].
  destruct (q ch) eqn:Ec; [|discriminate].
  apply re_match_marks in E. destruct E as [extra ->].
  exists n, ch, rest, extra. auto.
Qed.

(** The first group of a match of [line_regex] is one upper-case
    letter. *)
Lemma match_line_lhs (line lhs rhs : str) :
  match_line line = Some (lhs, rhs) -> wf_key lhs = true.
Proof.
  unfold match_line.
  destruct (re_match line_regex 0 line []) as [m|] eqn:E; [|discriminate].
  apply re_first_group in E.
  destruct E as [n [ch [rest [extra [Es [Ec ->]]]]]].
  simpl. destruct extra as [|a2 [|b2 [|? ?]]]; try discriminate.
  intros [= <- <-]. unfold substring.
  replace (S n - n) with 1 by lia. rewrite Es. simpl. exact Ec.
Qed.

(** ** What [parse_grammar_file] returns *)

Lemma clean_body_wf (idx : nat) (b b' : str) :
  clean_body idx b = Parsed b' -> wf_body b' = true.
Proof.
  unfold clean_body. destruct b as [|ch b]; [discriminate|].
  destruct (str_eqb (ch :: b) EPS || str_eqb (ch :: b) [1013%N]).
  - intros [= <-]. reflexivity.
  - destruct (find (fun ch => negb (valid_body_char ch)) (ch :: b)) eqn:E;
      [discriminate|].
    intros [= <-]. apply wf_body_intro; [discriminate|].
    intros x Hx. apply (find_none _ _ E) in Hx.
    now apply negb_false_iff in Hx.
Qed.

Lemma clean_bodies_wf (idx : nat) :
  forall bodies acc cleaned,
    clean_bodies idx bodies acc = Parsed cleaned ->
    exists new,
      cleaned = acc ++ new /\ length new = length bodies /\
      forall b, In b new -> wf_body b = true.
Proof.
  induction bodies as [|b bodies IH]; intros acc cleaned; simpl.
  - intros [= <-]. exists []. rewrite List.app_nil_r. split; [reflexivity|].
    split; [reflexivity | intros b []].
  - destruct (clean_body idx b) as [b'|e] eqn:E; [|discriminate].
    intros H. destruct (IH _ _ H) as [new [-> [Hlen Hwf]]].
    exists (b' :: new). rewrite <- app_assoc. split; [reflexivity|].
    split; [simpl; now rewrite Hlen|].
    intros x [<- | Hx]; [|now apply Hwf]. eapply clean_body_wf; eassumption.
Qed.

Lemma split_not_nil (sep : char) (s : str) : split sep s <> [].
Proof. unfold split. now destruct (split_on sep s). Qed.

Lemma parse_line_inv (idx : nat) (raw : str)
  (st st' : option str * Productions) :
  parse_inv st -> parse_line idx raw st = Parsed st' -> parse_inv st'.
Proof.
  destruct st as [ss prods]. intros [Hnd [Hent Hst]]. unfold parse_line.
  destruct (skipped (strip raw)).
  { intros [= <-]. exact (conj Hnd (conj Hent Hst)). }
  destruct (match_line (strip raw)) as [[lhs rhs]|] eqn:Em; [|discriminate].
  destruct (clean_bodies idx (map strip (split 124%N rhs)) [])
    as [cleaned|e] eqn:Ec; [|discriminate].
  intros [= <-]. apply match_line_lhs in Em.
  apply clean_bodies_wf in Ec. destruct Ec as [new [-> [Hlen Hwf]]].
  simpl in Hwf |- *.
  assert (Hne : new <> []).
  { intros ->. simpl in Hlen. rewrite length_map in Hlen.
    pose proof (split_not_nil 124%N rhs). destruct (split 124%N rhs);
      [contradiction | discriminate]. }
  assert (Hold : NoDup (get_or_empty lhs prods) /\
                 forall b, In b (get_or_empty lhs prods) ->
                           wf_body b = true).
  { unfold get_or_empty. destruct (lookup lhs prods) as [s|] eqn:El.
    - apply lookup_In in El. destruct (Hent _ _ El) as [_ [H1 [_ H2]]].
      auto.
    - split; [constructor | intros b []]. }
  destruct Hold as [Hold1 Hold2]. split; [|split].
  - now apply NoDup_keys_setitem.
  - intros A bodies Hin. apply In_setitem in Hin.
    destruct Hin as [[-> ->] | Hin]; [|now apply Hent].
    split; [assumption|]. split; [now apply set_update_NoDup|]. split.
    + destruct new as [|b new]; [contradiction|]. intros H.
      assert (Hb : In b (set_update (get_or_empty lhs prods) (b :: new))).
      { apply set_update_In. right. now left. }
      rewrite H in Hb. destruct Hb.
    + intros b Hb. apply set_update_In in Hb. destruct Hb; auto.
  - rewrite keys_setitem. destruct ss as [s|].
    + destruct Hst as [rest Hk]. rewrite Hk.
      destruct (mem lhs (s :: rest)); [eauto|]. simpl. eauto.
    + subst prods. simpl. eauto.
Qed.

Lemma parse_lines_inv :
  forall lines idx st st',
    parse_inv st -> parse_lines idx lines st = Parsed st' -> parse_inv st'.
Proof.
  induction lines as [|raw lines IH]; intros idx st st' Hst; simpl.
  - now intros [= <-].
  - destruct (parse_line idx raw st) as [st1|e] eqn:E; [|discriminate].
    apply IH. eapply parse_line_inv; eassumption.
Qed.

Lemma parse_grammar_file_inv (lines : list str) (start : str)
  (G : Productions) :
  parse_grammar_file lines = Parsed (start, G) ->
  wf_grammar G = true /\
  (exists rest, keys G = start :: rest) /\
  forall A bodies, In (A, bodies) G -> bodies <> [].
Proof.
  unfold parse_grammar_file.
  destruct (parse_lines 1 lines (None, [])) as [[[s|] prods]|e] eqn:E;
    try discriminate.
  intros [= <- <-].
  assert (H : parse_inv (Some s, prods)).
  { eapply parse_lines_inv; [|eassumption]. simpl.
    split; [constructor|]. split; [intros A bodies [] | reflexivity]. }
  destruct H as [Hnd [Hent Hst]]. split; [|split; [assumption|]].
  - apply wf_grammar_intro; [assumption|]. intros A bodies Hin.
    destruct (Hent _ _ Hin) as [H1 [H2 [_ H3]]]. auto.
  - intros A bodies Hin. now destruct (Hent _ _ Hin) as [_ [_ [H _]]].
Qed.

(** X18.  What [parse_grammar_file] returns is well-formed: when it returns a
    start symbol and a grammar, the grammar has single upper-case letters
    as keys and sets of bodies that are the marker or non-empty strings
    over [VALID_BODY_CHARS], the start symbol is its first key, and no set
    of bodies is empty. *)
Theorem parse_returns_wf (lines : list str) (start : str)
  (G : Productions) :
  parse_grammar_file lines = Parsed (start, G) ->
  wf_grammar G = true /\
  (exists rest, keys G = start :: rest) /\
  forall A bodies, In (A, bodies) G -> bodies <> [].
Proof. apply parse_grammar_file_inv. Qed.

Lemma parse_returns_wf_witness :
  wf_grammar sample_grammar = true /\
  (exists rest, keys sample_grammar = [83%N] :: rest) /\
  forall A bodies, In (A, bodies) sample_grammar -> bodies <> [].
Proof.
  apply (parse_returns_wf (read_lines sample_file) [83%N] sample_grammar).
  reflexivity.
Defined.

(** X24.  [main] on a file that parses: the four stages, run on what
    [parse_grammar_file] returned, raise no error. *)
Theorem parsed_file_runs_through (lines : list str) (start : str)
  (G : Productions) (keep : bool) :
  parse_grammar_file lines = Parsed (start, G) ->
  exists G', pipeline start G keep = Ok G' /\ In start (keys G').
Proof.
  intros H. apply parse_grammar_file_inv in H.
  destruct H as [Hwf [[rest Hk] _]].
  apply pipeline_runs; [assumption|]. rewrite Hk. now left.
Qed.

Lemma parsed_file_runs_through_witness :
  exists G', pipeline [83%N] sample_grammar true = Ok G' /\
             In [83%N] (keys G').
Proof.
  apply (parsed_file_runs_through (read_lines sample_file) [83%N]
           sample_grammar true).
  reflexivity.
Defined.

(** ** The lines the parser passes over, and its errors *)

Lemma parse_line_skipped (idx : nat) (raw : str)
  (st : option str * Productions) :
  skipped (strip raw) = true -> parse_line idx raw st = Parsed st.
Proof.
  intros H. unfold parse_line. destruct st as [ss prods]. now rewrite H.
Qed.

Lemma parse_line_start (idx : nat) (raw : str) (ss : option str)
  (prods : Productions) (ss' : option str) (prods' : Productions) :
  skipped (strip raw) = false ->
  parse_line idx raw (ss, prods) = Parsed (ss', prods') ->
  exists s, ss' = Some s.
Proof.
  intros H. unfold parse_line. rewrite H.
  destruct (match_line (strip raw)) as [[lhs rhs]|]; [|discriminate].
  destruct (clean_bodies idx (map strip (split 124%N rhs)) []);
    [|discriminate].
  intros [= <- _]. destruct ss; eauto.
Qed.

Lemma parse_line_keeps_start (idx : nat) (raw : str) (s : str)
  (prods : Productions) (ss' : option str) (prods' : Productions) :
  parse_line idx raw (Some s, prods) = Parsed (ss', prods') -> ss' = Some s.
Proof.
  unfold parse_line. destruct (skipped (strip raw)); [now intros [= <- _]|].
  destruct (match_line (strip raw)) as [[lhs rhs]|]; [|discriminate].
  destruct (clean_bodies idx (map strip (split 124%N rhs)) []);
    [|discriminate].
  now intros [= <- _].
Qed.

Lemma parse_lines_keeps_start :
  forall lines idx s prods ss' prods',
    parse_lines idx lines (Some s, prods) = Parsed (ss', prods') ->
    ss' = Some s.
Proof.
  induction lines as [|raw lines IH]; intros idx s prods ss' prods';
    cbn [parse_lines].
  - now intros [= <- _].
  - destruct (parse_line idx raw (Some s, prods)) as [[ss1 p1]|e] eqn:E;
      [|discriminate].
    apply parse_line_keeps_start in E. subst ss1. apply IH.
Qed.

Lemma clean_bodies_error (idx : nat) :
  forall bodies acc e,
    clean_bodies idx bodies acc = Died e -> error_line e = Some idx.
Proof.
  induction bodies as [|b bodies IH]; intros acc e; simpl; [discriminate|].
  destruct (clean_body idx b) as [b'|e'] eqn:E; [apply IH|].
  intros [= <-]. unfold clean_body in E. destruct b as [|ch b].
  - now injection E as <-.
  - destruct (str_eqb (ch :: b) EPS || str_eqb (ch :: b) [1013%N]);
      [discriminate|].
    destruct (find (fun ch => negb (valid_body_char ch)) (ch :: b));
      [|discriminate].
    now injection E as <-.
Qed.

Lemma parse_line_error (idx : nat) (raw : str)
  (st : option str * Productions) (e : parse_error) :
  parse_line idx raw st = Died e -> error_line e = Some idx.
Proof.
  unfold parse_line. destruct st as [ss prods].
  destruct (skipped (strip raw)); [discriminate|].
  destruct (match_line (strip raw)) as [[lhs rhs]|];
    [|now intros [= <-]].
  destruct (clean_bodies idx (map strip (split 124%N rhs)) []) eqn:E;
    [discriminate|].
  intros [= <-]. eapply clean_bodies_error; eassumption.
Qed.

(** Whether a line is read or an error is found, and which error, does
    not depend on what was read before. *)
Lemma parse_line_any_state (idx : nat) (raw : str)
  (st1 st2 : option str * Productions) :
  match parse_line idx raw st1, parse_line idx raw st2 with
  | Parsed _, Parsed _ => True
  | Died e1, Died e2 => e1 = e2
  | _, _ => False
  end.
Proof.
  unfold parse_line. destruct st1 as [ss1 p1], st2 as [ss2 p2].
  destruct (skipped (strip raw)); [exact I|].
  destruct (match_line (strip raw)) as [[lhs rhs]|]; [|reflexivity].
  now destruct (clean_bodies idx (map strip (split 124%N rhs)) []).
Qed.

Lemma parse_lines_no_production :
  forall lines idx prods prods',
    parse_lines idx lines (None, prods) = Parsed (None, prods') ->
    forallb (fun raw => skipped (strip raw)) lines = true.
Proof.
  induction lines as [|raw lines IH]; intros idx prods prods';
    cbn [parse_lines forallb].
  - reflexivity.
  - destruct (parse_line idx raw (None, prods)) as [[ss1 p1]|e] eqn:E;
      [|discriminate].
    destruct (skipped (strip raw)) eqn:Es.
    + rewrite parse_line_skipped in E by assumption. injection E as <- <-.
      apply IH.
    + destruct (parse_line_start _ _ _ _ _ _ Es E) as [s ->]. intros H.
      apply parse_lines_keeps_start in H. discriminate.
Qed.

Lemma parse_lines_all_skipped :
  forall lines idx st,
    forallb (fun raw => skipped (strip raw)) lines = true ->
    parse_lines idx lines st = Parsed st.
Proof.
  induction lines as [|raw lines IH]; intros idx st; simpl.
  - reflexivity.
  - rewrite andb_true_iff. intros [H1 H2].
    rewrite parse_line_skipped by assumption. now apply IH.
Qed.

Lemma parse_lines_error :
  forall lines idx st e,
    parse_lines idx lines st = Died e ->
    exists n raw,
      nth_error lines n = Some raw /\ error_line e = Some (idx + n) /\
      (forall st', parse_line (idx + n) raw st' = Died e) /\
      forall j raw', j < n -> nth_error lines j = Some raw' ->
      forall st', exists st'', parse_line (idx + j) raw' st' = Parsed st''.
Proof.
  induction lines as [|raw lines IH]; intros idx st e; simpl;
    [discriminate|].
  destruct (parse_line idx raw st) as [st1|e1] eqn:E.
  - intros H. destruct (IH _ _ _ H) as [n [raw0 [Hn [He [Hd Hbefore]]]]].
    exists (S n), raw0. rewrite Nat.add_succ_r. split; [assumption|].
    split; [assumption|]. split; [assumption|].
    intros j raw' Hj Hnth st'. destruct j as [|j].
    + simpl in Hnth. injection Hnth as <-. rewrite Nat.add_0_r.
      pose proof (parse_line_any_state idx raw st st') as Hs.
      rewrite E in Hs. destruct (parse_line idx raw st'); [eauto|].
      destruct Hs.
    + simpl in Hnth. rewrite Nat.add_succ_r.
      apply (Hbefore j raw'); [lia | assumption].
  - intros [= <-]. exists 0, raw. rewrite Nat.add_0_r.
    split; [reflexivity|]. split; [eapply parse_line_error; eassumption|].
    split.
    + intros st'. pose proof (parse_line_any_state idx raw st st') as Hs.
      rewrite E in Hs. destruct (parse_line idx raw st'); [destruct Hs|].
      now subst.
    + intros j raw' Hj. lia.
Qed.

(** X19.  [parse_grammar_file] reports that there are no productions exactly
    when every line of the file is blank or a comment. *)
Theorem parse_no_productions (lines : list str) :
  parse_grammar_file lines = Died NoProductions
  <-> forallb (fun raw => skipped (strip raw)) lines = true.
Proof.
  unfold parse_grammar_file. split.
  - destruct (parse_lines 1 lines (None, [])) as [[[s|] prods]|e] eqn:E;
      try discriminate.
    + intros _. eapply parse_lines_no_production. eassumption.
    + intros [= ->]. destruct (parse_lines_error _ _ _ _ E)
        as [n [raw [_ [He _]]]]. discriminate.
  - intros H. now rewrite parse_lines_all_skipped.
Qed.

(** X21.  An error of [parse_grammar_file] is that of the first line that has
    one, and names its number: when the parser stops with an error other
    than the one for a file without productions, the error belongs to
    some line of the file, counted from 1, which gives this error
    whatever was read before, and every line before it is read without
    error. *)
Theorem parse_error_first_line (lines : list str) (e : parse_error) :
  parse_grammar_file lines = Died e -> e <> NoProductions ->
  exists idx raw,
    error_line e = Some idx /\ 1 <= idx /\
    nth_error lines (idx - 1) = Some raw /\
    (forall st, parse_line idx raw st = Died e) /\
    forall j raw', j < idx - 1 -> nth_error lines j = Some raw' ->
    forall st, exists st', parse_line (S j) raw' st = Parsed st'.
Proof.
  unfold parse_grammar_file.
  destruct (parse_lines 1 lines (None, [])) as [[[s|] prods]|e'] eqn:E.
  - discriminate.
  - intros [= <-] H. now destruct H.
  - intros [= <-] _. destruct (parse_lines_error _ _ _ _ E)
      as [n [raw [Hn [He [Hd Hbefore]]]]].
    exists (1 + n), raw. split; [assumption|]. split; [lia|].
    replace (1 + n - 1) with n by lia. split; [assumption|].
    split; [assumption|]. intros j raw' Hj Hnth st.
    exact (Hbefore j raw' Hj Hnth st).
Qed.

Lemma parse_error_first_line_witness :
  exists idx raw,
    error_line (InvalidSymbol 3 45%N [97%N; 45%N; 98%N]) = Some idx /\
    1 <= idx /\
    nth_error (read_lines faulty_file) (idx - 1) = Some raw /\
    (forall st, parse_line idx raw st
                = Died (InvalidSymbol 3 45%N [97%N; 45%N; 98%N])) /\
    forall j raw', j < idx - 1 ->
                   nth_error (read_lines faulty_file) j = Some raw' ->
    forall st, exists st', parse_line (S j) raw' st = Parsed st'.
Proof.
  apply (parse_error_first_line (read_lines faulty_file)
           (InvalidSymbol 3 45%N [97%N; 45%N; 98%N])).
  - reflexivity.
  - discriminate.
Defined.

Lemma same_parse_refl {A : Type} (r : parsed A) : same_parse r r.
Proof. now destruct r. Qed.

Lemma clean_body_any_line (idx idx' : nat) (b : str) :
  same_parse (clean_body idx b) (clean_body idx' b).
Proof.
  unfold clean_body. destruct b as [|ch b]; [exact I|].
  destruct (str_eqb (ch :: b) EPS || str_eqb (ch :: b) [1013%N]);
    [reflexivity|].
  now destruct (find (fun ch => negb (valid_body_char ch)) (ch :: b)).
Qed.

Lemma clean_bodies_any_line (idx idx' : nat) :
  forall bodies acc,
    same_parse (clean_bodies idx bodies acc) (clean_bodies idx' bodies acc).
Proof.
  induction bodies as [|b bodies IH]; intros acc; simpl; [reflexivity|].
  pose proof (clean_body_any_line idx idx' b) as H.
  destruct (clean_body idx b) as [b1|e1], (clean_body idx' b) as [b2|e2];
    try destruct H; try exact I.
  apply IH.
Qed.

Lemma parse_line_any_line (idx idx' : nat) (raw : str)
  (st : option str * Productions) :
  same_parse (parse_line idx raw st) (parse_line idx' raw st).
Proof.
  unfold parse_line. destruct st as [ss prods].
  destruct (skipped (strip raw)); [reflexivity|].
  destruct (match_line (strip raw)) as [[lhs rhs]|]; [|exact I].
  pose proof (clean_bodies_any_line idx idx'
                (map strip (split 124%N rhs)) []) as H.
  destruct (clean_bodies idx (map strip (split 124%N rhs)) []),
    (clean_bodies idx' (map strip (split 124%N rhs)) []);
    try destruct H; try exact I.
  reflexivity.
Qed.

Lemma parse_lines_without_skipped :
  forall lines idx idx' st,
    same_parse
      (parse_lines idx lines st)
      (parse_lines idx'
         (filter (fun raw => negb (skipped (strip raw))) lines) st).
Proof.
  induction lines as [|raw lines IH]; intros idx idx' st;
    cbn [parse_lines filter].
  - reflexivity.
  - destruct (skipped (strip raw)) eqn:Es; cbn [negb].
    + rewrite parse_line_skipped by assumption. apply IH.
    + cbn [parse_lines].
      pose proof (parse_line_any_line idx idx' raw st) as H.
      destruct (parse_line idx raw st) as [st1|e1],
        (parse_line idx' raw st) as [st2|e2];
        try destruct H; try exact I.
      apply IH.
Qed.

(** X20.  Blank lines and comments count for nothing but the numbers of the
    lines: [parse_grammar_file] on a file and on the file without them
    return the same start symbol and grammar, or stop with an error
    both. *)
Theorem parse_ignores_comments (lines : list str) :
  same_parse
    (parse_grammar_file lines)
    (parse_grammar_file
       (filter (fun raw => negb (skipped (strip raw))) lines)).
Proof.
  unfold parse_grammar_file.
  pose proof (parse_lines_without_skipped lines 1 1 (None, [])) as H.
  destruct (parse_lines 1 lines (None, [])) as [[[s|] p]|e],
    (parse_lines 1 (filter (fun raw => negb (skipped (strip raw))) lines)
                 (None, [])) as [[[s'|] p']|e'];
    simpl in H |- *; try congruence; try exact I; try destruct H.
Qed.

(** ** The order of [sorted] *)

Lemma str_ltb_irrefl (a : str) : str_ltb a a = false.
Proof.
  induction a as [|x a IH]; simpl; [reflexivity|].
  rewrite N.ltb_irrefl, N.eqb_refl. exact IH.
Qed.

Lemma str_ltb_trans (a b c : str) :
  str_ltb a b = true -> str_ltb b c = true -> str_ltb a c = true.
Proof.
  revert b c. induction a as [|x a IH]; intros [|y b] [|z c]; simpl;
    try discriminate; try reflexivity.
  rewrite !orb_true_iff, !andb_true_iff, !N.ltb_lt, !N.eqb_eq.
  intros [H1 | [H1 H1']] [H2 | [H2 H2']].
  - left. lia.
  - left. lia.
  - left. lia.
  - right. split; [lia|]. eapply IH; eassumption.
Qed.

Lemma str_ltb_total (a b : str) :
  str_ltb a b = false -> str_ltb b a = false -> a = b.
Proof.
  revert b. induction a as [|x a IH]; intros [|y b]; simpl;
    try discriminate; try reflexivity.
  rewrite !orb_false_iff, !andb_false_iff, !N.ltb_ge, !N.eqb_neq.
  intros [H1 H1'] [H2 H2']. assert (x = y) by lia. subst y.
  f_equal. apply IH.
  - destruct H1' as [H | H]; [congruence | assumption].
  - destruct H2' as [H | H]; [congruence | assumption].
Qed.

Section SortedBy.
Variable f : str -> bool.

Lemma key_ltb_trans (x y z : str) :
  key_ltb (f x, x) (f y, y) = true -> key_ltb (f y, y) (f z, z) = true ->
  key_ltb (f x, x) (f z, z) = true.
Proof.
  unfold key_ltb. destruct (f x), (f y), (f z); simpl;
    try discriminate; try reflexivity; apply str_ltb_trans.
Qed.

Lemma key_ltb_asym (x y : str) :
  key_ltb (f x, x) (f y, y) = true -> key_ltb (f y, y) (f x, x) = false.
Proof.
  intros H. destruct (key_ltb (f y, y) (f x, x)) eqn:E; [|reflexivity].
  pose proof (key_ltb_trans _ _ _ H E) as Hxx. unfold key_ltb in Hxx.
  rewrite Bool.eqb_reflx, str_ltb_irrefl in Hxx. discriminate.
Qed.

Lemma key_ltb_total (x y : str) :
  key_ltb (f x, x) (f y, y) = false -> key_ltb (f y, y) (f x, x) = false ->
  x = y.
Proof.
  unfold key_ltb. destruct (f x), (f y); simpl; try discriminate;
    apply str_ltb_total.
Qed.

Lemma insert_by_perm (x : str) (l : list str) :
  Permutation (insert_by (fun s => (f s, s)) x l) (x :: l).
Proof.
  induction l as [|y l IH]; cbn [insert_by]; [reflexivity|].
  destruct (key_ltb (f x, x) (f y, y)); [reflexivity|].
  rewrite IH. apply perm_swap.
Qed.

Lemma sorted_perm_from (l acc : list str) :
  Permutation
    (fold_left (fun acc x => insert_by (fun s => (f s, s)) x acc) l acc)
    (acc ++ l).
Proof.
  revert acc. induction l as [|x l IH]; intros acc; cbn [fold_left].
  - now rewrite List.app_nil_r.
  - rewrite IH, insert_by_perm. apply Permutation_middle.
Qed.

Lemma sorted_perm (l : list str) :
  Permutation (sorted (fun s => (f s, s)) l) l.
Proof. unfold sorted. apply (sorted_perm_from l []). Qed.

Lemma insert_by_in_order (x : str) (l : list str) :
  in_order (fun s => (f s, s)) l ->
  in_order (fun s => (f s, s)) (insert_by (fun s => (f s, s)) x l).
Proof.
  induction l as [|y l IH]; cbn [insert_by in_order].
  - intros _. split; [intros y [] | exact I].
  - intros [Hy Hl]. destruct (key_ltb (f x, x) (f y, y)) eqn:E;
      cbn [in_order].
    + split; [|split; assumption].
      intros z [<- | Hz]; [now apply key_ltb_asym|].
      destruct (key_ltb (f z, z) (f x, x)) eqn:Ez; [|reflexivity].
      rewrite <- (Hy z Hz). symmetry. eapply key_ltb_trans; eassumption.
    + split; [|now apply IH].
      intros z Hz. apply (Permutation_in _ (insert_by_perm x l)) in Hz.
      destruct Hz as [<- | Hz]; [assumption | now apply Hy].
Qed.

Lemma sorted_in_order (l : list str) :
  in_order (fun s => (f s, s)) (sorted (fun s => (f s, s)) l).
Proof.
  unfold sorted.
  apply fold_left_inv with (Inv := in_order (fun s => (f s, s)));
    [|exact I].
  intros acc x _. apply insert_by_in_order.
Qed.

Lemma in_order_unique (l1 l2 : list str) :
  in_order (fun s => (f s, s)) l1 -> in_order (fun s => (f s, s)) l2 ->
  Permutation l1 l2 -> l1 = l2.
Proof.
  revert l2. induction l1 as [|x l1 IH]; intros l2 H1 H2 Hp.
  - apply Permutation_nil in Hp. now subst.
  - destruct l2 as [|y l2];
      [apply Permutation_sym, Permutation_nil in Hp; discriminate|].
    destruct H1 as [Hx H1], H2 as [Hy H2].
    assert (Exy : x = y).
    { assert (Hxin : In x (y :: l2))
        by (apply (Permutation_in _ Hp); now left).
      assert (Hyin : In y (x :: l1))
        by (apply (Permutation_in _ (Permutation_sym Hp)); now left).
      destruct Hxin as [-> | Hxin]; [reflexivity|].
      destruct Hyin as [-> | Hyin]; [reflexivity|].
      apply key_ltb_total; [now apply Hy | now apply Hx]. }
    subst y. f_equal. apply IH; try assumption.
    eapply Permutation_cons_inv; eassumption.
Qed.

(** [sorted] gives the same list for the same elements in any order. *)
Lemma sorted_unique (l1 l2 : list str) :
  Permutation l1 l2 ->
  sorted (fun s => (f s, s)) l1 = sorted (fun s => (f s, s)) l2.
Proof.
  intros Hp. apply in_order_unique; try apply sorted_in_order.
  rewrite !sorted_perm. exact Hp.
Qed.
End SortedBy.

(** ** What [pretty_grammar] prints *)

Lemma pretty_lines_fold (G : Productions) :
  forall l acc,
    incl l (keys G) ->
    foldM (fun lines A =>
             bodies <- getitem A G ;;
             Ok (lines ++ [pretty_line A bodies]))
          l acc
    = Ok (acc ++ map (fun A => pretty_line A (get_or_empty A G)) l).
Proof.
  induction l as [|A l IH]; intros acc Hincl; cbn [foldM map].
  - now rewrite List.app_nil_r.
  - destruct (getitem_key A G (Hincl A (or_introl eq_refl)))
      as [bodies [Eg Hl]].
    rewrite Eg. cbn [bind]. rewrite IH.
    + unfold get_or_empty at 2. rewrite Hl. now rewrite <- app_assoc.
    + intros x Hx. apply Hincl. now right.
Qed.

Lemma pretty_grammar_eq (start : str) (G : Productions) :
  pretty_grammar start G
  = Ok (join [10%N]
          (map (fun A => pretty_line A (get_or_empty A G))
               (sorted (fun X => (negb (str_eqb X start), X)) (keys G)))).
Proof.
  unfold pretty_grammar. cbv zeta. rewrite pretty_lines_fold.
  - reflexivity.
  - intros x Hx.
    apply (Permutation_in _ (sorted_perm (fun X => negb (str_eqb X start))
                               (keys G))). exact Hx.
Qed.

Lemma same_mapping_inv (G1 G2 : Productions) :
  same_mapping G1 G2 = true ->
  (forall A s1, In (A, s1) G1 ->
                exists s2, lookup A G2 = Some s2 /\
                           incl s1 s2 /\ incl s2 s1) /\
  (forall A, In A (keys G2) -> In A (keys G1)).
Proof.
  unfold same_mapping. rewrite andb_true_iff, !forallb_forall.
  intros [H1 H2]. split.
  - intros A s1 Hin. specialize (H1 _ Hin). simpl in H1.
    destruct (lookup A G2) as [s2|]; [|discriminate]. exists s2.
    split; [reflexivity|]. apply andb_true_iff in H1.
    rewrite !forallb_forall in H1. destruct H1 as [Ha Hb].
    split; intros x Hx; apply mem_In; auto.
  - intros A HA. apply in_map_iff in HA. destruct HA as [[A0 s] [<- Hin]].
    specialize (H2 _ Hin). simpl in H2 |- *. apply lookup_Some_key.
    destruct (lookup A0 G1) as [v|]; [exists v; reflexivity | discriminate].
Qed.

Lemma pretty_same_mapping (start : str) (G1 G2 : Productions) :
  wf_grammar G1 = true -> wf_grammar G2 = true ->
  same_mapping G1 G2 = true ->
  pretty_grammar start G1 = pretty_grammar start G2.
Proof.
  intros Hwf1 Hwf2 Hsame. rewrite !pretty_grammar_eq.
  destruct (same_mapping_inv _ _ Hsame) as [H12 H21].
  pose proof (wf_grammar_nodup _ Hwf1) as Hnd1.
  pose proof (wf_grammar_nodup _ Hwf2) as Hnd2.
  assert (Hp : Permutation (keys G1) (keys G2)).
  { apply NoDup_Permutation; try assumption. intros A. split; [|apply H21].
    intros HA. apply in_map_iff in HA. destruct HA as [[A0 s] [<- Hin]].
    destruct (H12 _ _ Hin) as [s2 [Hs2 _]]. apply lookup_Some_key. eauto. }
  rewrite (sorted_unique (fun X => negb (str_eqb X start)) _ _ Hp).
  do 2 f_equal. apply map_ext_in. intros A HA.
  apply (Permutation_in _ (sorted_perm (fun X => negb (str_eqb X start))
                             (keys G2))) in HA.
  apply H21 in HA. apply lookup_Some_key in HA. destruct HA as [s1 Hs1].
  apply lookup_In in Hs1 as Hin1.
  destruct (H12 _ _ Hin1) as [s2 [Hs2 [Hi12 Hi21]]].
  unfold get_or_empty. rewrite Hs1, Hs2. unfold pretty_line. cbv zeta.
  destruct (wf_grammar_entry _ _ _ Hwf1 Hin1) as [_ [Hn1 _]].
  destruct (wf_grammar_entry _ _ _ Hwf2 (lookup_In _ _ _ Hs2))
    as [_ [Hn2 _]].
  rewrite (sorted_unique (fun s => str_eqb s EPS) s1 s2); [reflexivity|].
  apply NoDup_Permutation; try assumption. intros x. split; auto.
Qed.

(** X22.  What is printed does not depend on the order of a dictionary or of a
    set: [pretty_grammar] returns the same text for two well-formed
    grammars that are the same mapping from nonterminals to sets of
    bodies. *)
Theorem pretty_order_independent (start : str) (G1 G2 : Productions) :
  wf_grammar G1 = true -> wf_grammar G2 = true ->
  same_mapping G1 G2 = true ->
  exists text,
    pretty_grammar start G1 = Ok text /\ pretty_grammar start G2 = Ok text.
Proof.
  intros Hwf1 Hwf2 Hsame.
  rewrite <- (pretty_same_mapping start G1 G2 Hwf1 Hwf2 Hsame).
  rewrite pretty_grammar_eq. eauto.
Qed.

Lemma pretty_order_independent_witness :
  exists text,
    pretty_grammar [83%N] grammar_ab = Ok text /\
    pretty_grammar [83%N]
      [ ([66%N], [EPS; [98%N; 66%N]]);
        ([83%N], [EPS; [65%N; 66%N]]);
        ([65%N], [[97%N; 65%N]; EPS]) ] = Ok text.
Proof.
  apply (pretty_order_independent [83%N] grammar_ab); reflexivity.
Defined.

(** ** Reading back what was printed *)

Lemma isspace_printable (ch : char) :
  (33 <= ch <= 132)%N -> isspace ch = false.
Proof.
  intros H. unfold isspace.
  replace (ch <=? 13)%N with false by (symmetry; apply N.leb_gt; lia).
  replace (ch <=? 32)%N with false by (symmetry; apply N.leb_gt; lia).
  replace (ch =? 133)%N with false by (symmetry; apply N.eqb_neq; lia).
  replace (ch =? 160)%N with false by (symmetry; apply N.eqb_neq; lia).
  replace (ch =? 5760)%N with false by (symmetry; apply N.eqb_neq; lia).
  replace (8192 <=? ch)%N with false by (symmetry; apply N.leb_gt; lia).
  replace (ch =? 8232)%N with false by (symmetry; apply N.eqb_neq; lia).
  replace (ch =? 8233)%N with false by (symmetry; apply N.eqb_neq; lia).
  replace (ch =? 8239)%N with false by (symmetry; apply N.eqb_neq; lia).
  replace (ch =? 8287)%N with false by (symmetry; apply N.eqb_neq; lia).
  replace (ch =? 12288)%N with false by (symmetry; apply N.eqb_neq; lia).
  now rewrite !andb_false_r.
Qed.

Lemma valid_char_range (ch : char) :
  valid_body_char ch = true -> (48 <= ch <= 122)%N.
Proof.
  unfold valid_body_char.
  rewrite !orb_true_iff, !andb_true_iff, !N.leb_le. lia.
Qed.

Lemma upper_case_range (ch : char) :
  ((65 <=? ch) && (ch <=? 90))%N = true -> (65 <= ch <= 90)%N.
Proof. rewrite andb_true_iff, !N.leb_le. lia. Qed.

Lemma lstrip_spaces (pre s : str) :
  forallb isspace pre = true -> lstrip (pre ++ s) = lstrip s.
Proof.
  induction pre as [|ch pre IH]; simpl; [reflexivity|].
  rewrite andb_true_iff. intros [H1 H2]. rewrite H1. now apply IH.
Qed.

Lemma lstrip_solid (s : str) :
  isspace (hd 0%N s) = false -> lstrip s = s.
Proof. destruct s as [|ch s]; simpl; [reflexivity|]. now intros ->. Qed.

Lemma hd_app (s t : str) : s <> [] -> hd 0%N (s ++ t) = hd 0%N s.
Proof. now destruct s. Qed.

Lemma hd_rev (s : str) : hd 0%N (rev s) = last s 0%N.
Proof.
  induction s as [|ch s IH]; [reflexivity|]. simpl rev.
  destruct s as [|ch' s]; [reflexivity|].
  rewrite hd_app; [exact IH|]. simpl. now destruct (rev s).
Qed.

(** [strip] takes white space off both ends and leaves the rest. *)
Lemma strip_spaces (pre s post : str) :
  forallb isspace pre = true -> forallb isspace post = true ->
  s <> [] -> isspace (hd 0%N s) = false -> isspace (last s 0%N) = false ->
  strip (pre ++ s ++ post) = s.
Proof.
  intros Hpre Hpost Hne Hh Hl. unfold strip.
  rewrite lstrip_spaces by assumption.
  rewrite (lstrip_solid (s ++ post)) by (rewrite hd_app; assumption).
  rewrite rev_app_distr, lstrip_spaces.
  - rewrite (lstrip_solid (rev s)); [apply rev_involutive|].
    now rewrite hd_rev.
  - rewrite forallb_forall in *. intros x Hx. apply Hpost.
    now apply in_rev.
Qed.

Lemma strip_newline (raw : str) : strip (raw ++ [10%N]) = strip raw.
Proof.
  unfold strip. f_equal.
  assert (H : forall s, lstrip (rev (lstrip (s ++ [10%N])))
                        = lstrip (rev (lstrip s))).
  { induction s as [|ch s IH]; [reflexivity|]. simpl.
    destruct (isspace ch); [exact IH|].
    change (ch :: s ++ [10%N]) with ((ch :: s) ++ [10%N]).
    rewrite rev_app_distr. reflexivity. }
  apply H.
Qed.

Lemma parse_line_newline (idx : nat) (raw : str)
  (st : option str * Productions) :
  parse_line idx (raw ++ [10%N]) st = parse_line idx raw st.
Proof. unfold parse_line. now rewrite strip_newline. Qed.

Lemma parse_lines_with_newlines :
  forall lines idx st,
    parse_lines idx (with_newlines lines) st = parse_lines idx lines st.
Proof.
  induction lines as [|x lines IH]; intros idx st; [reflexivity|].
  destruct lines as [|y lines]; [reflexivity|].
  cbn [with_newlines parse_lines]. rewrite parse_line_newline.
  destruct (parse_line idx x st); [apply IH | reflexivity].
Qed.

Lemma universal_newlines_id (text : str) :
  ~ In 13%N text -> universal_newlines text = text.
Proof.
  induction text as [|ch text IH]; [reflexivity|]. intros H.
  cbn [universal_newlines]. destruct (N.eqb_spec ch 13) as [-> | _].
  - exfalso. apply H. now left.
  - f_equal. apply IH. intros Hin. apply H. now right.
Qed.

Lemma lines_of_line (x : str) :
  x <> [] -> ~ In 10%N x -> lines_of x = [x].
Proof.
  induction x as [|ch x IH]; [contradiction|]. intros _ H.
  cbn [lines_of]. destruct (N.eqb_spec ch 10) as [-> | _].
  - exfalso. apply H. now left.
  - destruct x as [|ch' x]; [reflexivity|].
    rewrite IH; [reflexivity | discriminate|].
    intros Hin. apply H. now right.
Qed.

Lemma lines_of_app (x rest : str) :
  ~ In 10%N x -> rest <> [] ->
  lines_of (x ++ 10%N :: rest) = (x ++ [10%N]) :: lines_of rest.
Proof.
  intros H Hrest. induction x as [|ch x IH]; [reflexivity|].
  cbn [app lines_of]. destruct (N.eqb_spec ch 10) as [-> | _].
  - exfalso. apply H. now left.
  - rewrite IH; [reflexivity|]. intros Hin. apply H. now right.
Qed.

Lemma join_not_nil (sep : str) (ls : list str) :
  ls <> [] -> (forall x, In x ls -> x <> []) -> join sep ls <> [].
Proof.
  destruct ls as [|x ls]; [contradiction|]. intros _ H.
  assert (Hx : x <> []) by (apply H; now left).
  cbn [join]. destruct ls; [assumption|]. now destruct x.
Qed.

Lemma lines_of_join (ls : list str) :
  (forall x, In x ls -> x <> [] /\ ~ In 10%N x) ->
  lines_of (join [10%N] ls) = with_newlines ls.
Proof.
  induction ls as [|x ls IH]; intros H; [reflexivity|].
  destruct (H x (or_introl eq_refl)) as [Hx Hn].
  destruct ls as [|y ls].
  - cbn [join with_newlines]. now apply lines_of_line.
  - change (join [10%N] (x :: y :: ls))
      with (x ++ 10%N :: join [10%N] (y :: ls)).
    change (with_newlines (x :: y :: ls))
      with ((x ++ [10%N]) :: with_newlines (y :: ls)).
    rewrite lines_of_app; [f_equal; apply IH| |].
    + intros z Hz. apply H. now right.
    + assumption.
    + apply join_not_nil; [discriminate|].
      intros z Hz. apply H. now right.
Qed.

Lemma re_greedy_stop {R : Type} (p : char -> bool)
  (k : nat -> str -> option R) (pos : nat) (s : str) :
  p (hd 0%N s) = false -> s <> [] -> re_greedy p k pos s = k pos s.
Proof.
  destruct s as [|ch s]; [contradiction|]. simpl. now intros ->.
Qed.

Lemma re_greedy_one {R : Type} (p : char -> bool)
  (k : nat -> str -> option R) (pos : nat) (ch : char) (s : str) (m : R) :
  p ch = true -> p (hd 0%N s) = false -> s <> [] ->
  k (S pos) s = Some m -> re_greedy p k pos (ch :: s) = Some m.
Proof.
  intros Hp Hs Hne Hk. cbn [re_greedy]. rewrite Hp.
  rewrite re_greedy_stop by assumption. now rewrite Hk.
Qed.

Lemma re_lazy_to_end {R : Type} (p : char -> bool)
  (k : nat -> str -> option R) (m : R) :
  forall s pos,
    forallb p s = true ->
    (forall n, n < length s -> k (pos + n) (skipn n s) = None) ->
    k (pos + length s) [] = Some m ->
    re_lazy p k pos s = Some m.
Proof.
  induction s as [|ch s IH]; intros pos Hp Hnone Hend.
  - simpl in *. rewrite Nat.add_0_r in Hend. now rewrite Hend.
  - cbn [re_lazy]. specialize (Hnone 0) as H0. rewrite Nat.add_0_r in H0.
    simpl skipn in H0. rewrite H0 by (simpl; lia).
    simpl in Hp. apply andb_true_iff in Hp. destruct Hp as [Hp1 Hp2].
    rewrite Hp1. apply IH; [assumption| |].
    + intros n Hn. specialize (Hnone (S n)). rewrite Nat.add_succ_r in Hnone.
      apply Hnone. simpl. lia.
    + simpl in Hend. now rewrite Nat.add_succ_r in Hend.
Qed.

Lemma space_10 : isspace 10%N = true.
Proof. reflexivity. Qed.

Lemma re_tail_fails (marks : list nat) :
  forall s pos,
    s <> [] -> isspace (last s 0%N) = false ->
    re_greedy isspace (fun pos s => re_match [ReEnd] pos s marks) pos s
    = None.
Proof.
  induction s as [|ch s IH]; intros pos Hne Hl; [contradiction|].
  assert (Hk : re_match [ReEnd] pos (ch :: s) marks = None).
  { cbn [re_match]. destruct s as [|ch' s]; [|reflexivity].
    simpl in Hl. destruct (N.eqb_spec ch 10) as [-> | _]; [|reflexivity].
    discriminate. }
  cbn [re_greedy]. destruct (isspace ch) eqn:E; [|exact Hk].
  destruct s as [|ch' s]; [simpl in Hl; congruence|].
  rewrite IH; [exact Hk | discriminate | exact Hl].
Qed.

Lemma skipn_last (s : str) (n : nat) :
  n < length s -> skipn n s <> [] /\ last (skipn n s) 0%N = last s 0%N.
Proof.
  revert n. induction s as [|ch s IH]; intros n Hn; [simpl in Hn; lia|].
  destruct n as [|n]; [split; [discriminate | reflexivity]|].
  simpl in Hn. destruct (IH n) as [H1 H2]; [lia|]. simpl skipn.
  split; [assumption|]. rewrite H2. destruct s; [simpl in Hn; lia|].
  reflexivity.
Qed.

(** [line_regex] on a line as [pretty_grammar] prints it. *)
Lemma match_line_pretty (ch : char) (rhs : str) :
  ((65 <=? ch) && (ch <=? 90))%N = true -> solid rhs ->
  match_line (ch :: [32; 45; 62; 32]%N ++ rhs) = Some ([ch], rhs).
Proof.
  intros Hch [Hne [Hh [Hl Hnl]]].
  assert (Hsp : isspace ch = false).
  { apply isspace_printable. apply upper_case_range in Hch. lia. }
  assert (E : re_match line_regex 0 (ch :: [32; 45; 62; 32]%N ++ rhs) []
              = Some [0; 1; 5; 5 + length rhs]).
  { unfold line_regex. cbn [re_match Nat.eqb app].
    rewrite re_greedy_stop by (simpl; first [assumption | discriminate]).
    rewrite Hch.
    rewrite re_greedy_one
      with (m := [0; 1; 5; 5 + length rhs]);
      [reflexivity | reflexivity | reflexivity | discriminate |].
    cbn [N.eqb Pos.eqb].
    destruct rhs as [|c rest]; [contradiction|].
    rewrite re_greedy_one
      with (m := [0; 1; 5; 5 + length (c :: rest)]);
      [reflexivity | reflexivity | exact Hh | discriminate |].
    assert (Hc : negb (c =? 10)%N = true).
    { apply negb_true_iff, N.eqb_neq. apply Hnl. now left. }
    rewrite Hc. apply re_lazy_to_end.
    - apply forallb_forall. intros x Hx. apply negb_true_iff, N.eqb_neq.
      apply Hnl. now right.
    - intros n Hn. destruct (skipn_last rest n Hn) as [H1 H2].
      apply (re_tail_fails [0; 1; 5; 6 + n] (skipn n rest) (6 + n) H1).
      transitivity (isspace (last rest 0%N)); [f_equal; exact H2|].
      destruct rest as [|c' rest]; [simpl in Hn; lia|]. exact Hl.
    - simpl. first [reflexivity | repeat f_equal; lia]. }
  unfold match_line. rewrite E. unfold substring. simpl.
  rewrite Nat.sub_0_r, firstn_all. reflexivity.
Qed.

Lemma split_on_bar (sep : char) (pre t : str) :
  ~ In sep pre -> split sep (pre ++ sep :: t) = pre :: split sep t.
Proof.
  unfold split. induction pre as [|ch pre IH]; intros H.
  - cbn [app split_on]. destruct (split_on sep t) as [p ps].
    now rewrite N.eqb_refl.
  - cbn [app split_on].
    assert (Hpre : ~ In sep pre) by (intros Hin; apply H; now right).
    specialize (IH Hpre). destruct (split_on sep (pre ++ sep :: t)) as [p ps].
    destruct (N.eqb_spec ch sep) as [-> | _];
      [exfalso; apply H; now left|].
    destruct (split_on sep t) as [p' ps']. now injection IH as -> ->.
Qed.

Lemma split_no_bar (sep : char) (s : str) :
  ~ In sep s -> split sep s = [s].
Proof.
  unfold split. induction s as [|ch s IH]; intros H; [reflexivity|].
  cbn [split_on].
  assert (Hs : ~ In sep s) by (intros Hin; apply H; now right).
  specialize (IH Hs). destruct (split_on sep s) as [p ps].
  destruct (N.eqb_spec ch sep) as [-> | _]; [exfalso; apply H; now left|].
  now injection IH as -> ->.
Qed.

(** The bodies between the bars of a right-hand side as [pretty_grammar]
    prints it. *)
Lemma strip_split_join :
  forall bs pre,
    bs <> [] ->
    (forall b, In b bs -> solid b /\ ~ In 124%N b) ->
    forallb isspace pre = true -> ~ In 124%N pre ->
    map strip (split 124%N (pre ++ join [32; 124; 32]%N bs)) = bs.
Proof.
  induction bs as [|b bs IH]; intros pre Hne Hb Hpre Hbar;
    [contradiction|].
  destruct (Hb b (or_introl eq_refl)) as [[Hbne [Hh [Hl _]]] Hnb].
  destruct bs as [|b2 bs].
  - cbn [join]. rewrite split_no_bar.
    + cbn [map]. f_equal.
      rewrite <- (List.app_nil_r b) at 1. now apply strip_spaces.
    + intros Hin. apply in_app_iff in Hin. tauto.
  - change (join [32; 124; 32]%N (b :: b2 :: bs))
      with (b ++ [32%N] ++ 124%N :: [32%N] ++ join [32; 124; 32]%N (b2 :: bs)).
    rewrite !app_assoc. rewrite split_on_bar.
    + cbn [map]. f_equal.
      * rewrite <- app_assoc. now apply strip_spaces.
      * apply IH; [discriminate| |reflexivity|].
        -- intros x Hx. apply Hb. now right.
        -- intros [H | []]. discriminate.
    + intros Hin. rewrite !in_app_iff in Hin.
      destruct Hin as [[Hin | Hin] | [Hin | []]]; try tauto. discriminate.
Qed.

Lemma wf_body_solid (b : str) :
  wf_body b = true -> solid b /\ ~ In 124%N b.
Proof.
  intros H. apply wf_body_inv in H.
  assert (Hv : forall ch, In ch b -> valid_body_char ch = true \/ ch = 949%N).
  { destruct H as [-> | [_ H]]; [|auto]. intros ch [<- | []]. now right. }
  assert (Hne : b <> []) by (destruct H as [-> | [H _]]; [discriminate|auto]).
  assert (Hc : forall ch, (valid_body_char ch = true \/ ch = 949%N) ->
                          isspace ch = false /\ ch <> 10%N /\ ch <> 13%N /\
                          ch <> 124%N).
  { intros ch [Hch | ->]; [|repeat split; discriminate].
    apply valid_char_range in Hch.
    split; [apply isspace_printable; lia|]. repeat split; lia. }
  split; [split; [assumption|]; split; [|split]|].
  - apply Hc, Hv. destruct b; [contradiction | now left].
  - apply Hc, Hv. clear -Hne. induction b as [|x b IH]; [contradiction|].
    destruct b as [|y b]; [now left|]. right. apply IH. discriminate.
  - intros ch Hch. destruct (Hc ch (Hv ch Hch)) as [_ [H1 [H2 _]]]. auto.
  - intros Hin. destruct (Hc _ (Hv _ Hin)) as [_ [_ [_ H4]]]. now apply H4.
Qed.

Lemma clean_body_id (idx : nat) (b : str) :
  wf_body b = true -> clean_body idx b = Parsed b.
Proof.
  intros H. apply wf_body_inv in H. destruct H as [-> | [Hne Hv]];
    [reflexivity|].
  unfold clean_body. destruct b as [|ch b]; [contradiction|].
  assert (E1 : str_eqb (ch :: b) EPS = false).
  { apply str_eqb_neq. intros E. injection E as -> ->.
    specialize (Hv _ (or_introl eq_refl)). discriminate. }
  assert (E2 : str_eqb (ch :: b) [1013%N] = false).
  { apply str_eqb_neq. intros E. injection E as -> ->.
    specialize (Hv _ (or_introl eq_refl)). discriminate. }
  rewrite E1, E2. cbn [orb].
  destruct (find (fun ch => negb (valid_body_char ch)) (ch :: b)) eqn:E;
    [|reflexivity].
  apply find_some in E. destruct E as [Hin Hbad].
  rewrite (Hv _ Hin) in Hbad. discriminate.
Qed.

Lemma clean_bodies_id (idx : nat) :
  forall bs acc,
    (forall b, In b bs -> wf_body b = true) ->
    clean_bodies idx bs acc = Parsed (acc ++ bs).
Proof.
  induction bs as [|b bs IH]; intros acc H; cbn [clean_bodies].
  - now rewrite List.app_nil_r.
  - rewrite clean_body_id by (apply H; now left).
    rewrite IH by (intros x Hx; apply H; now right).
    now rewrite <- app_assoc.
Qed.

Lemma set_update_fresh :
  forall t s, NoDup (s ++ t) -> set_update s t = s ++ t.
Proof.
  unfold set_update. induction t as [|x t IH]; intros s H; cbn [fold_left].
  - now rewrite List.app_nil_r.
  - assert (Hx : mem x s = false).
    { apply mem_not_In. intros Hin. apply NoDup_remove_2 in H. apply H.
      apply in_or_app. now left. }
    unfold set_add at 2. rewrite Hx. rewrite IH.
    + now rewrite <- app_assoc.
    + rewrite <- app_assoc. exact H.
Qed.

Lemma In_join (sep : str) (c : char) :
  forall ls, In c (join sep ls) ->
             In c sep \/ exists l, In l ls /\ In c l.
Proof.
  induction ls as [|x ls IH]; [intros []|].
  destruct ls as [|y ls].
  - cbn [join]. intros H. right. exists x. split; [now left | assumption].
  - change (join sep (x :: y :: ls)) with (x ++ sep ++ join sep (y :: ls)).
    rewrite !in_app_iff. intros [H | [H | H]].
    + right. exists x. split; [now left | assumption].
    + now left.
    + destruct (IH H) as [H' | [l [Hl Hc]]]; [now left|].
      right. exists l. split; [now right | assumption].
Qed.

Lemma last_app_ne (s t : str) :
  t <> [] -> last (s ++ t) 0%N = last t 0%N.
Proof.
  intros Ht. induction s as [|x s IH]; [reflexivity|].
  cbn [app]. destruct (s ++ t) eqn:E.
  - apply app_eq_nil in E. destruct E as [_ ->]. contradiction.
  - rewrite <- E in *. simpl. rewrite E. rewrite <- E. exact IH.
Qed.

Lemma join_solid (bs : list str) :
  bs <> [] -> (forall b, In b bs -> solid b) ->
  solid (join [32; 124; 32]%N bs).
Proof.
  intros Hne Hb.
  assert (Hnn : join [32; 124; 32]%N bs <> []).
  { apply join_not_nil; [assumption|]. intros x Hx. now destruct (Hb x Hx). }
  split; [assumption|]. split; [|split].
  - destruct bs as [|b bs]; [contradiction|].
    destruct (Hb b (or_introl eq_refl)) as [Hbn [Hh _]].
    destruct bs as [|b2 bs]; [exact Hh|].
    change (join [32; 124; 32]%N (b :: b2 :: bs))
      with (b ++ [32; 124; 32]%N ++ join [32; 124; 32]%N (b2 :: bs)).
    now rewrite hd_app.
  - clear Hnn. induction bs as [|b bs IH]; [contradiction|].
    destruct bs as [|b2 bs].
    + cbn [join]. now destruct (Hb b (or_introl eq_refl)) as [_ [_ [H _]]].
    + change (join [32; 124; 32]%N (b :: b2 :: bs))
        with (b ++ [32; 124; 32]%N ++ join [32; 124; 32]%N (b2 :: bs)).
      rewrite app_assoc, last_app_ne.
      * apply IH; [discriminate|]. intros x Hx. apply Hb. now right.
      * apply join_not_nil; [discriminate|].
        intros x Hx. assert (Hs : solid x) by (apply Hb; now right).
        now destruct Hs.
  - intros ch Hch. apply In_join in Hch.
    destruct Hch as [Hch | [l [Hl Hc]]].
    + simpl in Hch. destruct Hch as [<- | [<- | [<- | []]]];
        split; discriminate.
    + destruct (Hb l Hl) as [_ [_ [_ H]]]. now apply H.
Qed.

Section RoundTrip.
Variable G : Productions.
Hypothesis Hwf : wf_grammar G = true.
Hypothesis Hfull : no_empty_set G = true.

Lemma round_trip_entry (A : str) :
  In A (keys G) ->
  exists ch,
    A = [ch] /\ ((65 <=? ch) && (ch <=? 90))%N = true /\
    In (A, get_or_empty A G) G /\
    get_or_empty A G <> [] /\ NoDup (get_or_empty A G) /\
    forall b, In b (get_or_empty A G) -> wf_body b = true.
Proof.
  intros HA. apply lookup_Some_key in HA. destruct HA as [bodies Hl].
  unfold get_or_empty. rewrite Hl. apply lookup_In in Hl.
  destruct (wf_grammar_entry _ _ _ Hwf Hl) as [Hk [Hnd Hb]].
  destruct A as [|ch [|? ?]]; try discriminate. exists ch.
  split; [reflexivity|]. split; [exact Hk|]. split; [assumption|].
  split; [|auto]. unfold no_empty_set in Hfull.
  rewrite forallb_forall in Hfull. specialize (Hfull _ Hl). simpl in Hfull.
  intros ->. discriminate.
Qed.

Lemma sorted_bodies (A : str) :
  In A (keys G) ->
  sorted (fun s => (str_eqb s EPS, s)) (get_or_empty A G) <> [] /\
  NoDup (sorted (fun s => (str_eqb s EPS, s)) (get_or_empty A G)) /\
  forall b, In b (sorted (fun s => (str_eqb s EPS, s)) (get_or_empty A G)) ->
            wf_body b = true.
Proof.
  intros HA. destruct (round_trip_entry A HA) as [ch [_ [_ [_ [Hne [Hnd Hb]]]]]].
  pose proof (sorted_perm (fun s => str_eqb s EPS) (get_or_empty A G)) as Hp.
  cbv beta in Hp. split; [|split].
  - intros E. rewrite E in Hp. apply Permutation_nil in Hp. now apply Hne.
  - eapply Permutation_NoDup; [apply Permutation_sym; exact Hp | assumption].
  - intros b Hin. apply Hb. eapply Permutation_in; eassumption.
Qed.

Lemma pretty_line_eq (A : str) :
  In A (keys G) ->
  pretty_line A (get_or_empty A G)
  = A ++ [32; 45; 62; 32]%N
      ++ join [32; 124; 32]%N
           (sorted (fun s => (str_eqb s EPS, s)) (get_or_empty A G)).
Proof.
  intros HA. destruct (sorted_bodies A HA) as [Hne _].
  unfold pretty_line. cbv zeta.
  now destruct (sorted (fun s => (str_eqb s EPS, s)) (get_or_empty A G)).
Qed.

Lemma pretty_rhs_solid (A : str) :
  In A (keys G) ->
  solid (join [32; 124; 32]%N
           (sorted (fun s => (str_eqb s EPS, s)) (get_or_empty A G))).
Proof.
  intros HA. destruct (sorted_bodies A HA) as [Hne [_ Hb]].
  apply join_solid; [assumption|]. intros b Hin.
  now destruct (wf_body_solid b (Hb b Hin)).
Qed.

(** The parser on one line of [pretty_grammar]: the nonterminal gets the
    bodies in the order they were printed in. *)
Lemma parse_pretty_line (A : str) (idx : nat) (ss : option str)
  (prods : Productions) :
  In A (keys G) -> ~ In A (keys prods) ->
  parse_line idx (pretty_line A (get_or_empty A G)) (ss, prods)
  = Parsed (match ss with
            | None => Some A
            | Some s => Some s
            end,
            prods ++ [(A, sorted (fun s => (str_eqb s EPS, s))
                                 (get_or_empty A G))]).
Proof.
  intros HA Hnew. rewrite pretty_line_eq by assumption.
  destruct (round_trip_entry A HA) as [ch [-> [Hch _]]].
  destruct (sorted_bodies [ch] HA) as [Hne [Hnd Hb]].
  pose proof (pretty_rhs_solid [ch] HA) as Hs.
  set (sb := sorted (fun s => (str_eqb s EPS, s)) (get_or_empty [ch] G))
    in *.
  assert (Hsp : isspace ch = false).
  { apply isspace_printable. apply upper_case_range in Hch. lia. }
  assert (Hstrip : strip ([ch] ++ [32; 45; 62; 32]%N
                               ++ join [32; 124; 32]%N sb)
                   = ch :: [32; 45; 62; 32]%N ++ join [32; 124; 32]%N sb).
  { change ([ch] ++ [32; 45; 62; 32]%N ++ join [32; 124; 32]%N sb)
      with ([] ++ (ch :: [32; 45; 62; 32]%N ++ join [32; 124; 32]%N sb)).
    rewrite <- (List.app_nil_r
                  (ch :: [32; 45; 62; 32]%N ++ join [32; 124; 32]%N sb))
      at 1.
    apply strip_spaces; try reflexivity; try discriminate; [exact Hsp|].
    destruct Hs as [Hjn [_ [Hl _]]].
    change (ch :: [32; 45; 62; 32]%N ++ join [32; 124; 32]%N sb)
      with ((ch :: [32; 45; 62; 32]%N) ++ join [32; 124; 32]%N sb).
    now rewrite last_app_ne. }
  unfold parse_line. rewrite Hstrip.
  assert (Hskip : skipped (ch :: [32; 45; 62; 32]%N
                              ++ join [32; 124; 32]%N sb) = false).
  { simpl. apply N.eqb_neq. intros ->. discriminate. }
  rewrite Hskip. rewrite match_line_pretty by assumption.
  cbv zeta.
  assert (Hsplit : map strip (split 124%N (join [32; 124; 32]%N sb)) = sb).
  { apply (strip_split_join sb []); try assumption; try reflexivity.
    - intros b Hin. now apply wf_body_solid, Hb.
    - intros []. }
  rewrite Hsplit.
  rewrite clean_bodies_id by assumption. cbn [app].
  assert (Hget : get_or_empty [ch] prods = []).
  { unfold get_or_empty. apply lookup_None in Hnew. now rewrite Hnew. }
  rewrite Hget. rewrite set_update_fresh by assumption. cbn [app].
  now rewrite setitem_absent.
Qed.

Lemma parse_pretty_lines :
  forall l idx ss prods,
    NoDup l ->
    (forall A, In A l -> In A (keys G) /\ ~ In A (keys prods)) ->
    parse_lines idx
      (map (fun A => pretty_line A (get_or_empty A G)) l) (ss, prods)
    = Parsed (match ss with
              | Some s => Some s
              | None => hd_error l
              end,
              prods ++ map (fun A => (A, sorted (fun s => (str_eqb s EPS, s))
                                                (get_or_empty A G))) l).
Proof.
  induction l as [|A l IH]; intros idx ss prods Hnd Hl.
  - cbn [map parse_lines hd_error]. rewrite List.app_nil_r.
    now destruct ss.
  - cbn [map parse_lines].
    destruct (Hl A (or_introl eq_refl)) as [HA Hnew].
    rewrite parse_pretty_line by assumption.
    rewrite IH.
    + rewrite <- app_assoc. cbn [app hd_error]. now destruct ss.
    + now inversion Hnd.
    + intros B HB. destruct (Hl B (or_intror HB)) as [HBk HBn].
      split; [assumption|]. rewrite keys_app. intros Hin.
      apply in_app_iff in Hin. destruct Hin as [Hin | [<- | []]]; [tauto|].
      inversion Hnd. contradiction.
Qed.
End RoundTrip.

(** The start symbol comes first in the order of [pretty_grammar]. *)
Lemma sorted_start_first (start : str) (ks : list str) :
  In start ks ->
  exists rest,
    sorted (fun X => (negb (str_eqb X start), X)) ks = start :: rest.
Proof.
  intros Hin.
  pose proof (sorted_perm (fun X => negb (str_eqb X start)) ks) as Hp.
  pose proof (sorted_in_order (fun X => negb (str_eqb X start)) ks) as Ho.
  cbv beta in Hp, Ho.
  destruct (sorted (fun X => (negb (str_eqb X start), X)) ks) as [|h rest].
  - apply Permutation_nil in Hp. subst. destruct Hin.
  - exists rest. f_equal.
    apply (Permutation_in _ (Permutation_sym Hp)) in Hin.
    destruct Hin as [-> | Hin]; [reflexivity|].
    destruct Ho as [Ho _]. specialize (Ho _ Hin). unfold key_ltb in Ho.
    rewrite str_eqb_refl in Ho. cbn [negb] in Ho.
    destruct (str_eqb h start) eqn:E; [now apply str_eqb_eq in E|].
    discriminate.
Qed.

Lemma lookup_map_entry (g : str -> list str) (A : str) :
  forall l, In A l -> lookup A (map (fun A => (A, g A)) l) = Some (g A).
Proof.
  induction l as [|B l IH]; [intros []|]. cbn [map lookup].
  destruct (str_eqb A B) eqn:E.
  - apply str_eqb_eq in E. now subst.
  - intros [-> | H]; [now rewrite str_eqb_refl in E | now apply IH].
Qed.

Lemma same_mapping_intro (G1 G2 : Productions) :
  (forall A s1, In (A, s1) G1 ->
                exists s2, lookup A G2 = Some s2 /\
                           incl s1 s2 /\ incl s2 s1) ->
  (forall A, In A (keys G2) -> In A (keys G1)) ->
  same_mapping G1 G2 = true.
Proof.
  intros H12 H21. unfold same_mapping. apply andb_true_iff.
  split; apply forallb_forall.
  - intros [A s1] Hin. destruct (H12 _ _ Hin) as [s2 [-> [Ha Hb]]].
    apply andb_true_iff. split; apply forallb_forall; intros x Hx;
      apply mem_In; auto.
  - intros [A s2] Hin. assert (HA : In A (keys G1)).
    { apply H21. apply (in_map fst) in Hin. exact Hin. }
    apply lookup_Some_key in HA. destruct HA as [v ->]. reflexivity.
Qed.

Lemma round_trip (start : str) (G : Productions) :
  wf_grammar G = true -> no_empty_set G = true -> In start (keys G) ->
  exists text G',
    pretty_grammar start G = Ok text /\
    parse_grammar_file (read_lines text) = Parsed (start, G') /\
    same_mapping G G' = true.
Proof.
  intros Hwf Hfull Hstart.
  set (order := sorted (fun X => (negb (str_eqb X start), X)) (keys G)).
  set (line := fun A => pretty_line A (get_or_empty A G)).
  set (entry := fun A => (A, sorted (fun s => (str_eqb s EPS, s))
                                    (get_or_empty A G))).
  assert (Hp : Permutation order (keys G))
    by apply (sorted_perm (fun X => negb (str_eqb X start))).
  assert (Hin : forall A, In A order -> In A (keys G)).
  { intros A HA. eapply Permutation_in; eassumption. }
  pose proof (wf_grammar_nodup _ Hwf) as Hnd.
  assert (Hline : forall x, In x (map line order) ->
                            x <> [] /\ ~ In 10%N x /\ ~ In 13%N x).
  { intros x Hx. apply in_map_iff in Hx. destruct Hx as [A [<- HA]].
    apply Hin in HA. unfold line. rewrite pretty_line_eq by assumption.
    destruct (round_trip_entry G Hwf Hfull A HA) as [ch [-> [Hch _]]].
    destruct (pretty_rhs_solid G Hwf Hfull [ch] HA) as [_ [_ [_ Hc]]].
    split; [discriminate|].
    assert (Hno : forall c, c = 10%N \/ c = 13%N ->
                  ~ In c ([ch] ++ [32; 45; 62; 32]%N ++
                          join [32; 124; 32]%N
                            (sorted (fun s => (str_eqb s EPS, s))
                                    (get_or_empty [ch] G)))).
    { intros c Hc' Hinc. rewrite !in_app_iff in Hinc.
      destruct Hinc as [[<- | []] | [Hinc | Hinc]].
      - apply andb_true_iff in Hch. destruct Hch as [H1 H2].
        apply N.leb_le in H1, H2. destruct Hc'; lia.
      - simpl in Hinc.
        destruct Hinc as [<- | [<- | [<- | [<- | []]]]];
          destruct Hc'; discriminate.
      - destruct (Hc _ Hinc) as [H1 H2]. destruct Hc'; contradiction. }
    split; apply Hno; auto. }
  exists (join [10%N] (map line order)), (map entry order).
  split; [apply pretty_grammar_eq|]. split.
  - unfold read_lines. rewrite universal_newlines_id.
    + rewrite lines_of_join by (intros x Hx; destruct (Hline x Hx); tauto).
      unfold parse_grammar_file. rewrite parse_lines_with_newlines.
      unfold line. rewrite (parse_pretty_lines G Hwf Hfull).
      * destruct (sorted_start_first start (keys G) Hstart) as [rest Hr].
        fold order in Hr. rewrite Hr. reflexivity.
      * eapply Permutation_NoDup; [apply Permutation_sym; exact Hp|].
        assumption.
      * intros A HA. split; [now apply Hin | intros []].
    + intros H13. apply In_join in H13.
      destruct H13 as [[H | []] | [l [Hl Hc]]]; [discriminate|].
      destruct (Hline l Hl) as [_ [_ H]]. contradiction.
  - apply same_mapping_intro.
    + intros A s1 HinA.
      assert (HA : In A order).
      { apply (Permutation_in _ (Permutation_sym Hp)).
        apply (in_map fst) in HinA. exact HinA. }
      exists (sorted (fun s => (str_eqb s EPS, s)) (get_or_empty A G)).
      split.
      * apply (lookup_map_entry
                 (fun A => sorted (fun s => (str_eqb s EPS, s))
                                  (get_or_empty A G)) A order HA).
      * unfold get_or_empty. rewrite (In_lookup _ _ _ Hnd HinA).
        pose proof (sorted_perm (fun s => str_eqb s EPS) s1) as Hps.
        cbv beta in Hps.
        split; intros x Hx.
        -- eapply Permutation_in; [apply Permutation_sym|]; eassumption.
        -- eapply Permutation_in; eassumption.
    + intros A HA. unfold keys in HA. rewrite map_map in HA. simpl in HA.
      rewrite map_id in HA. now apply Hin.
Qed.

(** X23.  What [pretty_grammar] prints, [parse_grammar_file] reads back.  For a
    well-formed grammar without an empty set of bodies and a start symbol
    that is one of its nonterminals, the text [pretty_grammar] returns,
    read as a file, is parsed into the same start symbol and the same
    mapping from nonterminals to sets of bodies. *)
Theorem parse_pretty_round_trip (start : str) (G : Productions) :
  wf_grammar G = true -> no_empty_set G = true -> In start (keys G) ->
  exists text G',
    pretty_grammar start G = Ok text /\
    parse_grammar_file (read_lines text) = Parsed (start, G') /\
    same_mapping G G' = true.
Proof. apply round_trip. Qed.

Lemma parse_pretty_round_trip_witness :
  exists text G',
    pretty_grammar [83%N] grammar_ab = Ok text /\
    parse_grammar_file (read_lines text) = Parsed ([83%N], G') /\
    same_mapping grammar_ab G' = true.
Proof.
  apply (parse_pretty_round_trip [83%N] grammar_ab).
  - reflexivity.
  - reflexivity.
  - simpl. now left.
Defined.

(** ** Terminals and nonterminals *)

(** X25.  The characters the parser lets into a body are split into terminals
    and nonterminals: every character of [VALID_BODY_CHARS] is a terminal
    or a nonterminal, and not both. *)
Theorem valid_chars_partition (ch : char) :
  valid_body_char ch = true ->
  is_terminal ch = negb (is_nonterminal ch).
Proof. apply valid_char_class. Qed.

Lemma valid_chars_partition_witness :
  is_terminal 97%N = negb (is_nonterminal 97%N).
Proof. apply (valid_chars_partition 97%N). reflexivity. Defined.

(** ** The first stages a second time *)

Lemma drops_refl (nullable : list str) (b : str) : drops nullable b b.
Proof. induction b; constructor; assumption. Qed.

Lemma drops_mono (n1 n2 : list str) (b c : str) :
  incl n1 n2 -> drops n1 b c -> drops n2 b c.
Proof.
  intros Hi H. induction H; constructor; auto.
Qed.

Lemma drops_trans (nullable : list str) (b c : str) :
  drops nullable b c -> forall d, drops nullable c d -> drops nullable b d.
Proof.
  intros H. induction H as [|ch b c H IH|ch b c Hnt Hin H IH]; intros d Hd.
  - assumption.
  - inversion Hd; subst.
    + constructor. now apply IH.
    + apply drops_drop; try assumption. now apply IH.
  - apply drops_drop; try assumption. now apply IH.
Qed.

Lemma eliminate_epsilon_again (start : str) (G : Productions) (keep : bool) :
  wf_grammar G = true ->
  exists G1 G2,
    eliminate_epsilon start G keep = Ok G1 /\
    eliminate_epsilon start G1 keep = Ok G2 /\
    same_mapping G1 G2 = true.
Proof.
  intros Hwf.
  destruct (eliminate_epsilon_wf start G keep Hwf) as [G1 [E1 [Hk1 Hwf1]]].
  destruct (eliminate_epsilon_exact start G keep Hwf)
    as [n [G1' [En [E1' [Hs [Hc [_ [Hb Hm]]]]]]]].
  rewrite E1 in E1'. injection E1' as <-.
  destruct (eliminate_epsilon_exact start G1 keep Hwf1)
    as [n1 [G2 [En1 [E2 [Hs1 [Hc1 [Hk2 [Hb1 Hm1]]]]]]]].
  exists G1, G2. split; [assumption|]. split; [assumption|].
  pose proof (wf_grammar_nodup _ Hwf1) as Hnd1.
  assert (Hkey : forall A, In A (keys G1) ->
                           exists ch, A = [ch] /\ is_nonterminal ch = true).
  { intros A HA. destruct (wf_key_inv _ (wf_grammar_key _ _ Hwf1 HA))
      as [ch [-> [Hnt _]]]. eauto. }
  assert (Hsub : incl n1 n).
  { intros A HA. destruct (Hs1 A HA) as [HAk Hd].
    apply (eps_language_sound G G1 start keep n Hwf Hs Hk1 Hb Hm) in Hd.
    destruct (Hkey A HAk) as [ch [-> _]].
    apply (nullable_closed_complete G n Hc _ _ Hd eq_refl ch). now left. }
  apply same_mapping_intro; [|intros A HA; now rewrite <- Hk2].
  intros A s1 Hin1.
  assert (HA : In A (keys G2)).
  { rewrite Hk2. apply (in_map fst) in Hin1. exact Hin1. }
  apply lookup_Some_key in HA. destruct HA as [s2 Hl2]. exists s2.
  split; [assumption|].
  pose proof (In_lookup _ _ _ Hnd1 Hin1) as Hl1.
  destruct (wf_grammar_entry _ _ _ Hwf1 Hin1) as [_ [_ Hwb]].
  split; intros x Hx.
  - destruct (list_eq_dec N.eq_dec x EPS) as [-> | Hne].
    + apply (Hm1 _ _ Hl2). apply (Hm _ _ Hl1) in Hx.
      destruct Hx as [-> [Hkeep Hn]]. split; [reflexivity|].
      split; [assumption|].
      assert (HS : In start (keys G1)) by (apply lookup_Some_key; eauto).
      destruct (Hkey _ HS) as [ch [Est Hnt]].
      assert (Hd : derives G1 [ch] []).
      { apply derives_body with s1 EPS; try assumption.
        - rewrite <- Est. assumption.
        - apply (Hm _ _ Hl1). auto.
        - constructor. }
      rewrite Est.
      apply (nullable_closed_complete G1 n1 Hc1 _ _ Hd eq_refl ch).
      now left.
    + apply (Hb1 _ _ Hl2 x Hne). exists s1, x.
      split; [assumption|]. split; [assumption|]. split; [assumption|].
      apply generated_of_self.
      now destruct (wf_body_not_eps _ (Hwb _ Hx) Hne).
  - destruct (list_eq_dec N.eq_dec x EPS) as [-> | Hne].
    + apply (Hm _ _ Hl1). apply (Hm1 _ _ Hl2) in Hx.
      destruct Hx as [-> [Hkeep Hn]]. auto.
    + apply (Hb1 _ _ Hl2 x Hne) in Hx.
      destruct Hx as [bodies [b [Hinb [Hbb [Hbe Hg]]]]].
      apply (In_lookup _ _ _ Hnd1) in Hinb. rewrite Hl1 in Hinb.
      injection Hinb as <-.
      apply generated_of_drops in Hg; [|assumption].
      destruct Hg as [Hxn Hd1].
      apply (Hb _ _ Hl1 b Hbe) in Hbb.
      destruct Hbb as [bodies0 [b0 [Hin0 [Hb0 [Hbe0 Hg0]]]]].
      apply generated_of_drops in Hg0; [|assumption].
      destruct Hg0 as [_ Hd0].
      apply (Hb _ _ Hl1 x Hne). exists bodies0, b0.
      repeat (split; [assumption|]).
      apply generated_of_drops; [assumption|]. split; [assumption|].
      apply drops_trans with b; [assumption|].
      now apply drops_mono with n1.
Qed.

(** X3.  [eliminate_epsilon] twice is [eliminate_epsilon] once: on a
    well-formed grammar it returns a grammar, and applied to that grammar
    it returns the same mapping from nonterminals to sets of bodies. *)
Theorem eliminate_epsilon_twice (start : str) (G : Productions)
  (keep : bool) :
  wf_grammar G = true ->
  exists G1 G2,
    eliminate_epsilon start G keep = Ok G1 /\
    eliminate_epsilon start G1 keep = Ok G2 /\
    same_mapping G1 G2 = true.
Proof. apply eliminate_epsilon_again. Qed.

Lemma eliminate_epsilon_twice_witness :
  exists G1 G2,
    eliminate_epsilon [83%N] grammar_nullable_chain true = Ok G1 /\
    eliminate_epsilon [83%N] G1 true = Ok G2 /\
    same_mapping G1 G2 = true.
Proof.
  apply (eliminate_epsilon_twice [83%N] grammar_nullable_chain true).
  reflexivity.
Defined.

Lemma remove_useless_again (start : str) (G : Productions) :
  wf_grammar G = true -> wf_key start = true ->
  exists G1 G2,
    remove_useless_symbols start G = Ok G1 /\
    remove_useless_symbols start G1 = Ok G2 /\
    same_mapping G1 G2 = true.
Proof.
  intros Hwf Hstart. pose proof (wf_grammar_nodup _ Hwf) as HndG.
  destruct (remove_useless_wf start G Hwf Hstart) as [G1 [E1 [Hs1 Hwf1]]].
  destruct (remove_useless_exact start G Hwf)
    as [gen [reach [G1' [E1' [Hi [Hc [Hst [Hcl [Hnd1 [Hsub [Hlk Hgen]]]]]]]]]]].
  rewrite E1 in E1'. injection E1' as <-.
  destruct (remove_useless_entries start G Hwf)
    as [G1' [E1' [_ [_ [_ Hent]]]]].
  rewrite E1 in E1'. injection E1' as <-.
  destruct (remove_useless_exact start G1 Hwf1)
    as [gen1 [reach1 [G2 [E2 [Hi1 [Hc1 [Hst1 [Hcl1 [Hnd2 [Hsub1
        [Hlk1 Hgen1]]]]]]]]]]].
  exists G1, G2. split; [assumption|]. split; [assumption|].
  pose proof (prods_gen_NoDup gen G) as HndPG.
  pose proof (prods_gen_NoDup gen1 G1) as HndPG1.
  (* a nonterminal in a body of [G1] has bodies in [G1] *)
  assert (HF : forall A bodies b ch,
             lookup A G1 = Some bodies -> In b bodies -> In ch b ->
             is_nonterminal ch = true ->
             exists bodies', lookup [ch] G1 = Some bodies' /\ bodies' <> []).
  { intros A bodies b ch HA Hb Hch Hnt. rewrite Hlk in HA.
    destruct (lookup A (prods_final_of reach (prods_gen_of gen G)))
      as [bodies0|] eqn:EF.
    - injection HA as ->. rewrite prods_final_lookup in EF by assumption.
      destruct (lookup A (prods_gen_of gen G)) as [v|] eqn:EPG;
        [|discriminate].
      destruct (mem A reach) eqn:Er; [|discriminate]. injection EF as ->.
      apply mem_In in Er.
      assert (Hcr : In [ch] reach).
      { apply (Hcl A b ch); try assumption.
        unfold get_or_empty. now rewrite EPG. }
      rewrite prods_gen_lookup in EPG by assumption.
      destruct (lookup A G) as [bodies0|] eqn:EG; [|discriminate].
      destruct (mem A gen); [|discriminate]. injection EPG as <-.
      apply kept_of_In in Hb. destruct Hb as [_ Hb].
      rewrite forallb_forall in Hb. specialize (Hb _ Hch).
      rewrite (nonterminal_not_terminal _ Hnt) in Hb. simpl in Hb.
      pose proof Hb as Hg. apply mem_In in Hb.
      destruct (Hgen _ Hb) as [w Hw].
      inversion Hw as
        [|c alpha w' Ht H|c bodies1 b' alpha u w' _ Hin1 Hb' _ _]; subst.
      + rewrite (nonterminal_not_terminal _ Hnt) in Ht. discriminate.
      + apply (In_lookup _ _ _ HndPG) in Hin1.
        exists bodies1. split.
        * rewrite Hlk. rewrite prods_final_lookup by assumption.
          rewrite Hin1. apply mem_In in Hcr. now rewrite Hcr.
        * intros ->. destruct Hb'.
    - destruct (str_eqb A start); [|discriminate].
      injection HA as <-. destruct Hb. }
  assert (HK1 : forall A bodies,
             lookup A G1 = Some bodies -> bodies <> [] -> In A gen1).
  { intros A bodies HA Hne. destruct (Hent _ _ HA) as [_ [Hd _]].
    destruct (Hd Hne) as [w Hw].
    assert (HAk : In A (keys G1)) by (apply lookup_Some_key; eauto).
    destruct (wf_key_inv _ (wf_grammar_key _ _ Hwf1 HAk))
      as [ch [-> [Hnt _]]].
    apply (gen_closed_complete G1 gen1 Hc1 _ _ Hw ch);
      [now left | assumption]. }
  assert (HK2 : forall A bodies b,
             lookup A G1 = Some bodies ->
             (In b (kept_of gen1 bodies) <-> In b bodies)).
  { intros A bodies b HA. rewrite kept_of_In. split; [tauto|].
    intros Hb. split; [assumption|]. apply forallb_forall. intros ch Hch.
    destruct (is_terminal ch) eqn:Et; [reflexivity|]. simpl.
    apply mem_In.
    destruct (wf_grammar_entry _ _ _ Hwf1 (lookup_In _ _ _ HA))
      as [_ [_ Hwb]].
    assert (Hnt : is_nonterminal ch = true).
    { destruct (wf_body_inv _ (Hwb _ Hb)) as [-> | [_ Hv]].
      - destruct Hch as [<- | []]. discriminate.
      - pose proof (valid_char_class _ (Hv _ Hch)) as Hcl'.
        rewrite Et in Hcl'. now destruct (is_nonterminal ch). }
    destruct (HF _ _ _ _ HA Hb Hch Hnt) as [bodies' [Hl' Hne']].
    now apply HK1 with bodies'. }
  assert (HPG1 : forall A bodies,
             lookup A G1 = Some bodies -> bodies <> [] ->
             lookup A (prods_gen_of gen1 G1) = Some (kept_of gen1 bodies)).
  { intros A bodies HA Hne. rewrite prods_gen_lookup by assumption.
    rewrite HA. pose proof (HK1 _ _ HA Hne) as Hg. apply mem_In in Hg.
    now rewrite Hg. }
  assert (HK3 : forall A, reachable G1 start A ->
                          reachable (prods_gen_of gen1 G1) start A).
  { intros A H. induction H as [|A bodies b ch H IH Hin Hb Hch Hnt].
    - constructor.
    - apply (In_lookup _ _ _ Hnd1) in Hin.
      assert (Hne : bodies <> []) by (intros ->; destruct Hb).
      apply reachable_step with A (kept_of gen1 bodies) b; try assumption.
      + apply lookup_In. now apply HPG1.
      + now apply (HK2 A). }
  assert (Hlook : forall A bodies,
             lookup A G1 = Some bodies ->
             exists s2, lookup A G2 = Some s2 /\
                        (forall b, In b s2 <-> In b bodies)).
  { intros A bodies HA. destruct bodies as [|b0 bodies].
    - destruct (Hent _ _ HA) as [_ [_ Heq]]. specialize (Heq eq_refl).
      subst A. exists []. split; [|tauto]. rewrite Hlk1.
      rewrite prods_final_lookup by assumption.
      rewrite prods_gen_lookup by assumption. rewrite HA.
      apply mem_In in Hst1. rewrite Hst1, str_eqb_refl.
      now destruct (mem start gen1).
    - exists (kept_of gen1 (b0 :: bodies)).
      split; [|intros b; now apply (HK2 A)].
      rewrite Hlk1. rewrite prods_final_lookup by assumption.
      rewrite (HPG1 _ _ HA) by discriminate.
      destruct (Hent _ _ HA) as [Hr _]. apply HK3 in Hr.
      apply (reach_closed_complete start _ reach1 HndPG1 Hst1 Hcl1) in Hr.
      apply mem_In in Hr. now rewrite Hr. }
  apply same_mapping_intro.
  - intros A s1 Hin. apply (In_lookup _ _ _ Hnd1) in Hin.
    destruct (Hlook _ _ Hin) as [s2 [Hl2 Hiff]]. exists s2.
    split; [assumption|]. split; intros x Hx; now apply Hiff.
  - intros A HA. apply lookup_Some_key in HA. destruct HA as [s2 Hl2].
    rewrite Hlk1 in Hl2.
    destruct (lookup A (prods_final_of reach1 (prods_gen_of gen1 G1)))
      as [bodies'|] eqn:EF.
    + rewrite prods_final_lookup in EF by assumption.
      rewrite prods_gen_lookup in EF by assumption.
      apply lookup_Some_key. destruct (lookup A G1); [eauto | discriminate].
    + destruct (str_eqb A start) eqn:Ea; [|discriminate].
      apply str_eqb_eq in Ea. now subst.
Qed.

(** X12.  [remove_useless_symbols] twice is [remove_useless_symbols] once: on a
    well-formed grammar and a start symbol that is one upper-case letter
    it returns a grammar, and applied to that grammar it returns the same
    mapping from nonterminals to sets of bodies. *)
Theorem remove_useless_twice (start : str) (G : Productions) :
  wf_grammar G = true -> wf_key start = true ->
  exists G1 G2,
    remove_useless_symbols start G = Ok G1 /\
    remove_useless_symbols start G1 = Ok G2 /\
    same_mapping G1 G2 = true.
Proof. apply remove_useless_again. Qed.

Lemma remove_useless_twice_witness :
  exists G1 G2,
    remove_useless_symbols [83%N] grammar_mixed = Ok G1 /\
    remove_useless_symbols [83%N] G1 = Ok G2 /\
    same_mapping G1 G2 = true.
Proof.
  apply (remove_useless_twice [83%N] grammar_mixed); reflexivity.
Defined.
